(** * codex-config: reversible merge of a repo configuration into a user
    configuration.

    Shallow embedding of [scripts/codex-config.py] and the properties of its
    merge / diff / rollback engine.

    Python dictionaries keep insertion order and have unique keys; they are
    modelled as association lists in insertion order, with uniqueness of keys
    stated separately ([wf_table]).  Python's [==] is modelled by [py_eqb] on
    leaf values and [value_eqb] on arbitrary values: it is *not* syntactic
    equality ([True == 1], [1 == 1.0], [nan != nan], dictionaries compare
    regardless of key order). *)

From Stdlib Require Import List String Ascii ZArith Bool Lia Arith.
From Stdlib Require Import Floats.SpecFloat.
Import ListNotations.
Open Scope string_scope.
Open Scope list_scope.

(* ================================================================== *)
(** ** Document model *)

(** Leaf values of a parsed document: booleans, integers, floats, strings
    and arrays of those.  A Python [float] is an IEEE binary64 number,
    represented by the Standard Library's [spec_float]. *)
#[local] Unset Elimination Schemes.

Inductive Scalar : Type :=
| SBool (b : bool)
| SInt (z : Z)
| SFloat (f : spec_float)
| SStr (s : string)
| SList (items : list Scalar).

(** A value is a leaf or a nested table ([dict]). *)
Inductive Value : Type :=
| Leaf (s : Scalar)
| Table (t : list (string * Value)).

#[local] Set Elimination Schemes.

Definition Dict := list (string * Value).
Definition KeyPath := list string.

(** [isinstance(value, dict)] *)
Definition is_dict (value : Value) : bool :=
  match value with
  | Table _ => true
  | Leaf _ => false
  end.

(** ** Python's [==] on leaf values *)

(** [int == float] compares the mathematical values exactly. *)
Definition int_float_eqb (z : Z) (f : spec_float) : bool :=
  match f with
  | S754_zero _ => (z =? 0)%Z
  | S754_finite s m e =>
      let v := if s then Z.neg m else Z.pos m in
      if (0 <=? e)%Z then (z =? v * 2 ^ e)%Z
      else (z * 2 ^ (- e) =? v)%Z
  | _ => false
  end.

Fixpoint py_eqb (a b : Scalar) : bool :=
  match a, b with
  | SBool x, SBool y => Bool.eqb x y
  | SBool x, SInt y => (Z.b2z x =? y)%Z
  | SInt x, SBool y => (x =? Z.b2z y)%Z
  | SInt x, SInt y => (x =? y)%Z
  | SBool x, SFloat g => int_float_eqb (Z.b2z x) g
  | SInt x, SFloat g => int_float_eqb x g
  | SFloat f, SBool y => int_float_eqb (Z.b2z y) f
  | SFloat f, SInt y => int_float_eqb y f
  | SFloat f, SFloat g => SFeqb f g
  | SStr s, SStr t => String.eqb s t
  | SList l, SList m =>
      (fix all2 (l m : list Scalar) : bool :=
         match l, m with
         | [], [] => true
         | x :: l', y :: m' => py_eqb x y && all2 l' m'
         | _, _ => false
         end) l m
  | _, _ => false
  end.

(** ** Dictionary primitives *)

(** [d.get(key)]; [Some] exactly when [key in d]. *)
Fixpoint lookup (key : string) (d : Dict) : option Value :=
  match d with
  | [] => None
  | (k, v) :: rest => if String.eqb k key then Some v else lookup key rest
  end.

(** [key in d] *)
Definition mem (key : string) (d : Dict) : bool :=
  match lookup key d with
  | Some _ => true
  | None => false
  end.

(** [d[key] = value]: an existing key keeps its position, a new key is
    appended. *)
Fixpoint dict_set (key : string) (value : Value) (d : Dict) : Dict :=
  match d with
  | [] => [(key, value)]
  | (k, v) :: rest =>
      if String.eqb k key then (k, value) :: rest
      else (k, v) :: dict_set key value rest
  end.

(** [del d[key]] *)
Fixpoint dict_del (key : string) (d : Dict) : Dict :=
  match d with
  | [] => []
  | (k, v) :: rest =>
      if String.eqb k key then dict_del key rest
      else (k, v) :: dict_del key rest
  end.

Definition keys (d : Dict) : list string := map fst d.

(** [not d] *)
Definition is_empty (d : Dict) : bool :=
  match d with
  | [] => true
  | _ :: _ => false
  end.

(** Python's [==] on arbitrary values: leaves by [py_eqb], dictionaries by
    size and key-wise comparison, a leaf never equals a dictionary. *)
Fixpoint value_eqb (a b : Value) : bool :=
  match a, b with
  | Leaf x, Leaf y => py_eqb x y
  | Table t, Table u =>
      (List.length t =? List.length u)%nat &&
      (fix all (l : Dict) : bool :=
         match l with
         | [] => true
         | (k, v) :: rest =>
             match lookup k u with
             | Some w => value_eqb v w
             | None => false
             end && all rest
         end) t
  | _, _ => false
  end.

(** Keys are unique at every level: the invariant of a Python [dict]. *)
Fixpoint wf_value (v : Value) : Prop :=
  match v with
  | Leaf _ => True
  | Table t =>
      NoDup (map fst t) /\
      (fix all (l : Dict) : Prop :=
         match l with
         | [] => True
         | (_, w) :: rest => wf_value w /\ all rest
         end) t
  end.

Definition wf_table (d : Dict) : Prop := wf_value (Table d).

(* ================================================================== *)
(** ** Tree merger *)

(** The body of the first loop of [merge_dicts] for a key present on both
    sides: tables are merged recursively, anything else is taken from the
    overlay.  The recursion of [merge_dicts] goes through this function. *)
Fixpoint merge_value (base_val overlay_val : Value) {struct base_val} : Value :=
  match base_val, overlay_val with
  | Table base, Table overlay =>
      Table
        (map (fun kv : string * Value =>
                let (key, bv) := kv in
                (key,
                 match lookup key overlay with
                 | Some ov => merge_value bv ov
                 | None => bv
                 end)) base
         ++ filter (fun kv => negb (mem (fst kv) base)) overlay)
  | _, _ => overlay_val
  end.

(** [merge_dicts(base, overlay)] *)
Definition merge_dicts (base overlay : Dict) : Dict :=
  map (fun kv : string * Value =>
         let (key, base_val) := kv in
         (key,
          match lookup key overlay with
          | Some overlay_val => merge_value base_val overlay_val
          | None => base_val
          end)) base
  ++ filter (fun kv => negb (mem (fst kv) base)) overlay.

(* ================================================================== *)
(** ** Tree differ and change ledger entries *)

(** An entry of the [additions] list: [{"path": ..., "repo": ...}]. *)
Record Addition : Type := mkAddition {
  add_path : KeyPath;
  add_repo : Value
}.

(** An entry of the [overrides] list:
    [{"path": ..., "previous": ..., "repo": ...}]. *)
Record Override : Type := mkOverride {
  ov_path : KeyPath;
  ov_previous : Value;
  ov_repo : Value
}.

(** [collect_additions(path, repo_val, additions)]; the list that the source
    appends to is threaded through and returned. *)
Fixpoint collect_additions (path : KeyPath) (repo_val : Value)
    (additions : list Addition) {struct repo_val} : list Addition :=
  match repo_val with
  | Table r =>
      fold_left
        (fun acc (kv : string * Value) =>
           let (key, value) := kv in
           collect_additions (path ++ [key]) value acc)
        r additions
  | Leaf _ => additions ++ [mkAddition path repo_val]
  end.

(** [existing_val[key]] guarded by [key in existing_val]. *)
Definition item (v : Value) (key : string) : option Value :=
  match v with
  | Table e => lookup key e
  | Leaf _ => None
  end.

(** [collect_changes(path, repo_val, existing_val, exists, additions,
    overrides)]; both accumulators are threaded through. *)
Fixpoint collect_changes (path : KeyPath) (repo_val existing_val : Value)
    (exists_ : bool) (additions : list Addition) (overrides : list Override)
    {struct repo_val} : list Addition * list Override :=
  let existing_is_dict := is_dict existing_val in
  match repo_val with
  | Table r =>
      if exists_ && negb existing_is_dict then
        (additions, overrides ++ [mkOverride path existing_val repo_val])
      else if negb exists_ then
        (collect_additions path repo_val additions, overrides)
      else
        fold_left
          (fun acc (kv : string * Value) =>
             let (key, value) := kv in
             match item existing_val key with
             | Some ev =>
                 collect_changes (path ++ [key]) value ev true (fst acc) (snd acc)
             | None =>
                 (collect_additions (path ++ [key]) value (fst acc), snd acc)
             end)
          r (additions, overrides)
  | Leaf _ =>
      if exists_ && existing_is_dict then
        (additions, overrides ++ [mkOverride path existing_val repo_val])
      else if exists_ then
        if negb (value_eqb existing_val repo_val) then
          (additions, overrides ++ [mkOverride path existing_val repo_val])
        else (additions, overrides)
      else (additions ++ [mkAddition path repo_val], overrides)
  end.

(** The differ as [install] runs it: the loop over the top-level keys of the
    repo tree, starting from empty lists. *)
Definition diff (repo_data existing_data : Dict)
  : list Addition * list Override :=
  fold_left
    (fun acc (kv : string * Value) =>
       let (key, value) := kv in
       match lookup key existing_data with
       | Some ev => collect_changes [key] value ev true (fst acc) (snd acc)
       | None => (collect_additions [key] value (fst acc), snd acc)
       end)
    repo_data ([], []).

(* ================================================================== *)
(** ** Path operations *)

(** [path_get(data, path)]: [None] when a key is missing or the walk meets
    a value that is not a table. *)
Fixpoint path_get (current : Value) (path : KeyPath) : option Value :=
  match path with
  | [] => Some current
  | key :: rest =>
      match item current key with
      | Some v => path_get v rest
      | None => None
      end
  end.

(** [path_set(data, path, value)].  The source mutates [data] in place; the
    model returns the new tree.  A missing or non-table intermediate value is
    replaced by a fresh table.  [None] models the [IndexError] that
    [path[-1]] raises on the empty path. *)
Fixpoint path_set (current : Dict) (path : KeyPath) (value : Value)
  : option Dict :=
  match path with
  | [] => None
  | [last] => Some (dict_set last value current)
  | key :: (_ :: _) as rest =>
      let child :=
        match lookup key current with
        | Some (Table c) => c
        | _ => []
        end in
      match path_set child rest value with
      | Some child' => Some (dict_set key (Table child') current)
      | None => None
      end
  end.

(** The first loop of [path_delete]: walk [path[:-1]], recording every
    table passed together with the key taken; [None] where the source
    returns [False]. *)
Fixpoint descend (current : Dict) (init : KeyPath)
    (parents : list (Dict * string)) : option (list (Dict * string) * Dict) :=
  match init with
  | [] => Some (parents, current)
  | key :: rest =>
      match lookup key current with
      | Some (Table child) => descend child rest (parents ++ [(current, key)])
      | _ => None
      end
  end.

(** The last loop of [path_delete], over [reversed(parents)].  In the source
    every recorded parent aliases the table it contains, so a change below is
    visible above; here the changed [child] is written back into its parent.
    [pruning] is [false] once the loop has hit [break]. *)
Fixpoint unwind (rev_parents : list (Dict * string)) (child : Dict)
    (pruning : bool) : Dict :=
  match rev_parents with
  | [] => child
  | (parent, key) :: up =>
      if pruning && is_empty child then unwind up (dict_del key parent) true
      else unwind up (dict_set key (Table child) parent) false
  end.

(** [path[:-1]] and [path[-1]]; [None] on the empty path. *)
Fixpoint split_last (path : KeyPath) : option (KeyPath * string) :=
  match path with
  | [] => None
  | [last] => Some ([], last)
  | key :: rest =>
      match split_last rest with
      | Some (init, last) => Some (key :: init, last)
      | None => None
      end
  end.

(** [path_delete(data, path)]: the new tree and the returned flag; [None]
    models the [IndexError] on the empty path. *)
Definition path_delete (data : Dict) (path : KeyPath) : option (Dict * bool) :=
  match split_last path with
  | None => None
  | Some (init, last) =>
      match descend data init [] with
      | None => Some (data, false)
      | Some (parents, current) =>
          if mem last current then
            Some (unwind (rev parents) (dict_del last current) true, true)
          else Some (data, false)
      end
  end.

(* ================================================================== *)
(** ** Rollback engine: the two loops of [remove] *)

(** One iteration of the loop over [overrides]. *)
Definition rollback_override (st : Dict * nat) (entry : Override)
  : option (Dict * nat) :=
  let (data, skipped) := st in
  match path_get (Table data) (ov_path entry) with
  | None => Some (data, skipped)
  | Some current =>
      if value_eqb current (ov_repo entry) then
        match path_set data (ov_path entry) (ov_previous entry) with
        | Some data' => Some (data', skipped)
        | None => None
        end
      else Some (data, S skipped)
  end.

(** One iteration of the loop over [additions]. *)
Definition rollback_addition (st : Dict * nat) (entry : Addition)
  : option (Dict * nat) :=
  let (data, skipped) := st in
  match path_get (Table data) (add_path entry) with
  | None => Some (data, skipped)
  | Some current =>
      if value_eqb current (add_repo entry) then
        match path_delete data (add_path entry) with
        | Some (data', _) => Some (data', skipped)
        | None => None
        end
      else Some (data, S skipped)
  end.

(** A loop whose body may raise. *)
Fixpoint for_each {S E : Type} (body : S -> E -> option S) (entries : list E)
    (st : S) : option S :=
  match entries with
  | [] => Some st
  | e :: rest =>
      match body st e with
      | Some st' => for_each body rest st'
      | None => None
      end
  end.

(** Both loops in order: all overrides, then all additions, on the same
    tree and counter. *)
Definition rollback (overrides : list Override) (additions : list Addition)
    (data : Dict) : option (Dict * nat) :=
  match for_each rollback_override overrides (data, 0) with
  | Some st => for_each rollback_addition additions st
  | None => None
  end.

(* ================================================================== *)
(** ** Python string helpers

    A text is a [string] whose characters stand for code points below 256. *)

Definition code (c : ascii) : nat := nat_of_ascii c.

Definition in_codes (c : ascii) (l : list nat) : bool :=
  existsb (Nat.eqb (code c)) l.

(** Characters for which [str.isspace] holds. *)
Definition is_space (c : ascii) : bool :=
  in_codes c [9; 10; 11; 12; 13; 28; 29; 30; 31; 32; 133; 160].

(** Line boundaries of [str.splitlines], apart from carriage return. *)
Definition is_linebreak (c : ascii) : bool :=
  in_codes c [10; 11; 12; 28; 29; 30; 133].

Definition is_cr (c : ascii) : bool := Nat.eqb (code c) 13.
Definition is_lf (c : ascii) : bool := Nat.eqb (code c) 10.

Definition nl : string := String (ascii_of_nat 10) EmptyString.

Definition str_is_empty (s : string) : bool :=
  match s with
  | EmptyString => true
  | String _ _ => false
  end.

(** [text.splitlines()], with the line read so far as accumulator. *)
Fixpoint splitlines_acc (text line : string) : list string :=
  match text with
  | EmptyString => if str_is_empty line then [] else [line]
  | String c rest =>
      if is_cr c then
        match rest with
        | String c2 rest2 =>
            if is_lf c2 then line :: splitlines_acc rest2 EmptyString
            else line :: splitlines_acc rest EmptyString
        | EmptyString => [line]
        end
      else if is_linebreak c then line :: splitlines_acc rest EmptyString
      else splitlines_acc rest (line ++ String c EmptyString)
  end.

Definition splitlines (text : string) : list string :=
  splitlines_acc text EmptyString.

Fixpoint lstrip (s : string) : string :=
  match s with
  | EmptyString => EmptyString
  | String c rest => if is_space c then lstrip rest else s
  end.

Fixpoint rstrip (s : string) : string :=
  match s with
  | EmptyString => EmptyString
  | String c rest =>
      let rest' := rstrip rest in
      if is_space c && str_is_empty rest' then EmptyString
      else String c rest'
  end.

(** [s.strip()] *)
Definition strip (s : string) : string := rstrip (lstrip s).

(** [s.startswith("#")] *)
Definition starts_with_hash (s : string) : bool :=
  match s with
  | String c _ => Nat.eqb (code c) 35
  | EmptyString => false
  end.

(** [sep.join(parts)] *)
Fixpoint join (sep : string) (parts : list string) : string :=
  match parts with
  | [] => EmptyString
  | [p] => p
  | p :: rest => p ++ sep ++ join sep rest
  end.

(* ================================================================== *)
(** ** Header extraction *)

(** The loop of [extract_header]: blank lines are passed over, comment
    lines are collected, anything else ends the loop. *)
Fixpoint extract_header_loop (todo lines : list string) : list string :=
  match todo with
  | [] => lines
  | line :: rest =>
      let stripped := strip line in
      if String.eqb stripped EmptyString then extract_header_loop rest lines
      else if starts_with_hash stripped then
        extract_header_loop rest (lines ++ [line])
      else lines
  end.

(** [extract_header(text)] *)
Definition extract_header (text : string) : list string :=
  extract_header_loop (splitlines text) [].

(* ================================================================== *)
(** ** Change ledger (the state file) *)

(** The ["config"] object of the state file.  [json.dumps] and [json.loads]
    are taken to carry it over unchanged; [sort_keys] only reorders the keys
    of recorded tables, which Python's [==] does not look at. *)
Record Ledger : Type := mkLedger {
  config_path : string;
  had_config : bool;
  existing_header : list string;
  additions : list Addition;
  overrides : list Override
}.

(** The files an invocation works on; [None] is a missing file. *)
Record Files : Type := mkFiles {
  repo_file : option string;
  target_file : option string;
  state_file : option Ledger
}.

(** Diagnostics printed by [remove]. *)
Inductive Message : Type :=
| StateFileNotFound
| ConfigFileMissing
| Preserved (skipped : nat).

(** The header [install] writes: the repo header unless it is empty. *)
Definition install_header (repo_header existing_header : list string)
  : list string :=
  match repo_header with
  | [] => existing_header
  | _ :: _ => repo_header
  end.

(** [apply_opencode_permissions], given the [permission.skill] mapping read
    from the side-channel file ([[]] when there is nothing to import). *)
Definition apply_opencode_permissions (repo_data perms : Dict) : Dict :=
  match perms with
  | [] => repo_data
  | _ :: _ =>
      let permission :=
        match lookup "permission" repo_data with
        | Some (Table p) => p
        | _ => []
        end in
      let skill :=
        match lookup "skill" permission with
        | Some (Table sk) => sk
        | _ => []
        end in
      let skill' :=
        fold_left (fun sk (kv : string * Value) => dict_set (fst kv) (snd kv) sk)
                  perms skill in
      dict_set "permission" (Table (dict_set "skill" (Table skill') permission))
               repo_data
  end.

Section Program.

(** [tomllib.loads]; [None] stands for [TOMLDecodeError]. *)
Variable loads : string -> option Dict.

(** [format_key] and [format_value] rest on [str.isalnum], [str] and
    [repr]; nothing below depends on what they return.  [format_value]
    raises [ValueError] on a value that is not of the kinds of [Scalar];
    such documents are not part of the model. *)
Variable format_key : string -> string.
Variable format_value : Scalar -> string.

(** [load_toml], given the text read from the file. *)
Definition load_toml (text : string) : option Dict :=
  if str_is_empty (strip text) then Some [] else loads text.

(** The separating blank line before a sub-table. *)
Definition separate (lines : list string) : list string :=
  match rev lines with
  | [] => lines
  | last :: _ => if String.eqb last EmptyString then lines else lines ++ [""]
  end.

(** [emit_table] inside [dump_toml]; the [lines] it appends to are
    threaded through. *)
Fixpoint emit_table (path : KeyPath) (table : Value) (lines : list string)
    {struct table} : list string :=
  match table with
  | Leaf _ => lines
  | Table t =>
      let lines1 :=
        match path with
        | [] => lines
        | _ :: _ => lines ++ [("[" ++ join "." (map format_key path) ++ "]")%string]
        end in
      let lines2 :=
        fold_left
          (fun acc (kv : string * Value) =>
             match snd kv with
             | Table _ => acc
             | Leaf s => acc ++ [(format_key (fst kv) ++ " = " ++ format_value s)%string]
             end)
          t lines1 in
      fold_left
        (fun acc (kv : string * Value) =>
           match snd kv with
           | Table _ => emit_table (path ++ [fst kv]) (snd kv) (separate acc)
           | Leaf _ => acc
           end)
        t lines2
  end.

(** The list [lines] of [dump_toml] before it is joined. *)
Definition dump_lines (data : Dict) (header : list string) : list string :=
  emit_table [] (Table data)
    match header with
    | [] => []
    | _ :: _ => header ++ [""]
    end.

(** [dump_toml(data, header)] *)
Definition dump_toml (data : Dict) (header : list string) : string :=
  (rstrip (join nl (dump_lines data header)) ++ nl)%string.

(** [install]: [None] when an exception escapes, otherwise the files
    afterwards and the returned status. *)
Definition install (perms : Dict) (target_name : string) (fs : Files)
  : option (Files * Z) :=
  match repo_file fs with
  | None => None
  | Some repo_text =>
      match load_toml repo_text with
      | None => None
      | Some repo_loaded =>
          let repo_data := apply_opencode_permissions repo_loaded perms in
          let existing :=
            match target_file fs with
            | None => Some ([], [])
            | Some existing_text =>
                match load_toml existing_text with
                | Some existing_data =>
                    Some (existing_data, extract_header existing_text)
                | None => None
                end
            end in
          match existing with
          | None => None
          | Some (existing_data, existing_hdr) =>
              let had := match target_file fs with Some _ => true | None => false end in
              let changes := diff repo_data existing_data in
              let merged := merge_dicts existing_data repo_data in
              let header := install_header (extract_header repo_text) existing_hdr in
              Some
                (mkFiles (repo_file fs)
                   (Some (dump_toml merged header))
                   (Some (mkLedger target_name had existing_hdr
                            (fst changes) (snd changes))),
                 0%Z)
          end
      end
  end.

(** What [remove] leaves in place of the target after the rollback:
    [None] when the file is unlinked. *)
Definition target_after (data : Dict) (ledger : Ledger) : option string :=
  if negb (is_empty data) then Some (dump_toml data (existing_header ledger))
  else if negb (had_config ledger) then None
  else Some (dump_toml data (existing_header ledger)).

(** [remove]: [None] when an exception escapes, otherwise the files
    afterwards, the returned status and the lines printed. *)
Definition remove (fs : Files) : option (Files * Z * list Message) :=
  match state_file fs with
  | None => Some (fs, 0%Z, [StateFileNotFound])
  | Some ledger =>
      match target_file fs with
      | None =>
          Some (mkFiles (repo_file fs) None None, 0%Z, [ConfigFileMissing])
      | Some text =>
          match load_toml text with
          | None => None
          | Some data =>
              match rollback (overrides ledger) (additions ledger) data with
              | None => None
              | Some (data', skipped) =>
                  Some
                    (mkFiles (repo_file fs) (target_after data' ledger) None,
                     0%Z,
                     match skipped with
                     | O => []
                     | S _ => [Preserved skipped]
                     end)
              end
          end
      end
  end.

End Program.

(* ================================================================== *)
(** ** Auxiliary notions used to state and prove the properties *)

(** Entries re-rooted under a path. *)
Definition add_prefix (p : KeyPath) (a : Addition) : Addition :=
  mkAddition (p ++ add_path a) (add_repo a).

Definition ov_prefix (p : KeyPath) (o : Override) : Override :=
  mkOverride (p ++ ov_path o) (ov_previous o) (ov_repo o).

(** The entries of a subtree with paths relative to its root. *)
Definition rel_additions (repo_val : Value) : list Addition :=
  collect_additions [] repo_val [].

Definition rel_changes (repo_val existing_val : Value)
  : list Addition * list Override :=
  collect_changes [] repo_val existing_val true [] [].

(** The entries one repo key contributes, relative to that key. *)
Definition key_changes (existing : Dict) (kv : string * Value)
  : list Addition * list Override :=
  match lookup (fst kv) existing with
  | Some ev => rel_changes (snd kv) ev
  | None => (rel_additions (snd kv), [])
  end.

(** Decidable equality of key paths. *)
Definition path_eqb (p q : KeyPath) : bool :=
  if list_eq_dec string_dec p q then true else false.

(** [q] addresses the location [p] or a location below it. *)
Definition extends (p q : KeyPath) : Prop := exists s, q = p ++ s.

(** [q] addresses a location strictly below [p]. *)
Definition strictly_below (p q : KeyPath) : Prop := exists k s, q = p ++ k :: s.

(** The entries whose path starts with [key], re-rooted below that key. *)
Definition add_under (key : string) (entries : list Addition) : list Addition :=
  flat_map
    (fun a =>
       match add_path a with
       | k :: q => if String.eqb k key then [mkAddition q (add_repo a)] else []
       | [] => []
       end) entries.

Definition ov_under (key : string) (entries : list Override) : list Override :=
  flat_map
    (fun o =>
       match ov_path o with
       | k :: q =>
           if String.eqb k key then [mkOverride q (ov_previous o) (ov_repo o)]
           else []
       | [] => []
       end) entries.

(** Deletion with pruning as the specification words it: remove the key at
    the end of the path; going back up, a table left empty is removed from
    its parent, and a table that is not empty is kept (with the change below
    it), after which nothing further up is removed.  [None] when the path
    does not lead to a key, in which case nothing changes. *)
Fixpoint delete_prune (current : Dict) (path : KeyPath) : option Dict :=
  match path with
  | [] => None
  | [last] => if mem last current then Some (dict_del last current) else None
  | key :: (_ :: _) as rest =>
      match lookup key current with
      | Some (Table child) =>
          match delete_prune child rest with
          | Some child' =>
              Some (if is_empty child' then dict_del key current
                    else dict_set key (Table child') current)
          | None => None
          end
      | _ => None
      end
  end.

(** The header as the specification words it: the run of blank or comment
    lines at the top of a text. *)
Definition is_blank (line : string) : bool := str_is_empty (strip line).

Definition is_comment (line : string) : bool := starts_with_hash (strip line).

Fixpoint leading_run (lines : list string) : list string :=
  match lines with
  | [] => []
  | line :: rest =>
      if is_blank line || is_comment line then line :: leading_run rest else []
  end.

(** The leaf values of a tree. *)
Fixpoint leaves (v : Value) : list Scalar :=
  match v with
  | Leaf s => [s]
  | Table t => flat_map (fun kv : string * Value => leaves (snd kv)) t
  end.

(** No table inside [v], [v] included, is empty. *)
Fixpoint no_empty_table (v : Value) : bool :=
  match v with
  | Leaf _ => true
  | Table t =>
      negb (is_empty t)
      && forallb (fun kv : string * Value => no_empty_table (snd kv)) t
  end.

(** Python's [==] holds between every leaf of [v] and itself (no NaN). *)
Definition reflexive_leaves (v : Value) : Prop :=
  forall s, In s (leaves v) -> py_eqb s s = true.

(** Where [ev] and [rv] both hold a leaf at the same path, Python's [==]
    between the two holds only if they are the same value (no [True == 1],
    [1 == 1.0], [0.0 == -0.0] at one path).  These are the only leaves the
    code compares. *)
Definition exact_at_paths (ev rv : Value) : Prop :=
  forall p x s,
    path_get ev p = Some (Leaf x) -> path_get rv p = Some (Leaf s) ->
    py_eqb x s = true -> x = s.

(** [p] lies in a part that a repo tree adds to [ev]: walking [p], [ev] has
    tables down to one that lacks the next key. *)
Definition added_path (ev : Value) (p : KeyPath) : Prop :=
  exists q k s t,
    p = q ++ k :: s /\ path_get ev q = Some (Table t) /\ lookup k t = None.

(** No empty table of [rv] lies in a part that [rv] adds to [ev]. *)
Definition no_empty_table_added (ev rv : Value) : Prop :=
  forall p, added_path ev p -> path_get rv p <> Some (Table []).

(** No empty table of [ev] below its root is filled by [rv]: where [ev]
    has an empty table and [rv] a table, that one is empty too. *)
Definition no_empty_table_filled (ev rv : Value) : Prop :=
  forall p r,
    p <> [] ->
    path_get ev p = Some (Table []) -> path_get rv p = Some (Table r) -> r = [].

(** The same conditions along the walk of the differ over a repo value and
    the existing value at the same path: two leaves that compare equal are
    the same, a repo subtree under a key the existing table lacks has no
    empty table, and (for [undo]) an empty existing table meets an empty
    repo table only.  Nothing is asked where a table meets a leaf. *)
Fixpoint lockstep (undo : bool) (rv ev : Value) {struct rv} : Prop :=
  match rv with
  | Leaf s =>
      match ev with
      | Leaf x => py_eqb x s = true -> x = s
      | Table _ => True
      end
  | Table r =>
      match ev with
      | Leaf _ => True
      | Table e =>
          (undo = true -> is_empty e = true -> is_empty r = true)
          /\ (fix all (l : Dict) : Prop :=
                match l with
                | [] => True
                | (k, v) :: rest =>
                    match lookup k e with
                    | Some ev' => lockstep undo v ev'
                    | None => no_empty_table v = true
                    end /\ all rest
                end) r
      end
  end.

(** The condition of [lockstep] on one key of a repo table. *)
Definition lockstep_key (undo : bool) (e : Dict) (k : string) (v : Value) : Prop :=
  match lookup k e with
  | Some ev => lockstep undo v ev
  | None => no_empty_table v = true
  end.

(** The three conditions for a repo value over an existing value; the
    third one includes the values themselves. *)
Definition path_conditions (undo : bool) (rv ev : Value) : Prop :=
  exact_at_paths ev rv
  /\ no_empty_table_added ev rv
  /\ (undo = true ->
      forall p r, path_get ev p = Some (Table []) -> path_get rv p = Some (Table r) ->
                  r = []).

(** Writing a slot of a table: [Some] sets the key, [None] deletes it. *)
Definition put (key : string) (slot : option Value) (d : Dict) : Dict :=
  match slot with
  | Some v => dict_set key v d
  | None => dict_del key d
  end.

Definition put_all (r : Dict) (slots : string -> option Value) (d : Dict) : Dict :=
  fold_left (fun acc (kv : string * Value) => put (fst kv) (slots (fst kv)) acc) r d.

(** Rewriting every entry of a table in place, dropping those sent to
    [None]. *)
Definition dict_omap (h : string -> Value -> option Value) (d : Dict) : Dict :=
  flat_map
    (fun kv : string * Value =>
       match h (fst kv) (snd kv) with
       | Some v => [(fst kv, v)]
       | None => []
       end) d.

(** [path_set] and [path_delete] seen from the value a path starts in; the
    empty path addresses that value itself. *)
Definition value_set (v : Value) (path : KeyPath) (x : Value) : Value :=
  match path with
  | [] => x
  | _ :: _ =>
      match v with
      | Table t =>
          match path_set t path x with
          | Some t' => Table t'
          | None => v
          end
      | Leaf _ => v
      end
  end.

Definition value_delete (v : Value) (path : KeyPath) : option Value :=
  match path with
  | [] => None
  | _ :: _ =>
      match v with
      | Table t =>
          match delete_prune t path with
          | Some t' => if is_empty t' then None else Some (Table t')
          | None => Some v
          end
      | Leaf _ => Some v
      end
  end.

(** The rollback steps on the slot of one key: [None] is a key that is
    not, or no longer, in its table; paths are relative to the slot. *)
Definition override_slot (st : option Value * nat) (o : Override)
  : option Value * nat :=
  match fst st with
  | None => st
  | Some v =>
      match path_get v (ov_path o) with
      | None => st
      | Some cur =>
          if value_eqb cur (ov_repo o) then
            (Some (value_set v (ov_path o) (ov_previous o)), snd st)
          else (fst st, S (snd st))
      end
  end.

Definition addition_slot (st : option Value * nat) (a : Addition)
  : option Value * nat :=
  match fst st with
  | None => st
  | Some v =>
      match path_get v (add_path a) with
      | None => st
      | Some cur =>
          if value_eqb cur (add_repo a) then (value_delete v (add_path a), snd st)
          else (fst st, S (snd st))
      end
  end.

(** What a key of the repo table has to satisfy for the table-level
    argument: the rollback of its own changes restores its own slot. *)
Definition restores (rv : Value) : Prop :=
  forall ev,
    wf_value rv -> wf_value ev ->
    reflexive_leaves rv -> lockstep true rv ev ->
    forall n, exists mid,
      fold_left override_slot (snd (rel_changes rv ev)) (Some (merge_value ev rv), n)
        = (Some mid, n)
      /\ fold_left addition_slot (fst (rel_changes rv ev)) (Some mid, n)
        = (Some ev, n).

(** What [restores] asks of a repo value, the other way round. *)
Definition restores_only_if (rv : Value) : Prop :=
  forall ev n mid,
    wf_value rv -> wf_value ev ->
    fold_left override_slot (snd (rel_changes rv ev)) (Some (merge_value ev rv), n)
      = (Some mid, n) ->
    fold_left addition_slot (fst (rel_changes rv ev)) (Some mid, n) = (Some ev, n) ->
    reflexive_leaves rv /\ lockstep true rv ev.

(** Applying recorded changes onto a tree: the repo value is set at the
    path of every Addition, then at the path of every Override. *)
Definition assign (d : Dict) (pv : KeyPath * Value) : option Dict :=
  path_set d (fst pv) (snd pv).

Definition addition_assignment (a : Addition) : KeyPath * Value :=
  (add_path a, add_repo a).

Definition override_assignment (o : Override) : KeyPath * Value :=
  (ov_path o, ov_repo o).

Definition apply_changes (changes : list Addition * list Override) (d : Dict)
  : option Dict :=
  for_each assign
    (map addition_assignment (fst changes) ++ map override_assignment (snd changes)) d.

(** [path_set] seen from the slot of the first key of the path. *)
Definition set_slot (slot : option Value) (path : KeyPath) (x : Value) : Value :=
  match path with
  | [] => x
  | _ :: _ =>
      match path_set match slot with Some (Table c) => c | _ => [] end path x with
      | Some c' => Table c'
      | None => x
      end
  end.

Definition assign_slot (slot : option Value) (pv : KeyPath * Value) : option Value :=
  Some (set_slot slot (fst pv) (snd pv)).

Definition under_key (k : string) (pv : KeyPath * Value) : KeyPath * Value :=
  (k :: fst pv, snd pv).

(** Writing a slot that is never deleted: [None] leaves the table alone. *)
Definition put_some (key : string) (slot : option Value) (d : Dict) : Dict :=
  match slot with
  | Some v => dict_set key v d
  | None => d
  end.

Definition set_all (r : Dict) (slots : string -> option Value) (d : Dict) : Dict :=
  fold_left (fun acc (kv : string * Value) => put_some (fst kv) (slots (fst kv)) acc) r d.

Definition is_some (slot : option Value) : bool :=
  match slot with
  | Some _ => true
  | None => false
  end.

(** What a key of the repo table has to satisfy for the table-level
    argument on applying changes: its own changes, applied to its existing
    value, give its merged value. *)
Definition reproduces (rv : Value) : Prop :=
  forall ev,
    wf_value rv -> wf_value ev ->
    lockstep false rv ev ->
    fold_left assign_slot (map override_assignment (snd (rel_changes rv ev)))
      (fold_left assign_slot (map addition_assignment (fst (rel_changes rv ev)))
         (Some ev))
    = Some (merge_value ev rv).

(** What [reproduces] asks of a repo value, the other way round. *)
Definition reproduces_only_if (rv : Value) : Prop :=
  forall ev,
    wf_value rv -> wf_value ev ->
    fold_left assign_slot (map override_assignment (snd (rel_changes rv ev)))
      (fold_left assign_slot (map addition_assignment (fst (rel_changes rv ev)))
         (Some ev))
    = Some (merge_value ev rv) ->
    lockstep false rv ev.
(* ================================================================== *)
(** ** Rendering of keys and values *)

(** Characters for which [str.isalnum] holds, among the code points below
    256. *)
Definition is_alnum_char (c : ascii) : bool :=
  let n := code c in
  existsb (fun r : nat * nat => Nat.leb (fst r) n && Nat.leb n (snd r))
    [(48, 57); (65, 90); (97, 122); (170, 170); (178, 179); (181, 181);
     (185, 186); (188, 190); (192, 214); (216, 246); (248, 255)].

Fixpoint all_chars (f : ascii -> bool) (s : string) : bool :=
  match s with
  | EmptyString => true
  | String c rest => f c && all_chars f rest
  end.

(** [s.isalnum()]: at least one character, and all of them alphanumeric. *)
Definition isalnum (s : string) : bool :=
  negb (str_is_empty s) && all_chars is_alnum_char s.

(** [s.replace(old, new)] for a non-empty [old], as every call of the
    source has it: occurrences are replaced from the left, without overlap.
    [skip] counts the characters of a replaced occurrence still to be
    passed over. *)
Fixpoint replace_from (old new : string) (skip : nat) (s : string) : string :=
  match s with
  | EmptyString => EmptyString
  | String c rest =>
      match skip with
      | S n => replace_from old new n rest
      | O =>
          if String.prefix old s then
            (new ++ replace_from old new (String.length old - 1) rest)%string
          else String c (replace_from old new 0 rest)
      end
  end.

Definition replace (old new s : string) : string := replace_from old new 0 s.

Definition backslash : string := String (ascii_of_nat 92) EmptyString.
Definition quote : string := String (ascii_of_nat 34) EmptyString.

(** [format_key(key)] *)
Definition format_key (key : string) : string :=
  if isalnum (replace "-" "" (replace "_" "" key)) then key
  else
    let escaped :=
      replace quote (backslash ++ quote) (replace backslash (backslash ++ backslash) key) in
    (quote ++ escaped ++ quote)%string.

(** ["\n" in value] *)
Fixpoint has_newline (value : string) : bool :=
  match value with
  | EmptyString => false
  | String c rest => is_lf c || has_newline rest
  end.

(** [format_string(value)] *)
Definition format_string (value : string) : string :=
  if has_newline value then
    let escaped :=
      replace quote (backslash ++ quote)
        (replace (quote ++ quote ++ quote) (backslash ++ quote ++ quote ++ quote)
           (replace backslash (backslash ++ backslash) value)) in
    (quote ++ quote ++ quote ++ escaped ++ quote ++ quote ++ quote)%string
  else
    let escaped :=
      replace quote (backslash ++ quote) (replace backslash (backslash ++ backslash) value) in
    (quote ++ escaped ++ quote)%string.

Section Rendering.

(** [str] on integers and [repr] on floats. *)
Variable int_str : Z -> string.
Variable float_repr : spec_float -> string.

(** [format_value(value)] on the leaf values of the model.  On a value of
    any other kind (a date or time, a table inside an array) the source
    raises [ValueError]; such values are not part of the model. *)
Fixpoint format_value (value : Scalar) : string :=
  match value with
  | SBool b => if b then "true" else "false"
  | SInt z => int_str z
  | SFloat f => float_repr f
  | SStr s => format_string s
  | SList items => ("[" ++ join ", " (map format_value items) ++ "]")%string
  end.

End Rendering.

(** The first character of a line is neither white space nor [#]. *)
Definition starts_plain (line : string) : bool :=
  match line with
  | EmptyString => false
  | String c _ => negb (is_space c) && negb (Nat.eqb (code c) 35)
  end.

(** No line boundary of [str.splitlines] inside. *)
Definition no_break (line : string) : bool :=
  all_chars (fun c => negb (is_cr c || is_linebreak c)) line.

(** A line as [extract_header] returns it: a comment without a line
    boundary inside. *)
Definition header_line (line : string) : bool :=
  is_comment line && no_break line.

(** Character-wise rewriting of a string. *)
Fixpoint expand (f : ascii -> string) (s : string) : string :=
  match s with
  | EmptyString => EmptyString
  | String c rest => (f c ++ expand f rest)%string
  end.

(** What the two replacements of [format_key] do to one character. *)
Definition escape_char (c : ascii) : string :=
  if Ascii.eqb c (ascii_of_nat 92) then (backslash ++ backslash)%string
  else if Ascii.eqb c (ascii_of_nat 34) then (backslash ++ quote)%string
  else String c EmptyString.

(** The block [dump_toml] puts in front of the tables: the header lines
    followed by one blank line, or nothing. *)
Definition header_block (header : list string) : list string :=
  match header with
  | [] => []
  | _ :: _ => header ++ [""]
  end.

(** Lines laid out one per line in front of a text. *)
Definition lines_text (lines : list string) (rest : string) : string :=
  fold_right (fun l acc => (l ++ nl ++ acc)%string) rest lines.

(** How a header shows in a written document.  In front of a tree that has
    an entry: line by line as given, and it is what [extract_header] reads
    from the document.  In front of the empty tree: as the whole document,
    with the white space at the end of its last line removed. *)
Definition header_emitted (header : list string) (data : Dict) (doc : string) : Prop :=
  match data with
  | _ :: _ =>
      (exists rest, doc = lines_text header rest) /\ extract_header doc = header
  | [] => doc = lines_text (removelast header) (rstrip (last header "") ++ nl)
  end.

(** What [emit_table] has appended so far starts, if with anything, with a
    plain line. *)
Definition good_tail (tail : list string) : Prop :=
  match tail with
  | [] => True
  | line :: _ => starts_plain line = true
  end.

Definition tail_state (pre : list string) (nonempty : bool) (acc : list string) : Prop :=
  exists tail, acc = pre ++ tail /\ good_tail tail /\ (nonempty = true -> tail <> []).

Definition has_keys (path : KeyPath) : bool :=
  match path with
  | [] => false
  | _ :: _ => true
  end.

(* ================================================================== *)
(** ** Trees up to key order

    A parser hands back the keys of a table in the order of the text, and
    the state file is written with sorted keys: what is read is the tree
    that was written, up to the order of the keys. *)

(** The same tree up to the order of the keys of its tables. *)
#[local] Unset Elimination Schemes.

Inductive same : Value -> Value -> Prop :=
| same_leaf (s : Scalar) : same (Leaf s) (Leaf s)
| same_table (t u : Dict) :
    (forall k, lookup k t = None -> lookup k u = None) ->
    (forall k v, lookup k t = Some v -> exists w, lookup k u = Some w /\ same v w) ->
    same (Table t) (Table u).

#[local] Set Elimination Schemes.

Definition same_opt (a b : option Value) : Prop :=
  match a, b with
  | Some x, Some y => same x y
  | None, None => True
  | _, _ => False
  end.

(** Ledger entries with the same paths and the same values up to key
    order. *)
Definition same_addition (a a' : Addition) : Prop :=
  add_path a = add_path a' /\ same (add_repo a) (add_repo a').

Definition same_override (o o' : Override) : Prop :=
  ov_path o = ov_path o'
  /\ same (ov_previous o) (ov_previous o')
  /\ same (ov_repo o) (ov_repo o').

Definition same_ledger (l l' : Ledger) : Prop :=
  had_config l = had_config l'
  /\ existing_header l = existing_header l'
  /\ Forall2 same_addition (additions l) (additions l')
  /\ Forall2 same_override (overrides l) (overrides l').

(** The values a ledger records are dictionaries with unique keys. *)
Definition wf_addition (a : Addition) : Prop := wf_value (add_repo a).

Definition wf_override (o : Override) : Prop :=
  wf_value (ov_previous o) /\ wf_value (ov_repo o).

Definition wf_ledger (l : Ledger) : Prop :=
  Forall wf_addition (additions l) /\ Forall wf_override (overrides l).

(** How a ledger entry relates to one recorded location: it is the entry of
    that location, or its path lies apart from it. *)
Definition apart (p q : KeyPath) : Prop := ~ extends p q /\ ~ extends q p.

Definition override_for (p : KeyPath) (prev repo : Value) (o : Override) : Prop :=
  ov_path o <> []
  /\ ((ov_path o = p /\ ov_previous o = prev /\ ov_repo o = repo) \/ apart (ov_path o) p).

Definition addition_for (p : KeyPath) (repo : Value) (a : Addition) : Prop :=
  add_path a <> []
  /\ ((add_path a = p /\ add_repo a = repo) \/ apart (add_path a) p).
(* ================================================================== *)
(** * Properties *)

(** ** Induction on values *)

Lemma Value_ind' (P : Value -> Prop)
  (HLeaf : forall s, P (Leaf s))
  (HTable : forall t, Forall (fun kv => P (snd kv)) t -> P (Table t)) :
  forall v, P v.
Proof.
  fix IH 1. intros [s | t].
  - apply HLeaf.
  - apply HTable. induction t as [| [k v] t IHt]; constructor.
    + apply IH.
    + exact IHt.
Qed.

Lemma wf_table_unfold (t : Dict) :
  wf_table t <-> NoDup (keys t) /\ Forall (fun kv => wf_value (snd kv)) t.
Proof.
  unfold wf_table, keys. simpl. split; intros [Hnd Hall]; split; auto.
  - induction t as [| [k v] t IHt]; constructor.
    + apply Hall.
    + apply IHt. { now inversion Hnd. } apply Hall.
  - clear Hnd. induction Hall as [| [k v] t Hv Hall IH]; simpl; auto.
Qed.

Lemma wf_table_cons (k : string) (v : Value) (t : Dict) :
  wf_table ((k, v) :: t) <-> ~ In k (keys t) /\ wf_value v /\ wf_table t.
Proof.
  rewrite !wf_table_unfold. simpl. split.
  - intros [Hnd Hall]. inversion Hnd; inversion Hall; subst. auto.
  - intros (Hk & Hv & Hnd & Hall). split; constructor; auto.
Qed.

(** ** Dictionary primitives *)

Lemma lookup_None (key : string) (d : Dict) :
  lookup key d = None <-> ~ In key (keys d).
Proof.
  induction d as [| [k v] d IH]; simpl.
  - tauto.
  - destruct (String.eqb_spec k key); split; try discriminate; intuition congruence.
Qed.

Lemma lookup_Some_In (key : string) (v : Value) (d : Dict) :
  lookup key d = Some v -> In (key, v) d.
Proof.
  induction d as [| [k w] d IH]; simpl; try discriminate.
  destruct (String.eqb_spec k key); intros H.
  - inversion H; subst. now left.
  - right. auto.
Qed.

Lemma In_lookup (key : string) (v : Value) (d : Dict) :
  NoDup (keys d) -> In (key, v) d -> lookup key d = Some v.
Proof.
  induction d as [| [k w] d IH]; simpl; intros Hnd Hin; [contradiction |].
  inversion Hnd as [| ? ? Hk Hnd']; subst.
  destruct Hin as [Heq | Hin].
  - inversion Heq; subst. now rewrite String.eqb_refl.
  - destruct (String.eqb_spec k key) as [-> | _]; auto.
    exfalso. apply Hk. unfold keys. change key with (fst (key, v)). now apply in_map.
Qed.

Lemma mem_true (key : string) (d : Dict) : mem key d = true <-> In key (keys d).
Proof.
  unfold mem. destruct (lookup key d) eqn:E.
  - split; auto. intros _. apply lookup_Some_In in E.
    unfold keys. change key with (fst (key, v)). now apply in_map.
  - apply lookup_None in E. split; [discriminate | contradiction].
Qed.

Lemma mem_false (key : string) (d : Dict) : mem key d = false <-> lookup key d = None.
Proof. unfold mem. destruct (lookup key d); split; congruence. Qed.

Lemma lookup_app (key : string) (d1 d2 : Dict) :
  lookup key (d1 ++ d2) =
  match lookup key d1 with Some v => Some v | None => lookup key d2 end.
Proof.
  induction d1 as [| [k v] d1 IH]; simpl; auto.
  destruct (String.eqb k key); auto.
Qed.

Lemma lookup_dict_set_same (key : string) (v : Value) (d : Dict) :
  lookup key (dict_set key v d) = Some v.
Proof.
  induction d as [| [k w] d IH]; simpl.
  - now rewrite String.eqb_refl.
  - destruct (String.eqb_spec k key) as [-> | Hne]; simpl.
    + now rewrite String.eqb_refl.
    + apply String.eqb_neq in Hne. now rewrite Hne.
Qed.

Lemma lookup_dict_set_other (key k : string) (v : Value) (d : Dict) :
  k <> key -> lookup k (dict_set key v d) = lookup k d.
Proof.
  intros Hne. induction d as [| [k' w] d IH]; simpl.
  - apply not_eq_sym in Hne. apply String.eqb_neq in Hne. now rewrite Hne.
  - destruct (String.eqb_spec k' key) as [-> | Hne']; simpl.
    + apply not_eq_sym in Hne. apply String.eqb_neq in Hne. now rewrite Hne.
    + now rewrite IH.
Qed.

Lemma lookup_dict_del_same (key : string) (d : Dict) :
  lookup key (dict_del key d) = None.
Proof.
  induction d as [| [k w] d IH]; simpl; auto.
  destruct (String.eqb k key) eqn:E; simpl; auto. now rewrite E.
Qed.

Lemma lookup_dict_del_other (key k : string) (d : Dict) :
  k <> key -> lookup k (dict_del key d) = lookup k d.
Proof.
  intros Hne. induction d as [| [k' w] d IH]; simpl; auto.
  destruct (String.eqb_spec k' key) as [-> | Hne']; simpl.
  - apply not_eq_sym in Hne. apply String.eqb_neq in Hne. now rewrite Hne.
  - now rewrite IH.
Qed.

Lemma dict_del_absent (key : string) (d : Dict) :
  lookup key d = None -> dict_del key d = d.
Proof.
  induction d as [| [k w] d IH]; simpl; auto.
  destruct (String.eqb k key); [discriminate |]. intros H. now rewrite IH.
Qed.

Lemma keys_dict_set_present (key : string) (v : Value) (d : Dict) :
  mem key d = true -> keys (dict_set key v d) = keys d.
Proof.
  unfold mem. induction d as [| [k w] d IH]; simpl; [discriminate |].
  destruct (String.eqb k key) eqn:E; simpl; auto.
  intros H. now rewrite IH.
Qed.

Lemma dict_set_absent (key : string) (v : Value) (d : Dict) :
  lookup key d = None -> dict_set key v d = d ++ [(key, v)].
Proof.
  induction d as [| [k w] d IH]; simpl; auto.
  destruct (String.eqb k key); [discriminate |]. intros H. now rewrite IH.
Qed.

Lemma keys_dict_del (key : string) (d : Dict) :
  keys (dict_del key d) = filter (fun k => negb (String.eqb k key)) (keys d).
Proof.
  induction d as [| [k w] d IH]; simpl; auto.
  destruct (String.eqb k key); simpl; now rewrite IH.
Qed.

(** ** Tree merger *)

Lemma merge_value_table (b o : Dict) :
  merge_value (Table b) (Table o) = Table (merge_dicts b o).
Proof. reflexivity. Qed.

Lemma merge_value_not_both (bv ov : Value) :
  is_dict bv && is_dict ov = false -> merge_value bv ov = ov.
Proof. destruct bv, ov; simpl; auto; discriminate. Qed.

Lemma lookup_map_values (f : string -> Value -> Value) (key : string) (d : Dict) :
  lookup key (map (fun kv : string * Value => let (k, v) := kv in (k, f k v)) d) =
  match lookup key d with Some v => Some (f key v) | None => None end.
Proof.
  induction d as [| [k v] d IH]; simpl; auto.
  destruct (String.eqb_spec k key) as [-> | _]; auto.
Qed.

Lemma lookup_filter_absent (key : string) (base d : Dict) :
  lookup key (filter (fun kv => negb (mem (fst kv) base)) d) =
  if mem key base then None else lookup key d.
Proof.
  induction d as [| [k v] d IH]; simpl.
  - now destruct (mem key base).
  - destruct (String.eqb_spec k key) as [-> | Hne].
    + destruct (mem key base) eqn:E; simpl.
      * exact IH.
      * now rewrite String.eqb_refl.
    + destruct (mem k base); simpl; auto.
      apply String.eqb_neq in Hne. now rewrite Hne.
Qed.

Lemma lookup_merge_dicts (existing repo : Dict) (key : string) :
  lookup key (merge_dicts existing repo) =
  match lookup key existing with
  | Some ev =>
      match lookup key repo with
      | Some rv => Some (merge_value ev rv)
      | None => Some ev
      end
  | None => lookup key repo
  end.
Proof.
  unfold merge_dicts. rewrite lookup_app.
  rewrite (lookup_map_values
             (fun k bv => match lookup k repo with
                          | Some ov => merge_value bv ov
                          | None => bv
                          end)).
  destruct (lookup key existing) eqn:E.
  - destruct (lookup key repo); reflexivity.
  - rewrite lookup_filter_absent. unfold mem. now rewrite E.
Qed.

Lemma keys_merge_dicts (existing repo : Dict) :
  keys (merge_dicts existing repo) =
  keys existing ++ filter (fun k => negb (mem k existing)) (keys repo).
Proof.
  unfold merge_dicts, keys. rewrite map_app. f_equal.
  - rewrite map_map. apply map_ext. now intros [k v].
  - induction repo as [| [k v] repo IH]; simpl; auto.
    destruct (mem k existing); simpl; now rewrite IH.
Qed.

(** C5. [merge_dicts] decides every key of the union of both trees: two
    tables are merged recursively, a key on both sides with a non-table on
    either side takes the repo value, a key only in the existing tree keeps
    its value, a key only in the repo tree takes the repo value; the keys of
    the result are the existing keys in their order followed by the repo-only
    keys in repo order. *)
Theorem merge_dicts_per_key (existing repo : Dict) :
  (forall key,
     lookup key (merge_dicts existing repo) =
     match lookup key existing, lookup key repo with
     | Some (Table e), Some (Table r) => Some (Table (merge_dicts e r))
     | Some _, Some rv => Some rv
     | Some ev, None => Some ev
     | None, Some rv => Some rv
     | None, None => None
     end)
  /\ keys (merge_dicts existing repo) =
     keys existing ++ filter (fun k => negb (mem k existing)) (keys repo).
Proof.
  split; [| apply keys_merge_dicts].
  intros key. rewrite lookup_merge_dicts.
  destruct (lookup key existing) as [[s | e] |];
    destruct (lookup key repo) as [[s' | r] |]; reflexivity.
Qed.

(** ** Tree differ: entries grouped by key *)

Lemma add_prefix_app (p q : KeyPath) (a : Addition) :
  add_prefix p (add_prefix q a) = add_prefix (p ++ q) a.
Proof. unfold add_prefix. simpl. now rewrite app_assoc. Qed.

Lemma ov_prefix_app (p q : KeyPath) (o : Override) :
  ov_prefix p (ov_prefix q o) = ov_prefix (p ++ q) o.
Proof. unfold ov_prefix. simpl. now rewrite app_assoc. Qed.

Lemma add_prefix_nil (a : Addition) : add_prefix [] a = a.
Proof. now destruct a. Qed.

Lemma ov_prefix_nil (o : Override) : ov_prefix [] o = o.
Proof. now destruct o. Qed.

Lemma map_flat_map {A B C : Type} (g : B -> C) (f : A -> list B) (l : list A) :
  map g (flat_map f l) = flat_map (fun x => map g (f x)) l.
Proof. induction l; simpl; auto. now rewrite map_app, IHl. Qed.

Lemma fold_left_collect {A B : Type} (F : list B -> A -> list B)
    (f : A -> list B) (l : list A) :
  Forall (fun x => forall acc, F acc x = acc ++ f x) l ->
  forall acc, fold_left F l acc = acc ++ flat_map f l.
Proof.
  induction 1 as [| x l Hx _ IH]; intros acc; simpl.
  - now rewrite app_nil_r.
  - now rewrite IH, Hx, app_assoc.
Qed.

Lemma fold_left_collect2 {A B C : Type}
    (F : list B * list C -> A -> list B * list C)
    (f : A -> list B) (g : A -> list C) (l : list A) :
  Forall (fun x => forall acc, F acc x = (fst acc ++ f x, snd acc ++ g x)) l ->
  forall acc,
    fold_left F l acc = (fst acc ++ flat_map f l, snd acc ++ flat_map g l).
Proof.
  induction 1 as [| x l Hx _ IH]; intros acc; simpl.
  - rewrite !app_nil_r. now destruct acc.
  - rewrite IH, Hx. simpl. now rewrite !app_assoc.
Qed.

Lemma collect_additions_rel (v : Value) :
  forall p acc,
    collect_additions p v acc = acc ++ map (add_prefix p) (rel_additions v).
Proof.
  induction v as [s | t IH] using Value_ind'; intros p acc.
  - unfold rel_additions, add_prefix. simpl. now rewrite app_nil_r.
  - unfold rel_additions. simpl.
    rewrite (fold_left_collect _
               (fun kv => map (add_prefix (p ++ [fst kv])) (rel_additions (snd kv)))).
    2:{ eapply Forall_impl; [| exact IH]. intros [k v] Hv acc'. simpl. apply Hv. }
    rewrite (fold_left_collect _
               (fun kv => map (add_prefix ([] ++ [fst kv])) (rel_additions (snd kv)))).
    2:{ eapply Forall_impl; [| exact IH]. intros [k v] Hv acc'. simpl. apply Hv. }
    simpl. f_equal. rewrite map_flat_map. apply flat_map_ext. intros [k v]. simpl.
    rewrite map_map. apply map_ext. intros a. now rewrite add_prefix_app.
Qed.

Lemma rel_additions_table (t : Dict) :
  rel_additions (Table t) =
  flat_map (fun kv => map (add_prefix [fst kv]) (rel_additions (snd kv))) t.
Proof.
  unfold rel_additions at 1. simpl.
  rewrite (fold_left_collect _
             (fun kv => map (add_prefix [fst kv]) (rel_additions (snd kv)))); auto.
  apply Forall_forall. intros [k v] _ acc. simpl. apply collect_additions_rel.
Qed.

Lemma rel_additions_leaf (s : Scalar) :
  rel_additions (Leaf s) = [mkAddition [] (Leaf s)].
Proof. reflexivity. Qed.

Lemma collect_changes_rel (rv : Value) :
  forall ev ex p A O,
    collect_changes p rv ev ex A O =
    (A ++ map (add_prefix p) (fst (collect_changes [] rv ev ex [] [])),
     O ++ map (ov_prefix p) (snd (collect_changes [] rv ev ex [] []))).
Proof.
  induction rv as [s | r IH] using Value_ind'; intros ev ex p A O.
  - simpl. destruct ex, (is_dict ev); simpl;
      try destruct (value_eqb ev (Leaf s)); simpl;
      unfold add_prefix, ov_prefix; simpl; now rewrite ?app_nil_r.
  - simpl. destruct (ex && negb (is_dict ev)) eqn:E1.
    { unfold ov_prefix. simpl. now rewrite !app_nil_r. }
    destruct (negb ex) eqn:E2.
    { simpl. rewrite app_nil_r.
      change (fold_left _ r A) with (collect_additions p (Table r) A).
      change (fold_left _ r []) with (collect_additions [] (Table r) []).
      f_equal. apply collect_additions_rel. }
    set (f := fun q (kv : string * Value) =>
                map (add_prefix (q ++ [fst kv])) (fst (key_changes
                  match ev with Table e => e | Leaf _ => [] end kv))).
    set (g := fun q (kv : string * Value) =>
                map (ov_prefix (q ++ [fst kv])) (snd (key_changes
                  match ev with Table e => e | Leaf _ => [] end kv))).
    assert (Hstep : forall q, Forall (fun kv : string * Value =>
              forall acc : list Addition * list Override,
                (let (key, value) := kv in
                 match item ev key with
                 | Some ev0 => collect_changes (q ++ [key]) value ev0 true (fst acc) (snd acc)
                 | None => (collect_additions (q ++ [key]) value (fst acc), snd acc)
                 end) = (fst acc ++ f q kv, snd acc ++ g q kv)) r).
    { intros q. eapply Forall_impl; [| exact IH]. intros [k v] Hv acc.
      unfold f, g, key_changes, item. simpl.
      destruct ev as [s | e]; simpl.
      - rewrite collect_additions_rel, app_nil_r. reflexivity.
      - destruct (lookup k e) as [ev0 |].
        + rewrite Hv. reflexivity.
        + rewrite collect_additions_rel. simpl. now rewrite app_nil_r. }
    rewrite (fold_left_collect2 _ (f p) (g p)).
    2:{ eapply Forall_impl; [| exact (Hstep p)]. intros [k v] H acc. apply H. }
    rewrite (fold_left_collect2 _ (f []) (g [])).
    2:{ eapply Forall_impl; [| exact (Hstep [])]. intros [k v] H acc. apply H. }
    simpl. f_equal; f_equal; rewrite map_flat_map; apply flat_map_ext;
      intros [k v]; unfold f, g; simpl; rewrite map_map; apply map_ext; intros a.
    + now rewrite add_prefix_app.
    + now rewrite ov_prefix_app.
Qed.

Lemma rel_changes_tables (r e : Dict) :
  rel_changes (Table r) (Table e) =
  (flat_map (fun kv => map (add_prefix [fst kv]) (fst (key_changes e kv))) r,
   flat_map (fun kv => map (ov_prefix [fst kv]) (snd (key_changes e kv))) r).
Proof.
  unfold rel_changes. simpl.
  rewrite (fold_left_collect2 _
             (fun kv => map (add_prefix [fst kv]) (fst (key_changes e kv)))
             (fun kv => map (ov_prefix [fst kv]) (snd (key_changes e kv)))); auto.
  apply Forall_forall. intros [k v] _ acc. unfold key_changes. simpl.
  destruct (lookup k e) as [ev |].
  - apply collect_changes_rel.
  - rewrite collect_additions_rel. simpl. now rewrite app_nil_r.
Qed.

Lemma diff_by_key (repo_data existing_data : Dict) :
  diff repo_data existing_data = rel_changes (Table repo_data) (Table existing_data).
Proof.
  rewrite rel_changes_tables. unfold diff.
  rewrite (fold_left_collect2 _
             (fun kv => map (add_prefix [fst kv]) (fst (key_changes existing_data kv)))
             (fun kv => map (ov_prefix [fst kv]) (snd (key_changes existing_data kv)))); auto.
  apply Forall_forall. intros [k v] _ acc. unfold key_changes. simpl.
  destruct (lookup k existing_data) as [ev |].
  - apply collect_changes_rel.
  - rewrite collect_additions_rel. simpl. now rewrite app_nil_r.
Qed.

Lemma rel_changes_table_leaf (r : Dict) (s : Scalar) :
  rel_changes (Table r) (Leaf s) = ([], [mkOverride [] (Leaf s) (Table r)]).
Proof. reflexivity. Qed.

Lemma rel_changes_leaf_table (s : Scalar) (e : Dict) :
  rel_changes (Leaf s) (Table e) = ([], [mkOverride [] (Table e) (Leaf s)]).
Proof. reflexivity. Qed.

Lemma rel_changes_leaves (s x : Scalar) :
  rel_changes (Leaf s) (Leaf x) =
  if py_eqb x s then ([], []) else ([], [mkOverride [] (Leaf x) (Leaf s)]).
Proof. unfold rel_changes. simpl. now destruct (py_eqb x s). Qed.

(** ** Entries below one key *)

Lemma path_eqb_eq (p q : KeyPath) : path_eqb p q = true <-> p = q.
Proof. unfold path_eqb. destruct (list_eq_dec string_dec p q); split; congruence. Qed.

Lemma path_eqb_refl (p : KeyPath) : path_eqb p p = true.
Proof. now apply path_eqb_eq. Qed.

Lemma path_eqb_cons (k k' : string) (p q : KeyPath) :
  path_eqb (k :: p) (k' :: q) = String.eqb k k' && path_eqb p q.
Proof.
  destruct (String.eqb_spec k k') as [-> | Hne]; simpl.
  - destruct (path_eqb p q) eqn:E.
    + apply path_eqb_eq in E. subst. apply path_eqb_refl.
    + destruct (path_eqb (k' :: p) (k' :: q)) eqn:E'; auto.
      apply path_eqb_eq in E'. inversion E'; subst.
      now rewrite path_eqb_refl in E.
  - destruct (path_eqb (k :: p) (k' :: q)) eqn:E'; auto.
    apply path_eqb_eq in E'. inversion E'; subst. contradiction.
Qed.

Lemma add_under_app (k : string) (A B : list Addition) :
  add_under k (A ++ B) = add_under k A ++ add_under k B.
Proof. unfold add_under. apply flat_map_app. Qed.

Lemma ov_under_app (k : string) (A B : list Override) :
  ov_under k (A ++ B) = ov_under k A ++ ov_under k B.
Proof. unfold ov_under. apply flat_map_app. Qed.

Lemma add_under_prefix_same (k : string) (L : list Addition) :
  add_under k (map (add_prefix [k]) L) = L.
Proof.
  induction L as [| [p v] L IH]; simpl; auto.
  rewrite String.eqb_refl. simpl. now f_equal.
Qed.

Lemma ov_under_prefix_same (k : string) (L : list Override) :
  ov_under k (map (ov_prefix [k]) L) = L.
Proof.
  induction L as [| [p v w] L IH]; simpl; auto.
  rewrite String.eqb_refl. simpl. now f_equal.
Qed.

Lemma add_under_prefix_other (k k' : string) (L : list Addition) :
  k' <> k -> add_under k (map (add_prefix [k']) L) = [].
Proof.
  intros Hne. apply String.eqb_neq in Hne.
  induction L as [| [p v] L IH]; simpl; auto. now rewrite Hne.
Qed.

Lemma ov_under_prefix_other (k k' : string) (L : list Override) :
  k' <> k -> ov_under k (map (ov_prefix [k']) L) = [].
Proof.
  intros Hne. apply String.eqb_neq in Hne.
  induction L as [| [p v w] L IH]; simpl; auto. now rewrite Hne.
Qed.

Lemma add_under_group (G : string * Value -> list Addition) (k : string) (r : Dict) :
  NoDup (keys r) ->
  add_under k (flat_map (fun kv => map (add_prefix [fst kv]) (G kv)) r) =
  match lookup k r with Some v => G (k, v) | None => [] end.
Proof.
  induction r as [| [k' v'] r IH]; simpl; intros Hnd; auto.
  inversion Hnd as [| ? ? Hk Hnd']; subst.
  rewrite add_under_app, IH by assumption.
  destruct (String.eqb_spec k' k) as [-> | Hne].
  - rewrite add_under_prefix_same.
    apply lookup_None in Hk. rewrite Hk. apply app_nil_r.
  - now rewrite add_under_prefix_other.
Qed.

Lemma ov_under_group (G : string * Value -> list Override) (k : string) (r : Dict) :
  NoDup (keys r) ->
  ov_under k (flat_map (fun kv => map (ov_prefix [fst kv]) (G kv)) r) =
  match lookup k r with Some v => G (k, v) | None => [] end.
Proof.
  induction r as [| [k' v'] r IH]; simpl; intros Hnd; auto.
  inversion Hnd as [| ? ? Hk Hnd']; subst.
  rewrite ov_under_app, IH by assumption.
  destruct (String.eqb_spec k' k) as [-> | Hne].
  - rewrite ov_under_prefix_same.
    apply lookup_None in Hk. rewrite Hk. apply app_nil_r.
  - now rewrite ov_under_prefix_other.
Qed.

Lemma In_add_under (k : string) (a : Addition) (A : list Addition) :
  In a (add_under k A) <-> In (add_prefix [k] a) A.
Proof.
  unfold add_under. rewrite in_flat_map. split.
  - intros ([p v] & Hin & Ha). simpl in Ha.
    destruct p as [| k' q]; [contradiction |].
    destruct (String.eqb_spec k' k) as [-> | _]; [| contradiction].
    destruct Ha as [<- | []]. exact Hin.
  - intros Hin. exists (add_prefix [k] a). split; auto.
    simpl. rewrite String.eqb_refl. left. now destruct a.
Qed.

Lemma In_ov_under (k : string) (o : Override) (O : list Override) :
  In o (ov_under k O) <-> In (ov_prefix [k] o) O.
Proof.
  unfold ov_under. rewrite in_flat_map. split.
  - intros ([p v w] & Hin & Ho). simpl in Ho.
    destruct p as [| k' q]; [contradiction |].
    destruct (String.eqb_spec k' k) as [-> | _]; [| contradiction].
    destruct Ho as [<- | []]. exact Hin.
  - intros Hin. exists (ov_prefix [k] o). split; auto.
    simpl. rewrite String.eqb_refl. left. now destruct o.
Qed.

Lemma filter_ov_under (k : string) (p : KeyPath) (O : list Override) :
  filter (fun o => path_eqb (ov_path o) (k :: p)) O =
  map (ov_prefix [k]) (filter (fun o => path_eqb (ov_path o) p) (ov_under k O)).
Proof.
  induction O as [| [q v w] O IH]; simpl; auto.
  destruct q as [| k' q]; simpl.
  - exact IH.
  - rewrite path_eqb_cons. destruct (String.eqb_spec k' k) as [-> | Hne]; simpl.
    + destruct (path_eqb q p); simpl; now rewrite IH.
    + exact IH.
Qed.

(** The changes recorded for the repo key [k], seen from the table that
    holds it. *)
Lemma rel_changes_under (r e : Dict) (k : string) :
  NoDup (keys r) ->
  add_under k (fst (rel_changes (Table r) (Table e))) =
    match lookup k r with Some v => fst (key_changes e (k, v)) | None => [] end
  /\ ov_under k (snd (rel_changes (Table r) (Table e))) =
    match lookup k r with Some v => snd (key_changes e (k, v)) | None => [] end.
Proof.
  intros Hnd. rewrite rel_changes_tables. simpl. split.
  - apply (add_under_group (fun kv => fst (key_changes e kv))); auto.
  - apply (ov_under_group (fun kv => snd (key_changes e kv))); auto.
Qed.

(** ** A repo table over an existing scalar *)

Lemma wf_value_lookup {t : Dict} {k : string} {v : Value} :
  wf_table t -> lookup k t = Some v -> wf_value v.
Proof.
  intros Hwf Hl. apply wf_table_unfold in Hwf. destruct Hwf as [_ Hall].
  apply lookup_Some_In in Hl. rewrite Forall_forall in Hall. apply (Hall (k, v) Hl).
Qed.

Lemma wf_table_keys {t : Dict} : wf_table t -> NoDup (keys t).
Proof. intros H. now apply wf_table_unfold in H. Qed.

Lemma key_changes_present {e : Dict} {k : string} (rv : Value) {ev : Value} :
  lookup k e = Some ev -> key_changes e (k, rv) = rel_changes rv ev.
Proof. unfold key_changes. simpl. now intros ->. Qed.

Lemma key_changes_absent {e : Dict} {k : string} (rv : Value) :
  lookup k e = None -> key_changes e (k, rv) = (rel_additions rv, []).
Proof. unfold key_changes. simpl. now intros ->. Qed.

Lemma table_over_leaf_rel (p : KeyPath) :
  forall (rv ev : Value) (rt : Dict) (s : Scalar),
    wf_value rv ->
    path_get rv p = Some (Table rt) ->
    path_get ev p = Some (Leaf s) ->
    filter (fun o => path_eqb (ov_path o) p) (snd (rel_changes rv ev)) =
      [mkOverride p (Leaf s) (Table rt)]
    /\ (forall o, In o (snd (rel_changes rv ev)) -> ~ strictly_below p (ov_path o))
    /\ (forall a, In a (fst (rel_changes rv ev)) -> ~ extends p (add_path a)).
Proof.
  induction p as [| k p IH]; intros rv ev rt s Hwf Hr He.
  - simpl in Hr, He. inversion Hr; inversion He; subst.
    rewrite rel_changes_table_leaf. simpl. repeat split.
    + intros o [<- | []] (k & q & Hq). discriminate.
    + intros a [].
  - simpl in Hr, He.
    destruct rv as [x | r]; [discriminate |].
    destruct ev as [x | e]; [discriminate |]. simpl in Hr, He.
    destruct (lookup k r) as [rv' |] eqn:Hlr; [| discriminate].
    destruct (lookup k e) as [ev' |] eqn:Hle; [| discriminate].
    assert (Hnd := wf_table_keys Hwf).
    destruct (rel_changes_under r e k Hnd) as [HA HO].
    rewrite Hlr, (key_changes_present _ Hle) in HA, HO.
    destruct (IH rv' ev' rt s (wf_value_lookup Hwf Hlr) Hr He) as (H1 & H2 & H3).
    repeat split.
    + rewrite filter_ov_under, HO, H1. reflexivity.
    + intros [q pv rp] Hin (x & t & Hq). simpl in Hq. subst q.
      apply (H2 (mkOverride (p ++ x :: t) pv rp)).
      * rewrite <- HO. apply In_ov_under. exact Hin.
      * exists x, t. reflexivity.
    + intros [q rp] Hin (t & Hq). simpl in Hq. subst q.
      apply (H3 (mkAddition (p ++ t) rp)).
      * rewrite <- HA. apply In_add_under. exact Hin.
      * exists t. reflexivity.
Qed.

(** C6. Where the repo tree has a table and the existing tree has a value
    that is not a table, the differ records exactly one Override at that
    path, with the existing value as previous value and the whole repo
    subtree as repo value, and records nothing below that path. *)
Theorem table_over_scalar_single_override
    (repo_data existing_data : Dict) (p : KeyPath) (rt : Dict) (s : Scalar) :
  wf_table repo_data ->
  path_get (Table repo_data) p = Some (Table rt) ->
  path_get (Table existing_data) p = Some (Leaf s) ->
  filter (fun o => path_eqb (ov_path o) p) (snd (diff repo_data existing_data)) =
    [mkOverride p (Leaf s) (Table rt)]
  /\ (forall o, In o (snd (diff repo_data existing_data)) ->
                ~ strictly_below p (ov_path o))
  /\ (forall a, In a (fst (diff repo_data existing_data)) ->
                ~ extends p (add_path a)).
Proof.
  intros Hwf Hr He. rewrite diff_by_key.
  now apply table_over_leaf_rel.
Qed.

Lemma table_over_scalar_single_override_witness :
  let repo_data := [("a", Table [("x", Leaf (SInt 1)); ("y", Leaf (SStr "v"))])] in
  let existing_data := [("a", Leaf (SStr "s")); ("b", Leaf (SBool true))] in
  filter (fun o => path_eqb (ov_path o) ["a"]) (snd (diff repo_data existing_data)) =
    [mkOverride ["a"] (Leaf (SStr "s"))
       (Table [("x", Leaf (SInt 1)); ("y", Leaf (SStr "v"))])]
  /\ (forall o, In o (snd (diff repo_data existing_data)) ->
                ~ strictly_below ["a"] (ov_path o))
  /\ (forall a, In a (fst (diff repo_data existing_data)) ->
                ~ extends ["a"] (add_path a)).
Proof.
  intros repo_data existing_data.
  apply (@table_over_scalar_single_override repo_data existing_data ["a"]
           [("x", Leaf (SInt 1)); ("y", Leaf (SStr "v"))] (SStr "s")).
  - apply wf_table_unfold. split.
    + repeat constructor; simpl; intuition discriminate.
    + repeat constructor; simpl; intuition discriminate.
  - reflexivity.
  - reflexivity.
Defined.

(** C7, as stated, fails: with repo [{a = {x = 1}}] over existing
    [{a = "s"}] the leaf [a.x] of the repo subtree is not recorded as an
    Addition. *)
Lemma subtree_leaves_not_additions :
  let repo_data := [("a", Table [("x", Leaf (SInt 1))])] in
  let existing_data := [("a", Leaf (SStr "s"))] in
  path_get (Table repo_data) ["a"] = Some (Table [("x", Leaf (SInt 1))])
  /\ path_get (Table existing_data) ["a"] = Some (Leaf (SStr "s"))
  /\ ~ (forall q x,
          path_get (Table repo_data) (["a"] ++ q) = Some (Leaf x) ->
          exists a, In a (fst (diff repo_data existing_data))
                    /\ add_path a = ["a"] ++ q).
Proof.
  intros repo_data existing_data. repeat split.
  intros H. destruct (H ["x"] (SInt 1) eq_refl) as (a & Hin & _).
  exact Hin.
Qed.

(** C7, amended. Where the repo tree has a table and the existing tree has
    a scalar, the whole repo subtree is carried by the single Override
    recorded at that path: every leaf of the subtree is found inside that
    entry's repo value, and no leaf of the subtree is recorded as an
    Addition or as an Override of its own. *)
Theorem table_over_scalar_subtree_in_override
    (repo_data existing_data : Dict) (p : KeyPath) (rt : Dict) (s : Scalar) :
  wf_table repo_data ->
  path_get (Table repo_data) p = Some (Table rt) ->
  path_get (Table existing_data) p = Some (Leaf s) ->
  In (mkOverride p (Leaf s) (Table rt)) (snd (diff repo_data existing_data))
  /\ forall q x,
       path_get (Table repo_data) (p ++ q) = Some (Leaf x) ->
       path_get (Table rt) q = Some (Leaf x)
       /\ (forall a, In a (fst (diff repo_data existing_data)) ->
                     add_path a <> p ++ q)
       /\ (forall o, In o (snd (diff repo_data existing_data)) ->
                     ov_path o <> p ++ q).
Proof.
  intros Hwf Hr He. rewrite diff_by_key.
  destruct (table_over_leaf_rel p _ _ _ _ Hwf Hr He) as (H1 & H2 & H3).
  split.
  - assert (Hin : In (mkOverride p (Leaf s) (Table rt))
                     (filter (fun o => path_eqb (ov_path o) p)
                        (snd (rel_changes (Table repo_data) (Table existing_data))))).
    { rewrite H1. now left. }
    now apply filter_In in Hin.
  - intros q x Hq.
    assert (Hsub : path_get (Table rt) q = Some (Leaf x)).
    { clear - Hr Hq. revert Hr Hq. generalize (Table repo_data) as v.
      induction p as [| k p IH]; intros v Hr Hq; simpl in *.
      - inversion Hr; subst. exact Hq.
      - destruct (item v k); [| discriminate]. eauto. }
    repeat split; auto.
    + intros a Hin Heq. apply (H3 a Hin). exists q. exact Heq.
    + intros o Hin Heq. destruct q as [| k q]; [discriminate |].
      apply (H2 o Hin). exists k, q. exact Heq.
Qed.

Lemma table_over_scalar_subtree_in_override_witness :
  let repo_data := [("a", Table [("x", Leaf (SInt 1))])] in
  let existing_data := [("a", Leaf (SStr "s"))] in
  In (mkOverride ["a"] (Leaf (SStr "s")) (Table [("x", Leaf (SInt 1))]))
     (snd (diff repo_data existing_data))
  /\ forall q x,
       path_get (Table repo_data) (["a"] ++ q) = Some (Leaf x) ->
       path_get (Table [("x", Leaf (SInt 1))]) q = Some (Leaf x)
       /\ (forall a, In a (fst (diff repo_data existing_data)) ->
                     add_path a <> ["a"] ++ q)
       /\ (forall o, In o (snd (diff repo_data existing_data)) ->
                     ov_path o <> ["a"] ++ q).
Proof.
  intros repo_data existing_data.
  apply (@table_over_scalar_subtree_in_override repo_data existing_data ["a"]
           [("x", Leaf (SInt 1))] (SStr "s")).
  - apply wf_table_unfold. split; repeat constructor; simpl; intuition discriminate.
  - reflexivity.
  - reflexivity.
Defined.

(** ** Setting a path *)

Lemma path_set_cons (key k2 : string) (rest : KeyPath) (current : Dict) (value : Value) :
  path_set current (key :: k2 :: rest) value =
  match path_set
          match lookup key current with Some (Table c) => c | _ => [] end
          (k2 :: rest) value with
  | Some child' => Some (dict_set key (Table child') current)
  | None => None
  end.
Proof. reflexivity. Qed.

Lemma path_set_total {path : KeyPath} :
  path <> [] ->
  forall (current : Dict) (value : Value),
  exists data', path_set current path value = Some data'
                /\ path_get (Table data') path = Some value.
Proof.
  induction path as [| key rest IH]; intros Hne current value; [congruence |].
  destruct rest as [| k2 rest].
  - exists (dict_set key value current). split; auto.
    simpl. now rewrite lookup_dict_set_same.
  - rewrite path_set_cons.
    destruct (IH ltac:(discriminate)
                 match lookup key current with Some (Table c) => c | _ => [] end value)
      as (child' & Hset & Hget).
    rewrite Hset. eexists. split; [reflexivity |].
    change (path_get (Table (dict_set key (Table child') current)) (key :: k2 :: rest))
      with (match lookup key (dict_set key (Table child') current) with
            | Some v => path_get v (k2 :: rest)
            | None => None
            end).
    rewrite lookup_dict_set_same. exact Hget.
Qed.

(** C3. One Override entry against the current tree: an absent path is
    passed over without counting; a value equal to the recorded repo value is
    replaced by the recorded previous value, whatever its kind; any other
    value stays and the counter grows by exactly one.  Entries carry a
    non-empty path, as every entry recorded by the differ does. *)
Theorem rollback_override_cases (data : Dict) (skipped : nat) (entry : Override) :
  ov_path entry <> [] ->
  match path_get (Table data) (ov_path entry) with
  | None => rollback_override (data, skipped) entry = Some (data, skipped)
  | Some current =>
      if value_eqb current (ov_repo entry) then
        exists data',
          rollback_override (data, skipped) entry = Some (data', skipped)
          /\ path_set data (ov_path entry) (ov_previous entry) = Some data'
          /\ path_get (Table data') (ov_path entry) = Some (ov_previous entry)
      else rollback_override (data, skipped) entry = Some (data, S skipped)
  end.
Proof.
  intros Hne. unfold rollback_override.
  destruct (path_get (Table data) (ov_path entry)) as [current |]; auto.
  destruct (value_eqb current (ov_repo entry)); auto.
  destruct (path_set_total Hne data (ov_previous entry)) as (data' & Hset & Hget).
  exists data'. rewrite Hset. auto.
Qed.

Lemma rollback_override_cases_witness :
  let data := [("mode", Leaf (SStr "auto")); ("timeout", Leaf (SInt 30))] in
  let entry := mkOverride ["mode"] (Table [("kind", Leaf (SStr "manual"))])
                 (Leaf (SStr "auto")) in
  exists data',
    rollback_override (data, 0) entry = Some (data', 0)
    /\ path_set data ["mode"] (Table [("kind", Leaf (SStr "manual"))]) = Some data'
    /\ path_get (Table data') ["mode"] = Some (Table [("kind", Leaf (SStr "manual"))]).
Proof.
  intros data entry.
  apply (@rollback_override_cases data 0 entry). discriminate.
Defined.

(** ** Deleting a path *)

Lemma descend_parents (init : KeyPath) :
  forall (current : Dict) (parents : list (Dict * string)),
    descend current init parents =
    match descend current init [] with
    | Some (qs, c) => Some (parents ++ qs, c)
    | None => None
    end.
Proof.
  induction init as [| key rest IH]; intros current parents; simpl.
  - now rewrite app_nil_r.
  - destruct (lookup key current) as [[s | child] |]; auto.
    rewrite (IH child (parents ++ [(current, key)])), (IH child [(current, key)]).
    destruct (descend child rest []) as [[qs c] |]; auto.
    now rewrite <- app_assoc.
Qed.

Lemma is_empty_dict_set (key : string) (v : Value) (d : Dict) :
  is_empty (dict_set key v d) = false.
Proof. destruct d as [| [k w] d]; simpl; auto. now destruct (String.eqb k key). Qed.

Lemma unwind_snoc (l : list (Dict * string)) :
  forall (child : Dict) (pruning : bool) (parent : Dict) (key : string),
    (pruning = false -> is_empty child = false) ->
    unwind (l ++ [(parent, key)]) child pruning =
    if is_empty (unwind l child pruning) then dict_del key parent
    else dict_set key (Table (unwind l child pruning)) parent.
Proof.
  induction l as [| [p1 k1] l IH]; intros child pruning parent key Hinv; simpl.
  - destruct pruning; simpl.
    + now destruct (is_empty child).
    + now rewrite Hinv.
  - destruct (pruning && is_empty child).
    + apply IH. discriminate.
    + apply IH. intros _. apply is_empty_dict_set.
Qed.

Lemma delete_prune_cons (key k2 : string) (rest : KeyPath) (current : Dict) :
  delete_prune current (key :: k2 :: rest) =
  match lookup key current with
  | Some (Table child) =>
      match delete_prune child (k2 :: rest) with
      | Some child' =>
          Some (if is_empty child' then dict_del key current
                else dict_set key (Table child') current)
      | None => None
      end
  | _ => None
  end.
Proof. reflexivity. Qed.

Lemma delete_prune_descend (init : KeyPath) (last : string) :
  forall data : Dict,
    delete_prune data (init ++ [last]) =
    match descend data init [] with
    | Some (parents, current) =>
        if mem last current then
          Some (unwind (rev parents) (dict_del last current) true)
        else None
    | None => None
    end.
Proof.
  induction init as [| key rest IH]; intros data.
  - reflexivity.
  - assert (Hcons : exists k2 tl, rest ++ [last] = k2 :: tl).
    { destruct rest; simpl; eauto. }
    destruct Hcons as (k2 & tl & Htl).
    change ((key :: rest) ++ [last]) with (key :: (rest ++ [last])).
    rewrite Htl, delete_prune_cons, <- Htl. simpl.
    destruct (lookup key data) as [[s | child] |]; auto.
    rewrite (descend_parents rest child [(data, key)]), IH.
    destruct (descend child rest []) as [[qs c] |]; auto.
    destruct (mem last c); auto.
    simpl. rewrite unwind_snoc by discriminate. reflexivity.
Qed.

Lemma split_last_app (init : KeyPath) (last : string) :
  split_last (init ++ [last]) = Some (init, last).
Proof.
  induction init as [| key rest IH]; simpl; auto.
  rewrite IH. destruct (rest ++ [last]) eqn:E; auto.
  destruct rest; discriminate.
Qed.

Lemma path_snoc {path : KeyPath} :
  path <> [] -> exists init last, path = init ++ [last].
Proof.
  intros Hne. destruct (exists_last Hne) as (init & last & ->). eauto.
Qed.

(** [path_delete] computes the deletion with pruning. *)
Lemma path_delete_prune (data : Dict) {path : KeyPath} :
  path <> [] ->
  path_delete data path =
  match delete_prune data path with
  | Some data' => Some (data', true)
  | None => Some (data, false)
  end.
Proof.
  intros Hne. destruct (path_snoc Hne) as (init & last & ->).
  unfold path_delete. rewrite split_last_app, delete_prune_descend.
  destruct (descend data init []) as [[parents current] |]; auto.
  now destruct (mem last current).
Qed.

Lemma path_get_cons_table (v : Value) (k2 : string) (rest : KeyPath) (cur : Value) :
  path_get v (k2 :: rest) = Some cur -> exists t, v = Table t.
Proof. destruct v; simpl; [discriminate | eauto]. Qed.

Lemma delete_prune_present {path : KeyPath} :
  forall (data : Dict) (cur : Value),
    path <> [] ->
    path_get (Table data) path = Some cur ->
    exists data',
      delete_prune data path = Some data'
      /\ path_get (Table data') path = None
      /\ forall q k s, path = q ++ k :: s -> q <> [] ->
                       path_get (Table data') q <> Some (Table []).
Proof.
  induction path as [| key rest IH]; intros data cur Hne Hget; [congruence |].
  destruct rest as [| k2 rest].
  - simpl in Hget. destruct (lookup key data) eqn:Hl; [| discriminate].
    exists (dict_del key data). simpl. unfold mem. rewrite Hl.
    rewrite lookup_dict_del_same. repeat split; auto.
    intros q k s Heq Hq. destruct q as [| k' q]; [congruence |].
    destruct q; discriminate.
  - change (path_get (Table data) (key :: k2 :: rest))
      with (match lookup key data with
            | Some v => path_get v (k2 :: rest)
            | None => None
            end) in Hget.
    destruct (lookup key data) as [v |] eqn:Hl; [| discriminate].
    destruct (path_get_cons_table _ _ _ _ Hget) as (child & ->).
    destruct (IH child cur ltac:(discriminate) Hget) as (child' & Hdel & Hgone & Hanc).
    rewrite delete_prune_cons, Hl, Hdel.
    eexists. split; [reflexivity |].
    destruct (is_empty child') eqn:Hemp.
    + split.
      * change (path_get (Table (dict_del key data)) (key :: k2 :: rest))
          with (match lookup key (dict_del key data) with
                | Some v => path_get v (k2 :: rest)
                | None => None
                end).
        now rewrite lookup_dict_del_same.
      * intros q k s Heq Hq. destruct q as [| k' q]; [congruence |].
        inversion Heq; subst k'. simpl. now rewrite lookup_dict_del_same.
    + split.
      * change (path_get (Table (dict_set key (Table child') data)) (key :: k2 :: rest))
          with (match lookup key (dict_set key (Table child') data) with
                | Some v => path_get v (k2 :: rest)
                | None => None
                end).
        now rewrite lookup_dict_set_same.
      * intros q k s Heq Hq. destruct q as [| k' q]; [congruence |].
        inversion Heq as [[Hk Hrest]]; subst k'.
        simpl. rewrite lookup_dict_set_same.
        destruct q as [| k'' q].
        -- simpl. intros H. inversion H; subst. discriminate.
        -- apply (Hanc (k'' :: q) k s Hrest). discriminate.
Qed.

(** C4. One Addition entry against the current tree: an absent path is
    passed over silently; a value equal to the recorded repo value is
    deleted, every ancestor table left empty is deleted with it and the
    first ancestor that is not empty (or the root) ends the pruning; any
    other value stays and the counter grows by one.  Entries carry a
    non-empty path, as every entry recorded by the differ does. *)
Theorem rollback_addition_cases (data : Dict) (skipped : nat) (entry : Addition) :
  add_path entry <> [] ->
  match path_get (Table data) (add_path entry) with
  | None => rollback_addition (data, skipped) entry = Some (data, skipped)
  | Some current =>
      if value_eqb current (add_repo entry) then
        exists data',
          rollback_addition (data, skipped) entry = Some (data', skipped)
          /\ delete_prune data (add_path entry) = Some data'
          /\ path_get (Table data') (add_path entry) = None
          /\ forall q k s, add_path entry = q ++ k :: s -> q <> [] ->
                           path_get (Table data') q <> Some (Table [])
      else rollback_addition (data, skipped) entry = Some (data, S skipped)
  end.
Proof.
  intros Hne. unfold rollback_addition.
  destruct (path_get (Table data) (add_path entry)) as [current |] eqn:Hget; auto.
  destruct (value_eqb current (add_repo entry)); auto.
  destruct (delete_prune_present data _ Hne Hget) as (data' & Hdel & Hgone & Hanc).
  exists data'. rewrite (path_delete_prune data Hne), Hdel. auto.
Qed.

Lemma rollback_addition_cases_witness :
  let data := [("a", Table [("b", Table [("c", Leaf (SInt 1))]); ("k", Leaf (SInt 2))])] in
  let entry := mkAddition ["a"; "b"; "c"] (Leaf (SInt 1)) in
  exists data',
    rollback_addition (data, 0) entry = Some (data', 0)
    /\ delete_prune data ["a"; "b"; "c"] = Some data'
    /\ path_get (Table data') ["a"; "b"; "c"] = None
    /\ forall q k s, ["a"; "b"; "c"] = q ++ k :: s -> q <> [] ->
                     path_get (Table data') q <> Some (Table []).
Proof.
  intros data entry.
  apply (@rollback_addition_cases data 0 entry). discriminate.
Defined.

Example pruning_example :
  path_delete [("a", Table [("b", Table [("c", Leaf (SInt 1))])]); ("z", Leaf (SInt 0))]
              ["a"; "b"; "c"]
  = Some ([("z", Leaf (SInt 0))], true).
Proof. reflexivity. Qed.

(** ** The rollback loops never raise on recorded paths *)

Lemma rollback_override_total (st : Dict * nat) (entry : Override) :
  ov_path entry <> [] -> exists st', rollback_override st entry = Some st'.
Proof.
  intros Hne. destruct st as [data skipped]. unfold rollback_override.
  destruct (path_get (Table data) (ov_path entry)) as [cur |]; eauto.
  destruct (value_eqb cur (ov_repo entry)); eauto.
  destruct (path_set_total Hne data (ov_previous entry)) as (d & -> & _). eauto.
Qed.

Lemma rollback_addition_total (st : Dict * nat) (entry : Addition) :
  add_path entry <> [] -> exists st', rollback_addition st entry = Some st'.
Proof.
  intros Hne. destruct st as [data skipped]. unfold rollback_addition.
  destruct (path_get (Table data) (add_path entry)) as [cur |]; eauto.
  destruct (value_eqb cur (add_repo entry)); eauto.
  rewrite (path_delete_prune data Hne).
  destruct (delete_prune data (add_path entry)); eauto.
Qed.

Lemma for_each_total {S E : Type} (body : S -> E -> option S) (entries : list E) :
  Forall (fun e => forall st, exists st', body st e = Some st') entries ->
  forall st, exists st', for_each body entries st = Some st'.
Proof.
  induction 1 as [| e entries He _ IH]; intros st; simpl; eauto.
  destruct (He st) as (st1 & ->). apply IH.
Qed.

Lemma rollback_total {ovs : list Override} {adds : list Addition} (data : Dict) :
  Forall (fun o => ov_path o <> []) ovs ->
  Forall (fun a => add_path a <> []) adds ->
  exists data' skipped, rollback ovs adds data = Some (data', skipped).
Proof.
  intros Ho Ha. unfold rollback.
  assert (Ho' : Forall (fun e => forall st, exists st', rollback_override st e = Some st') ovs).
  { eapply Forall_impl; [| exact Ho]. intros o Hne st. now apply rollback_override_total. }
  assert (Ha' : Forall (fun e => forall st, exists st', rollback_addition st e = Some st') adds).
  { eapply Forall_impl; [| exact Ha]. intros a Hne st. now apply rollback_addition_total. }
  destruct (for_each_total rollback_override ovs Ho' (data, 0)) as (st1 & ->).
  destruct (for_each_total rollback_addition adds Ha' st1) as ([d n] & ->).
  eauto.
Qed.

(** ** [remove] as a whole *)

Section RemoveFacts.

Variable loads : string -> option Dict.
Variable format_key : string -> string.
Variable format_value : Scalar -> string.

(** C9. [remove] returns status 0 in every non-fatal case: without a
    ledger it leaves the files as they are; with a ledger but no target
    document it discards the ledger; and when the target parses, the
    rollback runs to its end whatever the number of skipped entries, the
    ledger is discarded and the skips are only reported as a count. *)
Theorem remove_nonfatal_status (fs : Files) :
  (state_file fs = None ->
   remove loads format_key format_value fs = Some (fs, 0%Z, [StateFileNotFound]))
  /\ (forall ledger,
        state_file fs = Some ledger -> target_file fs = None ->
        remove loads format_key format_value fs = Some (mkFiles (repo_file fs) None None, 0%Z, [ConfigFileMissing]))
  /\ (forall ledger text data,
        state_file fs = Some ledger -> target_file fs = Some text ->
        load_toml loads text = Some data ->
        Forall (fun o => ov_path o <> []) (overrides ledger) ->
        Forall (fun a => add_path a <> []) (additions ledger) ->
        exists data' skipped,
          rollback (overrides ledger) (additions ledger) data = Some (data', skipped)
          /\ remove loads format_key format_value fs =
             Some (mkFiles (repo_file fs) (target_after format_key format_value data' ledger) None, 0%Z,
                   match skipped with
                   | O => []
                   | S _ => [Preserved skipped]
                   end)).
Proof.
  unfold remove. repeat split.
  - intros ->. reflexivity.
  - intros ledger -> ->. reflexivity.
  - intros ledger text data -> -> -> Ho Ha.
    destruct (rollback_total data Ho Ha) as (data' & skipped & Hr).
    exists data', skipped. rewrite Hr. split; reflexivity.
Qed.

End RemoveFacts.

Lemma remove_nonfatal_status_witness :
  let text := ("mode = " ++ String (ascii_of_nat 34) ("fast" ++ String (ascii_of_nat 34) nl))%string in
  let loads := fun t : string =>
                 if String.eqb t text then Some [("mode", Leaf (SStr "fast"))] else None in
  let ledger := mkLedger "config.toml" true []
                  [] [mkOverride ["mode"] (Leaf (SStr "manual")) (Leaf (SStr "auto"))] in
  let fs := mkFiles None (Some text) (Some ledger) in
  exists data' skipped,
    rollback (overrides ledger) (additions ledger) [("mode", Leaf (SStr "fast"))]
      = Some (data', skipped)
    /\ remove loads (fun k => k) (fun _ => "v") fs =
       Some (mkFiles None (target_after (fun k => k) (fun _ => "v") data' ledger) None,
             0%Z,
             match skipped with
             | O => []
             | S _ => [Preserved skipped]
             end).
Proof.
  intros text loads ledger fs.
  apply (proj2 (proj2 (remove_nonfatal_status loads (fun k => k) (fun _ => "v") fs))
           ledger text [("mode", Leaf (SStr "fast"))]).
  - reflexivity.
  - reflexivity.
  - reflexivity.
  - repeat constructor. discriminate.
  - constructor.
Defined.

Example remove_drift_example :
  let text := ("mode = " ++ String (ascii_of_nat 34) ("fast" ++ String (ascii_of_nat 34) nl))%string in
  let loads := fun t : string =>
                 if String.eqb t text then Some [("mode", Leaf (SStr "fast"))] else None in
  let ledger := mkLedger "config.toml" true []
                  [] [mkOverride ["mode"] (Leaf (SStr "manual")) (Leaf (SStr "auto"))] in
  remove loads (fun k => k) (fun _ => "v") (mkFiles None (Some text) (Some ledger))
  = Some (mkFiles None (Some ("mode = v" ++ nl)%string) None, 0%Z, [Preserved 1]).
Proof. reflexivity. Qed.

(** ** Header lines *)

Lemma eqb_empty (s : string) : String.eqb s EmptyString = str_is_empty s.
Proof. now destruct s. Qed.

Lemma is_blank_not_comment (line : string) :
  is_blank line = true -> is_comment line = false.
Proof. unfold is_blank, is_comment. now destruct (strip line). Qed.

Lemma extract_header_loop_run (todo : list string) :
  forall lines,
    extract_header_loop todo lines =
    lines ++ filter is_comment (leading_run todo).
Proof.
  induction todo as [| line rest IH]; intros lines; simpl.
  - now rewrite app_nil_r.
  - rewrite eqb_empty. fold (is_blank line). fold (is_comment line).
    destruct (is_blank line) eqn:Hb; simpl.
    + rewrite (is_blank_not_comment _ Hb). apply IH.
    + destruct (is_comment line) eqn:Hc; simpl; rewrite ?Hc.
      * rewrite IH, <- app_assoc. reflexivity.
      * now rewrite app_nil_r.
Qed.

Lemma extract_header_run (text : string) :
  extract_header text = filter is_comment (leading_run (splitlines text)).
Proof. unfold extract_header. now rewrite extract_header_loop_run. Qed.

(** ** An empty repo table at a path the existing tree lacks *)

Lemma rel_additions_under (r : Dict) (k : string) :
  NoDup (keys r) ->
  add_under k (rel_additions (Table r)) =
  match lookup k r with Some v => rel_additions v | None => [] end.
Proof.
  intros Hnd. rewrite rel_additions_table.
  apply (add_under_group (fun kv => rel_additions (snd kv))); auto.
Qed.

(** Every recorded Addition is a leaf of the repo subtree it comes from. *)
Lemma rel_additions_leaves (v : Value) :
  wf_value v ->
  forall a, In a (rel_additions v) ->
            path_get v (add_path a) = Some (add_repo a) /\ is_dict (add_repo a) = false.
Proof.
  induction v as [s | t IH] using Value_ind'; intros Hwf a Hin.
  - destruct Hin as [<- | []]. simpl. auto.
  - destruct a as [[| k q] rp].
    + rewrite rel_additions_table in Hin. apply in_flat_map in Hin.
      destruct Hin as (kv & _ & Hin). apply in_map_iff in Hin.
      destruct Hin as (a' & Heq & _). discriminate.
    + change (mkAddition (k :: q) rp) with (add_prefix [k] (mkAddition q rp)) in Hin.
      apply In_add_under in Hin.
      rewrite (rel_additions_under _ k (wf_table_keys Hwf)) in Hin.
      destruct (lookup k t) as [v |] eqn:Hl; [| contradiction].
      rewrite Forall_forall in IH.
      destruct (IH (k, v) (lookup_Some_In _ _ _ Hl) (wf_value_lookup Hwf Hl) _ Hin)
        as [Hget Hleaf].
      simpl in *. rewrite Hl. auto.
Qed.

Lemma path_get_prefix_table (p s : KeyPath) :
  forall (v : Value) (t : Dict),
    path_get v (p ++ s) = Some (Table t) -> exists u, path_get v p = Some (Table u).
Proof.
  induction p as [| k p IH]; intros v t H; simpl in *.
  - destruct s as [| k s]; simpl in H.
    + inversion H; eauto.
    + destruct v as [x | u]; [discriminate | eauto].
  - destruct (item v k); [eauto | discriminate].
Qed.

(** No Addition of a subtree lies at or below, or on the way to, a table
    of that subtree. *)
Lemma rel_additions_off_tables (v : Value) (p : KeyPath) (t : Dict) :
  wf_value v ->
  path_get v p = Some (Table t) ->
  forall a, In a (rel_additions v) -> ~ extends (add_path a) p.
Proof.
  intros Hwf Hp a Hin (s & Hs).
  destruct (rel_additions_leaves v Hwf a Hin) as [Hget Hleaf].
  rewrite Hs in Hp. destruct (path_get_prefix_table _ _ _ _ Hp) as (u & Hu).
  rewrite Hu in Hget. inversion Hget as [Heq]. rewrite <- Heq in Hleaf. discriminate.
Qed.

Lemma rel_additions_empty_table (p : KeyPath) :
  forall v, wf_value v -> path_get v p = Some (Table []) ->
            forall a, In a (rel_additions v) -> ~ extends p (add_path a).
Proof.
  induction p as [| k p IH]; intros v Hwf Hp a Hin Hext.
  - simpl in Hp. inversion Hp; subst. exact Hin.
  - simpl in Hp. destruct v as [x | r]; [discriminate |]. simpl in Hp.
    destruct (lookup k r) as [v' |] eqn:Hl; [| discriminate].
    destruct Hext as (s & Hs). destruct a as [q rp]. simpl in Hs. subst q.
    change (mkAddition (k :: p ++ s) rp)
      with (add_prefix [k] (mkAddition (p ++ s) rp)) in Hin.
    apply In_add_under in Hin.
    rewrite (rel_additions_under _ k (wf_table_keys Hwf)), Hl in Hin.
    apply (IH v' (wf_value_lookup Hwf Hl) Hp _ Hin). now exists s.
Qed.

Lemma rel_changes_empty_table (p : KeyPath) :
  forall rv ev,
    wf_value rv ->
    path_get rv p = Some (Table []) ->
    path_get ev p = None ->
    (forall a, In a (fst (rel_changes rv ev)) -> ~ extends p (add_path a))
    /\ (forall o, In o (snd (rel_changes rv ev)) -> ~ extends p (ov_path o)).
Proof.
  induction p as [| k p IH]; intros rv ev Hwf Hr He; [discriminate |].
  simpl in Hr. destruct rv as [x | r]; [discriminate |]. simpl in Hr.
  destruct (lookup k r) as [rv' |] eqn:Hlr; [| discriminate].
  destruct ev as [x | e].
  - rewrite rel_changes_table_leaf. simpl. split.
    + intros a [].
    + intros o [<- | []] (s & Hs). discriminate.
  - simpl in He.
    destruct (rel_changes_under r e k (wf_table_keys Hwf)) as [HA HO].
    rewrite Hlr in HA, HO.
    assert (Hsub :
      (forall a, In a (fst (key_changes e (k, rv'))) -> ~ extends p (add_path a))
      /\ (forall o, In o (snd (key_changes e (k, rv'))) -> ~ extends p (ov_path o))).
    { destruct (lookup k e) as [ev' |] eqn:Hle.
      - rewrite (key_changes_present _ Hle).
        apply IH; auto. apply (wf_value_lookup Hwf Hlr).
      - rewrite (key_changes_absent _ Hle). simpl. split.
        + apply rel_additions_empty_table; auto. apply (wf_value_lookup Hwf Hlr).
        + intros o []. }
    destruct Hsub as [HsA HsO]. split.
    + intros [q rp] Hin (s & Hs). simpl in Hs. subst q.
      apply (HsA (mkAddition (p ++ s) rp)).
      * rewrite <- HA. now apply In_add_under.
      * now exists s.
    + intros [q pv rp] Hin (s & Hs). simpl in Hs. subst q.
      apply (HsO (mkOverride (p ++ s) pv rp)).
      * rewrite <- HO. now apply In_ov_under.
      * now exists s.
Qed.

Lemma merge_value_empty_table (p : KeyPath) :
  forall rv ev,
    path_get rv p = Some (Table []) ->
    path_get ev p = None ->
    path_get (merge_value ev rv) p = Some (Table []).
Proof.
  induction p as [| k p IH]; intros rv ev Hr He; [discriminate |].
  simpl in Hr. destruct rv as [x | r]; [discriminate |]. simpl in Hr.
  destruct (lookup k r) as [rv' |] eqn:Hlr; [| discriminate].
  destruct ev as [x | e].
  - simpl. now rewrite Hlr.
  - rewrite merge_value_table. simpl. rewrite lookup_merge_dicts, Hlr.
    simpl in He. destruct (lookup k e) as [ev' |]; auto.
Qed.

(** ** What a rollback step leaves alone *)

Lemma path_get_cons (d : Dict) (k : string) (p : KeyPath) :
  path_get (Table d) (k :: p) =
  match lookup k d with Some v => path_get v p | None => None end.
Proof. reflexivity. Qed.

Lemma extends_cons (k : string) (q p : KeyPath) :
  extends (k :: q) (k :: p) <-> extends q p.
Proof.
  split; intros (s & Hs); exists s.
  - now inversion Hs.
  - simpl. now rewrite Hs.
Qed.

Lemma path_set_frame (q : KeyPath) :
  forall (d : Dict) (p : KeyPath) (cur v : Value) (d' : Dict),
    ~ extends q p ->
    path_get (Table d) p = Some (Table []) ->
    path_get (Table d) q = Some cur ->
    path_set d q v = Some d' ->
    path_get (Table d') p = Some (Table []).
Proof.
  induction q as [| key rest IH]; intros d p cur v d' Hext Hp Hq Hset; [discriminate |].
  destruct p as [| k' p].
  { simpl in Hp. inversion Hp; subst. simpl in Hq. discriminate. }
  rewrite path_get_cons in Hp, Hq.
  destruct (String.eqb_spec k' key) as [-> | Hne].
  - destruct rest as [| k2 rest].
    + exfalso. apply Hext. exists p. reflexivity.
    + rewrite path_set_cons in Hset.
      destruct (lookup key d) as [vv |] eqn:Hl; [| discriminate].
      destruct (path_get_cons_table _ _ _ _ Hq) as (child & ->).
      destruct (path_set child (k2 :: rest) v) as [child' |] eqn:Hc; [| discriminate].
      inversion Hset; subst d'. rewrite path_get_cons, lookup_dict_set_same.
      apply (IH child p cur v child'); auto.
      intros H. apply Hext. now apply extends_cons.
  - assert (Hd' : lookup k' d' = lookup k' d).
    { destruct rest as [| k2 rest].
      - simpl in Hset. inversion Hset; subst. now apply lookup_dict_set_other.
      - rewrite path_set_cons in Hset.
        destruct (path_set _ (k2 :: rest) v); [| discriminate].
        inversion Hset; subst. now apply lookup_dict_set_other. }
    now rewrite path_get_cons, Hd'.
Qed.

Lemma path_get_nonempty (d : Dict) (k : string) (p : KeyPath) (v : Value) :
  path_get (Table d) (k :: p) = Some v -> is_empty d = false.
Proof. destruct d; [discriminate | reflexivity]. Qed.

Lemma delete_prune_frame (q : KeyPath) :
  forall (d : Dict) (p : KeyPath) (d' : Dict),
    ~ extends q p ->
    path_get (Table d) p = Some (Table []) ->
    delete_prune d q = Some d' ->
    path_get (Table d') p = Some (Table []).
Proof.
  induction q as [| key rest IH]; intros d p d' Hext Hp Hdel; [discriminate |].
  destruct p as [| k' p].
  { simpl in Hp. inversion Hp; subst. destruct rest; discriminate. }
  rewrite path_get_cons in Hp.
  destruct (String.eqb_spec k' key) as [-> | Hne].
  - destruct rest as [| k2 rest].
    + exfalso. apply Hext. exists p. reflexivity.
    + rewrite delete_prune_cons in Hdel.
      destruct (lookup key d) as [[x | child] |] eqn:Hl; try discriminate.
      destruct (delete_prune child (k2 :: rest)) as [child' |] eqn:Hc; [| discriminate].
      assert (Hp' : path_get (Table child') p = Some (Table [])).
      { apply (IH child p child'); auto.
        intros H. apply Hext. now apply extends_cons. }
      assert (Hne' : is_empty child' = false).
      { destruct p as [| k3 p].
        - simpl in Hp. inversion Hp; subst. destruct rest; discriminate.
        - apply (path_get_nonempty _ _ _ _ Hp'). }
      rewrite Hne' in Hdel. inversion Hdel; subst d'.
      now rewrite path_get_cons, lookup_dict_set_same.
  - assert (Hd' : lookup k' d' = lookup k' d).
    { destruct rest as [| k2 rest].
      - simpl in Hdel. destruct (mem key d); [| discriminate].
        inversion Hdel; subst. now apply lookup_dict_del_other.
      - rewrite delete_prune_cons in Hdel.
        destruct (lookup key d) as [[x | child] |]; try discriminate.
        destruct (delete_prune child (k2 :: rest)) as [child' |]; [| discriminate].
        destruct (is_empty child'); inversion Hdel; subst.
        + now apply lookup_dict_del_other.
        + now apply lookup_dict_set_other. }
    now rewrite path_get_cons, Hd'.
Qed.

Lemma rollback_override_frame (p : KeyPath) (st st' : Dict * nat) (entry : Override) :
  ~ extends (ov_path entry) p ->
  path_get (Table (fst st)) p = Some (Table []) ->
  rollback_override st entry = Some st' ->
  path_get (Table (fst st')) p = Some (Table []).
Proof.
  destruct st as [d n]. unfold rollback_override. simpl. intros Hext Hp Hstep.
  destruct (path_get (Table d) (ov_path entry)) as [cur |] eqn:Hq.
  2:{ inversion Hstep; subst. exact Hp. }
  destruct (value_eqb cur (ov_repo entry)).
  2:{ inversion Hstep; subst. exact Hp. }
  destruct (path_set d (ov_path entry) (ov_previous entry)) as [d' |] eqn:Hset;
    [| discriminate].
  inversion Hstep; subst. simpl. eapply path_set_frame; eauto.
Qed.

Lemma rollback_addition_frame (p : KeyPath) (st st' : Dict * nat) (entry : Addition) :
  ~ extends (add_path entry) p ->
  path_get (Table (fst st)) p = Some (Table []) ->
  rollback_addition st entry = Some st' ->
  path_get (Table (fst st')) p = Some (Table []).
Proof.
  destruct st as [d n]. unfold rollback_addition. simpl. intros Hext Hp Hstep.
  destruct (path_get (Table d) (add_path entry)) as [cur |] eqn:Hq.
  2:{ inversion Hstep; subst. exact Hp. }
  destruct (value_eqb cur (add_repo entry)).
  2:{ inversion Hstep; subst. exact Hp. }
  assert (Hne : add_path entry <> []).
  { intros H. apply Hext. exists p. now rewrite H. }
  rewrite (path_delete_prune d Hne) in Hstep.
  destruct (delete_prune d (add_path entry)) as [d' |] eqn:Hdel.
  - inversion Hstep; subst. simpl. eapply delete_prune_frame; eauto.
  - inversion Hstep; subst. exact Hp.
Qed.

Lemma for_each_invariant {S E : Type} (body : S -> E -> option S) (I : S -> Prop)
    (entries : list E) :
  Forall (fun e => forall st st', I st -> body st e = Some st' -> I st') entries ->
  forall st st', I st -> for_each body entries st = Some st' -> I st'.
Proof.
  induction 1 as [| e entries He _ IH]; intros st st' Hst Hrun; simpl in Hrun.
  - inversion Hrun; subst. exact Hst.
  - destruct (body st e) as [st1 |] eqn:Hb; [| discriminate].
    eapply IH; [| exact Hrun]. eapply He; eauto.
Qed.

(** An empty table survives a rollback whose entries are neither at it nor
    on the way to it. *)
Lemma rollback_frame (p : KeyPath) (ovs : list Override) (adds : list Addition)
    (data data' : Dict) (skipped : nat) :
  Forall (fun o => ~ extends (ov_path o) p) ovs ->
  Forall (fun a => ~ extends (add_path a) p) adds ->
  path_get (Table data) p = Some (Table []) ->
  rollback ovs adds data = Some (data', skipped) ->
  path_get (Table data') p = Some (Table []).
Proof.
  intros Ho Ha Hp Hrun. unfold rollback in Hrun.
  destruct (for_each rollback_override ovs (data, 0)) as [st1 |] eqn:H1; [| discriminate].
  assert (Hp1 : path_get (Table (fst st1)) p = Some (Table [])).
  { apply (for_each_invariant rollback_override
             (fun st => path_get (Table (fst st)) p = Some (Table [])) ovs)
      with (st := (data, 0)); auto.
    eapply Forall_impl; [| exact Ho]. intros o Hext st st' Hst Hstep.
    eapply rollback_override_frame; eauto. }
  change data' with (fst (data', skipped)).
  apply (for_each_invariant rollback_addition
           (fun st => path_get (Table (fst st)) p = Some (Table [])) adds)
    with (st := st1); auto.
  eapply Forall_impl; [| exact Ha]. intros a Hext st st' Hst Hstep.
  eapply rollback_addition_frame; eauto.
Qed.

Lemma rel_changes_tables_paths (r e : Dict) :
  (forall a, In a (fst (rel_changes (Table r) (Table e))) -> add_path a <> [])
  /\ (forall o, In o (snd (rel_changes (Table r) (Table e))) -> ov_path o <> []).
Proof.
  rewrite rel_changes_tables. simpl. split.
  - intros a Hin. apply in_flat_map in Hin. destruct Hin as (kv & _ & Hin).
    apply in_map_iff in Hin. destruct Hin as (a' & <- & _). discriminate.
  - intros o Hin. apply in_flat_map in Hin. destruct Hin as (kv & _ & Hin).
    apply in_map_iff in Hin. destruct Hin as (o' & <- & _). discriminate.
Qed.

(** The differ records nothing at or above an empty repo table that the
    existing tree lacks, unless the existing tree holds a scalar on the way
    to it. *)
Lemma rel_changes_not_above (p : KeyPath) :
  forall rv ev,
    wf_value rv ->
    path_get rv p = Some (Table []) ->
    path_get ev p = None ->
    (forall q k s x, p = q ++ k :: s -> path_get ev q <> Some (Leaf x)) ->
    (forall a, In a (fst (rel_changes rv ev)) -> ~ extends (add_path a) p)
    /\ (forall o, In o (snd (rel_changes rv ev)) -> ~ extends (ov_path o) p).
Proof.
  induction p as [| k p IH]; intros rv ev Hwf Hr He Hsc; [discriminate |].
  simpl in Hr. destruct rv as [x | r]; [discriminate |]. simpl in Hr.
  destruct (lookup k r) as [rv' |] eqn:Hlr; [| discriminate].
  destruct ev as [x | e].
  { exfalso. apply (Hsc [] k p x); reflexivity. }
  simpl in He.
  destruct (rel_changes_under r e k (wf_table_keys Hwf)) as [HA HO].
  rewrite Hlr in HA, HO.
  destruct (rel_changes_tables_paths r e) as [HnA HnO].
  assert (Hwf' : wf_value rv') by apply (wf_value_lookup Hwf Hlr).
  assert (Hsub :
    (forall a, In a (fst (key_changes e (k, rv'))) -> ~ extends (add_path a) p)
    /\ (forall o, In o (snd (key_changes e (k, rv'))) -> ~ extends (ov_path o) p)).
  { destruct (lookup k e) as [ev' |] eqn:Hle.
    - rewrite (key_changes_present _ Hle). apply IH; auto.
      intros q k1 s x Hq Hget. apply (Hsc (k :: q) k1 s x).
      + simpl. now rewrite Hq.
      + rewrite path_get_cons, Hle. exact Hget.
    - rewrite (key_changes_absent _ Hle). simpl. split.
      + apply (rel_additions_off_tables rv' p [] Hwf' Hr).
      + intros o []. }
  destruct Hsub as [HsA HsO]. split.
  - intros [q rp] Hin Hext. destruct q as [| k0 q].
    { now apply (HnA _ Hin). }
    destruct Hext as (s & Hs). simpl in Hs. inversion Hs; subst k0.
    apply (HsA (mkAddition q rp)).
    + rewrite <- HA. now apply In_add_under.
    + now exists s.
  - intros [q pv rp] Hin Hext. destruct q as [| k0 q].
    { now apply (HnO _ Hin). }
    destruct Hext as (s & Hs). simpl in Hs. inversion Hs; subst k0.
    apply (HsO (mkOverride q pv rp)).
    + rewrite <- HO. now apply In_ov_under.
    + now exists s.
Qed.

(** C10, as stated, fails: the existing tree may lack the path because it
    holds a scalar on the way to it.  The differ then records an Override
    at that scalar, and the rollback puts the scalar back: the empty table
    is removed with everything around it. *)
Lemma empty_repo_table_removed_below_scalar :
  let repo_data := [("tools", Table [("shell", Table [])])] in
  let existing_data := [("tools", Leaf (SInt 1))] in
  let p := ["tools"; "shell"] in
  path_get (Table repo_data) p = Some (Table [])
  /\ path_get (Table existing_data) p = None
  /\ (forall a, In a (fst (diff repo_data existing_data)) -> ~ extends p (add_path a))
  /\ (forall o, In o (snd (diff repo_data existing_data)) -> ~ extends p (ov_path o))
  /\ path_get (Table (merge_dicts existing_data repo_data)) p = Some (Table [])
  /\ rollback (snd (diff repo_data existing_data)) (fst (diff repo_data existing_data))
              (merge_dicts existing_data repo_data)
     = Some (existing_data, 0)
  /\ ~ (exists data' skipped,
          rollback (snd (diff repo_data existing_data))
                   (fst (diff repo_data existing_data))
                   (merge_dicts existing_data repo_data) = Some (data', skipped)
          /\ path_get (Table data') p = Some (Table [])).
Proof.
  intros repo_data existing_data p.
  split; [reflexivity |]. split; [reflexivity |].
  split; [intros a [] |].
  split; [intros o [<- | []] (s & Hs); discriminate Hs |].
  split; [reflexivity |]. split; [reflexivity |].
  intros (data' & skipped & Hrun & Hget).
  vm_compute in Hrun. injection Hrun as <- _. discriminate Hget.
Qed.

(** C10, amended. An empty table of the repo tree at a path the existing
    tree lacks yields no Addition and no Override at that path or below it,
    and the merged tree holds the empty table there.  If the existing tree
    holds no scalar on the way to the path, the ledger has no entry on the
    way to it either, and a rollback of the recorded ledger leaves the
    empty table in any tree that has it. *)
Theorem empty_repo_table_untracked (repo_data existing_data : Dict) (p : KeyPath) :
  wf_table repo_data ->
  path_get (Table repo_data) p = Some (Table []) ->
  path_get (Table existing_data) p = None ->
  (forall a, In a (fst (diff repo_data existing_data)) -> ~ extends p (add_path a))
  /\ (forall o, In o (snd (diff repo_data existing_data)) -> ~ extends p (ov_path o))
  /\ path_get (Table (merge_dicts existing_data repo_data)) p = Some (Table [])
  /\ ((forall q k s x, p = q ++ k :: s ->
                       path_get (Table existing_data) q <> Some (Leaf x)) ->
      (forall a, In a (fst (diff repo_data existing_data)) -> ~ extends (add_path a) p)
      /\ (forall o, In o (snd (diff repo_data existing_data)) -> ~ extends (ov_path o) p)
      /\ forall data,
           path_get (Table data) p = Some (Table []) ->
           exists data' skipped,
             rollback (snd (diff repo_data existing_data))
                      (fst (diff repo_data existing_data)) data = Some (data', skipped)
             /\ path_get (Table data') p = Some (Table [])).
Proof.
  intros Hwf Hr He. rewrite diff_by_key.
  destruct (rel_changes_empty_table p _ _ Hwf Hr He) as [HA HO].
  split; [exact HA |]. split; [exact HO |]. split.
  - rewrite <- merge_value_table. now apply merge_value_empty_table.
  - intros Hsc.
    destruct (rel_changes_not_above p _ _ Hwf Hr He Hsc) as [HnA HnO].
    split; [exact HnA |]. split; [exact HnO |]. intros data Hp.
    assert (Ho : Forall (fun o => ~ extends (ov_path o) p)
                   (snd (rel_changes (Table repo_data) (Table existing_data)))).
    { apply Forall_forall. exact HnO. }
    assert (Ha : Forall (fun a => ~ extends (add_path a) p)
                   (fst (rel_changes (Table repo_data) (Table existing_data)))).
    { apply Forall_forall. exact HnA. }
    destruct (rel_changes_tables_paths repo_data existing_data) as [HpA HpO].
    destruct (@rollback_total
                (snd (rel_changes (Table repo_data) (Table existing_data)))
                (fst (rel_changes (Table repo_data) (Table existing_data))) data)
      as (data' & skipped & Hrun).
    { apply Forall_forall. exact HpO. }
    { apply Forall_forall. exact HpA. }
    exists data', skipped. split; auto.
    eapply rollback_frame; eauto.
Qed.

Lemma empty_repo_table_untracked_witness :
  let repo_data := [("mode", Leaf (SStr "auto")); ("tools", Table [("shell", Table [])])] in
  let existing_data := [("mode", Leaf (SStr "manual"))] in
  let p := ["tools"; "shell"] in
  (forall a, In a (fst (diff repo_data existing_data)) -> ~ extends p (add_path a))
  /\ (forall o, In o (snd (diff repo_data existing_data)) -> ~ extends p (ov_path o))
  /\ path_get (Table (merge_dicts existing_data repo_data)) p = Some (Table [])
  /\ (forall a, In a (fst (diff repo_data existing_data)) -> ~ extends (add_path a) p)
  /\ (forall o, In o (snd (diff repo_data existing_data)) -> ~ extends (ov_path o) p)
  /\ exists data' skipped,
       rollback (snd (diff repo_data existing_data))
                (fst (diff repo_data existing_data))
                (merge_dicts existing_data repo_data) = Some (data', skipped)
       /\ path_get (Table data') p = Some (Table []).
Proof.
  intros repo_data existing_data p.
  destruct (@empty_repo_table_untracked repo_data existing_data p)
    as (H1 & H2 & H3 & H4).
  - apply wf_table_unfold. split.
    + repeat constructor; simpl; intuition discriminate.
    + repeat constructor; simpl; intuition discriminate.
  - reflexivity.
  - reflexivity.
  - destruct H4 as (H4 & H5 & H6).
    + intros q k s x Hp Hget.
      destruct q as [| k1 [| k2 q]]; try discriminate Hget.
      * unfold p in Hp. injection Hp as E1 E2 E3. subst. discriminate Hget.
      * unfold p in Hp. injection Hp as E1 E2 E3. destruct q; discriminate.
    + split; [exact H1 |]. split; [exact H2 |]. split; [exact H3 |].
      split; [exact H4 |]. split; [exact H5 |]. apply H6. reflexivity.
Defined.

Example empty_repo_table_round_trip :
  let repo_data := [("mode", Leaf (SStr "auto")); ("tools", Table [("shell", Table [])])] in
  let existing_data := [("mode", Leaf (SStr "manual"))] in
  rollback (snd (diff repo_data existing_data)) (fst (diff repo_data existing_data))
           (merge_dicts existing_data repo_data)
  = Some ([("mode", Leaf (SStr "manual")); ("tools", Table [("shell", Table [])])], 0).
Proof. reflexivity. Qed.

(** ** Slots of a table *)

Lemma dict_set_same (key : string) (v : Value) (d : Dict) :
  lookup key d = Some v -> dict_set key v d = d.
Proof.
  induction d as [| [k w] d IH]; simpl; [discriminate |].
  destruct (String.eqb_spec k key) as [-> | _]; intros H.
  - now inversion H.
  - now rewrite IH.
Qed.

Lemma dict_set_set (key : string) (v w : Value) (d : Dict) :
  dict_set key v (dict_set key w d) = dict_set key v d.
Proof.
  induction d as [| [k x] d IH]; simpl.
  - now rewrite String.eqb_refl.
  - destruct (String.eqb k key) eqn:E; simpl; rewrite E; auto. now rewrite IH.
Qed.

Lemma dict_del_set (key : string) (w : Value) (d : Dict) :
  dict_del key (dict_set key w d) = dict_del key d.
Proof.
  induction d as [| [k x] d IH]; simpl.
  - now rewrite String.eqb_refl.
  - destruct (String.eqb k key) eqn:E; simpl; rewrite E; auto. now rewrite IH.
Qed.

Lemma dict_del_del (key : string) (d : Dict) :
  dict_del key (dict_del key d) = dict_del key d.
Proof.
  induction d as [| [k x] d IH]; simpl; auto.
  destruct (String.eqb k key) eqn:E; simpl; rewrite ?E; auto. now rewrite IH.
Qed.

Lemma put_lookup (key : string) (d : Dict) : put key (lookup key d) d = d.
Proof.
  unfold put. destruct (lookup key d) eqn:E.
  - now apply dict_set_same.
  - now apply dict_del_absent.
Qed.

Lemma lookup_put_same (key : string) (s : option Value) (d : Dict) :
  lookup key (put key s d) = s.
Proof.
  destruct s; simpl.
  - apply lookup_dict_set_same.
  - apply lookup_dict_del_same.
Qed.

Lemma lookup_put_other (key k : string) (s : option Value) (d : Dict) :
  k <> key -> lookup k (put key s d) = lookup k d.
Proof.
  intros Hne. destruct s; simpl.
  - now apply lookup_dict_set_other.
  - now apply lookup_dict_del_other.
Qed.

Lemma put_put (key : string) (s s1 : option Value) (d : Dict) :
  (s1 = None -> s = None) ->
  put key s (put key s1 d) = put key s d.
Proof.
  intros H. destruct s1 as [v1 |]; simpl.
  - destruct s; simpl; [apply dict_set_set | apply dict_del_set].
  - rewrite (H eq_refl). simpl. apply dict_del_del.
Qed.

Lemma dict_omap_app (h : string -> Value -> option Value) (d1 d2 : Dict) :
  dict_omap h (d1 ++ d2) = dict_omap h d1 ++ dict_omap h d2.
Proof. unfold dict_omap. apply flat_map_app. Qed.

Lemma dict_omap_ext (h h' : string -> Value -> option Value) (d : Dict) :
  (forall k v, In (k, v) d -> h k v = h' k v) -> dict_omap h d = dict_omap h' d.
Proof.
  induction d as [| [k v] d IH]; intros H; simpl; auto.
  rewrite (H k v (or_introl eq_refl)). f_equal. apply IH.
  intros k' v' Hin. apply H. now right.
Qed.

Lemma dict_omap_id (h : string -> Value -> option Value) (d : Dict) :
  (forall k v, In (k, v) d -> h k v = Some v) -> dict_omap h d = d.
Proof.
  induction d as [| [k v] d IH]; intros H; simpl; auto.
  rewrite (H k v (or_introl eq_refl)). simpl. f_equal. apply IH.
  intros k' v' Hin. apply H. now right.
Qed.

Lemma dict_omap_none (h : string -> Value -> option Value) (d : Dict) :
  (forall k v, In (k, v) d -> h k v = None) -> dict_omap h d = [].
Proof.
  induction d as [| [k v] d IH]; intros H; simpl; auto.
  rewrite (H k v (or_introl eq_refl)). simpl. apply IH.
  intros k' v' Hin. apply H. now right.
Qed.

Lemma dict_omap_omap (h1 h2 : string -> Value -> option Value) (d : Dict) :
  dict_omap h2 (dict_omap h1 d) =
  dict_omap (fun k v => match h1 k v with Some v' => h2 k v' | None => None end) d.
Proof.
  induction d as [| [k v] d IH]; simpl; auto.
  destruct (h1 k v) as [v' |]; simpl; now rewrite IH.
Qed.

Lemma keys_dict_omap (h : string -> Value -> option Value) (d : Dict) :
  (forall k v, In (k, v) d -> h k v <> None) -> keys (dict_omap h d) = keys d.
Proof.
  induction d as [| [k v] d IH]; intros H; simpl; auto.
  destruct (h k v) as [v' |] eqn:E.
  - simpl. f_equal. apply IH. intros k' w Hin. apply H. now right.
  - exfalso. apply (H k v); auto. now left.
Qed.

Lemma dict_set_omap (key : string) (x : Value) (d : Dict) :
  NoDup (keys d) -> mem key d = true ->
  dict_set key x d =
  dict_omap (fun k v => if String.eqb k key then Some x else Some v) d.
Proof.
  unfold mem. induction d as [| [k v] d IH]; simpl; intros Hnd Hm; [discriminate |].
  inversion Hnd as [| ? ? Hk Hnd']; subst.
  destruct (String.eqb_spec k key) as [-> | Hne]; simpl.
  - f_equal. symmetry. apply dict_omap_id. intros k' v' Hin.
    destruct (String.eqb_spec k' key) as [-> | _]; auto.
    exfalso. apply Hk. change key with (fst (key, v')). now apply in_map.
  - f_equal. now apply IH.
Qed.

Lemma dict_del_omap (key : string) (d : Dict) :
  dict_del key d =
  dict_omap (fun k v => if String.eqb k key then None else Some v) d.
Proof.
  induction d as [| [k v] d IH]; simpl; auto.
  destruct (String.eqb k key); simpl; now rewrite IH.
Qed.

Lemma put_omap (key : string) (s : option Value) (d : Dict) :
  NoDup (keys d) -> mem key d = true ->
  put key s d = dict_omap (fun k v => if String.eqb k key then s else Some v) d.
Proof.
  intros Hnd Hm. destruct s as [x |]; simpl.
  - now apply dict_set_omap.
  - apply dict_del_omap.
Qed.

Lemma NoDup_keys_omap (h : string -> Value -> option Value) (d : Dict) :
  NoDup (keys d) -> NoDup (keys (dict_omap h d)).
Proof.
  induction d as [| [k v] d IH]; simpl; intros Hnd; [constructor |].
  inversion Hnd as [| ? ? Hk Hnd']; subst.
  destruct (h k v); simpl; auto. constructor; auto.
  intros Hin. apply Hk. unfold keys in *. apply in_map_iff in Hin.
  destruct Hin as ([k' v'] & Heq & Hin). simpl in Heq. subst k'.
  unfold dict_omap in Hin. apply in_flat_map in Hin.
  destruct Hin as ([k2 v2] & Hin2 & Hin3). simpl in Hin3.
  destruct (h k2 v2); [| contradiction]. destruct Hin3 as [Heq | []].
  inversion Heq; subst. change k with (fst (k, v2)). now apply in_map.
Qed.

Lemma lookup_omap (h : string -> Value -> option Value) (key : string) (d : Dict) :
  NoDup (keys d) ->
  lookup key (dict_omap h d) =
  match lookup key d with Some v => h key v | None => None end.
Proof.
  induction d as [| [k v] d IH]; simpl; intros Hnd; auto.
  inversion Hnd as [| ? ? Hk Hnd']; subst.
  destruct (String.eqb_spec k key) as [-> | Hne].
  - destruct (h key v) as [v' |] eqn:E; simpl.
    + now rewrite String.eqb_refl.
    + rewrite IH by assumption. apply lookup_None in Hk. now rewrite Hk.
  - destruct (h k v); simpl; auto.
    apply String.eqb_neq in Hne. rewrite Hne. now apply IH.
Qed.

(** Writing the slots of the keys of [r], one after the other, into a table
    that holds all of them rewrites that table in place. *)
Lemma put_all_omap (r : Dict) (slots : string -> option Value) :
  forall d,
    NoDup (keys r) -> NoDup (keys d) ->
    (forall k, In k (keys r) -> mem k d = true) ->
    put_all r slots d =
    dict_omap (fun k v => if mem k r then slots k else Some v) d.
Proof.
  unfold put_all.
  induction r as [| [k1 v1] r IH]; intros d Hr Hd Hsub; simpl.
  - symmetry. now apply dict_omap_id.
  - inversion Hr as [| ? ? Hk1 Hr']; subst.
    rewrite (put_omap _ _ _ Hd) by (apply Hsub; now left).
    rewrite IH; auto.
    + rewrite dict_omap_omap. apply dict_omap_ext. intros k v Hin.
      unfold mem at 2. simpl.
      destruct (String.eqb_spec k k1) as [-> | Hne].
      * rewrite String.eqb_refl.
        assert (Hm : mem k1 r = false).
        { apply mem_false. now apply lookup_None. }
        rewrite Hm. now destruct (slots k1).
      * apply not_eq_sym in Hne. apply String.eqb_neq in Hne. rewrite Hne.
        reflexivity.
    + now apply NoDup_keys_omap.
    + intros k Hin.
      assert (Hne : k <> k1) by (intros ->; contradiction).
      unfold mem. rewrite lookup_omap by assumption.
      specialize (Hsub k (or_intror Hin)). unfold mem in Hsub.
      destruct (lookup k d); [| discriminate].
      apply String.eqb_neq in Hne. now rewrite Hne.
Qed.

Lemma lookup_put_all (r : Dict) (slots : string -> option Value) (key : string) :
  forall d,
    NoDup (keys r) ->
    lookup key (put_all r slots d) =
    if mem key r then slots key else lookup key d.
Proof.
  unfold put_all.
  induction r as [| [k1 v1] r IH]; intros d Hr; simpl; auto.
  inversion Hr as [| ? ? Hk1 Hr']; subst.
  rewrite IH by assumption. unfold mem at 2. simpl.
  destruct (String.eqb_spec k1 key) as [-> | Hne].
  - assert (Hm : mem key r = false).
    { apply mem_false. now apply lookup_None. }
    rewrite Hm. apply lookup_put_same.
  - fold (mem key r). destruct (mem key r); auto.
    apply lookup_put_other. congruence.
Qed.

(** ** A rollback loop, one key at a time *)

Lemma for_each_app {S E : Type} (body : S -> E -> option S) (l1 l2 : list E) (st : S) :
  for_each body (l1 ++ l2) st =
  match for_each body l1 st with
  | Some st' => for_each body l2 st'
  | None => None
  end.
Proof.
  revert st. induction l1 as [| e l1 IH]; intros st; simpl; auto.
  destruct (body st e); auto.
Qed.

Section OneKeyAtATime.

Variable E : Type.
Variable pre : string -> E -> E.
Variable root : Dict * nat -> E -> option (Dict * nat).
Variable slot : option Value * nat -> E -> option Value * nat.

(** The step at the root acts on the slot of the first key of the path. *)
Hypothesis local : forall k d n e,
  root (d, n) (pre k e) =
  Some (put k (fst (slot (lookup k d, n) e)) d, snd (slot (lookup k d, n) e)).

(** A missing key stays missing. *)
Hypothesis absorb : forall n e, fst (slot (None, n) e) = None.

Lemma slot_fold_absorb (L : list E) :
  forall n, fst (fold_left slot L (None, n)) = None.
Proof.
  induction L as [| e L IH]; intros n; simpl; auto.
  specialize (absorb n e). destruct (slot (None, n) e) as [s m]. simpl in absorb.
  subst s. apply IH.
Qed.

Lemma for_each_key (L : list E) (k : string) :
  forall d n,
    for_each root (map (pre k) L) (d, n) =
    Some (put k (fst (fold_left slot L (lookup k d, n))) d,
          snd (fold_left slot L (lookup k d, n))).
Proof.
  induction L as [| e L IH]; intros d n; simpl.
  - now rewrite put_lookup.
  - rewrite local. destruct (slot (lookup k d, n) e) as [s1 n1] eqn:Hs. simpl.
    rewrite IH, lookup_put_same. f_equal. f_equal.
    apply put_put. intros ->. apply slot_fold_absorb.
Qed.

(** The entries of a differ run come grouped by key of the repo table. *)
Lemma for_each_groups (G : string * Value -> list E) (slots : string -> option Value)
    (n : nat) (r : Dict) :
  NoDup (keys r) ->
  forall d,
    (forall k v, In (k, v) r ->
                 fold_left slot (G (k, v)) (lookup k d, n) = (slots k, n)) ->
    for_each root (flat_map (fun kv => map (pre (fst kv)) (G kv)) r) (d, n) =
    Some (put_all r slots d, n).
Proof.
  unfold put_all.
  induction r as [| [k v] r IH]; intros Hnd d Hslots; simpl; auto.
  inversion Hnd as [| ? ? Hk Hnd']; subst.
  rewrite for_each_app, for_each_key, (Hslots k v (or_introl eq_refl)). simpl.
  apply IH; auto.
  intros k' v' Hin.
  assert (Hne : k' <> k).
  { intros ->. apply Hk. change k with (fst (k, v')). now apply in_map. }
  rewrite lookup_put_other by assumption. apply Hslots. now right.
Qed.

End OneKeyAtATime.

Lemma value_set_cons (child : Dict) (k2 : string) (rest : KeyPath) (x : Value) :
  exists child',
    path_set child (k2 :: rest) x = Some child'
    /\ value_set (Table child) (k2 :: rest) x = Table child'.
Proof.
  destruct (@path_set_total (k2 :: rest) ltac:(discriminate) child x) as (c & Hc & _).
  exists c. split; auto. unfold value_set. now rewrite Hc.
Qed.

Lemma rollback_override_local (k : string) (d : Dict) (n : nat) (o : Override) :
  rollback_override (d, n) (ov_prefix [k] o) =
  Some (put k (fst (override_slot (lookup k d, n) o)) d,
        snd (override_slot (lookup k d, n) o)).
Proof.
  unfold rollback_override, override_slot. simpl ov_path. simpl ov_repo.
  simpl ov_previous. rewrite path_get_cons. simpl fst. simpl snd.
  destruct (lookup k d) as [v |] eqn:Hl.
  2:{ simpl. now rewrite dict_del_absent. }
  destruct (path_get v (ov_path o)) as [cur |] eqn:Hq.
  2:{ simpl. now rewrite dict_set_same. }
  destruct (value_eqb cur (ov_repo o)).
  2:{ simpl. now rewrite dict_set_same. }
  destruct (ov_path o) as [| k2 rest] eqn:Hp.
  - reflexivity.
  - destruct (path_get_cons_table _ _ _ _ Hq) as (child & ->).
    destruct (value_set_cons child k2 rest (ov_previous o)) as (child' & Hset & Hval).
    rewrite Hval. simpl put.
    change ([k] ++ k2 :: rest) with (k :: k2 :: rest).
    rewrite path_set_cons, Hl, Hset. reflexivity.
Qed.

Lemma rollback_addition_local (k : string) (d : Dict) (n : nat) (a : Addition) :
  rollback_addition (d, n) (add_prefix [k] a) =
  Some (put k (fst (addition_slot (lookup k d, n) a)) d,
        snd (addition_slot (lookup k d, n) a)).
Proof.
  unfold rollback_addition, addition_slot. simpl add_path. simpl add_repo.
  rewrite path_get_cons. simpl fst. simpl snd.
  destruct (lookup k d) as [v |] eqn:Hl.
  2:{ simpl. now rewrite dict_del_absent. }
  destruct (path_get v (add_path a)) as [cur |] eqn:Hq.
  2:{ simpl. now rewrite dict_set_same. }
  destruct (value_eqb cur (add_repo a)).
  2:{ simpl. now rewrite dict_set_same. }
  rewrite (@path_delete_prune d (k :: add_path a)) by discriminate.
  destruct (add_path a) as [| k2 rest] eqn:Hp.
  - simpl. unfold mem. now rewrite Hl.
  - destruct (path_get_cons_table _ _ _ _ Hq) as (child & ->).
    change ([k] ++ k2 :: rest) with (k :: k2 :: rest).
    rewrite delete_prune_cons, Hl.
    destruct (@delete_prune_present (k2 :: rest) child cur ltac:(discriminate) Hq)
      as (child' & Hdel & _).
    rewrite Hdel. unfold value_delete. rewrite Hdel.
    now destruct (is_empty child').
Qed.

Lemma override_slot_absorb (n : nat) (o : Override) :
  fst (override_slot (None, n) o) = None.
Proof. reflexivity. Qed.

Lemma addition_slot_absorb (n : nat) (a : Addition) :
  fst (addition_slot (None, n) a) = None.
Proof. reflexivity. Qed.

(** ** A table seen as a slot *)

Lemma override_slot_table (L : list Override) :
  Forall (fun o => ov_path o <> []) L ->
  forall t n t' n',
    for_each rollback_override L (t, n) = Some (t', n') ->
    fold_left override_slot L (Some (Table t), n) = (Some (Table t'), n').
Proof.
  induction 1 as [| o L Hne _ IH]; intros t n t' n' Hrun;
    cbn [for_each fold_left] in *.
  - now inversion Hrun.
  - destruct (rollback_override (t, n) o) as [[t1 n1] |] eqn:Hstep; [| discriminate].
    rewrite <- (IH t1 n1 t' n' Hrun). f_equal.
    unfold rollback_override in Hstep. cbv beta iota delta [override_slot fst snd].
    destruct (path_get (Table t) (ov_path o)) as [cur |].
    2:{ now inversion Hstep. }
    destruct (value_eqb cur (ov_repo o)).
    2:{ now inversion Hstep. }
    destruct (path_set t (ov_path o) (ov_previous o)) as [t2 |] eqn:Hset;
      [| discriminate].
    inversion Hstep; subst. unfold value_set.
    destruct (ov_path o); [congruence |]. now rewrite Hset.
Qed.

Lemma addition_slot_none (L : list Addition) (n : nat) :
  fold_left addition_slot L (None, n) = (None, n).
Proof. induction L; simpl; auto. Qed.

Lemma rollback_additions_empty (L : list Addition) (n : nat) :
  Forall (fun a => add_path a <> []) L ->
  for_each rollback_addition L ([], n) = Some ([], n).
Proof.
  induction 1 as [| a L Hne _ IH]; simpl; auto.
  destruct (add_path a) as [| k p] eqn:Hp; [congruence |]. simpl. exact IH.
Qed.

Lemma addition_slot_table (L : list Addition) :
  Forall (fun a => add_path a <> []) L ->
  forall t n t' n',
    is_empty t = false ->
    for_each rollback_addition L (t, n) = Some (t', n') ->
    fold_left addition_slot L (Some (Table t), n) =
    (if is_empty t' then None else Some (Table t'), n').
Proof.
  induction 1 as [| a L Hne HL IH]; intros t n t' n' Ht Hrun;
    cbn [for_each fold_left] in *.
  - inversion Hrun; subst. now rewrite Ht.
  - destruct (rollback_addition (t, n) a) as [[t1 n1] |] eqn:Hstep; [| discriminate].
    unfold rollback_addition in Hstep.
    change (addition_slot (Some (Table t), n) a)
      with (match path_get (Table t) (add_path a) with
            | None => (Some (Table t), n)
            | Some cur =>
                if value_eqb cur (add_repo a)
                then (value_delete (Table t) (add_path a), n)
                else (Some (Table t), S n)
            end).
    destruct (path_get (Table t) (add_path a)) as [cur |] eqn:Hq.
    2:{ inversion Hstep; subst. now apply IH. }
    destruct (value_eqb cur (add_repo a)).
    2:{ inversion Hstep; subst. now apply IH. }
    rewrite (path_delete_prune t Hne) in Hstep.
    destruct (delete_prune_present t cur Hne Hq) as (t2 & Hdel & _).
    rewrite Hdel in Hstep. inversion Hstep; subst t2 n1.
    unfold value_delete. destruct (add_path a) as [| k p] eqn:Hp; [congruence |].
    rewrite Hdel. destruct (is_empty t1) eqn:He.
    + destruct t1; [| discriminate].
      assert (Heq : Some (t', n') = Some (([] : Dict), n)).
      { rewrite <- Hrun. apply (rollback_additions_empty L n HL). }
      inversion Heq; subst.
      apply addition_slot_none.
    + now apply IH.
Qed.

(** ** Python's [==] on trees without NaN *)

Lemma In_leaves (t : Dict) (k : string) (v : Value) (s : Scalar) :
  In (k, v) t -> In s (leaves v) -> In s (leaves (Table t)).
Proof.
  intros Hin Hs. simpl. apply in_flat_map. exists (k, v). auto.
Qed.

Lemma reflexive_leaves_sub (t : Dict) (k : string) (v : Value) :
  In (k, v) t -> reflexive_leaves (Table t) -> reflexive_leaves v.
Proof. intros Hin H s Hs. apply H. eapply In_leaves; eauto. Qed.

Lemma value_eqb_refl (v : Value) :
  wf_value v -> reflexive_leaves v -> value_eqb v v = true.
Proof.
  induction v as [s | t IH] using Value_ind'; intros Hwf Hrefl.
  - simpl. apply Hrefl. now left.
  - simpl. rewrite Nat.eqb_refl. simpl.
    assert (Hall : forall l, (forall kv, In kv l -> In kv t) ->
              (fix all (l : Dict) : bool :=
                 match l with
                 | [] => true
                 | (k, v) :: rest =>
                     match lookup k t with
                     | Some w => value_eqb v w
                     | None => false
                     end && all rest
                 end) l = true).
    { induction l as [| [k v] l IHl]; intros Hsub; auto.
      assert (Hin : In (k, v) t) by (apply Hsub; now left).
      rewrite (In_lookup _ _ _ (wf_table_keys Hwf) Hin).
      rewrite Forall_forall in IH.
      pose proof (IH (k, v) Hin
                    (wf_value_lookup Hwf (In_lookup _ _ _ (wf_table_keys Hwf) Hin))
                    (reflexive_leaves_sub _ _ _ Hin Hrefl)) as Hv.
      simpl in Hv. rewrite Hv.
      simpl. apply IHl. intros kv Hkv. apply Hsub. now right. }
    apply Hall. auto.
Qed.

Lemma no_empty_table_sub (t : Dict) (k : string) (v : Value) :
  In (k, v) t -> no_empty_table (Table t) = true -> no_empty_table v = true.
Proof.
  intros Hin H. simpl in H. apply andb_true_iff in H. destruct H as [_ H].
  rewrite forallb_forall in H. apply (H (k, v) Hin).
Qed.

Lemma rel_additions_paths (t : Dict) :
  Forall (fun a => add_path a <> []) (rel_additions (Table t)).
Proof.
  apply Forall_forall. intros a Hin. rewrite rel_additions_table in Hin.
  apply in_flat_map in Hin. destruct Hin as (kv & _ & Hin).
  apply in_map_iff in Hin. destruct Hin as (a' & <- & _). discriminate.
Qed.

(** ** The conditions of the round trip along the walk of the differ *)

Lemma lockstep_tables (undo : bool) (r e : Dict) :
  lockstep undo (Table r) (Table e) <->
  (undo = true -> is_empty e = true -> is_empty r = true)
  /\ (forall k v, In (k, v) r -> lockstep_key undo e k v).
Proof.
  cbn [lockstep].
  assert (H : forall l,
            (fix all (l : Dict) : Prop :=
               match l with
               | [] => True
               | (k, v) :: rest =>
                   match lookup k e with
                   | Some ev' => lockstep undo v ev'
                   | None => no_empty_table v = true
                   end /\ all rest
               end) l
            <-> (forall k v, In (k, v) l -> lockstep_key undo e k v)).
  { induction l as [| [k v] l IH].
    - split; [intros _ k v [] | auto].
    - split.
      + intros [Hk Hl] k' v' [Heq | Hin].
        * inversion Heq; subst. exact Hk.
        * now apply IH.
      + intros Hall. split.
        * apply (Hall k v). now left.
        * apply IH. intros k' v' Hin. apply Hall. now right. }
  split; intros [H1 H2]; (split; [exact H1 | now apply H]).
Qed.

Lemma no_empty_table_paths (v : Value) :
  wf_value v ->
  (forall p, path_get v p <> Some (Table [])) -> no_empty_table v = true.
Proof.
  induction v as [s | t IH] using Value_ind'; intros Hwf Hp; [reflexivity |].
  cbn [no_empty_table]. apply andb_true_iff. split.
  - destruct t; [| reflexivity]. now destruct (Hp []).
  - apply forallb_forall. intros [k v] Hin. cbn [snd].
    pose proof (In_lookup _ _ _ (wf_table_keys Hwf) Hin) as Hl.
    rewrite Forall_forall in IH. pose proof (IH (k, v) Hin) as IHv. cbn [snd] in IHv.
    apply IHv; [apply (wf_value_lookup Hwf Hl) |].
    intros p Hget. apply (Hp (k :: p)). rewrite path_get_cons, Hl. exact Hget.
Qed.

Lemma added_path_cons (e : Dict) (k : string) (ev : Value) (p : KeyPath) :
  lookup k e = Some ev -> added_path ev p -> added_path (Table e) (k :: p).
Proof.
  intros Hl (q & k1 & s1 & t & Hp & Hq & Hk).
  exists (k :: q), k1, s1, t. split; [simpl; now rewrite Hp |].
  split; [rewrite path_get_cons, Hl; exact Hq | exact Hk].
Qed.

Lemma added_path_here (e : Dict) (k : string) (p : KeyPath) :
  lookup k e = None -> added_path (Table e) (k :: p).
Proof. intros Hl. exists [], k, p, e. auto. Qed.

(** The conditions stated path by path give the conditions along the
    walk. *)
Lemma lockstep_of_paths (undo : bool) (rv : Value) :
  forall ev,
    wf_value rv ->
    exact_at_paths ev rv ->
    no_empty_table_added ev rv ->
    (undo = true ->
     forall p r, path_get ev p = Some (Table []) -> path_get rv p = Some (Table r) ->
                 r = []) ->
    lockstep undo rv ev.
Proof.
  induction rv as [s | r IH] using Value_ind'; intros ev Hwf Hex Hadd Hfill.
  - destruct ev as [x | e]; cbn [lockstep]; [| exact I].
    intros Heq. now apply (Hex [] x s).
  - destruct ev as [x | e]; [exact I |].
    apply lockstep_tables. split.
    + intros Hu He. destruct e; [| discriminate].
      now rewrite (Hfill Hu [] r eq_refl eq_refl).
    + intros k v Hin. unfold lockstep_key.
      pose proof (In_lookup _ _ _ (wf_table_keys Hwf) Hin) as Hlr.
      destruct (lookup k e) as [ev' |] eqn:Hle.
      * rewrite Forall_forall in IH. pose proof (IH (k, v) Hin) as IHv.
        cbn [snd] in IHv. apply IHv.
        -- apply (wf_value_lookup Hwf Hlr).
        -- intros p x s Hx Hs. apply (Hex (k :: p)).
           ++ rewrite path_get_cons, Hle. exact Hx.
           ++ rewrite path_get_cons, Hlr. exact Hs.
        -- intros p Hp Hget. apply (Hadd (k :: p)).
           ++ now apply (added_path_cons e k ev').
           ++ rewrite path_get_cons, Hlr. exact Hget.
        -- intros Hu p r' Hpe Hpr. apply (Hfill Hu (k :: p)).
           ++ rewrite path_get_cons, Hle. exact Hpe.
           ++ rewrite path_get_cons, Hlr. exact Hpr.
      * apply no_empty_table_paths; [apply (wf_value_lookup Hwf Hlr) |].
        intros p Hget. apply (Hadd (k :: p)).
        -- now apply added_path_here.
        -- rewrite path_get_cons, Hlr. exact Hget.
Qed.

(** The same for the keys of the root tables; the root of the existing
    tree may be empty. *)
Lemma lockstep_keys_of_paths (undo : bool) (r e : Dict) :
  wf_table r ->
  exact_at_paths (Table e) (Table r) ->
  no_empty_table_added (Table e) (Table r) ->
  (undo = true -> no_empty_table_filled (Table e) (Table r)) ->
  forall k v, In (k, v) r -> lockstep_key undo e k v.
Proof.
  intros Hwf Hex Hadd Hfill k v Hin. unfold lockstep_key.
  pose proof (In_lookup _ _ _ (wf_table_keys Hwf) Hin) as Hlr.
  destruct (lookup k e) as [ev' |] eqn:Hle.
  - apply lockstep_of_paths.
    + apply (wf_value_lookup Hwf Hlr).
    + intros p x s Hx Hs. apply (Hex (k :: p)).
      * rewrite path_get_cons, Hle. exact Hx.
      * rewrite path_get_cons, Hlr. exact Hs.
    + intros p Hp Hget. apply (Hadd (k :: p)).
      * now apply (added_path_cons e k ev').
      * rewrite path_get_cons, Hlr. exact Hget.
    + intros Hu p r' Hpe Hpr. apply (Hfill Hu (k :: p)).
      * discriminate.
      * rewrite path_get_cons, Hle. exact Hpe.
      * rewrite path_get_cons, Hlr. exact Hpr.
  - apply no_empty_table_paths; [apply (wf_value_lookup Hwf Hlr) |].
    intros p Hget. apply (Hadd (k :: p)).
    + now apply added_path_here.
    + rewrite path_get_cons, Hlr. exact Hget.
Qed.

(** ** Rolling back a subtree that was added as a whole *)

Lemma additions_removed (v : Value) :
  wf_value v -> no_empty_table v = true -> reflexive_leaves v ->
  forall n, fold_left addition_slot (rel_additions v) (Some v, n) = (None, n).
Proof.
  induction v as [s | t IH] using Value_ind'; intros Hwf Hne Hrefl n.
  - simpl. unfold addition_slot. simpl.
    rewrite (Hrefl s (or_introl eq_refl)). reflexivity.
  - assert (Hrun : for_each rollback_addition (rel_additions (Table t)) (t, n)
                   = Some ([], n)).
    { rewrite rel_additions_table.
      rewrite (for_each_groups Addition (fun k => add_prefix [k])
                 rollback_addition addition_slot
                 rollback_addition_local addition_slot_absorb
                 (fun kv => rel_additions (snd kv)) (fun _ => None) n t
                 (wf_table_keys Hwf)).
      - rewrite put_all_omap.
        + f_equal. f_equal. apply dict_omap_none. intros k v Hin.
          assert (Hm : mem k t = true).
          { apply mem_true. change k with (fst (k, v)). now apply in_map. }
          now rewrite Hm.
        + exact (wf_table_keys Hwf).
        + exact (wf_table_keys Hwf).
        + intros k Hin. now apply mem_true.
      - intros k v Hin. simpl.
        rewrite (In_lookup _ _ _ (wf_table_keys Hwf) Hin).
        rewrite Forall_forall in IH. apply (IH (k, v) Hin).
        + apply (wf_value_lookup Hwf (In_lookup _ _ _ (wf_table_keys Hwf) Hin)).
        + apply (no_empty_table_sub _ _ _ Hin Hne).
        + apply (reflexive_leaves_sub _ _ _ Hin Hrefl). }
    assert (Ht : is_empty t = false).
    { simpl in Hne. apply andb_true_iff in Hne. destruct Hne as [Hne _].
      now destruct (is_empty t). }
    rewrite (addition_slot_table _ (rel_additions_paths t) t n [] n Ht Hrun). reflexivity.
Qed.

(** ** Rolling back the changes of an untouched merge *)

Lemma NoDup_keys_merge (e r : Dict) :
  NoDup (keys e) -> NoDup (keys r) -> NoDup (keys (merge_dicts e r)).
Proof.
  intros He Hr. rewrite keys_merge_dicts.
  apply NoDup_app; auto.
  - now apply NoDup_filter.
  - intros k Hk Hin. apply filter_In in Hin. destruct Hin as [_ Hm].
    apply mem_true in Hk. rewrite Hk in Hm. discriminate.
Qed.

Lemma dict_omap_map (h : string -> Value -> option Value) (F : string -> Value -> Value)
    (d : Dict) :
  dict_omap h (map (fun kv : string * Value => let (k, v) := kv in (k, F k v)) d) =
  dict_omap (fun k v => h k (F k v)) d.
Proof.
  induction d as [| [k v] d IH]; simpl; auto. now rewrite IH.
Qed.

Lemma tables_rolled_back (r e : Dict) :
  wf_table r -> wf_table e ->
  reflexive_leaves (Table r) ->
  (forall k v, In (k, v) r -> lockstep_key true e k v) ->
  Forall (fun kv => restores (snd kv)) r ->
  forall n, exists mid,
    for_each rollback_override (snd (rel_changes (Table r) (Table e)))
             (merge_dicts e r, n) = Some (mid, n)
    /\ keys mid = keys (merge_dicts e r)
    /\ for_each rollback_addition (fst (rel_changes (Table r) (Table e))) (mid, n)
       = Some (e, n).
Proof.
  intros Hwr Hwe Hrefl Hstep Hrest n.
  pose proof (wf_table_keys Hwr) as Hndr. pose proof (wf_table_keys Hwe) as Hnde.
  set (m := merge_dicts e r).
  assert (Hndm : NoDup (keys m)) by now apply NoDup_keys_merge.
  (* every key of the repo table, on its own *)
  assert (KF : forall k v, In (k, v) r ->
            exists x,
              fold_left override_slot (snd (key_changes e (k, v))) (lookup k m, n)
                = (Some x, n)
              /\ fold_left addition_slot (fst (key_changes e (k, v))) (Some x, n)
                = (lookup k e, n)).
  { intros k v Hin. pose proof (In_lookup _ _ _ Hndr Hin) as Hlr.
    unfold m. rewrite lookup_merge_dicts, Hlr.
    destruct (lookup k e) as [ev |] eqn:Hle.
    - rewrite (key_changes_present _ Hle).
      rewrite Forall_forall in Hrest.
      apply (Hrest (k, v) Hin ev).
      + apply (wf_value_lookup Hwr Hlr).
      + apply (wf_value_lookup Hwe Hle).
      + apply (reflexive_leaves_sub _ _ _ Hin Hrefl).
      + pose proof (Hstep k v Hin) as Hk. unfold lockstep_key in Hk.
        now rewrite Hle in Hk.
    - rewrite (key_changes_absent _ Hle). simpl. exists v. split; auto.
      apply additions_removed.
      + apply (wf_value_lookup Hwr Hlr).
      + pose proof (Hstep k v Hin) as Hk. unfold lockstep_key in Hk.
        now rewrite Hle in Hk.
      + apply (reflexive_leaves_sub _ _ _ Hin Hrefl). }
  set (slots1 := fun k =>
         match lookup k r with
         | Some v =>
             fst (fold_left override_slot (snd (key_changes e (k, v))) (lookup k m, n))
         | None => None
         end).
  assert (Hslots1 : forall k v, In (k, v) r ->
            exists x, slots1 k = Some x
              /\ fold_left override_slot (snd (key_changes e (k, v))) (lookup k m, n)
                 = (slots1 k, n)
              /\ fold_left addition_slot (fst (key_changes e (k, v))) (slots1 k, n)
                 = (lookup k e, n)).
  { intros k v Hin. destruct (KF k v Hin) as (x & H1 & H2).
    exists x. unfold slots1. rewrite (In_lookup _ _ _ Hndr Hin), H1. simpl. auto. }
  assert (Hsub : forall k, In k (keys r) -> mem k m = true).
  { intros k Hin. apply mem_true. unfold m. rewrite keys_merge_dicts.
    apply in_or_app. destruct (mem k e) eqn:Hm.
    - left. now apply mem_true.
    - right. apply filter_In. split; auto. now rewrite Hm. }
  assert (Hmem : forall k, mem k r = true -> exists v x, In (k, v) r /\ slots1 k = Some x).
  { intros k Hm. unfold mem in Hm. destruct (lookup k r) as [v |] eqn:Hl; [| discriminate].
    pose proof (lookup_Some_In _ _ _ Hl) as Hin.
    destruct (Hslots1 k v Hin) as (x & Hx & _). eauto. }
  exists (put_all r slots1 m).
  destruct (rel_changes_tables r e) as [].
  rewrite rel_changes_tables. simpl fst. simpl snd.
  assert (Hmid : put_all r slots1 m =
                 dict_omap (fun k v => if mem k r then slots1 k else Some v) m).
  { apply put_all_omap; auto. }
  assert (Hkeys : keys (put_all r slots1 m) = keys m).
  { rewrite Hmid. apply keys_dict_omap. intros k v _.
    destruct (mem k r) eqn:Hm; [| discriminate].
    destruct (Hmem k Hm) as (v' & x & _ & ->). discriminate. }
  split; [| split; [exact Hkeys |]].
  - apply (for_each_groups Override (fun k => ov_prefix [k])
             rollback_override override_slot
             rollback_override_local override_slot_absorb
             (fun kv => snd (key_changes e kv)) slots1 n r Hndr).
    intros k v Hin. destruct (Hslots1 k v Hin) as (x & _ & H1 & _). exact H1.
  - rewrite (for_each_groups Addition (fun k => add_prefix [k])
               rollback_addition addition_slot
               rollback_addition_local addition_slot_absorb
               (fun kv => fst (key_changes e kv)) (fun k => lookup k e) n r Hndr).
    + f_equal. f_equal.
      rewrite put_all_omap; auto.
      2:{ rewrite Hkeys. exact Hndm. }
      2:{ intros k Hin. apply mem_true. rewrite Hkeys. apply mem_true. now apply Hsub. }
      rewrite Hmid, dict_omap_omap. unfold m, merge_dicts.
      rewrite dict_omap_app.
      rewrite (dict_omap_map _
                 (fun key base_val =>
                    match lookup key r with
                    | Some overlay_val => merge_value base_val overlay_val
                    | None => base_val
                    end)).
      rewrite dict_omap_id, dict_omap_none.
      * apply app_nil_r.
      * intros k v Hin. apply filter_In in Hin. destruct Hin as [Hin Hk]. simpl in Hk.
        assert (Hm : mem k r = true).
        { apply mem_true. change k with (fst (k, v)). now apply in_map. }
        rewrite Hm. destruct (Hmem k Hm) as (v' & x & _ & ->). cbv beta iota.
        apply mem_false. now destruct (mem k e).
      * intros k v Hin. destruct (mem k r) eqn:Hm.
        -- destruct (Hmem k Hm) as (v' & x & _ & ->). cbv beta iota.
           now apply In_lookup.
        -- cbv beta iota. apply mem_false in Hm. now rewrite Hm.
    + intros k v Hin. destruct (Hslots1 k v Hin) as (x & Hx & _ & H2).
      rewrite lookup_put_all by assumption.
      assert (Hm : mem k r = true).
      { apply mem_true. change k with (fst (k, v)). now apply in_map. }
      rewrite Hm. exact H2.
Qed.

Lemma merge_nonempty (e r : Dict) : is_empty e = false -> is_empty (merge_dicts e r) = false.
Proof. destruct e as [| [k v] e]; [discriminate | reflexivity]. Qed.

Lemma is_empty_keys (d d' : Dict) : keys d = keys d' -> is_empty d = is_empty d'.
Proof. destruct d, d'; simpl; auto; discriminate. Qed.

Lemma changes_rolled_back (rv : Value) : restores rv.
Proof.
  induction rv as [s | r IH] using Value_ind';
    intros ev Hwr Hwe Hrefl Hstep n.
  - assert (Hs : py_eqb s s = true) by (apply Hrefl; now left).
    destruct ev as [x | e].
    + rewrite rel_changes_leaves. simpl merge_value.
      destruct (py_eqb x s) eqn:Heq.
      * cbn [lockstep] in Hstep. rewrite (Hstep Heq).
        exists (Leaf s). split; reflexivity.
      * exists (Leaf x). simpl. unfold override_slot. simpl. rewrite Hs. auto.
    + rewrite rel_changes_leaf_table. exists (Table e). simpl.
      unfold override_slot. simpl. rewrite Hs. auto.
  - destruct ev as [x | e].
    + rewrite rel_changes_table_leaf. exists (Leaf x). simpl fst. simpl snd.
      change (merge_value (Leaf x) (Table r)) with (Table r).
      cbn [fold_left]. unfold override_slot. cbn [fst snd ov_path ov_repo ov_previous path_get].
      rewrite (value_eqb_refl _ Hwr Hrefl). auto.
    + rewrite merge_value_table.
      apply lockstep_tables in Hstep. destruct Hstep as [Hfill Hstep].
      destruct (is_empty e) eqn:Hee.
      { destruct e; [| discriminate].
        specialize (Hfill eq_refl eq_refl). destruct r; [| discriminate].
        exists (Table []). split; reflexivity. }
      destruct (tables_rolled_back r e Hwr Hwe Hrefl Hstep IH n)
        as (mid & Hov & Hkeys & Hadd).
      destruct (rel_changes_tables_paths r e) as [HpA HpO].
      exists (Table mid). split.
      * apply override_slot_table; auto. now apply Forall_forall.
      * rewrite (addition_slot_table _ (proj2 (Forall_forall _ _) HpA) mid n e n); auto.
        -- now rewrite Hee.
        -- rewrite (is_empty_keys _ _ Hkeys). now apply merge_nonempty.
Qed.

(** C1, as stated, fails: an empty table in the repo tree is merged into
    the document but leaves no ledger entry, so the rollback of the
    untouched merge does not give back the (here empty, non-existent)
    tree. *)
Lemma round_trip_keeps_empty_repo_table :
  let repo_data := [("tools", Table [])] in
  let existing_data := ([] : Dict) in
  rollback (snd (diff repo_data existing_data)) (fst (diff repo_data existing_data))
           (merge_dicts existing_data repo_data)
  = Some ([("tools", Table [])], 0)
  /\ rollback (snd (diff repo_data existing_data)) (fst (diff repo_data existing_data))
              (merge_dicts existing_data repo_data)
     <> Some (existing_data, 0).
Proof. split; [reflexivity | discriminate]. Qed.

(** The ledger of an untouched install undoes it. *)
Lemma diff_rolled_back (repo_data existing_data : Dict) :
  wf_table repo_data -> wf_table existing_data ->
  reflexive_leaves (Table repo_data) ->
  exact_at_paths (Table existing_data) (Table repo_data) ->
  no_empty_table_added (Table existing_data) (Table repo_data) ->
  no_empty_table_filled (Table existing_data) (Table repo_data) ->
  rollback (snd (diff repo_data existing_data)) (fst (diff repo_data existing_data))
           (merge_dicts existing_data repo_data)
  = Some (existing_data, 0).
Proof.
  intros Hwr Hwe Hrefl Hexact Hadded Hfilled.
  rewrite diff_by_key. unfold rollback.
  assert (Hrest : Forall (fun kv => restores (snd kv)) repo_data).
  { apply Forall_forall. intros kv _. apply changes_rolled_back. }
  assert (Hstep : forall k v, In (k, v) repo_data -> lockstep_key true existing_data k v).
  { apply lockstep_keys_of_paths; auto. }
  destruct (tables_rolled_back repo_data existing_data Hwr Hwe Hrefl Hstep Hrest 0)
    as (mid & Hov & _ & Hadd).
  rewrite Hov. exact Hadd.
Qed.

(** Walking a path through a tree that is written out: every key of the
    path is compared with the keys of the table it meets. *)
Ltac walk H :=
  repeat
    match type of H with
    | path_get _ ?p = Some _ =>
        is_var p; destruct p as [| ? p]; cbn [path_get item lookup app] in H
    | context [String.eqb ?a ?k] =>
        is_var k; destruct (String.eqb_spec a k); [subst k |];
        cbn [path_get item lookup app] in H
    | context [String.eqb ?a ?b] =>
        let r := eval vm_compute in (String.eqb a b) in
        match r with
        | true => idtac
        | false => idtac
        end;
        change (String.eqb a b) with r in H;
        cbn [path_get item lookup app] in H
    end.

Ltac exact_at_paths_concrete :=
  let p := fresh "p" in
  let Hx := fresh "Hx" in
  let Hs := fresh "Hs" in
  let Heq := fresh "Heq" in
  intros p ? ? Hx Hs Heq; walk Hx; try discriminate Hx;
  cbn in Hs; try discriminate Hs;
  injection Hx as <-; injection Hs as <-;
  first [reflexivity | discriminate Heq].

Ltac no_empty_table_added_concrete :=
  let p := fresh "p" in
  let q := fresh "q" in
  let k := fresh "k" in
  let Hp := fresh "Hp" in
  let Hq := fresh "Hq" in
  let Hk := fresh "Hk" in
  let Hget := fresh "Hget" in
  intros p (q & k & ? & ? & Hp & Hq & Hk) Hget; subst p;
  walk Hq; try discriminate Hq; injection Hq as <-;
  cbn [lookup] in Hk; walk Hk; try discriminate Hk;
  cbn [path_get item lookup app] in Hget; walk Hget;
  try discriminate Hget; try congruence.

Ltac no_empty_table_filled_concrete :=
  let p := fresh "p" in
  let Hne := fresh "Hne" in
  let He := fresh "He" in
  let Hr := fresh "Hr" in
  intros p ? Hne He Hr; walk He; try discriminate He; try congruence;
  cbn in Hr; try discriminate Hr; now injection Hr as <-.

(** C1, amended. For trees with unique keys such that the repo tree has no
    NaN leaf, an existing and a repo leaf at the same path that are equal
    under Python's [==] are the same value, no empty table of the repo tree
    lies under a key that the existing tree lacks, and no empty table of
    the existing tree below the root meets a repo table that has keys: the
    rollback of the ledger built from [diff(R, E)] against the unmodified
    [merge(E, R)] returns [E] itself with a skipped count of 0; when that
    tree is empty and no document existed, [remove] unlinks the document
    instead of writing it.  (On no other trees with unique keys does the
    rollback return [E] with a count of 0: [round_trip_only_if].) *)
Theorem install_remove_round_trip (repo_data existing_data : Dict) :
  wf_table repo_data -> wf_table existing_data ->
  reflexive_leaves (Table repo_data) ->
  exact_at_paths (Table existing_data) (Table repo_data) ->
  no_empty_table_added (Table existing_data) (Table repo_data) ->
  no_empty_table_filled (Table existing_data) (Table repo_data) ->
  rollback (snd (diff repo_data existing_data)) (fst (diff repo_data existing_data))
           (merge_dicts existing_data repo_data)
  = Some (existing_data, 0)
  /\ (existing_data = [] ->
      forall format_key format_value ledger,
        had_config ledger = false ->
        target_after format_key format_value existing_data ledger = None).
Proof.
  intros Hwr Hwe Hrefl Hexact Hadded Hfilled. split.
  - now apply diff_rolled_back.
  - intros -> format_key format_value ledger Hhad.
    unfold target_after. simpl. now rewrite Hhad.
Qed.

(** Two runs: over a configuration that holds a leaf equal under [==] to a
    repo leaf at another path ([retries = 1], [enabled = true]), an empty
    table the repo does not touch and a table that meets an empty repo
    table; and without any configuration, where the document is unlinked. *)
Lemma install_remove_round_trip_witness :
  let repo_data :=
    [("mode", Leaf (SStr "auto")); ("enabled", Leaf (SBool true));
     ("tools", Table [("shell", Table [("enabled", Leaf (SBool true))])]);
     ("cache", Table [])] in
  let existing_data :=
    [("mode", Leaf (SStr "manual")); ("retries", Leaf (SInt 1));
     ("tools", Table [("web", Leaf (SStr "on"))]); ("keep", Table []);
     ("cache", Table [("dir", Leaf (SStr "x"))])] in
  let fresh_repo := [("tools", Table [("shell", Table [("enabled", Leaf (SBool true))])])] in
  let ledger := mkLedger "config.toml" false [] (fst (diff fresh_repo [])) [] in
  rollback (snd (diff repo_data existing_data)) (fst (diff repo_data existing_data))
           (merge_dicts existing_data repo_data)
  = Some (existing_data, 0)
  /\ rollback (snd (diff fresh_repo [])) (fst (diff fresh_repo []))
              (merge_dicts [] fresh_repo)
     = Some ([], 0)
  /\ target_after (fun k => k) (fun _ => "true") [] ledger = None.
Proof.
  intros repo_data existing_data fresh_repo ledger.
  assert (Hwr : wf_table repo_data).
  { apply wf_table_unfold. split.
    - repeat constructor; simpl; intuition discriminate.
    - repeat constructor; simpl; intuition discriminate. }
  assert (Hwe : wf_table existing_data).
  { apply wf_table_unfold. split.
    - repeat constructor; simpl; intuition discriminate.
    - repeat constructor; simpl; intuition discriminate. }
  assert (Hwf : wf_table fresh_repo).
  { apply wf_table_unfold. split.
    - repeat constructor; simpl; intuition discriminate.
    - repeat constructor; simpl; intuition discriminate. }
  assert (Hwn : wf_table []).
  { apply wf_table_unfold. split; constructor. }
  split; [| split].
  - apply (@install_remove_round_trip repo_data existing_data Hwr Hwe).
    + intros s Hs. simpl in Hs.
      repeat (destruct Hs as [<- | Hs]; [reflexivity |]). contradiction.
    + unfold existing_data, repo_data. exact_at_paths_concrete.
    + unfold existing_data, repo_data. no_empty_table_added_concrete.
    + unfold existing_data, repo_data. no_empty_table_filled_concrete.
  - apply (@install_remove_round_trip fresh_repo [] Hwf Hwn).
    + intros s Hs. simpl in Hs.
      repeat (destruct Hs as [<- | Hs]; [reflexivity |]). contradiction.
    + unfold fresh_repo. exact_at_paths_concrete.
    + unfold fresh_repo. no_empty_table_added_concrete.
    + unfold fresh_repo. no_empty_table_filled_concrete.
  - refine (proj2 (@install_remove_round_trip fresh_repo [] Hwf Hwn _ _ _ _)
              eq_refl (fun k => k) (fun _ => "true") ledger eq_refl).
    + intros s Hs. simpl in Hs.
      repeat (destruct Hs as [<- | Hs]; [reflexivity |]). contradiction.
    + unfold fresh_repo. exact_at_paths_concrete.
    + unfold fresh_repo. no_empty_table_added_concrete.
    + unfold fresh_repo. no_empty_table_filled_concrete.
Defined.

Example round_trip_scenario :
  let repo_data := [("mode", Leaf (SStr "auto")); ("timeout", Leaf (SInt 30))] in
  let existing_data := [("mode", Leaf (SStr "manual"))] in
  merge_dicts existing_data repo_data = repo_data
  /\ diff repo_data existing_data =
     ([mkAddition ["timeout"] (Leaf (SInt 30))],
      [mkOverride ["mode"] (Leaf (SStr "manual")) (Leaf (SStr "auto"))])
  /\ rollback (snd (diff repo_data existing_data)) (fst (diff repo_data existing_data))
              (merge_dicts existing_data repo_data)
     = Some (existing_data, 0).
Proof. repeat split. Qed.

(** ** Applying the recorded changes, one key at a time *)

Lemma assign_local (k : string) (d : Dict) (pv : KeyPath * Value) :
  assign d (under_key k pv) =
  Some (dict_set k (set_slot (lookup k d) (fst pv) (snd pv)) d).
Proof.
  destruct pv as [p x]. unfold assign, under_key, set_slot. cbn [fst snd].
  destruct p as [| k2 rest]; auto.
  rewrite path_set_cons.
  destruct (@path_set_total (k2 :: rest) ltac:(discriminate)
              match lookup k d with Some (Table c) => c | _ => [] end x)
    as (c' & Hc & _).
  now rewrite Hc.
Qed.

Lemma assign_slot_some (L : list (KeyPath * Value)) (v : Value) :
  exists w, fold_left assign_slot L (Some v) = Some w.
Proof.
  revert v. induction L as [| pv L IH]; intros v; simpl; eauto.
Qed.

Lemma assign_slot_none (L : list (KeyPath * Value)) (s : option Value) :
  fold_left assign_slot L s = None -> s = None /\ L = [].
Proof.
  destruct L as [| pv L]; simpl; auto.
  destruct (assign_slot_some L (set_slot s (fst pv) (snd pv))) as (w & Hw).
  change (assign_slot s pv) with (Some (set_slot s (fst pv) (snd pv))).
  rewrite Hw. discriminate.
Qed.

Lemma for_each_assign_key (L : list (KeyPath * Value)) (k : string) :
  forall d,
    for_each assign (map (under_key k) L) d =
    Some (put_some k (fold_left assign_slot L (lookup k d)) d).
Proof.
  induction L as [| pv L IH]; intros d; simpl.
  - unfold put_some. destruct (lookup k d) eqn:Hl; auto.
    now rewrite dict_set_same.
  - rewrite assign_local, IH, lookup_dict_set_same.
    change (assign_slot (lookup k d) pv)
      with (Some (set_slot (lookup k d) (fst pv) (snd pv))).
    destruct (assign_slot_some L (set_slot (lookup k d) (fst pv) (snd pv))) as (w & Hw).
    rewrite Hw. simpl. now rewrite dict_set_set.
Qed.

Lemma lookup_put_some_other (key k : string) (s : option Value) (d : Dict) :
  k <> key -> lookup k (put_some key s d) = lookup k d.
Proof. intros Hne. destruct s; simpl; auto. now apply lookup_dict_set_other. Qed.

Lemma for_each_assign_groups (G : string * Value -> list (KeyPath * Value))
    (slots : string -> option Value) (r : Dict) :
  NoDup (keys r) ->
  forall d,
    (forall k v, In (k, v) r -> fold_left assign_slot (G (k, v)) (lookup k d) = slots k) ->
    for_each assign (flat_map (fun kv => map (under_key (fst kv)) (G kv)) r) d =
    Some (set_all r slots d).
Proof.
  unfold set_all.
  induction r as [| [k v] r IH]; intros Hnd d Hslots; simpl; auto.
  inversion Hnd as [| ? ? Hk Hnd']; subst.
  rewrite for_each_app, for_each_assign_key, (Hslots k v (or_introl eq_refl)).
  apply IH; auto.
  intros k' v' Hin.
  assert (Hne : k' <> k).
  { intros ->. apply Hk. change k with (fst (k, v')). now apply in_map. }
  rewrite lookup_put_some_other by assumption. apply Hslots. now right.
Qed.

Lemma lookup_set_all (r : Dict) (slots : string -> option Value) (key : string) :
  forall d,
    NoDup (keys r) ->
    lookup key (set_all r slots d) =
    if mem key r then
      match slots key with Some v => Some v | None => lookup key d end
    else lookup key d.
Proof.
  unfold set_all.
  induction r as [| [k1 v1] r IH]; intros d Hr; simpl; auto.
  inversion Hr as [| ? ? Hk1 Hr']; subst.
  rewrite IH by assumption. unfold mem at 2. simpl.
  destruct (String.eqb_spec k1 key) as [-> | Hne].
  - assert (Hm : mem key r = false).
    { apply mem_false. now apply lookup_None. }
    rewrite Hm. destruct (slots key); simpl; auto. apply lookup_dict_set_same.
  - fold (mem key r).
    rewrite lookup_put_some_other by congruence. reflexivity.
Qed.

Lemma mem_app_single (k k1 : string) (x : Value) (d : Dict) :
  k <> k1 -> mem k (d ++ [(k1, x)]) = mem k d.
Proof.
  intros Hne. unfold mem. rewrite lookup_app. destruct (lookup k d); auto.
  simpl. apply not_eq_sym in Hne. apply String.eqb_neq in Hne. now rewrite Hne.
Qed.

Lemma mem_keys (k : string) (d d' : Dict) : keys d = keys d' -> mem k d = mem k d'.
Proof.
  intros H. destruct (mem k d) eqn:E.
  - symmetry. apply mem_true. rewrite <- H. now apply mem_true.
  - destruct (mem k d') eqn:E'; auto.
    apply mem_true in E'. rewrite <- H in E'. apply mem_true in E'. congruence.
Qed.

Lemma keys_set_all (r : Dict) (slots : string -> option Value) :
  forall d,
    NoDup (keys r) ->
    keys (set_all r slots d) =
    keys d ++ filter (fun k => negb (mem k d) && is_some (slots k)) (keys r).
Proof.
  unfold set_all.
  induction r as [| [k1 v1] r IH]; intros d Hr; simpl.
  - now rewrite app_nil_r.
  - inversion Hr as [| ? ? Hk1 Hr']; subst.
    rewrite IH by assumption.
    destruct (slots k1) as [x |] eqn:Hs; simpl.
    + destruct (mem k1 d) eqn:Hm; simpl.
      * rewrite keys_dict_set_present by assumption. f_equal.
        apply filter_ext. intros k.
        now rewrite (mem_keys k _ _ (keys_dict_set_present k1 x d Hm)).
      * apply mem_false in Hm. rewrite (dict_set_absent _ _ _ Hm).
        unfold keys at 1. rewrite map_app. simpl. rewrite <- app_assoc. simpl.
        f_equal. f_equal. apply filter_ext_in. intros k Hin.
        rewrite mem_app_single; auto. intros ->. contradiction.
    + rewrite andb_false_r. reflexivity.
Qed.

Lemma dict_ext (d d' : Dict) :
  NoDup (keys d) -> keys d = keys d' ->
  (forall k, lookup k d = lookup k d') -> d = d'.
Proof.
  revert d'. induction d as [| [k v] d IH]; intros [| [k' v'] d'] Hnd Hk Hl;
    try discriminate; auto.
  simpl in Hk. injection Hk as Hkk Hkeys. subst k'.
  inversion Hnd as [| ? ? Hnk Hnd']; subst.
  pose proof (Hl k) as Hlk. simpl in Hlk. rewrite String.eqb_refl in Hlk.
  injection Hlk as ->.
  f_equal. apply IH; auto.
  intros k0. specialize (Hl k0). simpl in Hl.
  destruct (String.eqb_spec k k0) as [-> | Hne]; auto.
  assert (Ha : lookup k0 d = None) by now apply lookup_None.
  assert (Hb : lookup k0 d' = None).
  { apply lookup_None. unfold keys in *. now rewrite <- Hkeys. }
  congruence.
Qed.

(** ** The recorded changes rebuild the merge *)

Lemma assign_slot_table (L : list (KeyPath * Value)) :
  Forall (fun pv => fst pv <> []) L ->
  forall t t',
    for_each assign L t = Some t' ->
    fold_left assign_slot L (Some (Table t)) = Some (Table t').
Proof.
  induction 1 as [| pv L Hne _ IH]; intros t t' Hrun; cbn [for_each fold_left] in *.
  - now inversion Hrun.
  - destruct (assign t pv) as [t1 |] eqn:Hstep; [| discriminate].
    rewrite <- (IH t1 t' Hrun). f_equal.
    unfold assign in Hstep. unfold assign_slot, set_slot.
    destruct pv as [p x]. cbn [fst snd] in *.
    destruct p; [congruence |]. now rewrite Hstep.
Qed.

Lemma assign_slot_fresh (L : list (KeyPath * Value)) :
  L <> [] -> Forall (fun pv => fst pv <> []) L ->
  fold_left assign_slot L None = fold_left assign_slot L (Some (Table [])).
Proof.
  intros Hne Hall. destruct L as [| pv L]; [congruence |].
  inversion Hall as [| ? ? Hp _]; subst. destruct pv as [p x].
  cbn [fst] in Hp. destruct p as [| k p]; [congruence |]. reflexivity.
Qed.

Lemma addition_assignment_prefix (k : string) (L : list Addition) :
  map addition_assignment (map (add_prefix [k]) L) =
  map (under_key k) (map addition_assignment L).
Proof. rewrite !map_map. now apply map_ext. Qed.

Lemma override_assignment_prefix (k : string) (L : list Override) :
  map override_assignment (map (ov_prefix [k]) L) =
  map (under_key k) (map override_assignment L).
Proof. rewrite !map_map. now apply map_ext. Qed.

Lemma additions_grouped (G : string * Value -> list Addition) (r : Dict) :
  map addition_assignment (flat_map (fun kv => map (add_prefix [fst kv]) (G kv)) r) =
  flat_map (fun kv => map (under_key (fst kv)) (map addition_assignment (G kv))) r.
Proof.
  rewrite map_flat_map. apply flat_map_ext. intros kv.
  apply addition_assignment_prefix.
Qed.

Lemma overrides_grouped (G : string * Value -> list Override) (r : Dict) :
  map override_assignment (flat_map (fun kv => map (ov_prefix [fst kv]) (G kv)) r) =
  flat_map (fun kv => map (under_key (fst kv)) (map override_assignment (G kv))) r.
Proof.
  rewrite map_flat_map. apply flat_map_ext. intros kv.
  apply override_assignment_prefix.
Qed.

Lemma rel_additions_nonempty (v : Value) :
  no_empty_table v = true -> rel_additions v <> [].
Proof.
  induction v as [s | t IH] using Value_ind'; intros Hne.
  - discriminate.
  - rewrite rel_additions_table. destruct t as [| [k v] t]; [discriminate |].
    simpl in Hne. apply andb_true_iff in Hne. destruct Hne as [Hv _].
    inversion IH as [| ? ? IHv _]; subst. simpl in *.
    specialize (IHv Hv). destruct (rel_additions v); [congruence | discriminate].
Qed.

Lemma filter_none {A : Type} (f : A -> bool) (l : list A) :
  (forall x, In x l -> f x = false) -> filter f l = [].
Proof.
  induction l as [| x l IH]; intros H; simpl; auto.
  rewrite (H x (or_introl eq_refl)). apply IH. intros y Hy. apply H. now right.
Qed.

Lemma filter_all {A : Type} (f : A -> bool) (l : list A) :
  (forall x, In x l -> f x = true) -> filter f l = l.
Proof.
  induction l as [| x l IH]; intros H; simpl; auto.
  rewrite (H x (or_introl eq_refl)). f_equal. apply IH. intros y Hy. apply H. now right.
Qed.

(** A subtree added as a whole is rebuilt from its Additions. *)
Lemma additions_rebuild (v : Value) :
  wf_value v -> no_empty_table v = true ->
  fold_left assign_slot (map addition_assignment (rel_additions v)) None = Some v.
Proof.
  induction v as [s | t IH] using Value_ind'; intros Hwf Hne.
  - reflexivity.
  - pose proof (wf_table_keys Hwf) as Hnd.
    assert (Hrun : for_each assign (map addition_assignment (rel_additions (Table t))) []
                   = Some t).
    { rewrite rel_additions_table, additions_grouped.
      rewrite (for_each_assign_groups
                 (fun kv => map addition_assignment (rel_additions (snd kv)))
                 (fun k => lookup k t) t Hnd).
      - f_equal. symmetry. apply dict_ext; auto.
        + rewrite keys_set_all by assumption. simpl.
          symmetry. apply filter_all. intros k Hin. simpl.
          apply mem_true in Hin. unfold mem in Hin.
          now destruct (lookup k t).
        + intros k. rewrite lookup_set_all by assumption. simpl.
          unfold mem. now destruct (lookup k t).
      - intros k v Hin. simpl.
        rewrite (In_lookup _ _ _ Hnd Hin).
        rewrite Forall_forall in IH. apply (IH (k, v) Hin).
        + apply (wf_value_lookup Hwf (In_lookup _ _ _ Hnd Hin)).
        + apply (no_empty_table_sub _ _ _ Hin Hne). }
    assert (Hpaths : Forall (fun pv : KeyPath * Value => fst pv <> [])
                       (map addition_assignment (rel_additions (Table t)))).
    { apply Forall_forall. intros pv Hin. apply in_map_iff in Hin.
      destruct Hin as (a & <- & Hin). simpl.
      pose proof (rel_additions_paths t) as Hp. rewrite Forall_forall in Hp. auto. }
    rewrite assign_slot_fresh; auto.
    + now apply assign_slot_table.
    + intros Hnil. apply map_eq_nil in Hnil.
      now apply (rel_additions_nonempty (Table t)).
Qed.

Lemma tables_reproduced (r e : Dict) :
  wf_table r -> wf_table e ->
  (forall k v, In (k, v) r -> lockstep_key false e k v) ->
  Forall (fun kv => reproduces (snd kv)) r ->
  exists d1,
    for_each assign (map addition_assignment (fst (rel_changes (Table r) (Table e)))) e
      = Some d1
    /\ for_each assign (map override_assignment (snd (rel_changes (Table r) (Table e)))) d1
      = Some (merge_dicts e r).
Proof.
  intros Hwr Hwe Hstep Hrep.
  pose proof (wf_table_keys Hwr) as Hndr. pose proof (wf_table_keys Hwe) as Hnde.
  set (m := merge_dicts e r).
  assert (Hndm : NoDup (keys m)) by now apply NoDup_keys_merge.
  set (GA := fun kv : string * Value => map addition_assignment (fst (key_changes e kv))).
  set (GO := fun kv : string * Value => map override_assignment (snd (key_changes e kv))).
  set (slotsA := fun k =>
         match lookup k r with
         | Some v => fold_left assign_slot (GA (k, v)) (lookup k e)
         | None => None
         end).
  assert (KF : forall k v, In (k, v) r ->
            exists a, slotsA k = Some a
              /\ fold_left assign_slot (GA (k, v)) (lookup k e) = slotsA k
              /\ fold_left assign_slot (GO (k, v)) (Some a) = lookup k m).
  { intros k v Hin. pose proof (In_lookup _ _ _ Hndr Hin) as Hlr.
    unfold slotsA, m. rewrite Hlr, lookup_merge_dicts, Hlr. unfold GA, GO.
    destruct (lookup k e) as [ev |] eqn:Hle.
    - rewrite (key_changes_present _ Hle).
      destruct (assign_slot_some
                  (map addition_assignment (fst (rel_changes v ev))) ev) as (a & Ha).
      exists a. split; auto. split; auto. rewrite <- Ha.
      rewrite Forall_forall in Hrep. apply (Hrep (k, v) Hin ev).
      + apply (wf_value_lookup Hwr Hlr).
      + apply (wf_value_lookup Hwe Hle).
      + pose proof (Hstep k v Hin) as Hk. unfold lockstep_key in Hk.
        now rewrite Hle in Hk.
    - rewrite (key_changes_absent _ Hle). simpl. exists v.
      rewrite additions_rebuild; auto.
      + apply (wf_value_lookup Hwr Hlr).
      + pose proof (Hstep k v Hin) as Hk. unfold lockstep_key in Hk.
        now rewrite Hle in Hk. }
  assert (Hmem : forall k, mem k r = true -> exists v a, In (k, v) r /\ slotsA k = Some a).
  { intros k Hm. unfold mem in Hm. destruct (lookup k r) as [v |] eqn:Hl; [| discriminate].
    pose proof (lookup_Some_In _ _ _ Hl) as Hin.
    destruct (KF k v Hin) as (a & Ha & _). eauto. }
  assert (Hkeys1 : keys (set_all r slotsA e) = keys m).
  { rewrite keys_set_all by assumption. unfold m. rewrite keys_merge_dicts. f_equal.
    apply filter_ext_in. intros k Hin. apply mem_true in Hin.
    destruct (Hmem k Hin) as (v & a & _ & ->). simpl. now rewrite andb_true_r. }
  exists (set_all r slotsA e).
  rewrite rel_changes_tables. simpl fst. simpl snd.
  rewrite additions_grouped, overrides_grouped. split.
  - apply (for_each_assign_groups GA slotsA r Hndr).
    intros k v Hin. destruct (KF k v Hin) as (a & _ & H1 & _). exact H1.
  - rewrite (for_each_assign_groups GO (fun k => lookup k m) r Hndr).
    + f_equal. symmetry. apply dict_ext; auto.
      * rewrite keys_set_all by assumption. rewrite Hkeys1.
        rewrite filter_none; [now rewrite app_nil_r |].
        intros k Hin. apply mem_true in Hin.
        assert (Hm : mem k (set_all r slotsA e) = true).
        { rewrite (mem_keys k _ _ Hkeys1). apply mem_true. unfold m.
          rewrite keys_merge_dicts. apply in_or_app.
          destruct (mem k e) eqn:Hme.
          - left. now apply mem_true.
          - right. apply filter_In. split; [now apply mem_true | now rewrite Hme]. }
        now rewrite Hm.
      * intros k. rewrite lookup_set_all by assumption.
        destruct (mem k r) eqn:Hm.
        -- destruct (lookup k m) eqn:Hlm; auto.
           pose proof (mem_keys k _ _ Hkeys1) as Hmk. unfold mem in Hmk.
           rewrite Hlm in Hmk. now destruct (lookup k (set_all r slotsA e)).
        -- rewrite lookup_set_all, Hm by assumption.
           unfold m. rewrite lookup_merge_dicts.
           apply mem_false in Hm. rewrite Hm. now destruct (lookup k e).
    + intros k v Hin. destruct (KF k v Hin) as (a & Ha & _ & H2).
      rewrite lookup_set_all by assumption.
      assert (Hm : mem k r = true).
      { apply mem_true. change k with (fst (k, v)). now apply in_map. }
      rewrite Hm, Ha. exact H2.
Qed.

Lemma changes_reproduced (rv : Value) : reproduces rv.
Proof.
  induction rv as [s | r IH] using Value_ind'; intros ev Hwr Hwe Hstep.
  - destruct ev as [x | e].
    + rewrite rel_changes_leaves. simpl merge_value.
      destruct (py_eqb x s) eqn:Heq.
      * cbn [lockstep] in Hstep. now rewrite (Hstep Heq).
      * reflexivity.
    + reflexivity.
  - destruct ev as [x | e].
    + reflexivity.
    + rewrite merge_value_table.
      apply lockstep_tables in Hstep. destruct Hstep as [_ Hstep].
      destruct (tables_reproduced r e Hwr Hwe Hstep IH) as (d1 & HA & HO).
      destruct (rel_changes_tables_paths r e) as [HpA HpO].
      assert (HFA : Forall (fun pv : KeyPath * Value => fst pv <> [])
                      (map addition_assignment
                         (fst (rel_changes (Table r) (Table e))))).
      { apply Forall_forall. intros pv Hin. apply in_map_iff in Hin.
        destruct Hin as (a & <- & Hin). simpl. auto. }
      assert (HFO : Forall (fun pv : KeyPath * Value => fst pv <> [])
                      (map override_assignment
                         (snd (rel_changes (Table r) (Table e))))).
      { apply Forall_forall. intros pv Hin. apply in_map_iff in Hin.
        destruct Hin as (o & <- & Hin). simpl. auto. }
      rewrite (assign_slot_table _ HFA e d1 HA).
      apply (assign_slot_table _ HFO d1 _ HO).
Qed.

(** C2, as stated, fails: the empty table of the repo tree is in the merge
    but no recorded change brings it into the existing tree. *)
Lemma changes_miss_empty_repo_table :
  let repo_data := [("tools", Table [])] in
  let existing_data := ([] : Dict) in
  apply_changes (diff repo_data existing_data) existing_data = Some []
  /\ merge_dicts existing_data repo_data = [("tools", Table [])]
  /\ apply_changes (diff repo_data existing_data) existing_data
     <> Some (merge_dicts existing_data repo_data).
Proof. repeat split. discriminate. Qed.

(** C2, amended. For trees with unique keys such that an existing and a
    repo leaf at the same path that are equal under Python's [==] are the
    same value, and no empty table of the repo tree lies under a key that
    the existing tree lacks: setting the repo value at the path of every
    recorded Addition and of every recorded Override, starting from the
    existing tree, gives exactly [merge(E, R)], key order included.  (On no
    other trees with unique keys does it: [changes_reproduce_merge_only_if].) *)
Theorem changes_reproduce_merge (repo_data existing_data : Dict) :
  wf_table repo_data -> wf_table existing_data ->
  exact_at_paths (Table existing_data) (Table repo_data) ->
  no_empty_table_added (Table existing_data) (Table repo_data) ->
  apply_changes (diff repo_data existing_data) existing_data
  = Some (merge_dicts existing_data repo_data).
Proof.
  intros Hwr Hwe Hexact Hadded.
  unfold apply_changes. rewrite diff_by_key, for_each_app.
  assert (Hrep : Forall (fun kv => reproduces (snd kv)) repo_data).
  { apply Forall_forall. intros kv _. apply changes_reproduced. }
  assert (Hstep : forall k v, In (k, v) repo_data -> lockstep_key false existing_data k v).
  { apply lockstep_keys_of_paths; auto. discriminate. }
  destruct (tables_reproduced repo_data existing_data Hwr Hwe Hstep Hrep)
    as (d1 & HA & HO).
  now rewrite HA.
Qed.

(** A run over a configuration that holds a leaf equal under [==] to a repo
    leaf at another path, two tables that meet an empty repo table, one of
    them empty itself, and a scalar that meets an empty repo table. *)
Lemma changes_reproduce_merge_witness :
  let repo_data :=
    [("mode", Leaf (SStr "auto")); ("enabled", Leaf (SBool true));
     ("tools", Table [("shell", Table [("enabled", Leaf (SBool true))])]);
     ("cache", Table []); ("keep", Table []); ("log", Table [])] in
  let existing_data :=
    [("mode", Leaf (SStr "manual")); ("retries", Leaf (SInt 1));
     ("tools", Table [("web", Leaf (SStr "on"))]); ("keep", Table []);
     ("cache", Table [("dir", Leaf (SStr "x"))]); ("log", Leaf (SInt 2))] in
  apply_changes (diff repo_data existing_data) existing_data
  = Some (merge_dicts existing_data repo_data).
Proof.
  intros repo_data existing_data.
  apply (@changes_reproduce_merge repo_data existing_data).
  - apply wf_table_unfold. split.
    + repeat constructor; simpl; intuition discriminate.
    + repeat constructor; simpl; intuition discriminate.
  - apply wf_table_unfold. split.
    + repeat constructor; simpl; intuition discriminate.
    + repeat constructor; simpl; intuition discriminate.
  - unfold existing_data, repo_data. exact_at_paths_concrete.
  - unfold existing_data, repo_data. no_empty_table_added_concrete.
Defined.

(** ** Why the amended statements carry their conditions *)

(** An empty table of the existing tree that receives additions is pruned
    by the rollback. *)
Example round_trip_prunes_empty_existing_table :
  let repo_data := [("a", Table [("x", Leaf (SInt 1))])] in
  let existing_data := [("a", Table [])] in
  rollback (snd (diff repo_data existing_data)) (fst (diff repo_data existing_data))
           (merge_dicts existing_data repo_data)
  = Some ([], 0).
Proof. reflexivity. Qed.

(** A NaN never equals itself: the added leaf is counted as modified. *)
Example round_trip_skips_nan :
  let repo_data := [("x", Leaf (SFloat S754_nan))] in
  rollback (snd (diff repo_data [])) (fst (diff repo_data []))
           (merge_dicts [] repo_data)
  = Some ([("x", Leaf (SFloat S754_nan))], 1).
Proof. reflexivity. Qed.

(** [True == 1] in Python: the differ sees no change, the merge takes the
    repo value, and neither the recorded changes nor the rollback know. *)
Example bool_and_int_compare_equal :
  let repo_data := [("a", Leaf (SInt 1))] in
  let existing_data := [("a", Leaf (SBool true))] in
  diff repo_data existing_data = ([], [])
  /\ merge_dicts existing_data repo_data = repo_data
  /\ apply_changes (diff repo_data existing_data) existing_data = Some existing_data
  /\ rollback (snd (diff repo_data existing_data)) (fst (diff repo_data existing_data))
              (merge_dicts existing_data repo_data)
     = Some (repo_data, 0).
Proof. repeat split. Qed.

(* ================================================================== *)
(** * Further properties of the merger, the differ and the path operations *)

(** ** Merging *)

Lemma merge_dicts_nil_l (overlay : Dict) : merge_dicts [] overlay = overlay.
Proof.
  unfold merge_dicts. simpl. apply filter_all. intros; reflexivity.
Qed.

Lemma merge_dicts_nil_r (base : Dict) : merge_dicts base [] = base.
Proof.
  unfold merge_dicts. simpl. rewrite app_nil_r.
  induction base as [| [k v] b IH]; simpl; auto. now rewrite IH.
Qed.

Lemma wf_merge_value (ev : Value) :
  forall rv, wf_value ev -> wf_value rv -> wf_value (merge_value ev rv).
Proof.
  induction ev as [s | e IH] using Value_ind'; intros rv He Hr.
  - destruct rv; simpl; auto.
  - destruct rv as [s | r]; [exact Hr |].
    rewrite merge_value_table.
    change (wf_table (merge_dicts e r)).
    apply wf_table_unfold. split.
    + apply NoDup_keys_merge; [exact (wf_table_keys He) | exact (wf_table_keys Hr)].
    + apply Forall_forall. intros [k v] Hin.
      assert (Hl : lookup k (merge_dicts e r) = Some v).
      { apply In_lookup; auto.
        apply NoDup_keys_merge; [exact (wf_table_keys He) | exact (wf_table_keys Hr)]. }
      rewrite lookup_merge_dicts in Hl. simpl.
      destruct (lookup k e) as [ev |] eqn:Hke.
      * destruct (lookup k r) as [rv |] eqn:Hkr.
        -- injection Hl as <-.
           rewrite Forall_forall in IH.
           apply (IH (k, ev) (lookup_Some_In _ _ _ Hke)).
           ++ exact (wf_value_lookup He Hke).
           ++ exact (wf_value_lookup Hr Hkr).
        -- injection Hl as <-. exact (wf_value_lookup He Hke).
      * exact (wf_value_lookup Hr Hl).
Qed.

Lemma wf_merge_dicts (e r : Dict) :
  wf_table e -> wf_table r -> wf_table (merge_dicts e r).
Proof. intros He Hr. exact (wf_merge_value (Table e) (Table r) He Hr). Qed.

Lemma filter_keys_present (d e : Dict) :
  (forall k, In k (keys d) -> mem k e = true) ->
  filter (fun k => negb (mem k e)) (keys d) = [].
Proof.
  intros H. apply filter_none. intros k Hk. now rewrite (H k Hk).
Qed.

Lemma merge_value_self (v : Value) : wf_value v -> merge_value v v = v.
Proof.
  induction v as [s | t IH] using Value_ind'; intros Hwf; [reflexivity |].
  rewrite merge_value_table. f_equal.
  symmetry. apply dict_ext.
  - exact (wf_table_keys Hwf).
  - rewrite keys_merge_dicts, filter_keys_present, app_nil_r; auto.
    intros k Hk. now apply mem_true.
  - intros k. rewrite lookup_merge_dicts.
    destruct (lookup k t) as [v |] eqn:Hk; auto.
    rewrite Forall_forall in IH.
    pose proof (IH (k, v) (lookup_Some_In _ _ _ Hk)) as IHv. simpl in IHv.
    rewrite IHv; auto.
    exact (wf_value_lookup Hwf Hk).
Qed.

Lemma mem_merge_dicts (e r : Dict) (k : string) :
  mem k (merge_dicts e r) = mem k e || mem k r.
Proof.
  unfold mem. rewrite lookup_merge_dicts.
  destruct (lookup k e), (lookup k r); reflexivity.
Qed.

Lemma merge_value_absorb (ev : Value) :
  forall rv, wf_value ev -> wf_value rv ->
             merge_value (merge_value ev rv) rv = merge_value ev rv.
Proof.
  induction ev as [s | e IH] using Value_ind'; intros rv He Hr.
  - destruct rv as [x | r]; simpl; auto.
    now apply (merge_value_self (Table r)).
  - destruct rv as [x | r]; [reflexivity |].
    rewrite !merge_value_table. f_equal.
    assert (Hm : wf_table (merge_dicts e r)) by now apply wf_merge_dicts.
    symmetry. apply dict_ext.
    + exact (wf_table_keys Hm).
    + rewrite (keys_merge_dicts (merge_dicts e r) r), filter_keys_present, app_nil_r; auto.
      intros k Hk. rewrite mem_merge_dicts.
      apply mem_true in Hk. rewrite Hk. apply orb_true_r.
    + intros k. rewrite (lookup_merge_dicts (merge_dicts e r) r), lookup_merge_dicts.
      destruct (lookup k e) as [ev |] eqn:Hke; destruct (lookup k r) as [rv |] eqn:Hkr; auto.
      * rewrite Forall_forall in IH.
        pose proof (IH (k, ev) (lookup_Some_In _ _ _ Hke)) as IHv. simpl in IHv.
        rewrite IHv; auto.
        -- exact (wf_value_lookup He Hke).
        -- exact (wf_value_lookup Hr Hkr).
      * rewrite merge_value_self; auto. exact (wf_value_lookup Hr Hkr).
Qed.

(** X1. Merging the repo tree a second time changes nothing: the merge of
    [existing] and [repo], merged with [repo] again, is the same tree, key
    order included. *)
Theorem merge_dicts_idempotent (existing repo : Dict) :
  wf_table existing -> wf_table repo ->
  merge_dicts (merge_dicts existing repo) repo = merge_dicts existing repo.
Proof.
  intros He Hr.
  pose proof (merge_value_absorb (Table existing) (Table repo) He Hr) as H.
  rewrite !merge_value_table in H. now injection H.
Qed.

Lemma merge_dicts_idempotent_witness :
  let existing := [("mode", Leaf (SStr "manual")); ("tools", Table [("web", Leaf (SStr "on"))])] in
  let repo := [("tools", Table [("shell", Leaf (SBool true))]); ("mode", Leaf (SStr "auto"))] in
  merge_dicts (merge_dicts existing repo) repo = merge_dicts existing repo.
Proof.
  apply merge_dicts_idempotent;
    (apply wf_table_unfold; split;
     [repeat constructor; simpl; intuition discriminate
     | repeat constructor; simpl; intuition discriminate]).
Defined.

(** X2. Merging with an empty tree on either side returns the other tree
    unchanged. *)
Theorem merge_dicts_empty (d : Dict) :
  merge_dicts [] d = d /\ merge_dicts d [] = d.
Proof. split; [apply merge_dicts_nil_l | apply merge_dicts_nil_r]. Qed.

Ltac wf_concrete :=
  apply wf_table_unfold; split; repeat constructor; simpl; intuition discriminate.

Lemma merge_value_leaf_r (ev : Value) (s : Scalar) : merge_value ev (Leaf s) = Leaf s.
Proof. now destruct ev. Qed.

Lemma merge_value_keeps_leaf (p : KeyPath) :
  forall (ev rv : Value) (s : Scalar),
    path_get rv p = Some (Leaf s) ->
    path_get (merge_value ev rv) p = Some (Leaf s).
Proof.
  induction p as [| k rest IH]; intros ev rv s Hget.
  - simpl in Hget. injection Hget as ->. now rewrite merge_value_leaf_r.
  - destruct rv as [x | r]; [discriminate |].
    destruct ev as [y | e]; [exact Hget |].
    rewrite merge_value_table, path_get_cons, lookup_merge_dicts.
    rewrite path_get_cons in Hget.
    destruct (lookup k r) as [rv |] eqn:Hkr; [| discriminate].
    destruct (lookup k e) as [ev |]; auto.
Qed.

(** X3. The repo tree wins: every leaf of the repo tree is found in the
    merged tree at the same path, whatever the existing tree holds there. *)
Theorem merge_keeps_repo_leaves (existing repo : Dict) (p : KeyPath) (s : Scalar) :
  path_get (Table repo) p = Some (Leaf s) ->
  path_get (Table (merge_dicts existing repo)) p = Some (Leaf s).
Proof.
  intros H. rewrite <- merge_value_table. now apply merge_value_keeps_leaf.
Qed.

Lemma merge_keeps_repo_leaves_witness :
  path_get (Table (merge_dicts [("tools", Leaf (SStr "none")); ("mode", Leaf (SInt 1))]
                               [("tools", Table [("shell", Leaf (SBool true))])]))
           ["tools"; "shell"]
  = Some (Leaf (SBool true)).
Proof. apply merge_keeps_repo_leaves. reflexivity. Defined.

Lemma merge_value_keeps_existing (p : KeyPath) :
  forall (ev rv v : Value),
    path_get ev p = Some v ->
    path_get rv p = None ->
    (forall q k s x, p = q ++ k :: s -> path_get rv q <> Some (Leaf x)) ->
    path_get (merge_value ev rv) p = Some v.
Proof.
  induction p as [| k rest IH]; intros ev rv v Hev Hrv Hway.
  - discriminate.
  - destruct rv as [x | r].
    { exfalso. apply (Hway [] k rest x); reflexivity. }
    destruct ev as [y | e]; [discriminate |].
    rewrite merge_value_table, path_get_cons, lookup_merge_dicts.
    rewrite path_get_cons in Hev, Hrv.
    destruct (lookup k e) as [ev |] eqn:Hke; [| discriminate].
    destruct (lookup k r) as [rv |] eqn:Hkr; auto.
    apply IH; auto.
    intros q k' s x Heq Hq.
    apply (Hway (k :: q) k' s x).
    + now rewrite Heq.
    + rewrite path_get_cons, Hkr. exact Hq.
Qed.

(** X4. What the repo tree does not address is kept: a value of the
    existing tree at a path that the repo tree lacks, with no leaf of the
    repo tree on the way to it, is found unchanged in the merged tree. *)
Theorem merge_keeps_existing (existing repo : Dict) (p : KeyPath) (v : Value) :
  path_get (Table existing) p = Some v ->
  path_get (Table repo) p = None ->
  (forall q k s x, p = q ++ k :: s -> path_get (Table repo) q <> Some (Leaf x)) ->
  path_get (Table (merge_dicts existing repo)) p = Some v.
Proof.
  intros. rewrite <- merge_value_table. now apply merge_value_keeps_existing.
Qed.

Lemma merge_keeps_existing_witness :
  path_get (Table (merge_dicts [("tools", Table [("web", Leaf (SStr "on"))])]
                               [("tools", Table [("shell", Leaf (SBool true))])]))
           ["tools"; "web"]
  = Some (Leaf (SStr "on")).
Proof.
  apply merge_keeps_existing; [reflexivity | reflexivity |].
  intros q k s x Heq.
  destruct q as [| k1 [| k2 q]]; simpl in Heq.
  - discriminate.
  - injection Heq as <- _. discriminate.
  - injection Heq as _ _ Heq. now destruct q.
Defined.

(** ** What the differ records *)

Lemma rel_changes_additions_sound (rv : Value) :
  forall ev, wf_value rv ->
    forall a, In a (fst (rel_changes rv ev)) ->
      path_get rv (add_path a) = Some (add_repo a)
      /\ is_dict (add_repo a) = false
      /\ path_get ev (add_path a) = None.
Proof.
  induction rv as [s | r IH] using Value_ind'; intros ev Hwf a Hin.
  - destruct ev as [x | e].
    + rewrite rel_changes_leaves in Hin. destruct (py_eqb x s); contradiction.
    + contradiction.
  - destruct ev as [x | e]; [contradiction |].
    destruct a as [[| k q] rp].
    + now destruct (proj1 (rel_changes_tables_paths r e) _ Hin).
    + change (mkAddition (k :: q) rp) with (add_prefix [k] (mkAddition q rp)) in Hin.
      apply In_add_under in Hin.
      rewrite (proj1 (rel_changes_under r e k (wf_table_keys Hwf))) in Hin.
      destruct (lookup k r) as [v |] eqn:Hl; [| contradiction].
      cbn [add_path add_repo]. rewrite !path_get_cons, Hl.
      pose proof (wf_value_lookup Hwf Hl) as Hv.
      unfold key_changes in Hin. cbn [fst snd] in Hin.
      destruct (lookup k e) as [ev |] eqn:Hke.
      * rewrite Forall_forall in IH.
        exact (IH (k, v) (lookup_Some_In _ _ _ Hl) ev Hv _ Hin).
      * destruct (rel_additions_leaves v Hv _ Hin) as [H1 H2]. auto.
Qed.

(** X5. Every Addition the differ records is sound: its path is not empty,
    the repo tree holds the recorded value there, the value is a leaf and
    never a table, and the existing tree has nothing at that path. *)
Theorem additions_sound (repo_data existing_data : Dict) (a : Addition) :
  wf_table repo_data ->
  In a (fst (diff repo_data existing_data)) ->
  add_path a <> []
  /\ path_get (Table repo_data) (add_path a) = Some (add_repo a)
  /\ is_dict (add_repo a) = false
  /\ path_get (Table existing_data) (add_path a) = None.
Proof.
  intros Hwf Hin. rewrite diff_by_key in Hin. split.
  - exact (proj1 (rel_changes_tables_paths _ _) _ Hin).
  - exact (rel_changes_additions_sound (Table repo_data) (Table existing_data) Hwf a Hin).
Qed.

Lemma additions_sound_witness :
  let repo_data := [("mode", Leaf (SStr "auto")); ("tools", Table [("shell", Leaf (SBool true))])] in
  let existing_data := [("mode", Leaf (SStr "manual")); ("tools", Table [])] in
  let a := mkAddition ["tools"; "shell"] (Leaf (SBool true)) in
  add_path a <> []
  /\ path_get (Table repo_data) (add_path a) = Some (add_repo a)
  /\ is_dict (add_repo a) = false
  /\ path_get (Table existing_data) (add_path a) = None.
Proof.
  intros repo_data existing_data a.
  apply (additions_sound repo_data existing_data a).
  - wf_concrete.
  - simpl. auto.
Defined.

Lemma rel_changes_overrides_sound (rv : Value) :
  forall ev, wf_value rv ->
    forall o, In o (snd (rel_changes rv ev)) ->
      path_get ev (ov_path o) = Some (ov_previous o)
      /\ path_get rv (ov_path o) = Some (ov_repo o)
      /\ value_eqb (ov_previous o) (ov_repo o) = false
      /\ is_dict (ov_previous o) && is_dict (ov_repo o) = false.
Proof.
  induction rv as [s | r IH] using Value_ind'; intros ev Hwf o Hin.
  - destruct ev as [x | e].
    + rewrite rel_changes_leaves in Hin.
      destruct (py_eqb x s) eqn:Heq; [contradiction |].
      destruct Hin as [<- | []]. simpl. auto.
    + destruct Hin as [<- | []]. simpl. auto.
  - destruct ev as [x | e].
    + destruct Hin as [<- | []]. simpl. auto.
    + destruct o as [[| k q] pv rp].
      * now destruct (proj2 (rel_changes_tables_paths r e) _ Hin).
      * change (mkOverride (k :: q) pv rp) with (ov_prefix [k] (mkOverride q pv rp)) in Hin.
        apply In_ov_under in Hin.
        rewrite (proj2 (rel_changes_under r e k (wf_table_keys Hwf))) in Hin.
        destruct (lookup k r) as [v |] eqn:Hl; [| contradiction].
        cbn [ov_path ov_previous ov_repo]. rewrite !path_get_cons, Hl.
        pose proof (wf_value_lookup Hwf Hl) as Hv.
        unfold key_changes in Hin. cbn [fst snd] in Hin.
        destruct (lookup k e) as [ev |] eqn:Hke; [| contradiction].
        rewrite Forall_forall in IH.
        exact (IH (k, v) (lookup_Some_In _ _ _ Hl) ev Hv _ Hin).
Qed.

(** X6. Every Override the differ records is sound: its path is not empty,
    the existing tree holds the recorded previous value there, the repo
    tree holds the recorded repo value there, the two are different under
    Python's [==], and they are never both tables. *)
Theorem overrides_sound (repo_data existing_data : Dict) (o : Override) :
  wf_table repo_data ->
  In o (snd (diff repo_data existing_data)) ->
  ov_path o <> []
  /\ path_get (Table existing_data) (ov_path o) = Some (ov_previous o)
  /\ path_get (Table repo_data) (ov_path o) = Some (ov_repo o)
  /\ value_eqb (ov_previous o) (ov_repo o) = false
  /\ is_dict (ov_previous o) && is_dict (ov_repo o) = false.
Proof.
  intros Hwf Hin. rewrite diff_by_key in Hin. split.
  - exact (proj2 (rel_changes_tables_paths _ _) _ Hin).
  - exact (rel_changes_overrides_sound (Table repo_data) (Table existing_data) Hwf o Hin).
Qed.

Lemma overrides_sound_witness :
  let repo_data := [("mode", Leaf (SStr "auto")); ("tools", Table [("shell", Leaf (SBool true))])] in
  let existing_data := [("mode", Leaf (SStr "manual")); ("tools", Leaf (SInt 0))] in
  let o := mkOverride ["tools"] (Leaf (SInt 0)) (Table [("shell", Leaf (SBool true))]) in
  ov_path o <> []
  /\ path_get (Table existing_data) (ov_path o) = Some (ov_previous o)
  /\ path_get (Table repo_data) (ov_path o) = Some (ov_repo o)
  /\ value_eqb (ov_previous o) (ov_repo o) = false
  /\ is_dict (ov_previous o) && is_dict (ov_repo o) = false.
Proof.
  intros repo_data existing_data o.
  apply (overrides_sound repo_data existing_data o).
  - wf_concrete.
  - simpl. auto.
Defined.

Lemma rel_additions_complete (v : Value) :
  wf_value v ->
  forall p s, path_get v p = Some (Leaf s) -> In (mkAddition p (Leaf s)) (rel_additions v).
Proof.
  induction v as [x | t IH] using Value_ind'; intros Hwf p s Hget.
  - destruct p; [| discriminate]. injection Hget as ->. now left.
  - destruct p as [| k q]; [discriminate |].
    rewrite path_get_cons in Hget.
    destruct (lookup k t) as [v |] eqn:Hl; [| discriminate].
    change (mkAddition (k :: q) (Leaf s)) with (add_prefix [k] (mkAddition q (Leaf s))).
    apply In_add_under.
    rewrite (rel_additions_under _ k (wf_table_keys Hwf)), Hl.
    rewrite Forall_forall in IH.
    exact (IH (k, v) (lookup_Some_In _ _ _ Hl) (wf_value_lookup Hwf Hl) _ _ Hget).
Qed.

Lemma extends_nil (p : KeyPath) : extends [] p.
Proof. now exists p. Qed.

Lemma rel_changes_complete (rv : Value) :
  forall ev, wf_value rv ->
    forall p s, path_get rv p = Some (Leaf s) ->
      In (mkAddition p (Leaf s)) (fst (rel_changes rv ev))
      \/ (exists o, In o (snd (rel_changes rv ev)) /\ extends (ov_path o) p)
      \/ (exists x, path_get ev p = Some (Leaf x) /\ py_eqb x s = true).
Proof.
  induction rv as [y | r IH] using Value_ind'; intros ev Hwf p s Hget.
  - destruct p; [| discriminate]. injection Hget as ->.
    destruct ev as [x | e].
    + rewrite rel_changes_leaves.
      destruct (py_eqb x s) eqn:Heq.
      * right. right. exists x. auto.
      * right. left. eexists. split; [now left | apply extends_nil].
    + right. left. eexists. split; [now left | apply extends_nil].
  - destruct p as [| k q]; [discriminate |].
    rewrite path_get_cons in Hget.
    destruct (lookup k r) as [v |] eqn:Hl; [| discriminate].
    pose proof (wf_value_lookup Hwf Hl) as Hv.
    destruct ev as [x | e].
    + right. left. eexists. split; [now left | apply extends_nil].
    + destruct (rel_changes_under r e k (wf_table_keys Hwf)) as [HA HO].
      rewrite Hl in HA, HO. unfold key_changes in HA, HO. cbn [fst snd] in HA, HO.
      rewrite path_get_cons.
      destruct (lookup k e) as [ev |] eqn:Hke.
      * rewrite Forall_forall in IH.
        destruct (IH (k, v) (lookup_Some_In _ _ _ Hl) ev Hv q s Hget)
          as [Hin | [(o & Hin & Hext) | Hsame]].
        -- left. change (mkAddition (k :: q) (Leaf s))
             with (add_prefix [k] (mkAddition q (Leaf s))).
           apply In_add_under. now rewrite HA.
        -- right. left. exists (ov_prefix [k] o). split.
           ++ apply In_ov_under. now rewrite HO.
           ++ simpl. now apply extends_cons.
        -- right. right. exact Hsame.
      * left. change (mkAddition (k :: q) (Leaf s))
          with (add_prefix [k] (mkAddition q (Leaf s))).
        apply In_add_under. rewrite HA. now apply rel_additions_complete.
Qed.

(** X7. The differ accounts for every leaf of the repo tree: it is recorded
    as an Addition at its own path, or an Override is recorded at its path
    or at a path above it, or the existing tree already holds a leaf there
    that is equal under Python's [==]. *)
Theorem diff_accounts_for_every_leaf
    (repo_data existing_data : Dict) (p : KeyPath) (s : Scalar) :
  wf_table repo_data ->
  path_get (Table repo_data) p = Some (Leaf s) ->
  In (mkAddition p (Leaf s)) (fst (diff repo_data existing_data))
  \/ (exists o, In o (snd (diff repo_data existing_data)) /\ extends (ov_path o) p)
  \/ (exists x, path_get (Table existing_data) p = Some (Leaf x) /\ py_eqb x s = true).
Proof.
  intros Hwf Hget. rewrite diff_by_key.
  now apply rel_changes_complete.
Qed.

Lemma diff_accounts_for_every_leaf_witness :
  let repo_data := [("mode", Leaf (SStr "auto")); ("tools", Table [("shell", Leaf (SBool true))])] in
  let existing_data := [("mode", Leaf (SStr "manual")); ("tools", Leaf (SInt 0))] in
  In (mkAddition ["tools"; "shell"] (Leaf (SBool true))) (fst (diff repo_data existing_data))
  \/ (exists o, In o (snd (diff repo_data existing_data))
                /\ extends (ov_path o) ["tools"; "shell"])
  \/ (exists x, path_get (Table existing_data) ["tools"; "shell"] = Some (Leaf x)
                /\ py_eqb x (SBool true) = true).
Proof.
  intros repo_data existing_data.
  apply (diff_accounts_for_every_leaf repo_data existing_data).
  - wf_concrete.
  - reflexivity.
Defined.

Lemma flat_map_nil {A B : Type} (f : A -> list B) (l : list A) :
  (forall x, In x l -> f x = []) -> flat_map f l = [].
Proof.
  induction l as [| x l IH]; simpl; intros H; auto.
  rewrite (H x), IH; auto.
Qed.

Lemma rel_changes_after_merge (rv : Value) :
  forall ev, wf_value rv -> reflexive_leaves rv ->
             rel_changes rv (merge_value ev rv) = ([], []).
Proof.
  induction rv as [s | r IH] using Value_ind'; intros ev Hwf Hrefl.
  - rewrite merge_value_leaf_r, rel_changes_leaves.
    rewrite (Hrefl s); [reflexivity | now left].
  - rewrite Forall_forall in IH.
    assert (Hgroups : forall e kv, In kv r ->
              key_changes (merge_dicts e r) kv = ([], [])).
    { intros e [k v] Hin. unfold key_changes. cbn [fst snd].
      pose proof (In_lookup _ _ _ (wf_table_keys Hwf) Hin) as Hl.
      pose proof (wf_value_lookup Hwf Hl) as Hv.
      pose proof (reflexive_leaves_sub _ _ _ Hin Hrefl) as Hr.
      rewrite lookup_merge_dicts, Hl.
      destruct (lookup k e) as [ev' |].
      - exact (IH (k, v) Hin ev' Hv Hr).
      - pose proof (IH (k, v) Hin v Hv Hr) as H. cbn [snd] in H.
        now rewrite merge_value_self in H. }
    assert (Htab : forall e, rel_changes (Table r) (Table (merge_dicts e r)) = ([], [])).
    { intros e. rewrite rel_changes_tables. f_equal.
      - apply flat_map_nil. intros kv Hin. now rewrite (Hgroups e kv Hin).
      - apply flat_map_nil. intros kv Hin. now rewrite (Hgroups e kv Hin). }
    destruct ev as [x | e].
    + change (merge_value (Leaf x) (Table r)) with (Table r).
      rewrite <- (merge_dicts_nil_l r) at 2. apply Htab.
    + rewrite merge_value_table. apply Htab.
Qed.

(** X8. Installing over the result of an earlier install records nothing:
    the differ run on the repo tree against the tree that merging it has
    produced returns no Addition and no Override, so the ledger written by
    a second install can no longer undo the first. *)
Theorem reinstall_records_nothing (repo_data existing_data : Dict) :
  wf_table repo_data -> reflexive_leaves (Table repo_data) ->
  diff repo_data (merge_dicts existing_data repo_data) = ([], []).
Proof.
  intros Hwf Hrefl. rewrite diff_by_key, <- merge_value_table.
  now apply rel_changes_after_merge.
Qed.

Lemma reinstall_records_nothing_witness :
  let repo_data := [("mode", Leaf (SStr "auto")); ("tools", Table [("shell", Leaf (SBool true))])] in
  let existing_data := [("mode", Leaf (SStr "manual")); ("tools", Leaf (SInt 0))] in
  diff repo_data (merge_dicts existing_data repo_data) = ([], []).
Proof.
  intros repo_data existing_data.
  apply (reinstall_records_nothing repo_data existing_data).
  - wf_concrete.
  - intros s Hs. simpl in Hs.
    repeat (destruct Hs as [<- | Hs]; [reflexivity |]). contradiction.
Defined.

(** ** Path operations *)

Lemma extends_single (k : string) (q : KeyPath) : extends [k] (k :: q).
Proof. now exists q. Qed.

Lemma path_get_nil_table (q : KeyPath) : q <> [] -> path_get (Table []) q = None.
Proof. destruct q; [congruence | reflexivity]. Qed.

Lemma path_get_leaf (s : Scalar) (q : KeyPath) : q <> [] -> path_get (Leaf s) q = None.
Proof. destruct q; [congruence | reflexivity]. Qed.

Lemma path_set_off_path (p : KeyPath) :
  forall (d d' : Dict) (v : Value) (q : KeyPath),
    path_set d p v = Some d' ->
    ~ extends p q -> ~ extends q p ->
    path_get (Table d') q = path_get (Table d) q.
Proof.
  induction p as [| key rest IH]; intros d d' v q Hset Hpq Hqp; [discriminate |].
  destruct q as [| k' q']; [destruct Hqp; apply extends_nil |].
  destruct rest as [| k2 rest].
  - injection Hset as <-. rewrite !path_get_cons.
    destruct (String.eqb_spec k' key) as [-> | Hne].
    + destruct Hpq. apply extends_single.
    + now rewrite lookup_dict_set_other.
  - rewrite path_set_cons in Hset.
    destruct (path_set match lookup key d with Some (Table c) => c | _ => [] end
                       (k2 :: rest) v) as [child' |] eqn:Hchild; [| discriminate].
    injection Hset as <-. rewrite !path_get_cons.
    destruct (String.eqb_spec k' key) as [-> | Hne].
    + rewrite lookup_dict_set_same.
      assert (Hq' : q' <> []).
      { intros ->. apply Hqp. exists (k2 :: rest). reflexivity. }
      rewrite (IH _ _ _ q' Hchild).
      * destruct (lookup key d) as [[s | c] |]; auto.
        -- rewrite path_get_leaf; auto. now apply path_get_nil_table.
        -- now apply path_get_nil_table.
      * intros H. apply Hpq. now apply extends_cons.
      * intros H. apply Hqp. now apply extends_cons.
    + now rewrite lookup_dict_set_other.
Qed.

(** X9. [path_set] writes the value where it is told to and nowhere else:
    on a non-empty path it returns a tree that holds the value at that path,
    and every path that neither leads to that location nor lies below it
    reads the same before and after. *)
Theorem path_set_get_and_frame (data : Dict) (p : KeyPath) (v : Value) :
  p <> [] ->
  exists data',
    path_set data p v = Some data'
    /\ path_get (Table data') p = Some v
    /\ forall q, ~ extends p q -> ~ extends q p ->
                 path_get (Table data') q = path_get (Table data) q.
Proof.
  intros Hne. destruct (path_set_total Hne data v) as (d' & Hset & Hget).
  exists d'. repeat split; auto.
  intros q. now apply path_set_off_path with (v := v).
Qed.

Lemma path_set_get_and_frame_witness :
  exists data',
    path_set [("mode", Leaf (SInt 1)); ("tools", Leaf (SInt 2))] ["tools"; "shell"]
             (Leaf (SBool true)) = Some data'
    /\ path_get (Table data') ["tools"; "shell"] = Some (Leaf (SBool true))
    /\ forall q, ~ extends ["tools"; "shell"] q -> ~ extends q ["tools"; "shell"] ->
                 path_get (Table data') q =
                 path_get (Table [("mode", Leaf (SInt 1)); ("tools", Leaf (SInt 2))]) q.
Proof. apply path_set_get_and_frame. discriminate. Defined.

Lemma delete_prune_absent (p : KeyPath) :
  forall d, path_get (Table d) p = None -> delete_prune d p = None.
Proof.
  induction p as [| key rest IH]; intros d Hget; [discriminate |].
  destruct rest as [| k2 rest].
  - simpl in *. unfold mem. now destruct (lookup key d).
  - rewrite delete_prune_cons. rewrite path_get_cons in Hget.
    destruct (lookup key d) as [[s | c] |]; auto.
    now rewrite (IH c Hget).
Qed.

Lemma delete_prune_off_path (p : KeyPath) :
  forall (d d' : Dict) (q : KeyPath),
    delete_prune d p = Some d' ->
    ~ extends p q -> ~ extends q p ->
    path_get (Table d') q = path_get (Table d) q.
Proof.
  induction p as [| key rest IH]; intros d d' q Hdel Hpq Hqp; [discriminate |].
  destruct q as [| k' q']; [destruct Hqp; apply extends_nil |].
  destruct rest as [| k2 rest].
  - simpl in Hdel. destruct (mem key d); [| discriminate].
    injection Hdel as <-. rewrite !path_get_cons.
    destruct (String.eqb_spec k' key) as [-> | Hne].
    + destruct Hpq. apply extends_single.
    + now rewrite lookup_dict_del_other.
  - rewrite delete_prune_cons in Hdel.
    destruct (lookup key d) as [[s | child] |] eqn:Hl; try discriminate.
    destruct (delete_prune child (k2 :: rest)) as [child' |] eqn:Hchild; [| discriminate].
    injection Hdel as <-. rewrite !path_get_cons.
    destruct (String.eqb_spec k' key) as [-> | Hne].
    + assert (Hq' : q' <> []).
      { intros ->. apply Hqp. exists (k2 :: rest). reflexivity. }
      assert (Hsame : path_get (Table child') q' = path_get (Table child) q').
      { apply (IH _ _ q' Hchild).
        - intros H. apply Hpq. now apply extends_cons.
        - intros H. apply Hqp. now apply extends_cons. }
      rewrite Hl.
      destruct child' as [| kv child'].
      * cbn [is_empty]. rewrite lookup_dict_del_same, <- Hsame.
        symmetry. now apply path_get_nil_table.
      * cbn [is_empty]. now rewrite lookup_dict_set_same.
    + destruct (is_empty child').
      * now rewrite lookup_dict_del_other.
      * now rewrite lookup_dict_set_other.
Qed.

(** X10. [path_delete] reports whether the path was there and removes
    nothing else: on a non-empty path it returns [False] and the unchanged
    tree exactly when [path_get] finds nothing at the path; otherwise it
    returns [True], the path is gone afterwards, and every path that neither
    leads to that location nor lies below it reads the same before and
    after, pruned ancestors included. *)
Theorem path_delete_flag_and_frame (data : Dict) (p : KeyPath) :
  p <> [] ->
  match path_get (Table data) p with
  | None => path_delete data p = Some (data, false)
  | Some _ =>
      exists data',
        path_delete data p = Some (data', true)
        /\ path_get (Table data') p = None
        /\ forall q, ~ extends p q -> ~ extends q p ->
                     path_get (Table data') q = path_get (Table data) q
  end.
Proof.
  intros Hne. rewrite (path_delete_prune data Hne).
  destruct (path_get (Table data) p) as [cur |] eqn:Hget.
  - destruct (delete_prune_present data cur Hne Hget) as (d' & Hdel & Hgone & _).
    rewrite Hdel. exists d'. repeat split; auto.
    intros q. now apply delete_prune_off_path.
  - now rewrite (delete_prune_absent p data Hget).
Qed.

Lemma path_delete_flag_and_frame_witness :
  exists data',
    path_delete [("a", Table [("b", Table [("c", Leaf (SInt 1))])]); ("z", Leaf (SInt 0))]
                ["a"; "b"; "c"] = Some (data', true)
    /\ path_get (Table data') ["a"; "b"; "c"] = None
    /\ forall q, ~ extends ["a"; "b"; "c"] q -> ~ extends q ["a"; "b"; "c"] ->
                 path_get (Table data') q =
                 path_get (Table [("a", Table [("b", Table [("c", Leaf (SInt 1))])]);
                                  ("z", Leaf (SInt 0))]) q.
Proof.
  exact (path_delete_flag_and_frame
           [("a", Table [("b", Table [("c", Leaf (SInt 1))])]); ("z", Leaf (SInt 0))]
           ["a"; "b"; "c"] ltac:(discriminate)).
Defined.

(** ** Rollback as a whole *)

Lemma rollback_override_off_path (q : KeyPath) (st st' : Dict * nat) (entry : Override) :
  ~ extends (ov_path entry) q -> ~ extends q (ov_path entry) ->
  rollback_override st entry = Some st' ->
  path_get (Table (fst st')) q = path_get (Table (fst st)) q.
Proof.
  intros H1 H2. destruct st as [d n]. unfold rollback_override.
  destruct (path_get (Table d) (ov_path entry)) as [cur |].
  - destruct (value_eqb cur (ov_repo entry)).
    + destruct (path_set d (ov_path entry) (ov_previous entry)) as [d' |] eqn:Hset;
        [| discriminate].
      intros [= <-]. cbn [fst]. now apply (path_set_off_path _ _ _ _ _ Hset).
    + now intros [= <-].
  - now intros [= <-].
Qed.

Lemma rollback_addition_off_path (q : KeyPath) (st st' : Dict * nat) (entry : Addition) :
  ~ extends (add_path entry) q -> ~ extends q (add_path entry) ->
  rollback_addition st entry = Some st' ->
  path_get (Table (fst st')) q = path_get (Table (fst st)) q.
Proof.
  intros H1 H2. destruct st as [d n]. unfold rollback_addition.
  destruct (path_get (Table d) (add_path entry)) as [cur |] eqn:Hget.
  - destruct (value_eqb cur (add_repo entry)).
    + destruct (add_path entry) as [| k p] eqn:Hp.
      { destruct H1. apply extends_nil. }
      rewrite (path_delete_prune d (path := k :: p)) by discriminate.
      destruct (delete_prune d (k :: p)) as [d' |] eqn:Hdel.
      * intros [= <-]. cbn [fst]. now apply (delete_prune_off_path _ _ _ _ Hdel).
      * now intros [= <-].
    + now intros [= <-].
  - now intros [= <-].
Qed.

(** X11. [remove] leaves alone what the ledger does not name: a path that
    is neither at, above nor below the path of any recorded entry reads the
    same before and after the rollback. *)
Theorem rollback_touches_recorded_paths_only
    (ovs : list Override) (adds : list Addition) (data data' : Dict) (skipped : nat)
    (q : KeyPath) :
  Forall (fun o => ~ extends (ov_path o) q /\ ~ extends q (ov_path o)) ovs ->
  Forall (fun a => ~ extends (add_path a) q /\ ~ extends q (add_path a)) adds ->
  rollback ovs adds data = Some (data', skipped) ->
  path_get (Table data') q = path_get (Table data) q.
Proof.
  intros Hovs Hadds Hrun. unfold rollback in Hrun.
  destruct (for_each rollback_override ovs (data, 0)) as [mid |] eqn:Hmid; [| discriminate].
  pose (I := fun st : Dict * nat => path_get (Table (fst st)) q = path_get (Table data) q).
  assert (Hm : I mid).
  { apply (for_each_invariant rollback_override I ovs) with (st := (data, 0)); auto.
    - eapply Forall_impl; [| exact Hovs]. intros o [H1 H2] st st' Hst Hstep.
      unfold I in *. rewrite <- Hst. now apply rollback_override_off_path with (entry := o).
    - reflexivity. }
  change (I (data', skipped)).
  apply (for_each_invariant rollback_addition I adds) with (st := mid); auto.
  eapply Forall_impl; [| exact Hadds]. intros a [H1 H2] st st' Hst Hstep.
  unfold I in *. rewrite <- Hst. now apply rollback_addition_off_path with (entry := a).
Qed.

Lemma rollback_touches_recorded_paths_only_witness :
  path_get (Table [("mode", Leaf (SStr "manual")); ("user", Leaf (SInt 7))]) ["user"]
  = path_get (Table [("mode", Leaf (SStr "auto")); ("shell", Leaf (SBool true));
                     ("user", Leaf (SInt 7))]) ["user"].
Proof.
  apply (rollback_touches_recorded_paths_only
           [mkOverride ["mode"] (Leaf (SStr "manual")) (Leaf (SStr "auto"))]
           [mkAddition ["shell"] (Leaf (SBool true))]
           [("mode", Leaf (SStr "auto")); ("shell", Leaf (SBool true));
            ("user", Leaf (SInt 7))]
           [("mode", Leaf (SStr "manual")); ("user", Leaf (SInt 7))] 0 ["user"]).
  - repeat constructor; intros (s & Hs); simpl in Hs;
      solve [discriminate | destruct s; discriminate].
  - repeat constructor; intros (s & Hs); simpl in Hs;
      solve [discriminate | destruct s; discriminate].
  - reflexivity.
Defined.

Lemma for_each_override_count (L : list Override) :
  forall d n d' n',
    for_each rollback_override L (d, n) = Some (d', n') ->
    n <= n' <= n + List.length L.
Proof.
  induction L as [| o L IH]; intros d n d' n' Hrun.
  - injection Hrun as <- <-. simpl. lia.
  - cbn [for_each] in Hrun.
    destruct (rollback_override (d, n) o) as [[d1 n1] |] eqn:Hstep; [| discriminate].
    apply IH in Hrun. cbn [List.length].
    assert (n <= n1 <= S n); [| lia].
    unfold rollback_override in Hstep.
    destruct (path_get (Table d) (ov_path o)) as [cur |].
    + destruct (value_eqb cur (ov_repo o)).
      * destruct (path_set d (ov_path o) (ov_previous o)); [| discriminate].
        injection Hstep as _ <-. lia.
      * injection Hstep as _ <-. lia.
    + injection Hstep as _ <-. lia.
Qed.

Lemma for_each_addition_count (L : list Addition) :
  forall d n d' n',
    for_each rollback_addition L (d, n) = Some (d', n') ->
    n <= n' <= n + List.length L.
Proof.
  induction L as [| a L IH]; intros d n d' n' Hrun.
  - injection Hrun as <- <-. simpl. lia.
  - cbn [for_each] in Hrun.
    destruct (rollback_addition (d, n) a) as [[d1 n1] |] eqn:Hstep; [| discriminate].
    apply IH in Hrun. cbn [List.length].
    assert (n <= n1 <= S n); [| lia].
    unfold rollback_addition in Hstep.
    destruct (path_get (Table d) (add_path a)) as [cur |].
    + destruct (value_eqb cur (add_repo a)).
      * destruct (path_delete d (add_path a)) as [[d2 b] |]; [| discriminate].
        injection Hstep as _ <-. lia.
      * injection Hstep as _ <-. lia.
    + injection Hstep as _ <-. lia.
Qed.

(** X12. The count that [remove] reports never exceeds the number of
    ledger entries: every entry adds at most one to it. *)
Theorem rollback_skipped_bound
    (ovs : list Override) (adds : list Addition) (data data' : Dict) (skipped : nat) :
  rollback ovs adds data = Some (data', skipped) ->
  skipped <= List.length ovs + List.length adds.
Proof.
  unfold rollback. intros Hrun.
  destruct (for_each rollback_override ovs (data, 0)) as [[mid n] |] eqn:Hmid;
    [| discriminate].
  apply for_each_override_count in Hmid.
  apply for_each_addition_count in Hrun. lia.
Qed.

Lemma rollback_skipped_bound_witness : 1 <= 1 + 1.
Proof.
  exact (rollback_skipped_bound
           [mkOverride ["mode"] (Leaf (SStr "manual")) (Leaf (SStr "auto"))]
           [mkAddition ["shell"] (Leaf (SBool true))]
           [("mode", Leaf (SStr "fast")); ("shell", Leaf (SBool true))]
           [("mode", Leaf (SStr "fast"))] 1 eq_refl).
Defined.

(** ** [install] and [remove] on the files *)

Lemma diff_fresh_overrides (repo_data : Dict) : snd (diff repo_data []) = [].
Proof.
  rewrite diff_by_key, rel_changes_tables. cbn [snd].
  apply flat_map_nil. intros kv _. reflexivity.
Qed.

Lemma install_header_nil (h : list string) : install_header h [] = h.
Proof. now destruct h. Qed.

Lemma diff_paths (repo_data existing_data : Dict) :
  Forall (fun o => ov_path o <> []) (snd (diff repo_data existing_data))
  /\ Forall (fun a => add_path a <> []) (fst (diff repo_data existing_data)).
Proof.
  rewrite diff_by_key.
  destruct (rel_changes_tables_paths repo_data existing_data) as [HA HO].
  split; apply Forall_forall; auto.
Qed.

Section FileFacts.

Variable loads : string -> option Dict.
Variable format_key : string -> string.
Variable format_value : Scalar -> string.

(** X13. [remove] uses the ledger up: whenever it returns, the repo file is
    as before and the state file is gone, so that running it again changes
    nothing and only reports the missing state file; without a state file
    it changes nothing in the first place. *)
Theorem remove_consumes_ledger (fs fs' : Files) (status : Z) (msgs : list Message) :
  remove loads format_key format_value fs = Some (fs', status, msgs) ->
  repo_file fs' = repo_file fs
  /\ state_file fs' = None
  /\ remove loads format_key format_value fs' = Some (fs', 0%Z, [StateFileNotFound])
  /\ (state_file fs = None -> fs' = fs).
Proof.
  unfold remove at 1. intros Hrun.
  assert (Hgoal : repo_file fs' = repo_file fs /\ state_file fs' = None
                  /\ (state_file fs = None -> fs' = fs)).
  { destruct (state_file fs) as [ledger |] eqn:Hstate.
    - destruct (target_file fs) as [text |].
      + destruct (load_toml loads text) as [data |]; [| discriminate].
        destruct (rollback (overrides ledger) (additions ledger) data) as [[d n] |];
          [| discriminate].
        injection Hrun as <- _ _. repeat split; auto. discriminate.
      + injection Hrun as <- _ _. repeat split; auto. discriminate.
    - injection Hrun as <- _ _. auto. }
  destruct Hgoal as (H1 & H2 & H3). repeat split; auto.
  unfold remove. now rewrite H2.
Qed.

(** X14. [remove] never deletes a configuration that was there before the
    install: if the target exists before [remove] and not after it, the
    ledger says that install found no configuration, and the rollback has
    left an empty tree. *)
Theorem remove_unlinks_only_what_install_created
    (fs fs' : Files) (status : Z) (msgs : list Message) (ledger : Ledger) (text : string) :
  remove loads format_key format_value fs = Some (fs', status, msgs) ->
  state_file fs = Some ledger ->
  target_file fs = Some text ->
  target_file fs' = None ->
  had_config ledger = false
  /\ exists data skipped,
       load_toml loads text = Some data
       /\ rollback (overrides ledger) (additions ledger) data = Some ([], skipped).
Proof.
  unfold remove. intros Hrun Hstate Htarget Hgone.
  rewrite Hstate, Htarget in Hrun.
  destruct (load_toml loads text) as [data |] eqn:Hload; [| discriminate].
  destruct (rollback (overrides ledger) (additions ledger) data) as [[d n] |] eqn:Hroll;
    [| discriminate].
  injection Hrun as <- _ _. cbn [target_file] in Hgone.
  unfold target_after in Hgone.
  destruct d as [| kv d]; [| discriminate].
  cbn [is_empty negb] in Hgone.
  destruct (had_config ledger); [discriminate |].
  split; [reflexivity |]. exists data, n. split; [reflexivity | exact Hroll].
Qed.

(** X15. Installing where no target exists writes the repo configuration
    itself, under the repo header, and a ledger that says so: no earlier
    configuration, no recorded header, no Override, only Additions. *)
Theorem install_without_target
    (perms : Dict) (name : string) (fs : Files) (repo_text : string) (repo_loaded : Dict) :
  repo_file fs = Some repo_text ->
  target_file fs = None ->
  load_toml loads repo_text = Some repo_loaded ->
  let repo_data := apply_opencode_permissions repo_loaded perms in
  install loads format_key format_value perms name fs =
  Some (mkFiles (Some repo_text)
          (Some (dump_toml format_key format_value repo_data (extract_header repo_text)))
          (Some (mkLedger name false [] (fst (diff repo_data [])) [])),
        0%Z).
Proof.
  intros Hrepo Htarget Hload repo_data. unfold install.
  rewrite Hrepo, Htarget, Hload. fold repo_data.
  now rewrite merge_dicts_nil_l, install_header_nil, diff_fresh_overrides.
Qed.


End FileFacts.

Lemma remove_consumes_ledger_witness :
  let text := ("mode = v" ++ nl)%string in
  let loads := fun t : string => Some [("mode", Leaf (SStr "auto"))] in
  let ledger := mkLedger "config.toml" true []
                  [] [mkOverride ["mode"] (Leaf (SStr "manual")) (Leaf (SStr "auto"))] in
  let fs := mkFiles None (Some text) (Some ledger) in
  let fs' := mkFiles None (Some text) None in
  repo_file fs' = repo_file fs
  /\ state_file fs' = None
  /\ remove loads (fun k => k) (fun _ => "v") fs' = Some (fs', 0%Z, [StateFileNotFound])
  /\ (state_file fs = None -> fs' = fs).
Proof.
  intros text loads ledger fs fs'.
  apply (remove_consumes_ledger loads (fun k => k) (fun _ => "v") fs fs' 0%Z []).
  reflexivity.
Defined.

Lemma remove_unlinks_only_what_install_created_witness :
  let text := ("shell = v" ++ nl)%string in
  let loads := fun t : string => Some [("shell", Leaf (SBool true))] in
  let ledger := mkLedger "config.toml" false [] [mkAddition ["shell"] (Leaf (SBool true))] [] in
  had_config ledger = false
  /\ exists data skipped,
       load_toml loads text = Some data
       /\ rollback (overrides ledger) (additions ledger) data = Some ([], skipped).
Proof.
  intros text loads ledger.
  apply (remove_unlinks_only_what_install_created loads (fun k => k) (fun _ => "v")
           (mkFiles None (Some text) (Some ledger)) (mkFiles None None None) 0%Z []
           ledger text); reflexivity.
Defined.

Lemma install_without_target_witness :
  let repo_text := ("# repo" ++ nl ++ "shell = true" ++ nl)%string in
  let loads := fun t : string => Some [("shell", Leaf (SBool true))] in
  let fk := fun k : string => k in
  let fv := fun _ : Scalar => "true" in
  install loads fk fv [] "config.toml" (mkFiles (Some repo_text) None None) =
  Some (mkFiles (Some repo_text)
          (Some (dump_toml fk fv [("shell", Leaf (SBool true))] (extract_header repo_text)))
          (Some (mkLedger "config.toml" false []
                   (fst (diff [("shell", Leaf (SBool true))] [])) [])),
        0%Z).
Proof.
  intros repo_text loads fk fv.
  apply (install_without_target loads fk fv [] "config.toml"
           (mkFiles (Some repo_text) None None) repo_text [("shell", Leaf (SBool true))]);
    reflexivity.
Defined.


(** ** Imported permissions *)

Lemma lookup_fold_dict_set (perms : Dict) :
  forall (skill : Dict) (k : string),
    NoDup (keys perms) ->
    lookup k (fold_left (fun sk (kv : string * Value) => dict_set (fst kv) (snd kv) sk)
                        perms skill) =
    match lookup k perms with
    | Some v => Some v
    | None => lookup k skill
    end.
Proof.
  induction perms as [| [k1 v1] rest IH]; intros skill k Hnd; [reflexivity |].
  inversion Hnd as [| ? ? Hnotin Hnd']; subst.
  cbn [fold_left fst snd]. rewrite (IH _ k Hnd'). cbn [lookup].
  destruct (String.eqb_spec k1 k) as [-> | Hne].
  - apply lookup_None in Hnotin. rewrite Hnotin. apply lookup_dict_set_same.
  - destruct (lookup k rest); auto.
    apply lookup_dict_set_other. congruence.
Qed.

Lemma permissions_as_path_sets (perms : Dict) :
  forall repo_data,
    for_each (fun d (kv : string * Value) =>
                path_set d ["permission"; "skill"; fst kv] (snd kv)) perms repo_data
    = Some (apply_opencode_permissions repo_data perms).
Proof.
  induction perms as [| [k v] rest IH]; intros repo_data; [reflexivity |].
  cbn [for_each fst snd].
  change (path_set repo_data ["permission"; "skill"; k] v)
    with (Some (apply_opencode_permissions repo_data [(k, v)])).
  cbv beta iota. rewrite IH. f_equal.
  destruct rest as [| kv2 rest]; [reflexivity |].
  unfold apply_opencode_permissions.
  cbn [fold_left fst snd].
  rewrite !lookup_dict_set_same, !dict_set_set. reflexivity.
Qed.

(** X17. Every imported permission ends up under [permission.skill]: after
    [apply_opencode_permissions], the repo tree holds each imported value at
    the path [permission], [skill], key, whatever the tree held at
    [permission] or [permission.skill] before. *)
Theorem permissions_imported (repo_data perms : Dict) (k : string) (v : Value) :
  NoDup (keys perms) ->
  lookup k perms = Some v ->
  path_get (Table (apply_opencode_permissions repo_data perms))
           ["permission"; "skill"; k] = Some v.
Proof.
  intros Hnd Hk. unfold apply_opencode_permissions.
  destruct perms as [| kv rest]; [discriminate |].
  rewrite path_get_cons, lookup_dict_set_same, path_get_cons, lookup_dict_set_same.
  rewrite path_get_cons, (lookup_fold_dict_set _ _ k Hnd), Hk. reflexivity.
Qed.

Lemma permissions_imported_witness :
  path_get (Table (apply_opencode_permissions
                     [("model", Leaf (SStr "m")); ("permission", Leaf (SStr "ask"))]
                     [("deploy", Leaf (SStr "deny")); ("lint", Leaf (SStr "allow"))]))
           ["permission"; "skill"; "lint"] = Some (Leaf (SStr "allow")).
Proof.
  apply permissions_imported.
  - repeat constructor; simpl; intuition discriminate.
  - reflexivity.
Defined.

(** X18. Importing permissions touches nothing else: a path that is neither
    at, above nor below [permission.skill.<key>] for an imported key reads
    the same in the repo tree before and after; with nothing to import the
    tree is returned as it is. *)
Theorem permissions_touch_nothing_else (repo_data perms : Dict) (q : KeyPath) :
  (forall k, In k (keys perms) ->
             ~ extends ["permission"; "skill"; k] q
             /\ ~ extends q ["permission"; "skill"; k]) ->
  path_get (Table (apply_opencode_permissions repo_data perms)) q
  = path_get (Table repo_data) q.
Proof.
  intros Hoff.
  pose (I := fun d : Dict => path_get (Table d) q = path_get (Table repo_data) q).
  change (I (apply_opencode_permissions repo_data perms)).
  apply (for_each_invariant
           (fun d (kv : string * Value) =>
              path_set d ["permission"; "skill"; fst kv] (snd kv)) I perms)
    with (st := repo_data).
  - apply Forall_forall. intros [k v] Hin d d' Hd Hset. cbn [fst snd] in Hset.
    destruct (Hoff k) as [H1 H2]; [now apply (in_map fst) in Hin |].
    unfold I in *. rewrite <- Hd.
    now apply (path_set_off_path _ _ _ _ _ Hset).
  - reflexivity.
  - apply permissions_as_path_sets.
Qed.

Lemma permissions_touch_nothing_else_witness :
  path_get (Table (apply_opencode_permissions
                     [("model", Leaf (SStr "m"));
                      ("permission", Table [("skill", Table [("fmt", Leaf (SStr "ask"))])])]
                     [("lint", Leaf (SStr "allow"))]))
           ["permission"; "skill"; "fmt"]
  = path_get (Table [("model", Leaf (SStr "m"));
                     ("permission", Table [("skill", Table [("fmt", Leaf (SStr "ask"))])])])
             ["permission"; "skill"; "fmt"].
Proof.
  apply (permissions_touch_nothing_else
           [("model", Leaf (SStr "m"));
            ("permission", Table [("skill", Table [("fmt", Leaf (SStr "ask"))])])]
           [("lint", Leaf (SStr "allow"))] ["permission"; "skill"; "fmt"]).
  intros k [<- | []].
  split; intros (s & Hs); discriminate.
Defined.

(** ** Rendering of keys *)

Lemma str_app_assoc (a b c : string) : ((a ++ b) ++ c = a ++ (b ++ c))%string.
Proof. induction a as [| x a IH]; simpl; [reflexivity | now rewrite IH]. Qed.

Lemma str_app_nil_r (a : string) : (a ++ EmptyString)%string = a.
Proof. induction a as [| x a IH]; simpl; [reflexivity | now rewrite IH]. Qed.

Lemma str_length_app (a b : string) :
  String.length (a ++ b) = String.length a + String.length b.
Proof. induction a as [| x a IH]; simpl; [reflexivity | now rewrite IH]. Qed.

Lemma prefix_single (c x : ascii) (r : string) :
  String.prefix (String c EmptyString) (String x r) = Ascii.eqb x c.
Proof.
  simpl. destruct (ascii_dec c x) as [-> | Hne].
  - rewrite Ascii.eqb_refl. now destruct r.
  - symmetry. apply Ascii.eqb_neq. congruence.
Qed.

Lemma replace_single (c : ascii) (new s : string) :
  replace (String c EmptyString) new s =
  expand (fun x => if Ascii.eqb x c then new else String x EmptyString) s.
Proof.
  unfold replace. induction s as [| x r IH]; [reflexivity |].
  cbn [replace_from expand]. rewrite prefix_single.
  cbn [String.length Nat.sub]. rewrite IH.
  now destruct (Ascii.eqb x c).
Qed.

Lemma expand_app (f : ascii -> string) (a b : string) :
  expand f (a ++ b) = (expand f a ++ expand f b)%string.
Proof.
  induction a as [| c a IH]; [reflexivity |].
  cbn [append expand]. now rewrite IH, str_app_assoc.
Qed.

Lemma expand_expand (f g : ascii -> string) (s : string) :
  expand g (expand f s) = expand (fun x => expand g (f x)) s.
Proof.
  induction s as [| c s IH]; [reflexivity |].
  cbn [expand]. now rewrite expand_app, IH.
Qed.

Lemma expand_ext (f g : ascii -> string) (s : string) :
  (forall c, f c = g c) -> expand f s = expand g s.
Proof. intros H. induction s as [| c s IH]; simpl; [reflexivity | now rewrite H, IH]. Qed.

Lemma escaped_expand (key : string) :
  replace quote (backslash ++ quote) (replace backslash (backslash ++ backslash) key)
  = expand escape_char key.
Proof.
  unfold quote, backslash. rewrite !replace_single, expand_expand.
  apply expand_ext. intros c. unfold escape_char.
  destruct (Ascii.eqb c (ascii_of_nat 92)) eqn:H92.
  - reflexivity.
  - cbn [expand]. destruct (Ascii.eqb c (ascii_of_nat 34)); reflexivity.
Qed.

Lemma expand_escape_inj (s : string) :
  forall t, expand escape_char s = expand escape_char t -> s = t.
Proof.
  induction s as [| c s IH]; intros [| d t] H.
  - reflexivity.
  - exfalso. cbn [expand] in H. unfold escape_char in H.
    destruct (Ascii.eqb d (ascii_of_nat 92)); [discriminate |].
    destruct (Ascii.eqb d (ascii_of_nat 34)); discriminate.
  - exfalso. cbn [expand] in H. unfold escape_char in H.
    destruct (Ascii.eqb c (ascii_of_nat 92)); [discriminate |].
    destruct (Ascii.eqb c (ascii_of_nat 34)); discriminate.
  - cbn [expand] in H. unfold escape_char in H.
    destruct (Ascii.eqb c (ascii_of_nat 92)) eqn:Hc1;
      destruct (Ascii.eqb d (ascii_of_nat 92)) eqn:Hd1.
    + apply Ascii.eqb_eq in Hc1, Hd1. subst.
      injection H as H. f_equal. now apply IH.
    + destruct (Ascii.eqb d (ascii_of_nat 34)) eqn:Hd2.
      * discriminate.
      * injection H as Hd _. subst d. now rewrite Ascii.eqb_refl in Hd1.
    + destruct (Ascii.eqb c (ascii_of_nat 34)) eqn:Hc2.
      * discriminate.
      * injection H as Hc _. subst c. now rewrite Ascii.eqb_refl in Hc1.
    + destruct (Ascii.eqb c (ascii_of_nat 34)) eqn:Hc2;
        destruct (Ascii.eqb d (ascii_of_nat 34)) eqn:Hd2.
      * apply Ascii.eqb_eq in Hc2, Hd2. subst.
        injection H as H. f_equal. now apply IH.
      * injection H as Hd _. subst d. now rewrite Ascii.eqb_refl in Hd1.
      * injection H as Hc _. subst c. now rewrite Ascii.eqb_refl in Hc1.
      * injection H as -> H. f_equal. now apply IH.
Qed.

Lemma append_inj_suffix (q : string) (a : string) :
  forall b, (a ++ q = b ++ q)%string -> a = b.
Proof.
  induction a as [| c a IH]; intros [| d b] H.
  - reflexivity.
  - exfalso. apply (f_equal String.length) in H.
    cbn [append] in H. simpl in H. rewrite str_length_app in H. lia.
  - exfalso. apply (f_equal String.length) in H.
    cbn [append] in H. simpl in H. rewrite str_length_app in H. lia.
  - cbn [append] in H. injection H as -> H. f_equal. now apply IH.
Qed.

Lemma alnum_char_plain :
  forall c, is_alnum_char c = true ->
            is_space c = false /\ Nat.eqb (code c) 35 = false /\ Nat.eqb (code c) 34 = false.
Proof.
  intros [b0 b1 b2 b3 b4 b5 b6 b7];
    destruct b0, b1, b2, b3, b4, b5, b6, b7; vm_compute; intros H;
    try discriminate H; repeat split.
Qed.

Lemma all_chars_drop (P : ascii -> bool) (c : ascii) (s : string) :
  all_chars P (expand (fun x => if Ascii.eqb x c then EmptyString else String x EmptyString) s)
  = all_chars (fun x => Ascii.eqb x c || P x) s.
Proof.
  induction s as [| x s IH]; [reflexivity |].
  cbn [expand all_chars]. destruct (Ascii.eqb x c); simpl; now rewrite IH.
Qed.

Lemma drop_nonempty (c : ascii) (s : string) :
  str_is_empty
    (expand (fun x => if Ascii.eqb x c then EmptyString else String x EmptyString) s) = false ->
  str_is_empty s = false.
Proof. now destruct s. Qed.

(** A key is written bare only if it is not empty and consists of
    alphanumeric characters, underscores and hyphens. *)
Lemma bare_key_chars (key : string) :
  isalnum (replace "-" "" (replace "_" "" key)) = true ->
  str_is_empty key = false
  /\ all_chars (fun x => Ascii.eqb x "_" || (Ascii.eqb x "-" || is_alnum_char x)) key = true.
Proof.
  unfold isalnum. rewrite !replace_single. intros H.
  apply andb_true_iff in H. destruct H as [Hne Hall].
  apply negb_true_iff in Hne.
  rewrite !all_chars_drop in Hall. split; [| exact Hall].
  apply (drop_nonempty "_"). now apply (drop_nonempty "-").
Qed.

Lemma bare_key_plain (key : string) :
  isalnum (replace "-" "" (replace "_" "" key)) = true ->
  starts_plain key = true
  /\ match key with String c _ => Nat.eqb (code c) 34 = false | EmptyString => True end.
Proof.
  intros H. apply bare_key_chars in H. destruct H as [Hne Hall].
  destruct key as [| c r]; [discriminate |].
  cbn [all_chars] in Hall. apply andb_true_iff in Hall. destruct Hall as [Hc _].
  cbn [starts_plain].
  destruct (Ascii.eqb c "_") eqn:H1.
  { apply Ascii.eqb_eq in H1. subst c. split; reflexivity. }
  destruct (Ascii.eqb c "-") eqn:H2.
  { apply Ascii.eqb_eq in H2. subst c. split; reflexivity. }
  cbn [orb] in Hc. destruct (alnum_char_plain c Hc) as (Hs & H35 & H34).
  rewrite Hs, H35, H34. split; reflexivity.
Qed.

Lemma format_key_plain (key : string) : starts_plain (format_key key) = true.
Proof.
  unfold format_key.
  destruct (isalnum (replace "-" "" (replace "_" "" key))) eqn:Hb.
  - now apply bare_key_plain.
  - reflexivity.
Qed.

(** X19. Distinct keys are never written alike: [format_key] is
    injective. *)
Theorem format_key_injective (k1 k2 : string) :
  format_key k1 = format_key k2 -> k1 = k2.
Proof.
  unfold format_key. rewrite !escaped_expand.
  destruct (isalnum (replace "-" "" (replace "_" "" k1))) eqn:H1;
    destruct (isalnum (replace "-" "" (replace "_" "" k2))) eqn:H2; intros H.
  - exact H.
  - exfalso. apply bare_key_plain in H1. destruct H1 as [_ H1].
    subst k1. cbn in H1. discriminate.
  - exfalso. apply bare_key_plain in H2. destruct H2 as [_ H2].
    subst k2. cbn in H2. discriminate.
  - unfold quote in H at 1 3. cbn [append] in H. injection H as H.
    apply append_inj_suffix in H. now apply expand_escape_inj.
Qed.

Lemma format_key_injective_witness :
  ("a b")%string = ("a b")%string.
Proof. exact (format_key_injective "a b" "a b" eq_refl). Defined.

(** ** The header of a written document *)

Lemma space_chars :
  forall c, is_space c = false -> is_cr c = false /\ is_linebreak c = false.
Proof.
  intros [b0 b1 b2 b3 b4 b5 b6 b7];
    destruct b0, b1, b2, b3, b4, b5, b6, b7; vm_compute; intros H;
    try discriminate H; split; reflexivity.
Qed.

Lemma starts_plain_inv (line : string) :
  starts_plain line = true ->
  exists c r, line = String c r /\ is_space c = false /\ Nat.eqb (code c) 35 = false.
Proof.
  destruct line as [| c r]; [discriminate |]. cbn [starts_plain]. intros H.
  apply andb_true_iff in H. destruct H as [H1 H2].
  apply negb_true_iff in H1, H2. eauto.
Qed.

Lemma splitlines_acc_line (l : string) :
  forall rest acc,
    no_break l = true ->
    splitlines_acc (l ++ rest) acc = splitlines_acc rest (acc ++ l).
Proof.
  induction l as [| c l IH]; intros rest acc Hl.
  - now rewrite str_app_nil_r.
  - cbn [no_break all_chars] in Hl. apply andb_true_iff in Hl. destruct Hl as [Hc Hl].
    apply negb_true_iff, orb_false_iff in Hc. destruct Hc as [Hcr Hlb].
    cbn [append splitlines_acc]. rewrite Hcr, Hlb.
    rewrite (IH rest _ Hl), str_app_assoc. reflexivity.
Qed.

Lemma splitlines_acc_nl (rest acc : string) :
  splitlines_acc (nl ++ rest) acc = acc :: splitlines_acc rest EmptyString.
Proof. reflexivity. Qed.

Lemma splitlines_lines_text (ls : list string) (rest : string) :
  Forall (fun l => no_break l = true) ls ->
  splitlines_acc (lines_text ls rest) EmptyString = ls ++ splitlines_acc rest EmptyString.
Proof.
  induction 1 as [| l ls Hl _ IH]; [reflexivity |].
  cbn [lines_text fold_right]. fold (lines_text ls rest).
  rewrite (splitlines_acc_line l _ _ Hl), splitlines_acc_nl. cbn [append app].
  now rewrite IH.
Qed.

Lemma splitlines_acc_head (text : string) :
  forall acc, acc <> EmptyString ->
              exists l rest, splitlines_acc text acc = (acc ++ l)%string :: rest.
Proof.
  induction text as [| c text IH]; intros acc Hacc.
  - exists EmptyString, []. cbn [splitlines_acc].
    destruct acc; [congruence |]. now rewrite str_app_nil_r.
  - cbn [splitlines_acc]. destruct (is_cr c).
    + exists EmptyString. rewrite str_app_nil_r.
      destruct text as [| c2 text2]; [eauto |]. destruct (is_lf c2); eauto.
    + destruct (is_linebreak c).
      * exists EmptyString. rewrite str_app_nil_r. eauto.
      * destruct (IH (acc ++ String c EmptyString)%string) as (l & rest & H).
        { destruct acc; discriminate. }
        rewrite H. exists (String c l), rest. now rewrite str_app_assoc.
Qed.

Lemma splitlines_plain (c : ascii) (text : string) :
  is_space c = false ->
  exists l rest, splitlines_acc (String c text) EmptyString = String c l :: rest.
Proof.
  intros Hc. destruct (space_chars c Hc) as [Hcr Hlb].
  cbn [splitlines_acc]. rewrite Hcr, Hlb. cbn [append].
  destruct (splitlines_acc_head text (String c EmptyString)) as (l & rest & H);
    [discriminate |].
  rewrite H. cbn [append]. eauto.
Qed.

Lemma rstrip_plain (c : ascii) (r : string) :
  is_space c = false -> rstrip (String c r) = String c (rstrip r).
Proof. intros Hc. cbn [rstrip]. now rewrite Hc. Qed.

Lemma rstrip_app (a b : string) :
  rstrip b <> EmptyString -> rstrip (a ++ b) = (a ++ rstrip b)%string.
Proof.
  intros Hb. induction a as [| x a IH]; [reflexivity |].
  cbn [append rstrip]. rewrite IH.
  replace (str_is_empty (a ++ rstrip b)) with false.
  - now rewrite andb_false_r.
  - destruct a; [| reflexivity]. cbn [append]. now destruct (rstrip b).
Qed.

Lemma lines_text_app (ls : list string) (rest : string) :
  lines_text ls rest = (lines_text ls EmptyString ++ rest)%string.
Proof.
  induction ls as [| l ls IH]; [reflexivity |].
  cbn [lines_text fold_right]. fold (lines_text ls rest) (lines_text ls EmptyString).
  now rewrite IH, !str_app_assoc.
Qed.

Lemma join_cons (sep x : string) (xs : list string) :
  xs <> [] -> join sep (x :: xs) = (x ++ sep ++ join sep xs)%string.
Proof. destruct xs; [congruence | reflexivity]. Qed.

Lemma join_lines_text (ls body : list string) :
  body <> [] -> join nl (ls ++ body) = lines_text ls (join nl body).
Proof.
  intros Hb. induction ls as [| l ls IH]; [reflexivity |].
  cbn [app]. rewrite join_cons.
  - cbn [lines_text fold_right]. fold (lines_text ls (join nl body)). now rewrite IH.
  - destruct ls; [exact Hb | discriminate].
Qed.

Lemma join_plain (c : ascii) (r : string) (more : list string) :
  exists x, join nl (String c r :: more) = String c x.
Proof.
  destruct more as [| m more].
  - exists r. reflexivity.
  - rewrite join_cons by discriminate. cbn [append]. eauto.
Qed.

Lemma strip_comment_nonempty (line : string) :
  is_comment line = true -> String.eqb (strip line) EmptyString = false.
Proof. unfold is_comment. now destruct (strip line). Qed.

Lemma extract_header_loop_comments (hdr : list string) :
  forall rest acc,
    Forall (fun l => is_comment l = true) hdr ->
    extract_header_loop (hdr ++ rest) acc = extract_header_loop rest (acc ++ hdr).
Proof.
  induction hdr as [| h hdr IH]; intros rest acc Hh.
  - now rewrite app_nil_r.
  - inversion Hh as [| ? ? Hc Hh']; subst.
    cbn [app extract_header_loop].
    rewrite (strip_comment_nonempty h Hc). unfold is_comment in Hc. rewrite Hc.
    rewrite (IH rest _ Hh'), <- app_assoc. reflexivity.
Qed.

Lemma extract_header_loop_plain (c : ascii) (l : string) (rest acc : list string) :
  is_space c = false -> Nat.eqb (code c) 35 = false ->
  extract_header_loop (String c l :: rest) acc = acc.
Proof.
  intros Hs Hh. cbn [extract_header_loop]. unfold strip.
  cbn [lstrip]. rewrite Hs, (rstrip_plain c l Hs). cbn [String.eqb starts_with_hash].
  now rewrite Hh.
Qed.

(** The text of a document whose lines are a header block followed by a
    body that starts with a plain line reads back with exactly that
    header. *)
Lemma extract_header_of_lines (hdr body : list string) :
  Forall (fun l => header_line l = true) hdr ->
  good_tail body -> body <> [] ->
  extract_header (rstrip (join nl (header_block hdr ++ body)) ++ nl) = hdr.
Proof.
  intros Hhdr Hgood Hne.
  destruct body as [| l0 more]; [congruence |]. cbn [good_tail] in Hgood.
  destruct (starts_plain_inv l0 Hgood) as (c & r & -> & Hs & Hh).
  destruct (join_plain c r more) as (x & Hx).
  rewrite join_lines_text by discriminate.
  rewrite Hx, lines_text_app, rstrip_app;
    [| rewrite (rstrip_plain c x Hs); discriminate].
  rewrite (rstrip_plain c x Hs), str_app_assoc, <- lines_text_app.
  unfold extract_header, splitlines.
  assert (Hnb : Forall (fun l => no_break l = true) (header_block hdr)).
  { destruct hdr as [| h hdr]; [constructor |].
    cbn [header_block]. apply Forall_app. split.
    - eapply Forall_impl; [| exact Hhdr]. intros l Hl.
      unfold header_line in Hl. apply andb_true_iff in Hl. apply Hl.
    - repeat constructor. }
  rewrite (splitlines_lines_text _ _ Hnb). cbn [append].
  destruct (splitlines_plain c (rstrip x ++ nl) Hs) as (l & rest & Hsplit).
  rewrite Hsplit.
  assert (Hcom : Forall (fun l => is_comment l = true) hdr).
  { eapply Forall_impl; [| exact Hhdr]. intros l' Hl.
    unfold header_line in Hl. apply andb_true_iff in Hl. apply Hl. }
  destruct hdr as [| h hdr].
  - cbn [header_block app]. now apply extract_header_loop_plain.
  - cbn [header_block]. rewrite <- app_assoc.
    rewrite (extract_header_loop_comments _ _ _ Hcom). cbn [app].
    cbn [extract_header_loop]. unfold strip at 1. cbn [lstrip rstrip String.eqb].
    now apply extract_header_loop_plain.
Qed.

Lemma starts_plain_app (a b : string) :
  starts_plain a = true -> starts_plain (a ++ b) = true.
Proof. destruct a; [discriminate | auto]. Qed.

Lemma separate_cases (lines : list string) :
  separate lines = lines \/ separate lines = lines ++ [""].
Proof.
  unfold separate. destruct (rev lines) as [| last ?]; auto.
  destruct (String.eqb last EmptyString); auto.
Qed.

Lemma separate_header_block (hdr : list string) :
  separate (header_block hdr) = header_block hdr.
Proof.
  destruct hdr as [| h hdr]; [reflexivity |].
  unfold separate, header_block. now rewrite rev_unit.
Qed.

Lemma tail_state_snoc (pre : list string) (b : bool) (acc : list string) (l : string) :
  tail_state pre b acc -> starts_plain l = true -> tail_state pre true (acc ++ [l]).
Proof.
  intros (tail & -> & Hgood & _) Hl. exists (tail ++ [l]). repeat split.
  - now rewrite app_assoc.
  - destruct tail; [exact Hl | exact Hgood].
  - intros _. destruct tail; discriminate.
Qed.

Lemma tail_state_separate (pre : list string) (b : bool) (acc : list string) :
  separate pre = pre -> tail_state pre b acc -> tail_state pre b (separate acc).
Proof.
  intros Hpre (tail & -> & Hgood & Hne).
  destruct (separate_cases (pre ++ tail)) as [-> | Hsep].
  - exists tail. auto.
  - destruct tail as [| l tail].
    + exfalso. rewrite app_nil_r in Hsep. rewrite Hpre in Hsep.
      apply (f_equal (@List.length string)) in Hsep.
      rewrite length_app in Hsep. simpl in Hsep. lia.
    + rewrite Hsep. exists ((l :: tail) ++ [""]). repeat split.
      * now rewrite app_assoc.
      * exact Hgood.
      * discriminate.
Qed.

Lemma tail_state_weaken (pre : list string) (b : bool) (acc : list string) :
  tail_state pre true acc -> tail_state pre b acc.
Proof. intros (tail & H1 & H2 & H3). exists tail. auto. Qed.

Section DumpHeader.

Variable fk : string -> string.
Variable fv : Scalar -> string.
Hypothesis fk_plain : forall key, starts_plain (fk key) = true.

Lemma scalar_lines_state (pre : list string) (t : Dict) :
  forall acc b,
    tail_state pre b acc ->
    tail_state pre (b || negb (is_empty t))
      (fold_left
         (fun acc (kv : string * Value) =>
            match snd kv with
            | Table _ => acc
            | Leaf s => acc ++ [(fk (fst kv) ++ " = " ++ fv s)%string]
            end) t acc)
    \/ (exists k u rest, t = (k, Table u) :: rest).
Proof.
  intros acc b H. destruct t as [| [k [s | u]] rest].
  - left. now rewrite orb_false_r.
  - left. cbn [fold_left snd fst is_empty negb]. rewrite orb_true_r.
    assert (H1 : tail_state pre true (acc ++ [(fk k ++ " = " ++ fv s)%string])).
    { apply (tail_state_snoc pre b); auto. now apply starts_plain_app. }
    clear H. revert H1. generalize (acc ++ [(fk k ++ " = " ++ fv s)%string]).
    induction rest as [| [k' [s' | u']] rest IH]; intros a Ha; cbn [fold_left snd fst].
    + exact Ha.
    + apply IH. apply (tail_state_snoc pre true); auto. now apply starts_plain_app.
    + now apply IH.
  - right. eauto.
Qed.

Lemma scalar_lines_keep (pre : list string) (t : Dict) :
  forall acc b,
    tail_state pre b acc ->
    tail_state pre b
      (fold_left
         (fun acc (kv : string * Value) =>
            match snd kv with
            | Table _ => acc
            | Leaf s => acc ++ [(fk (fst kv) ++ " = " ++ fv s)%string]
            end) t acc).
Proof.
  induction t as [| [k [s | u]] rest IH]; intros acc b H; cbn [fold_left snd fst].
  - exact H.
  - apply IH. apply tail_state_weaken.
    apply (tail_state_snoc pre b); auto. now apply starts_plain_app.
  - now apply IH.
Qed.

Lemma emit_table_state (pre : list string) (table : Value) :
  separate pre = pre ->
  forall path acc b,
    tail_state pre b acc ->
    tail_state pre
      (b || match table with
            | Table t => has_keys path || negb (is_empty t)
            | Leaf _ => false
            end)
      (emit_table fk fv path table acc).
Proof.
  intros Hpre.
  induction table as [s | t IH] using Value_ind'; intros path acc b H.
  - now rewrite orb_false_r.
  - cbn [emit_table].
    set (lines1 := match path with
                   | [] => acc
                   | _ :: _ => acc ++ [("[" ++ join "." (map fk path) ++ "]")%string]
                   end).
    assert (H1 : tail_state pre (b || has_keys path) lines1).
    { subst lines1. destruct path as [| k path].
      - now rewrite orb_false_r.
      - rewrite orb_true_r. apply (tail_state_snoc pre b); auto. }
    clearbody lines1.
    set (b1 := b || has_keys path) in *.
    set (Fs := fun acc (kv : string * Value) =>
                 match snd kv with
                 | Table _ => acc
                 | Leaf s => acc ++ [(fk (fst kv) ++ " = " ++ fv s)%string]
                 end).
    set (Ft := fun acc (kv : string * Value) =>
                 match snd kv with
                 | Table _ => emit_table fk fv (path ++ [fst kv]) (snd kv) (separate acc)
                 | Leaf _ => acc
                 end).
    assert (Hkeep : forall l a c,
              Forall (fun kv : string * Value =>
                        forall path acc b,
                          tail_state pre b acc ->
                          tail_state pre
                            (b || match snd kv with
                                  | Table t => has_keys path || negb (is_empty t)
                                  | Leaf _ => false
                                  end)
                            (emit_table fk fv path (snd kv) acc)) l ->
              tail_state pre c a -> tail_state pre c (fold_left Ft l a)).
    { induction l as [| [k [s | u]] l IHl]; intros a c Hall Ha; auto.
      - cbn [fold_left]. apply IHl; [now inversion Hall | exact Ha].
      - cbn [fold_left]. inversion Hall as [| ? ? Hkv Hall']; subst.
        apply IHl; auto. unfold Ft. cbn [snd fst].
        apply tail_state_weaken.
        pose proof (Hkv (path ++ [k]) (separate a) c
                        (tail_state_separate pre c a Hpre Ha)) as Hs.
        cbn [snd] in Hs.
        replace (c || (has_keys (path ++ [k]) || negb (is_empty u)))
          with true in Hs; [exact Hs |].
        destruct path; simpl; now rewrite orb_true_r. }
    fold Fs. fold Ft.
    destruct (scalar_lines_state pre t lines1 b1 H1) as [Hs | (k & u & rest & ->)].
    + fold Fs in Hs. unfold b1 in Hs. rewrite <- orb_assoc in Hs.
      now apply Hkeep.
    + cbn [fold_left]. unfold Fs at 2. cbn [snd].
      pose proof (scalar_lines_keep pre rest lines1 b1 H1) as Hs. fold Fs in Hs.
      cbn [is_empty negb]. rewrite !orb_true_r.
      inversion IH as [| ? ? Hkv Hall]; subst.
      apply Hkeep; auto. unfold Ft. cbn [snd fst].
      pose proof (Hkv (path ++ [k]) (separate (fold_left Fs rest lines1)) b1
                      (tail_state_separate pre b1 _ Hpre Hs)) as Hk.
      cbn [snd] in Hk.
      replace (b1 || (has_keys (path ++ [k]) || negb (is_empty u)))
        with true in Hk; [exact Hk |].
      destruct path; simpl; now rewrite orb_true_r.
Qed.

Lemma dump_header_read_back (data : Dict) (hdr : list string) :
  data <> [] ->
  Forall (fun l => header_line l = true) hdr ->
  extract_header (dump_toml fk fv data hdr) = hdr.
Proof.
  intros Hdata Hhdr. unfold dump_toml, dump_lines.
  change (match hdr with [] => [] | _ :: _ => hdr ++ [""] end) with (header_block hdr).
  destruct (emit_table_state (header_block hdr) (Table data)
              (separate_header_block hdr) [] (header_block hdr) false)
    as (tail & Heq & Hgood & Hne).
  { exists []. repeat split; [now rewrite app_nil_r | discriminate]. }
  rewrite Heq. apply extract_header_of_lines; auto.
  apply Hne. destruct data; [congruence | reflexivity].
Qed.

(** The text written for a tree that has an entry starts with the header
    block, whatever the header is made of. *)
Lemma dump_layout (data : Dict) (hdr : list string) :
  data <> [] ->
  exists rest, dump_toml fk fv data hdr = lines_text (header_block hdr) rest.
Proof.
  intros Hdata. unfold dump_toml, dump_lines.
  change (match hdr with [] => [] | _ :: _ => hdr ++ [""] end) with (header_block hdr).
  destruct (emit_table_state (header_block hdr) (Table data)
              (separate_header_block hdr) [] (header_block hdr) false)
    as (tail & Heq & Hgood & Hne).
  { exists []. repeat split; [now rewrite app_nil_r | discriminate]. }
  rewrite Heq.
  destruct tail as [| l0 more].
  { exfalso. apply Hne; [| reflexivity]. destruct data; [congruence | reflexivity]. }
  cbn [good_tail] in Hgood.
  destruct (starts_plain_inv l0 Hgood) as (c & r & -> & Hs & Hh).
  destruct (join_plain c r more) as (x & Hx).
  rewrite join_lines_text by discriminate.
  rewrite Hx, lines_text_app, rstrip_app;
    [| rewrite (rstrip_plain c x Hs); discriminate].
  rewrite str_app_assoc, <- lines_text_app. eauto.
Qed.

End DumpHeader.

Lemma all_chars_app (f : ascii -> bool) (a b : string) :
  all_chars f (a ++ b) = all_chars f a && all_chars f b.
Proof.
  induction a as [| c a IH]; [reflexivity |].
  cbn [append all_chars]. now rewrite IH, andb_assoc.
Qed.

Lemma lf_chars :
  forall c, is_lf c = true -> is_cr c = false /\ is_linebreak c = true.
Proof.
  intros [b0 b1 b2 b3 b4 b5 b6 b7];
    destruct b0, b1, b2, b3, b4, b5, b6, b7; vm_compute; intros H;
    try discriminate H; split; reflexivity.
Qed.

Lemma splitlines_acc_no_break (text : string) :
  forall acc,
    no_break acc = true ->
    Forall (fun l => no_break l = true) (splitlines_acc text acc).
Proof.
  induction text as [| c text IH]; intros acc Hacc.
  - cbn [splitlines_acc]. destruct (str_is_empty acc); repeat constructor; auto.
  - cbn [splitlines_acc]. destruct (is_cr c) eqn:Hcr.
    + destruct text as [| c2 text2]; [repeat constructor; auto |].
      destruct (is_lf c2) eqn:Hlf; constructor; auto.
      specialize (IH EmptyString eq_refl). cbn [splitlines_acc] in IH.
      destruct (lf_chars c2 Hlf) as [Hcr2 Hlb2]. rewrite Hcr2, Hlb2 in IH.
      now inversion IH.
    + destruct (is_linebreak c) eqn:Hlb; [constructor; auto |].
      apply IH. unfold no_break in *. rewrite all_chars_app, Hacc.
      cbn [all_chars]. now rewrite Hcr, Hlb.
Qed.

Lemma extract_header_loop_lines (todo : list string) :
  forall acc,
    Forall (fun l => no_break l = true) todo ->
    Forall (fun l => header_line l = true) acc ->
    Forall (fun l => header_line l = true) (extract_header_loop todo acc).
Proof.
  induction todo as [| line rest IH]; intros acc Htodo Hacc; [exact Hacc |].
  inversion Htodo as [| ? ? Hline Hrest]; subst.
  cbn [extract_header_loop].
  destruct (String.eqb (strip line) EmptyString); [now apply IH |].
  destruct (starts_with_hash (strip line)) eqn:Hhash; [| exact Hacc].
  apply IH; auto. apply Forall_app. split; auto.
  constructor; [| constructor].
  unfold header_line, is_comment. rewrite Hhash. exact Hline.
Qed.

(** What [extract_header] returns are comment lines without a line
    boundary inside. *)
Lemma extract_header_lines (text : string) :
  Forall (fun l => header_line l = true) (extract_header text).
Proof.
  unfold extract_header, splitlines. apply extract_header_loop_lines.
  - now apply splitlines_acc_no_break.
  - constructor.
Qed.

Lemma install_header_lines (repo_header existing_hdr : list string) :
  Forall (fun l => header_line l = true) repo_header ->
  Forall (fun l => header_line l = true) existing_hdr ->
  Forall (fun l => header_line l = true) (install_header repo_header existing_hdr).
Proof. intros H1 H2. now destruct repo_header. Qed.

Lemma merge_dicts_nonempty (existing repo : Dict) :
  existing <> [] \/ repo <> [] -> merge_dicts existing repo <> [].
Proof.
  intros [H | H].
  - destruct existing; [congruence | discriminate].
  - destruct existing as [| kv e]; [| discriminate].
    now rewrite merge_dicts_nil_l.
Qed.

Lemma format_key_header_read_back
    (fv : Scalar -> string) (data : Dict) (hdr : list string) :
  data <> [] ->
  Forall (fun l => header_line l = true) hdr ->
  extract_header (dump_toml format_key fv data hdr) = hdr.
Proof. intros. apply dump_header_read_back; auto. exact format_key_plain. Qed.

(** X20. A written document reads back with the header it was given:
    for a tree with at least one entry and header lines as
    [extract_header] returns them (comment lines), [extract_header] of the
    text that [dump_toml] produces is exactly that header; no key or table
    line is taken for part of it. *)
Theorem written_header_read_back
    (fv : Scalar -> string) (data : Dict) (hdr : list string) :
  data <> [] ->
  Forall (fun l => header_line l = true) hdr ->
  extract_header (dump_toml format_key fv data hdr) = hdr.
Proof. apply format_key_header_read_back. Qed.

Lemma written_header_read_back_witness :
  extract_header
    (dump_toml format_key (fun _ => "1")
       [("plain", Leaf (SInt 1)); ("x y", Table [("#k", Leaf (SInt 1))])]
       ["# managed"; "  # by hand "])
  = ["# managed"; "  # by hand "].
Proof.
  apply written_header_read_back.
  - discriminate.
  - repeat constructor.
Defined.

Section HeaderCycle.

Variable loads : string -> option Dict.
Variable fv : Scalar -> string.

(** X21. After [install], the target starts with the header install chose:
    whenever the merged tree has an entry, the header read from the written
    target is the repo header if the repo text has one, and the header of
    the previous target otherwise. *)
Theorem install_header_read_back
    (perms : Dict) (name : string) (fs : Files)
    (repo_text : string) (repo_loaded existing_data : Dict) :
  repo_file fs = Some repo_text ->
  load_toml loads repo_text = Some repo_loaded ->
  match target_file fs with
  | Some t => load_toml loads t = Some existing_data
  | None => existing_data = []
  end ->
  existing_data <> [] \/ apply_opencode_permissions repo_loaded perms <> [] ->
  exists fs1 doc,
    install loads format_key fv perms name fs = Some (fs1, 0%Z)
    /\ target_file fs1 = Some doc
    /\ extract_header doc =
       install_header (extract_header repo_text)
         match target_file fs with
         | Some t => extract_header t
         | None => []
         end.
Proof.
  intros Hrepo Hload Hexisting Hne. unfold install. rewrite Hrepo, Hload.
  set (repo_data := apply_opencode_permissions repo_loaded perms) in *.
  assert (Hread : forall existing_hdr,
            Forall (fun l => header_line l = true) existing_hdr ->
            extract_header
              (dump_toml format_key fv (merge_dicts existing_data repo_data)
                 (install_header (extract_header repo_text) existing_hdr))
            = install_header (extract_header repo_text) existing_hdr).
  { intros existing_hdr Hh. apply format_key_header_read_back.
    - now apply merge_dicts_nonempty.
    - apply install_header_lines; auto. apply extract_header_lines. }
  destruct (target_file fs) as [t |].
  - rewrite Hexisting. eexists. eexists. split; [reflexivity |].
    split; [reflexivity |]. apply Hread. apply extract_header_lines.
  - subst existing_data. eexists. eexists. split; [reflexivity |].
    split; [reflexivity |]. apply Hread. constructor.
Qed.

(** X22. After [remove], the target starts with the header recorded in the
    ledger: whenever the rolled-back tree has an entry and the recorded
    header consists of comment lines, the header read from the written
    target is the recorded one. *)
Theorem remove_header_read_back
    (fs : Files) (ledger : Ledger) (text : string) (data data' : Dict) (skipped : nat) :
  state_file fs = Some ledger ->
  target_file fs = Some text ->
  load_toml loads text = Some data ->
  rollback (overrides ledger) (additions ledger) data = Some (data', skipped) ->
  data' <> [] ->
  Forall (fun l => header_line l = true) (existing_header ledger) ->
  exists fs' msgs doc,
    remove loads format_key fv fs = Some (fs', 0%Z, msgs)
    /\ target_file fs' = Some doc
    /\ extract_header doc = existing_header ledger.
Proof.
  intros Hstate Htarget Hload Hroll Hne Hhdr. unfold remove.
  rewrite Hstate, Htarget, Hload, Hroll.
  eexists. eexists. eexists. split; [reflexivity |].
  cbn [target_file]. unfold target_after.
  destruct data' as [| kv d]; [congruence |]. cbn [is_empty negb].
  split; [reflexivity |].
  apply format_key_header_read_back; auto.
Qed.

End HeaderCycle.

Lemma install_header_read_back_witness :
  let repo_text := ("# repo" ++ nl ++ "shell = true" ++ nl)%string in
  let loads := fun t : string => Some [("shell", Leaf (SBool true))] in
  let fv := fun _ : Scalar => "true" in
  let fs := mkFiles (Some repo_text) None None in
  exists fs1 doc,
    install loads format_key fv [] "config.toml" fs = Some (fs1, 0%Z)
    /\ target_file fs1 = Some doc
    /\ extract_header doc = install_header (extract_header repo_text) [].
Proof.
  intros repo_text loads fv fs.
  apply (install_header_read_back loads fv [] "config.toml" fs repo_text
           [("shell", Leaf (SBool true))] []).
  - reflexivity.
  - reflexivity.
  - reflexivity.
  - right. discriminate.
Defined.

Lemma remove_header_read_back_witness :
  let text := ("# repo" ++ nl ++ "mode = 1" ++ nl)%string in
  let loads := fun t : string => Some [("mode", Leaf (SInt 1))] in
  let fv := fun _ : Scalar => "1" in
  let ledger := mkLedger "config.toml" true ["# mine"] []
                  [mkOverride ["mode"] (Leaf (SInt 0)) (Leaf (SInt 1))] in
  let fs := mkFiles None (Some text) (Some ledger) in
  exists fs' msgs doc,
    remove loads format_key fv fs = Some (fs', 0%Z, msgs)
    /\ target_file fs' = Some doc
    /\ extract_header doc = existing_header ledger.
Proof.
  intros text loads fv ledger fs.
  apply (remove_header_read_back loads fv fs ledger text
           [("mode", Leaf (SInt 1))] [("mode", Leaf (SInt 0))] 0).
  - reflexivity.
  - reflexivity.
  - reflexivity.
  - reflexivity.
  - discriminate.
  - repeat constructor.
Defined.

(** ** Trees up to key order *)

Lemma same_lookup (t u : Dict) (k : string) :
  same (Table t) (Table u) -> same_opt (lookup k t) (lookup k u).
Proof.
  intros H. inversion H as [| ? ? Hnone Hsome]; subst.
  unfold same_opt. destruct (lookup k t) as [v |] eqn:Hk.
  - destruct (Hsome k v Hk) as (w & -> & Hw). exact Hw.
  - now rewrite (Hnone k Hk).
Qed.

Lemma same_refl (v : Value) : same v v.
Proof.
  induction v as [s | t IH] using Value_ind'; constructor; auto.
  intros k v Hk. exists v. split; auto.
  rewrite Forall_forall in IH. exact (IH (k, v) (lookup_Some_In _ _ _ Hk)).
Qed.

Lemma same_sym (a : Value) : forall b, same a b -> same b a.
Proof.
  induction a as [s | t IH] using Value_ind'; intros b H.
  - inversion H; subst. constructor.
  - inversion H as [| ? u Hnone Hsome]; subst. constructor.
    + intros k Hk. destruct (lookup k t) as [v |] eqn:Ht; auto.
      destruct (Hsome k v Ht) as (w & Hw & _). congruence.
    + intros k w Hk. destruct (lookup k t) as [v |] eqn:Ht.
      * exists v. split; auto.
        destruct (Hsome k v Ht) as (w' & Hw' & Hsame).
        assert (w' = w) by congruence. subst w'.
        rewrite Forall_forall in IH.
        exact (IH (k, v) (lookup_Some_In _ _ _ Ht) w Hsame).
      * rewrite (Hnone k Ht) in Hk. discriminate.
Qed.

Lemma same_path_get (p : KeyPath) :
  forall a b, same a b -> same_opt (path_get a p) (path_get b p).
Proof.
  induction p as [| k p IH]; intros a b H.
  - exact H.
  - inversion H as [s | t u Hnone Hsome]; subst.
    + exact I.
    + cbn [path_get item].
      pose proof (same_lookup t u k H) as Hk. unfold same_opt in Hk.
      destruct (lookup k t) as [v |], (lookup k u) as [w |]; try contradiction.
      * now apply IH.
      * exact I.
Qed.

Lemma same_keys (t u : Dict) (k : string) :
  same (Table t) (Table u) -> (In k (keys t) <-> In k (keys u)).
Proof.
  intros H. pose proof (same_lookup t u k H) as Hk. unfold same_opt in Hk.
  rewrite <- !mem_true. unfold mem.
  destruct (lookup k t), (lookup k u); try contradiction; reflexivity.
Qed.

Lemma same_length (t u : Dict) :
  wf_table t -> wf_table u -> same (Table t) (Table u) ->
  List.length t = List.length u.
Proof.
  intros Ht Hu H.
  rewrite <- (length_map fst t), <- (length_map fst u).
  fold (keys t) (keys u).
  assert (H1 : List.length (keys t) <= List.length (keys u)).
  { apply NoDup_incl_length; [exact (wf_table_keys Ht) |].
    intros k. apply (same_keys t u k H). }
  assert (H2 : List.length (keys u) <= List.length (keys t)).
  { apply NoDup_incl_length; [exact (wf_table_keys Hu) |].
    intros k. apply (same_keys t u k H). }
  lia.
Qed.

Lemma same_is_empty (t u : Dict) :
  same (Table t) (Table u) -> is_empty t = is_empty u.
Proof.
  intros H. destruct t as [| [k v] t], u as [| [k' w] u]; auto.
  - pose proof (same_lookup _ _ k' H) as Hk. simpl in Hk.
    now rewrite String.eqb_refl in Hk.
  - pose proof (same_lookup _ _ k H) as Hk. simpl in Hk.
    now rewrite String.eqb_refl in Hk.
Qed.

Lemma same_kind (a b : Value) : same a b -> is_dict a = is_dict b.
Proof. now destruct 1. Qed.

Lemma value_eqb_table (t u : Dict) :
  value_eqb (Table t) (Table u) =
  (List.length t =? List.length u)%nat
  && forallb (fun kv : string * Value =>
                match lookup (fst kv) u with
                | Some w => value_eqb (snd kv) w
                | None => false
                end) t.
Proof.
  cbn [value_eqb]. f_equal.
  induction t as [| [k v] t IH]; [reflexivity |].
  cbn [forallb fst snd]. now rewrite IH.
Qed.

Lemma bool_eq_iff (a b : bool) : (a = true <-> b = true) -> a = b.
Proof. destruct a, b; intuition congruence. Qed.

Lemma value_eqb_same (a : Value) :
  forall a' b b',
    wf_value a -> wf_value a' -> wf_value b -> wf_value b' ->
    same a a' -> same b b' ->
    value_eqb a b = value_eqb a' b'.
Proof.
  induction a as [s | t IH] using Value_ind'; intros a' b b' Ha Ha' Hb Hb' Haa Hbb.
  - inversion Haa; subst. inversion Hbb; subst; reflexivity.
  - inversion Haa as [| ? t' _ _]; subst.
    inversion Hbb as [x | u u' _ _]; subst; [reflexivity |].
    rewrite !value_eqb_table.
    rewrite (same_length t t' Ha Ha' Haa), (same_length u u' Hb Hb' Hbb).
    f_equal. rewrite Forall_forall in IH.
    assert (Hstep : forall k v v',
              lookup k t = Some v -> lookup k t' = Some v' ->
              match lookup k u with Some w => value_eqb v w | None => false end =
              match lookup k u' with Some w => value_eqb v' w | None => false end).
    { intros k v v' Hv Hv'.
      pose proof (same_lookup t t' k Haa) as Hk. rewrite Hv, Hv' in Hk.
      pose proof (same_lookup u u' k Hbb) as Hku. unfold same_opt in *.
      destruct (lookup k u) as [w |] eqn:Hw, (lookup k u') as [w' |] eqn:Hw';
        try contradiction; auto.
      apply (IH (k, v) (lookup_Some_In _ _ _ Hv)); auto.
      - exact (wf_value_lookup Ha Hv).
      - exact (wf_value_lookup Ha' Hv').
      - exact (wf_value_lookup Hb Hw).
      - exact (wf_value_lookup Hb' Hw'). }
    apply bool_eq_iff. rewrite !forallb_forall. split.
    + intros Hall [k v'] Hin. cbn [fst snd].
      pose proof (In_lookup _ _ _ (wf_table_keys Ha') Hin) as Hv'.
      pose proof (same_lookup t t' k Haa) as Hk. rewrite Hv' in Hk.
      unfold same_opt in Hk. destruct (lookup k t) as [v |] eqn:Hv; [| contradiction].
      rewrite <- (Hstep k v v' Hv Hv').
      exact (Hall (k, v) (lookup_Some_In _ _ _ Hv)).
    + intros Hall [k v] Hin. cbn [fst snd].
      pose proof (In_lookup _ _ _ (wf_table_keys Ha) Hin) as Hv.
      pose proof (same_lookup t t' k Haa) as Hk. rewrite Hv in Hk.
      unfold same_opt in Hk. destruct (lookup k t') as [v' |] eqn:Hv'; [| contradiction].
      rewrite (Hstep k v v' Hv Hv').
      exact (Hall (k, v') (lookup_Some_In _ _ _ Hv')).
Qed.

Lemma In_keys_dict_set (key k : string) (v : Value) (d : Dict) :
  In k (keys (dict_set key v d)) <-> k = key \/ In k (keys d).
Proof.
  rewrite <- !mem_true. unfold mem.
  destruct (String.eqb_spec k key) as [-> | Hne].
  - rewrite lookup_dict_set_same. intuition.
  - rewrite (lookup_dict_set_other _ _ _ _ Hne).
    destruct (lookup k d); intuition congruence.
Qed.

Lemma wf_nil : wf_table [].
Proof. apply wf_table_unfold. split; constructor. Qed.

Lemma wf_dict_set (key : string) (v : Value) (d : Dict) :
  wf_table d -> wf_value v -> wf_table (dict_set key v d).
Proof.
  intros Hd Hv. induction d as [| [k w] d IH].
  - apply wf_table_cons. split; [intros [] |]. split; [exact Hv | apply wf_nil].
  - apply wf_table_cons in Hd. destruct Hd as (Hk & Hw & Hd).
    cbn [dict_set]. destruct (String.eqb_spec k key) as [-> | Hne].
    + apply wf_table_cons. split; [exact Hk |]. split; [exact Hv | exact Hd].
    + apply wf_table_cons. split.
      * rewrite In_keys_dict_set. intros [-> | Hin]; [now apply Hne | now apply Hk].
      * split; [exact Hw | exact (IH Hd)].
Qed.

Lemma In_keys_dict_del (key k : string) (d : Dict) :
  In k (keys (dict_del key d)) -> In k (keys d).
Proof.
  rewrite <- !mem_true. unfold mem.
  destruct (String.eqb_spec k key) as [-> | Hne].
  - now rewrite lookup_dict_del_same.
  - now rewrite (lookup_dict_del_other _ _ _ Hne).
Qed.

Lemma wf_dict_del (key : string) (d : Dict) :
  wf_table d -> wf_table (dict_del key d).
Proof.
  intros Hd. induction d as [| [k w] d IH]; [exact Hd |].
  apply wf_table_cons in Hd. destruct Hd as (Hk & Hw & Hd).
  cbn [dict_del]. destruct (String.eqb k key); [exact (IH Hd) |].
  apply wf_table_cons. split.
  - intros Hin. apply Hk. now apply In_keys_dict_del in Hin.
  - split; [exact Hw | exact (IH Hd)].
Qed.

Lemma wf_child (key : string) (d : Dict) :
  wf_table d ->
  wf_table match lookup key d with Some (Table c) => c | _ => [] end.
Proof.
  intros Hd. destruct (lookup key d) as [[s | c] |] eqn:Hk; try apply wf_nil.
  exact (wf_value_lookup Hd Hk).
Qed.

Lemma wf_path_set (p : KeyPath) :
  forall d v d', wf_table d -> wf_value v -> path_set d p v = Some d' -> wf_table d'.
Proof.
  induction p as [| key rest IH]; intros d v d' Hd Hv Hset; [discriminate |].
  destruct rest as [| k2 rest].
  - injection Hset as <-. now apply wf_dict_set.
  - rewrite path_set_cons in Hset.
    destruct (path_set match lookup key d with Some (Table c) => c | _ => [] end
                       (k2 :: rest) v) as [child' |] eqn:Hchild; [| discriminate].
    injection Hset as <-. apply wf_dict_set; auto.
    exact (IH _ _ _ (wf_child key d Hd) Hv Hchild).
Qed.

Lemma wf_delete_prune (p : KeyPath) :
  forall d d', wf_table d -> delete_prune d p = Some d' -> wf_table d'.
Proof.
  induction p as [| key rest IH]; intros d d' Hd Hdel; [discriminate |].
  destruct rest as [| k2 rest].
  - simpl in Hdel. destruct (mem key d); [| discriminate].
    injection Hdel as <-. now apply wf_dict_del.
  - rewrite delete_prune_cons in Hdel.
    destruct (lookup key d) as [[s | child] |] eqn:Hl; try discriminate.
    destruct (delete_prune child (k2 :: rest)) as [child' |] eqn:Hchild; [| discriminate].
    injection Hdel as <-. destruct (is_empty child').
    + now apply wf_dict_del.
    + apply wf_dict_set; auto.
      exact (IH _ _ (wf_value_lookup Hd Hl) Hchild).
Qed.

Lemma same_dict_set (key : string) (v w : Value) (t u : Dict) :
  same (Table t) (Table u) -> same v w ->
  same (Table (dict_set key v t)) (Table (dict_set key w u)).
Proof.
  intros H Hvw. constructor.
  - intros k Hk. destruct (String.eqb_spec k key) as [-> | Hne].
    + now rewrite lookup_dict_set_same in Hk.
    + rewrite lookup_dict_set_other in Hk by exact Hne.
      rewrite lookup_dict_set_other by exact Hne.
      pose proof (same_lookup t u k H) as Hs. rewrite Hk in Hs.
      unfold same_opt in Hs. now destruct (lookup k u).
  - intros k x Hk. destruct (String.eqb_spec k key) as [-> | Hne].
    + rewrite lookup_dict_set_same in Hk. rewrite lookup_dict_set_same.
      injection Hk as <-. eauto.
    + rewrite lookup_dict_set_other in Hk by exact Hne.
      rewrite lookup_dict_set_other by exact Hne.
      pose proof (same_lookup t u k H) as Hs. rewrite Hk in Hs.
      unfold same_opt in Hs. destruct (lookup k u) as [y |]; [eauto | contradiction].
Qed.

Lemma same_dict_del (key : string) (t u : Dict) :
  same (Table t) (Table u) ->
  same (Table (dict_del key t)) (Table (dict_del key u)).
Proof.
  intros H. constructor.
  - intros k Hk. destruct (String.eqb_spec k key) as [-> | Hne].
    + apply lookup_dict_del_same.
    + rewrite lookup_dict_del_other in Hk by exact Hne.
      rewrite lookup_dict_del_other by exact Hne.
      pose proof (same_lookup t u k H) as Hs. rewrite Hk in Hs.
      unfold same_opt in Hs. now destruct (lookup k u).
  - intros k x Hk. destruct (String.eqb_spec k key) as [-> | Hne].
    + now rewrite lookup_dict_del_same in Hk.
    + rewrite lookup_dict_del_other in Hk by exact Hne.
      rewrite lookup_dict_del_other by exact Hne.
      pose proof (same_lookup t u k H) as Hs. rewrite Hk in Hs.
      unfold same_opt in Hs. destruct (lookup k u) as [y |]; [eauto | contradiction].
Qed.

Lemma same_child (key : string) (t u : Dict) :
  same (Table t) (Table u) ->
  same (Table match lookup key t with Some (Table c) => c | _ => [] end)
       (Table match lookup key u with Some (Table c) => c | _ => [] end).
Proof.
  intros H. pose proof (same_lookup t u key H) as Hs. unfold same_opt in Hs.
  destruct (lookup key t) as [[s | c] |], (lookup key u) as [[s' | c'] |];
    try contradiction; try apply same_refl; try (inversion Hs; fail); exact Hs.
Qed.

Lemma same_path_set (p : KeyPath) :
  forall t u v w r,
    same (Table t) (Table u) -> same v w ->
    path_set t p v = Some r ->
    exists r', path_set u p w = Some r' /\ same (Table r) (Table r').
Proof.
  induction p as [| key rest IH]; intros t u v w r H Hvw Hset; [discriminate |].
  destruct rest as [| k2 rest].
  - injection Hset as <-. eexists. split; [reflexivity |]. now apply same_dict_set.
  - rewrite path_set_cons in Hset.
    destruct (path_set match lookup key t with Some (Table c) => c | _ => [] end
                       (k2 :: rest) v) as [child |] eqn:Hchild; [| discriminate].
    injection Hset as <-.
    destruct (IH _ _ _ _ _ (same_child key t u H) Hvw Hchild) as (child' & Hset' & Hc).
    exists (dict_set key (Table child') u). split.
    + rewrite path_set_cons.
      match goal with
      | |- match ?x with _ => _ end = _ =>
          replace x with (Some child') by (symmetry; exact Hset')
      end.
      reflexivity.
    + now apply same_dict_set.
Qed.

Lemma same_mem (key : string) (t u : Dict) :
  same (Table t) (Table u) -> mem key t = mem key u.
Proof.
  intros H. pose proof (same_lookup t u key H) as Hs. unfold same_opt, mem in *.
  destruct (lookup key t), (lookup key u); auto; contradiction.
Qed.

Lemma same_delete_prune (p : KeyPath) :
  forall t u,
    same (Table t) (Table u) ->
    match delete_prune t p, delete_prune u p with
    | Some r, Some r' => same (Table r) (Table r')
    | None, None => True
    | _, _ => False
    end.
Proof.
  induction p as [| key rest IH]; intros t u H; [exact I |].
  destruct rest as [| k2 rest].
  - cbn [delete_prune]. rewrite <- (same_mem key t u H).
    destruct (mem key t); [| exact I]. now apply same_dict_del.
  - rewrite !delete_prune_cons.
    pose proof (same_lookup t u key H) as Hs. unfold same_opt in Hs.
    destruct (lookup key t) as [[s | c] |], (lookup key u) as [[s' | c'] |];
      try contradiction; try exact I; try (inversion Hs; fail).
    specialize (IH c c' Hs).
    destruct (delete_prune c (k2 :: rest)) as [r |],
             (delete_prune c' (k2 :: rest)) as [r' |]; try contradiction; [| exact I].
    rewrite <- (same_is_empty r r' IH). destruct (is_empty r).
    + now apply same_dict_del.
    + now apply same_dict_set.
Qed.

Lemma wf_path_get (p : KeyPath) :
  forall v x, wf_value v -> path_get v p = Some x -> wf_value x.
Proof.
  induction p as [| k p IH]; intros v x Hv Hget.
  - injection Hget as <-. exact Hv.
  - destruct v as [s | t]; [discriminate |]. cbn [path_get item] in Hget.
    destruct (lookup k t) as [w |] eqn:Hk; [| discriminate].
    exact (IH w x (wf_value_lookup Hv Hk) Hget).
Qed.

(** One step of either loop on trees that agree up to key order, with
    entries that agree up to key order: same outcome, same count. *)
Lemma rollback_override_same (d d' r : Dict) (n m : nat) (o o' : Override) :
  wf_table d -> wf_table d' -> wf_override o -> wf_override o' ->
  same (Table d) (Table d') -> same_override o o' ->
  rollback_override (d, n) o = Some (r, m) ->
  exists r',
    rollback_override (d', n) o' = Some (r', m)
    /\ same (Table r) (Table r') /\ wf_table r /\ wf_table r'.
Proof.
  intros Hd Hd' [Hop Hor] [Hop' Hor'] Hsame (Hpath & Hprev & Hrepo).
  unfold rollback_override. rewrite <- Hpath.
  pose proof (same_path_get (ov_path o) _ _ Hsame) as Hget. unfold same_opt in Hget.
  destruct (path_get (Table d) (ov_path o)) as [cur |] eqn:Hcur,
           (path_get (Table d') (ov_path o)) as [cur' |] eqn:Hcur'; try contradiction.
  - rewrite <- (value_eqb_same cur cur' (ov_repo o) (ov_repo o')); auto;
      try (eapply wf_path_get; [| eassumption]; assumption).
    destruct (value_eqb cur (ov_repo o)).
    + destruct (path_set d (ov_path o) (ov_previous o)) as [x |] eqn:Hset; [| discriminate].
      intros [= <- <-].
      destruct (same_path_set _ _ _ _ _ _ Hsame Hprev Hset) as (r' & Hset' & Hr).
      rewrite Hset'. exists r'. split; [reflexivity |]. split; [exact Hr |]. split.
      * exact (wf_path_set _ _ _ _ Hd Hop Hset).
      * exact (wf_path_set _ _ _ _ Hd' Hop' Hset').
    + intros [= <- <-]. eauto.
  - intros [= <- <-]. eauto.
Qed.

Lemma rollback_addition_same (d d' r : Dict) (n m : nat) (a a' : Addition) :
  wf_table d -> wf_table d' -> wf_addition a -> wf_addition a' ->
  same (Table d) (Table d') -> same_addition a a' ->
  rollback_addition (d, n) a = Some (r, m) ->
  exists r',
    rollback_addition (d', n) a' = Some (r', m)
    /\ same (Table r) (Table r') /\ wf_table r /\ wf_table r'.
Proof.
  intros Hd Hd' Ha Ha' Hsame (Hpath & Hrepo).
  unfold rollback_addition. rewrite <- Hpath.
  pose proof (same_path_get (add_path a) _ _ Hsame) as Hget. unfold same_opt in Hget.
  destruct (path_get (Table d) (add_path a)) as [cur |] eqn:Hcur,
           (path_get (Table d') (add_path a)) as [cur' |] eqn:Hcur'; try contradiction.
  - rewrite <- (value_eqb_same cur cur' (add_repo a) (add_repo a')); auto;
      try (eapply wf_path_get; [| eassumption]; assumption).
    destruct (value_eqb cur (add_repo a)).
    + destruct (add_path a) as [| k p] eqn:Hp; [discriminate |].
      rewrite !(path_delete_prune _ (path := k :: p)) by discriminate.
      pose proof (same_delete_prune (k :: p) d d' Hsame) as Hdel.
      destruct (delete_prune d (k :: p)) as [x |] eqn:Hx,
               (delete_prune d' (k :: p)) as [x' |] eqn:Hx'; try contradiction.
      * intros [= <- <-]. exists x'. split; [reflexivity |]. split; [exact Hdel |]. split.
        -- exact (wf_delete_prune _ _ _ Hd Hx).
        -- exact (wf_delete_prune _ _ _ Hd' Hx').
      * intros [= <- <-]. eauto.
    + intros [= <- <-]. eauto.
  - intros [= <- <-]. eauto.
Qed.

Lemma for_each_override_same (ovs : list Override) :
  forall ovs' d d' r n m,
    Forall2 same_override ovs ovs' ->
    Forall wf_override ovs -> Forall wf_override ovs' ->
    wf_table d -> wf_table d' -> same (Table d) (Table d') ->
    for_each rollback_override ovs (d, n) = Some (r, m) ->
    exists r',
      for_each rollback_override ovs' (d', n) = Some (r', m)
      /\ same (Table r) (Table r') /\ wf_table r /\ wf_table r'.
Proof.
  induction ovs as [| o ovs IH]; intros ovs' d d' r n m H2 Hw Hw' Hd Hd' Hsame Hrun.
  - inversion H2; subst. injection Hrun as <- <-. exists d'. auto.
  - inversion H2 as [| ? o' ? ovs'' Ho H2']; subst.
    inversion Hw; subst. inversion Hw'; subst.
    cbn [for_each] in *.
    destruct (rollback_override (d, n) o) as [[x k] |] eqn:Hstep; [| discriminate].
    destruct (rollback_override_same d d' x n k o o') as (x' & -> & Hx & Hwx & Hwx'); auto.
    now apply (IH ovs'' x x' r k m).
Qed.

Lemma for_each_addition_same (adds : list Addition) :
  forall adds' d d' r n m,
    Forall2 same_addition adds adds' ->
    Forall wf_addition adds -> Forall wf_addition adds' ->
    wf_table d -> wf_table d' -> same (Table d) (Table d') ->
    for_each rollback_addition adds (d, n) = Some (r, m) ->
    exists r',
      for_each rollback_addition adds' (d', n) = Some (r', m)
      /\ same (Table r) (Table r') /\ wf_table r /\ wf_table r'.
Proof.
  induction adds as [| a adds IH]; intros adds' d d' r n m H2 Hw Hw' Hd Hd' Hsame Hrun.
  - inversion H2; subst. injection Hrun as <- <-. exists d'. auto.
  - inversion H2 as [| ? a' ? adds'' Ha H2']; subst.
    inversion Hw; subst. inversion Hw'; subst.
    cbn [for_each] in *.
    destruct (rollback_addition (d, n) a) as [[x k] |] eqn:Hstep; [| discriminate].
    destruct (rollback_addition_same d d' x n k a a') as (x' & -> & Hx & Hwx & Hwx'); auto.
    now apply (IH adds'' x x' r k m).
Qed.

Lemma rollback_same (ovs ovs' : list Override) (adds adds' : list Addition)
    (d d' r : Dict) (m : nat) :
  Forall2 same_override ovs ovs' -> Forall2 same_addition adds adds' ->
  Forall wf_override ovs -> Forall wf_override ovs' ->
  Forall wf_addition adds -> Forall wf_addition adds' ->
  wf_table d -> wf_table d' -> same (Table d) (Table d') ->
  rollback ovs adds d = Some (r, m) ->
  exists r', rollback ovs' adds' d' = Some (r', m) /\ same (Table r) (Table r').
Proof.
  intros Ho Ha Hwo Hwo' Hwa Hwa' Hd Hd' Hsame. unfold rollback.
  destruct (for_each rollback_override ovs (d, 0)) as [[x k] |] eqn:Hov; [| discriminate].
  destruct (for_each_override_same ovs ovs' d d' x 0 k) as (x' & -> & Hx & Hwx & Hwx'); auto.
  intros Hrun.
  destruct (for_each_addition_same adds adds' x x' r k m) as (r' & -> & Hr & _); auto.
  eauto.
Qed.

Lemma diff_wf_ledger (repo_data existing_data : Dict) :
  wf_table repo_data -> wf_table existing_data ->
  Forall wf_override (snd (diff repo_data existing_data))
  /\ Forall wf_addition (fst (diff repo_data existing_data)).
Proof.
  intros Hr He. rewrite diff_by_key. split; apply Forall_forall.
  - intros o Hin.
    destruct (rel_changes_overrides_sound (Table repo_data) (Table existing_data) Hr o Hin)
      as (Hprev & Hrepo & _).
    split.
    + exact (wf_path_get _ _ _ He Hprev).
    + exact (wf_path_get _ _ _ Hr Hrepo).
  - intros a Hin.
    destruct (rel_changes_additions_sound (Table repo_data) (Table existing_data) Hr a Hin)
      as (Hrepo & _).
    exact (wf_path_get _ _ _ Hr Hrepo).
Qed.

Lemma same_nil (d : Dict) : same (Table []) (Table d) -> d = [].
Proof.
  intros H. apply same_is_empty in H. destruct d; [reflexivity | discriminate].
Qed.

Ltac wf_value_concrete :=
  lazymatch goal with
  | |- wf_value (Table ?t) => change (wf_table t); wf_concrete
  | |- wf_value (Leaf _) => exact I
  end.

Ltac same_concrete :=
  lazymatch goal with
  | |- same (Leaf _) (Leaf _) => constructor
  | |- same (Table _) (Table _) =>
      constructor; intros k; cbn [lookup];
      repeat match goal with
             | |- context [String.eqb ?s k] =>
                 destruct (String.eqb_spec s k); [subst k; cbn | cbn [lookup]]
             end;
      intros; try discriminate; try reflexivity;
      try (match goal with H : Some _ = Some _ |- _ => injection H as <- end;
           eexists; split; [reflexivity | same_concrete])
  end.

(** X23. The rollback does not look at the order of keys: run on trees
    that agree up to key order, with ledgers whose entries agree up to key
    order, it returns trees that agree up to key order and the same
    count. *)
Theorem rollback_respects_key_order
    (ovs ovs' : list Override) (adds adds' : list Addition)
    (data data' restored : Dict) (skipped : nat) :
  Forall2 same_override ovs ovs' -> Forall2 same_addition adds adds' ->
  Forall wf_override ovs -> Forall wf_override ovs' ->
  Forall wf_addition adds -> Forall wf_addition adds' ->
  wf_table data -> wf_table data' -> same (Table data) (Table data') ->
  rollback ovs adds data = Some (restored, skipped) ->
  exists restored',
    rollback ovs' adds' data' = Some (restored', skipped)
    /\ same (Table restored) (Table restored').
Proof. apply rollback_same. Qed.

Lemma rollback_respects_key_order_witness :
  exists restored',
    rollback [mkOverride ["tools"] (Table [("web", Leaf (SInt 1)); ("cli", Leaf (SInt 2))])
                         (Leaf (SStr "all"))]
             [mkAddition ["mode"] (Leaf (SStr "auto"))]
             [("mode", Leaf (SStr "auto")); ("tools", Leaf (SStr "all")); ("user", Leaf (SInt 7))]
    = Some (restored', 0)
    /\ same (Table [("user", Leaf (SInt 7));
                    ("tools", Table [("cli", Leaf (SInt 2)); ("web", Leaf (SInt 1))])])
            (Table restored').
Proof.
  apply (rollback_respects_key_order
           [mkOverride ["tools"] (Table [("cli", Leaf (SInt 2)); ("web", Leaf (SInt 1))])
                       (Leaf (SStr "all"))]
           [mkOverride ["tools"] (Table [("web", Leaf (SInt 1)); ("cli", Leaf (SInt 2))])
                       (Leaf (SStr "all"))]
           [mkAddition ["mode"] (Leaf (SStr "auto"))]
           [mkAddition ["mode"] (Leaf (SStr "auto"))]
           [("user", Leaf (SInt 7)); ("tools", Leaf (SStr "all")); ("mode", Leaf (SStr "auto"))]
           [("mode", Leaf (SStr "auto")); ("tools", Leaf (SStr "all")); ("user", Leaf (SInt 7))]).
  - constructor; [| constructor]. split; [reflexivity |]. split; cbn; same_concrete.
  - constructor; [| constructor]. split; [reflexivity |]. cbn. same_concrete.
  - constructor; [| constructor]. split; cbn [ov_previous ov_repo]; wf_value_concrete.
  - constructor; [| constructor]. split; cbn [ov_previous ov_repo]; wf_value_concrete.
  - repeat constructor.
  - repeat constructor.
  - wf_concrete.
  - wf_concrete.
  - same_concrete.
  - reflexivity.
Defined.

Section FullCycle.

Variable loads : string -> option Dict.
Variable fk : string -> string.
Variable fv : Scalar -> string.

(** X24. [install] followed by [remove] gives the configuration back.  For
    a repo tree and an existing tree as in C1 (unique keys, no NaN in the
    repo tree, leaves at the same path that are equal under [==] are the
    same value, no empty table of the repo tree under a key the existing
    tree lacks, no empty table of the existing tree below the root that
    meets a repo table with keys): [install] returns status 0 and writes a
    document and a ledger; if the parser then reads that document as the
    merged tree up to the order of keys, and the state file is read back up
    to the order of keys, [remove] returns status 0, reports no preserved
    setting, deletes the state file, and leaves the target as it was found:
    absent if it was absent, and otherwise holding the existing tree up to
    the order of keys, under the header recorded from the old target. *)
Theorem install_then_remove_restores
    (perms : Dict) (name : string) (fs : Files)
    (repo_text : string) (repo_loaded existing_data : Dict) :
  repo_file fs = Some repo_text ->
  load_toml loads repo_text = Some repo_loaded ->
  match target_file fs with
  | Some t => load_toml loads t = Some existing_data
  | None => existing_data = []
  end ->
  wf_table (apply_opencode_permissions repo_loaded perms) ->
  wf_table existing_data ->
  reflexive_leaves (Table (apply_opencode_permissions repo_loaded perms)) ->
  exact_at_paths (Table existing_data)
                 (Table (apply_opencode_permissions repo_loaded perms)) ->
  no_empty_table_added (Table existing_data)
                       (Table (apply_opencode_permissions repo_loaded perms)) ->
  no_empty_table_filled (Table existing_data)
                        (Table (apply_opencode_permissions repo_loaded perms)) ->
  exists fs1 doc ledger,
    install loads fk fv perms name fs = Some (fs1, 0%Z)
    /\ fs1 = mkFiles (repo_file fs) (Some doc) (Some ledger)
    /\ forall read ledger',
         load_toml loads doc = Some read ->
         wf_table read ->
         same (Table (merge_dicts existing_data
                        (apply_opencode_permissions repo_loaded perms)))
              (Table read) ->
         same_ledger ledger ledger' -> wf_ledger ledger' ->
         exists restored,
           same (Table existing_data) (Table restored)
           /\ remove loads fk fv (mkFiles (repo_file fs) (Some doc) (Some ledger'))
              = Some (mkFiles (repo_file fs)
                        match target_file fs with
                        | Some t => Some (dump_toml fk fv restored (extract_header t))
                        | None => None
                        end
                        None,
                      0%Z, []).
Proof.
  intros Hrepo Hload Hexisting Hwr Hwe Hrefl Hexact Hadded Hfilled.
  set (repo_data := apply_opencode_permissions repo_loaded perms) in *.
  set (existing_hdr := match target_file fs with
                       | Some t => extract_header t
                       | None => []
                       end).
  set (had := match target_file fs with Some _ => true | None => false end).
  set (ledger := mkLedger name had existing_hdr
                   (fst (diff repo_data existing_data))
                   (snd (diff repo_data existing_data))).
  set (doc := dump_toml fk fv (merge_dicts existing_data repo_data)
                (install_header (extract_header repo_text) existing_hdr)).
  exists (mkFiles (repo_file fs) (Some doc) (Some ledger)), doc, ledger.
  split; [| split; [reflexivity |]].
  - unfold install. rewrite Hrepo, Hload. fold repo_data.
    subst doc ledger existing_hdr had.
    destruct (target_file fs) as [t |].
    + rewrite Hexisting. reflexivity.
    + subst existing_data. reflexivity.
  - intros read ledger' Hread Hwread Hsame (Hhad & Hhdr & Hadds & Hovs) [Hwa' Hwo'].
    destruct (diff_wf_ledger repo_data existing_data Hwr Hwe) as [Hwo Hwa].
    destruct (rollback_same
                (snd (diff repo_data existing_data)) (overrides ledger')
                (fst (diff repo_data existing_data)) (additions ledger')
                (merge_dicts existing_data repo_data) read existing_data 0)
      as (restored & Hroll & Hrestored); auto.
    { now apply wf_merge_dicts. }
    { now apply diff_rolled_back. }
    exists restored. split; [exact Hrestored |].
    unfold remove. cbn [state_file target_file repo_file].
    rewrite Hread, Hroll. unfold target_after.
    rewrite <- Hhad, <- Hhdr. cbn [had_config existing_header ledger].
    subst had existing_hdr.
    destruct (target_file fs) as [t |].
    + cbn [negb]. now destruct (negb (is_empty restored)).
    + subst existing_data. apply same_nil in Hrestored. subst restored. reflexivity.
Qed.

End FullCycle.

(** A run on three texts, with the parser given by what [tomllib] returns
    for each of them: the document that [install] writes lists [notify]
    before the table [tools], so it is read back in another key order than
    the merged tree has. *)
Lemma install_then_remove_restores_witness :
  let repo_text :=
    ("# managed by repo" ++ nl
     ++ "mode = " ++ quote ++ "auto" ++ quote ++ nl
     ++ "notify = true" ++ nl ++ nl
     ++ "[tools]" ++ nl
     ++ "shell = true" ++ nl)%string in
  let existing_text :=
    ("# mine" ++ nl ++ nl
     ++ "mode = " ++ quote ++ "manual" ++ quote ++ nl
     ++ "user = " ++ quote ++ "u" ++ quote ++ nl ++ nl
     ++ "[tools]" ++ nl
     ++ "web = " ++ quote ++ "on" ++ quote ++ nl)%string in
  let doc :=
    ("# managed by repo" ++ nl ++ nl
     ++ "mode = " ++ quote ++ "auto" ++ quote ++ nl
     ++ "user = " ++ quote ++ "u" ++ quote ++ nl
     ++ "notify = true" ++ nl ++ nl
     ++ "[tools]" ++ nl
     ++ "web = " ++ quote ++ "on" ++ quote ++ nl
     ++ "shell = true" ++ nl)%string in
  let repo :=
    [("mode", Leaf (SStr "auto")); ("notify", Leaf (SBool true));
     ("tools", Table [("shell", Leaf (SBool true))])] in
  let existing :=
    [("mode", Leaf (SStr "manual")); ("user", Leaf (SStr "u"));
     ("tools", Table [("web", Leaf (SStr "on"))])] in
  let read :=
    [("mode", Leaf (SStr "auto")); ("user", Leaf (SStr "u"));
     ("notify", Leaf (SBool true));
     ("tools", Table [("web", Leaf (SStr "on")); ("shell", Leaf (SBool true))])] in
  let loads := fun t : string =>
                 if String.eqb t repo_text then Some repo
                 else if String.eqb t existing_text then Some existing
                 else if String.eqb t doc then Some read
                 else None in
  let fv := format_value (fun _ => "0") (fun _ => "0.0") in
  let fs := mkFiles (Some repo_text) (Some existing_text) None in
  exists ledger restored,
    install loads format_key fv [] "config.toml" fs
    = Some (mkFiles (Some repo_text) (Some doc) (Some ledger), 0%Z)
    /\ load_toml loads doc = Some read
    /\ same (Table existing) (Table restored)
    /\ remove loads format_key fv (mkFiles (Some repo_text) (Some doc) (Some ledger))
       = Some (mkFiles (Some repo_text)
                 (Some (dump_toml format_key fv restored ["# mine"])) None,
               0%Z, []).
Proof.
  intros repo_text existing_text doc repo existing read loads fv fs.
  destruct (install_then_remove_restores loads format_key fv [] "config.toml" fs
              repo_text repo existing)
    as (fs1 & doc' & ledger & Hinst & Hfs1 & Hrem).
  - reflexivity.
  - reflexivity.
  - reflexivity.
  - wf_concrete.
  - wf_concrete.
  - intros s Hs. simpl in Hs.
    repeat (destruct Hs as [<- | Hs]; [reflexivity |]). contradiction.
  - unfold existing, repo. cbn [apply_opencode_permissions]. exact_at_paths_concrete.
  - unfold existing, repo. cbn [apply_opencode_permissions].
    no_empty_table_added_concrete.
  - unfold existing, repo. cbn [apply_opencode_permissions].
    no_empty_table_filled_concrete.
  - subst fs1. vm_compute in Hinst. injection Hinst as Hdoc Hledger.
    assert (Hread : load_toml loads doc' = Some read) by (now rewrite <- Hdoc).
    destruct (Hrem read ledger Hread) as (restored & Hsame & Hremove).
    + wf_concrete.
    + unfold read, existing, repo. cbn. same_concrete.
    + rewrite <- Hledger. split; [reflexivity |]. split; [reflexivity |].
      split; repeat constructor; apply same_refl.
    + rewrite <- Hledger. split; repeat constructor.
    + exists ledger, restored. rewrite <- Hdoc in Hremove.
      split; [rewrite <- Hledger; vm_compute; reflexivity |].
      split; [reflexivity |]. split; [exact Hsame | exact Hremove].
Defined.

(** On these texts the cycle gives the old target back character by
    character. *)
Example install_then_remove_texts :
  let repo_text :=
    ("# managed by repo" ++ nl
     ++ "mode = " ++ quote ++ "auto" ++ quote ++ nl
     ++ "notify = true" ++ nl ++ nl
     ++ "[tools]" ++ nl
     ++ "shell = true" ++ nl)%string in
  let existing_text :=
    ("# mine" ++ nl ++ nl
     ++ "mode = " ++ quote ++ "manual" ++ quote ++ nl
     ++ "user = " ++ quote ++ "u" ++ quote ++ nl ++ nl
     ++ "[tools]" ++ nl
     ++ "web = " ++ quote ++ "on" ++ quote ++ nl)%string in
  let doc :=
    ("# managed by repo" ++ nl ++ nl
     ++ "mode = " ++ quote ++ "auto" ++ quote ++ nl
     ++ "user = " ++ quote ++ "u" ++ quote ++ nl
     ++ "notify = true" ++ nl ++ nl
     ++ "[tools]" ++ nl
     ++ "web = " ++ quote ++ "on" ++ quote ++ nl
     ++ "shell = true" ++ nl)%string in
  let loads := fun t : string =>
                 if String.eqb t repo_text then
                   Some [("mode", Leaf (SStr "auto")); ("notify", Leaf (SBool true));
                         ("tools", Table [("shell", Leaf (SBool true))])]
                 else if String.eqb t existing_text then
                   Some [("mode", Leaf (SStr "manual")); ("user", Leaf (SStr "u"));
                         ("tools", Table [("web", Leaf (SStr "on"))])]
                 else if String.eqb t doc then
                   Some [("mode", Leaf (SStr "auto")); ("user", Leaf (SStr "u"));
                         ("notify", Leaf (SBool true));
                         ("tools", Table [("web", Leaf (SStr "on"));
                                          ("shell", Leaf (SBool true))])]
                 else None in
  let fv := format_value (fun _ => "0") (fun _ => "0.0") in
  exists ledger,
    install loads format_key fv [] "config.toml"
            (mkFiles (Some repo_text) (Some existing_text) None)
    = Some (mkFiles (Some repo_text) (Some doc) (Some ledger), 0%Z)
    /\ remove loads format_key fv (mkFiles (Some repo_text) (Some doc) (Some ledger))
       = Some (mkFiles (Some repo_text) (Some existing_text) None, 0%Z, []).
Proof. eexists. split; vm_compute; reflexivity. Qed.

(** ** Installing twice *)

Lemma flat_map_nil_inv {A B : Type} (f : A -> list B) (l : list A) :
  flat_map f l = [] -> forall x, In x l -> f x = [].
Proof.
  induction l as [| y l IH]; simpl; intros H x Hin; [contradiction |].
  apply app_eq_nil in H. destruct H as [Hy Hl].
  destruct Hin as [<- | Hin]; auto.
Qed.

Lemma map_nil_inv {A B : Type} (f : A -> B) (l : list A) : map f l = [] -> l = [].
Proof. now destruct l. Qed.

Lemma rel_changes_empty_same (rv : Value) :
  forall ev ev',
    same ev ev' ->
    rel_changes rv ev = ([], []) -> rel_changes rv ev' = ([], []).
Proof.
  induction rv as [s | r IH] using Value_ind'; intros ev ev' Hsame Hnone.
  - inversion Hsame; subst; [exact Hnone |]. discriminate.
  - inversion Hsame as [x | e e' _ _]; subst; [exact Hnone |].
    rewrite rel_changes_tables in *. injection Hnone as HA HO.
    rewrite Forall_forall in IH.
    assert (Hgroup : forall kv, In kv r -> key_changes e' kv = ([], [])).
    { intros [k v] Hin.
      pose proof (map_nil_inv _ _ (flat_map_nil_inv _ _ HA (k, v) Hin)) as Ha.
      pose proof (map_nil_inv _ _ (flat_map_nil_inv _ _ HO (k, v) Hin)) as Ho.
      unfold key_changes in *. cbn [fst snd] in *.
      pose proof (same_lookup e e' k Hsame) as Hk. unfold same_opt in Hk.
      destruct (lookup k e) as [x |], (lookup k e') as [x' |]; try contradiction.
      - apply (IH (k, v) Hin x x' Hk). cbn [snd].
        destruct (rel_changes v x). cbn [fst snd] in *. now subst.
      - cbn [fst snd] in *. now rewrite Ha. }
    f_equal; apply flat_map_nil; intros kv Hin; now rewrite (Hgroup kv Hin).
Qed.

Section SecondInstall.

Variable loads : string -> option Dict.
Variable fk : string -> string.
Variable fv : Scalar -> string.

(** X25. A second [install] forgets what the first one changed.  When the
    repo tree has no NaN leaf and the target holds the result of an earlier
    install of the same repo tree (read back up to the order of keys),
    [install] writes a ledger without any Addition or Override, saying that
    a configuration existed; a [remove] after that rolls nothing back and
    leaves in the target whatever tree it reads from it. *)
Theorem second_install_forgets
    (perms : Dict) (name : string) (fs : Files)
    (repo_text doc : string) (repo_loaded existing read : Dict) :
  repo_file fs = Some repo_text ->
  load_toml loads repo_text = Some repo_loaded ->
  target_file fs = Some doc ->
  load_toml loads doc = Some read ->
  wf_table (apply_opencode_permissions repo_loaded perms) ->
  reflexive_leaves (Table (apply_opencode_permissions repo_loaded perms)) ->
  same (Table (merge_dicts existing (apply_opencode_permissions repo_loaded perms)))
       (Table read) ->
  exists doc2,
    install loads fk fv perms name fs =
      Some (mkFiles (repo_file fs) (Some doc2)
              (Some (mkLedger name true (extract_header doc) [] [])), 0%Z)
    /\ forall text data,
         load_toml loads text = Some data ->
         remove loads fk fv
           (mkFiles (repo_file fs) (Some text)
              (Some (mkLedger name true (extract_header doc) [] [])))
         = Some (mkFiles (repo_file fs)
                   (Some (dump_toml fk fv data (extract_header doc))) None,
                 0%Z, []).
Proof.
  intros Hrepo Hload Htarget Hdoc Hwf Hrefl Hsame.
  set (repo_data := apply_opencode_permissions repo_loaded perms) in *.
  assert (Hdiff : diff repo_data read = ([], [])).
  { rewrite diff_by_key.
    apply (rel_changes_empty_same (Table repo_data)
             (Table (merge_dicts existing repo_data)) (Table read) Hsame).
    rewrite <- merge_value_table. now apply rel_changes_after_merge. }
  eexists. split.
  - unfold install. rewrite Hrepo, Hload, Htarget, Hdoc. fold repo_data.
    rewrite Hdiff. reflexivity.
  - intros text data Htext. unfold remove.
    cbn [state_file target_file repo_file overrides additions].
    rewrite Htext. cbn [rollback for_each]. unfold target_after.
    cbn [had_config existing_header negb].
    now destruct (negb (is_empty data)).
Qed.

End SecondInstall.

Lemma second_install_forgets_witness :
  let repo := [("mode", Leaf (SStr "auto")); ("tools", Table [("shell", Leaf (SBool true))])] in
  let existing := [("tools", Table [("web", Leaf (SStr "on"))]); ("mode", Leaf (SStr "manual"))] in
  let read := [("mode", Leaf (SStr "auto"));
               ("tools", Table [("shell", Leaf (SBool true)); ("web", Leaf (SStr "on"))])] in
  let loads := fun t : string => if String.eqb t "r" then Some repo else Some read in
  let fk := fun k : string => k in
  let fv := fun _ : Scalar => "v" in
  let fs := mkFiles (Some "r") (Some "d") None in
  exists doc2,
    install loads fk fv [] "config.toml" fs =
      Some (mkFiles (repo_file fs) (Some doc2)
              (Some (mkLedger "config.toml" true (extract_header "d") [] [])), 0%Z)
    /\ forall text data,
         load_toml loads text = Some data ->
         remove loads fk fv
           (mkFiles (repo_file fs) (Some text)
              (Some (mkLedger "config.toml" true (extract_header "d") [] [])))
         = Some (mkFiles (repo_file fs)
                   (Some (dump_toml fk fv data (extract_header "d"))) None,
                 0%Z, []).
Proof.
  intros repo existing read loads fk fv fs.
  apply (second_install_forgets loads fk fv [] "config.toml" fs "r" "d" repo existing read).
  - reflexivity.
  - reflexivity.
  - reflexivity.
  - reflexivity.
  - wf_concrete.
  - intros s Hs. simpl in Hs.
    repeat (destruct Hs as [<- | Hs]; [reflexivity |]). contradiction.
  - unfold read, existing, repo. cbn. same_concrete.
Defined.

(** ** No path is recorded twice *)

Lemma NoDup_map_cons (k : string) (l : list KeyPath) :
  NoDup l -> NoDup (map (cons k) l).
Proof.
  induction 1 as [| p l Hnotin _ IH]; [constructor |].
  cbn [map]. constructor; auto.
  intros Hin. apply in_map_iff in Hin. destruct Hin as (q & Hq & Hin).
  injection Hq as ->. contradiction.
Qed.

Lemma NoDup_key_groups {X : Type} (path : X -> KeyPath) (pre : string -> X -> X)
    (G : string * Value -> list X) (r : Dict) :
  (forall k x, path (pre k x) = k :: path x) ->
  NoDup (keys r) ->
  (forall kv, In kv r -> NoDup (map path (G kv))) ->
  NoDup (map path (flat_map (fun kv => map (pre (fst kv)) (G kv)) r)).
Proof.
  intros Hpre. induction r as [| [k v] r IH]; intros Hnd Hgroups; [constructor |].
  inversion Hnd as [| ? ? Hk Hnd']; subst.
  cbn [flat_map fst]. rewrite map_app. apply NoDup_app.
  - rewrite map_map.
    rewrite (map_ext _ (fun x => k :: path x)) by (intros; apply Hpre).
    rewrite <- map_map. apply NoDup_map_cons. apply Hgroups. now left.
  - apply IH; auto. intros kv Hin. apply Hgroups. now right.
  - intros p Hin1 Hin2.
    rewrite map_map in Hin1. apply in_map_iff in Hin1. destruct Hin1 as (x & <- & _).
    apply in_map_iff in Hin2. destruct Hin2 as (y & Hy & Hin2).
    apply in_flat_map in Hin2. destruct Hin2 as ([k' v'] & Hkv & Hin2).
    apply in_map_iff in Hin2. destruct Hin2 as (z & <- & _).
    rewrite !Hpre in Hy. injection Hy as -> _.
    apply Hk. now apply (in_map fst) in Hkv.
Qed.

Lemma rel_additions_distinct (v : Value) :
  wf_value v -> NoDup (map add_path (rel_additions v)).
Proof.
  induction v as [s | t IH] using Value_ind'; intros Hwf.
  - repeat constructor. intros [].
  - rewrite rel_additions_table.
    apply (NoDup_key_groups add_path (fun k => add_prefix [k])
             (fun kv => rel_additions (snd kv))).
    + reflexivity.
    + exact (wf_table_keys Hwf).
    + intros [k v] Hin. rewrite Forall_forall in IH. apply (IH (k, v) Hin).
      exact (wf_value_lookup Hwf (In_lookup _ _ _ (wf_table_keys Hwf) Hin)).
Qed.

Lemma rel_changes_distinct (rv : Value) :
  forall ev, wf_value rv ->
    NoDup (map add_path (fst (rel_changes rv ev)))
    /\ NoDup (map ov_path (snd (rel_changes rv ev))).
Proof.
  induction rv as [s | r IH] using Value_ind'; intros ev Hwf.
  - destruct ev as [x | e].
    + rewrite rel_changes_leaves. destruct (py_eqb x s); split; repeat constructor.
      intros [].
    + split; repeat constructor. intros [].
  - destruct ev as [x | e].
    + split; repeat constructor. intros [].
    + rewrite rel_changes_tables. cbn [fst snd]. rewrite Forall_forall in IH.
      assert (Hgroup : forall kv, In kv r ->
                NoDup (map add_path (fst (key_changes e kv)))
                /\ NoDup (map ov_path (snd (key_changes e kv)))).
      { intros [k v] Hin.
        pose proof (wf_value_lookup Hwf (In_lookup _ _ _ (wf_table_keys Hwf) Hin)) as Hv.
        unfold key_changes. cbn [fst snd].
        destruct (lookup k e) as [x |].
        - exact (IH (k, v) Hin x Hv).
        - split; [now apply rel_additions_distinct | constructor]. }
      split.
      * apply (NoDup_key_groups add_path (fun k => add_prefix [k])
                 (fun kv => fst (key_changes e kv))).
        -- reflexivity.
        -- exact (wf_table_keys Hwf).
        -- intros kv Hin. apply (Hgroup kv Hin).
      * apply (NoDup_key_groups ov_path (fun k => ov_prefix [k])
                 (fun kv => snd (key_changes e kv))).
        -- reflexivity.
        -- exact (wf_table_keys Hwf).
        -- intros kv Hin. apply (Hgroup kv Hin).
Qed.

(** X26. No path is recorded twice: the paths of all Additions and
    Overrides that the differ returns are pairwise different. *)
Theorem ledger_paths_distinct (repo_data existing_data : Dict) :
  wf_table repo_data ->
  NoDup (map add_path (fst (diff repo_data existing_data))
         ++ map ov_path (snd (diff repo_data existing_data))).
Proof.
  intros Hwf. rewrite diff_by_key.
  destruct (rel_changes_distinct (Table repo_data) (Table existing_data) Hwf) as [HA HO].
  apply NoDup_app; [exact HA | exact HO |].
  intros p Hin1 Hin2.
  apply in_map_iff in Hin1. destruct Hin1 as (a & <- & Ha).
  apply in_map_iff in Hin2. destruct Hin2 as (o & Hpath & Ho).
  destruct (rel_changes_additions_sound _ (Table existing_data) Hwf a Ha) as (_ & _ & Habsent).
  destruct (rel_changes_overrides_sound _ (Table existing_data) Hwf o Ho) as (Hpresent & _).
  rewrite Hpath in Hpresent. congruence.
Qed.

Lemma ledger_paths_distinct_witness :
  let repo_data := [("mode", Leaf (SStr "auto")); ("tools", Table [("shell", Leaf (SBool true))])] in
  let existing_data := [("mode", Leaf (SStr "manual")); ("tools", Table [])] in
  NoDup (map add_path (fst (diff repo_data existing_data))
         ++ map ov_path (snd (diff repo_data existing_data))).
Proof.
  intros repo_data existing_data.
  apply (ledger_paths_distinct repo_data existing_data). wf_concrete.
Defined.

(** ** A document that is only a header *)

Lemma rstrip_app_nl (s : string) : rstrip (s ++ nl) = rstrip s.
Proof.
  induction s as [| c s IH]; [reflexivity |].
  cbn [append rstrip]. now rewrite IH.
Qed.

Lemma rstrip_lstrip_empty (s : string) :
  rstrip s = EmptyString -> rstrip (lstrip s) = EmptyString.
Proof.
  induction s as [| c s IH]; [reflexivity |].
  cbn [rstrip lstrip]. destruct (is_space c); cbn [andb].
  - destruct (rstrip s) eqn:Hs; [intros _; now apply IH | discriminate].
  - discriminate.
Qed.

Lemma comment_rstrip_nonempty (line : string) :
  is_comment line = true -> rstrip line <> EmptyString.
Proof.
  unfold is_comment, strip. intros H Hempty.
  now rewrite (rstrip_lstrip_empty line Hempty) in H.
Qed.

Lemma rstrip_idempotent (s : string) : rstrip (rstrip s) = rstrip s.
Proof.
  induction s as [| c s IH]; [reflexivity |].
  cbn [rstrip].
  destruct (is_space c && str_is_empty (rstrip s)) eqn:Hc; [reflexivity |].
  cbn [rstrip]. now rewrite IH, Hc.
Qed.

Lemma lstrip_rstrip (s : string) : lstrip (rstrip s) = rstrip (lstrip s).
Proof.
  induction s as [| c s IH]; [reflexivity |].
  cbn [rstrip lstrip]. destruct (is_space c) eqn:Hc; cbn [andb].
  - destruct (rstrip s) eqn:Hs; cbn [str_is_empty].
    + symmetry. now apply rstrip_lstrip_empty.
    + cbn [lstrip]. now rewrite Hc.
  - cbn [lstrip rstrip]. now rewrite Hc.
Qed.

Lemma is_comment_rstrip (line : string) : is_comment (rstrip line) = is_comment line.
Proof.
  unfold is_comment, strip. now rewrite lstrip_rstrip, rstrip_idempotent.
Qed.

Lemma all_chars_rstrip (f : ascii -> bool) (s : string) :
  all_chars f s = true -> all_chars f (rstrip s) = true.
Proof.
  induction s as [| c s IH]; [reflexivity |].
  cbn [all_chars rstrip]. intros H. apply andb_true_iff in H. destruct H as [Hc Hs].
  destruct (is_space c && str_is_empty (rstrip s)); [reflexivity |].
  cbn [all_chars]. now rewrite Hc, IH.
Qed.

Lemma lines_text_snoc (ls : list string) (l rest : string) :
  lines_text (ls ++ [l]) rest = lines_text ls (l ++ nl ++ rest).
Proof.
  induction ls as [| x ls IH]; [reflexivity |].
  cbn [app lines_text fold_right].
  fold (lines_text (ls ++ [l]) rest) (lines_text ls (l ++ nl ++ rest)).
  now rewrite IH.
Qed.

Section HeaderOnly.

Variable fk : string -> string.
Variable fv : Scalar -> string.

(** X27. A document written for an empty tree is its header alone, and
    reads back as that header with the white space at the end of its last
    line removed. *)
Theorem header_only_document (hdr : list string) :
  hdr <> [] ->
  Forall (fun l => header_line l = true) hdr ->
  extract_header (dump_toml fk fv [] hdr) = removelast hdr ++ [rstrip (last hdr "")].
Proof.
  intros Hne Hhdr.
  assert (Hlines : dump_lines fk fv [] hdr = hdr ++ [""]).
  { unfold dump_lines. destruct hdr; [congruence | reflexivity]. }
  unfold dump_toml. rewrite Hlines.
  rewrite (join_lines_text hdr [""]) by discriminate. cbn [join].
  rewrite (app_removelast_last "" Hne) at 1.
  set (init := removelast hdr). set (hn := last hdr "").
  assert (Hin : In hn hdr) by (apply exists_last in Hne; destruct Hne as (l & x & ->);
                               subst hn; rewrite last_last; apply in_or_app; right; now left).
  assert (Hinit : Forall (fun l => header_line l = true) init).
  { apply Forall_forall. intros l Hl. rewrite Forall_forall in Hhdr. apply Hhdr.
    subst init. apply exists_last in Hne. destruct Hne as (l' & x & ->).
    rewrite removelast_last in Hl. apply in_or_app. now left. }
  assert (Hhn : header_line hn = true) by (rewrite Forall_forall in Hhdr; now apply Hhdr).
  unfold header_line in Hhn. apply andb_true_iff in Hhn. destruct Hhn as [Hcom Hnb].
  rewrite lines_text_snoc, lines_text_app. rewrite str_app_nil_r.
  rewrite rstrip_app, rstrip_app_nl;
    [| rewrite rstrip_app_nl; now apply comment_rstrip_nonempty].
  rewrite str_app_assoc, <- lines_text_app.
  replace (rstrip hn ++ nl)%string with (rstrip hn ++ nl ++ EmptyString)%string
    by now rewrite str_app_nil_r.
  rewrite <- lines_text_snoc.
  unfold extract_header, splitlines.
  assert (Hall : Forall (fun l => header_line l = true) (init ++ [rstrip hn])).
  { apply Forall_app. split; [exact Hinit |]. constructor; [| constructor].
    unfold header_line. rewrite is_comment_rstrip, Hcom. now apply all_chars_rstrip. }
  rewrite splitlines_lines_text.
  - cbn [splitlines_acc str_is_empty]. rewrite app_nil_r.
    rewrite <- (app_nil_r (init ++ [rstrip hn])) at 1.
    rewrite extract_header_loop_comments; [reflexivity |].
    eapply Forall_impl; [| exact Hall]. intros l Hl.
    unfold header_line in Hl. apply andb_true_iff in Hl. apply Hl.
  - eapply Forall_impl; [| exact Hall]. intros l Hl.
    unfold header_line in Hl. apply andb_true_iff in Hl. apply Hl.
Qed.

End HeaderOnly.

Lemma header_only_document_witness :
  extract_header (dump_toml (fun k => k) (fun _ => "v") [] ["# mine"; "# kept  "])
  = removelast ["# mine"; "# kept  "] ++ [rstrip (last ["# mine"; "# kept  "] "")].
Proof.
  apply header_only_document.
  - discriminate.
  - repeat constructor.
Defined.

(** ** Header lines in the written documents *)

(** The text written for the empty tree is the header alone, the white
    space at the end of its last line removed. *)
Lemma header_only_text (fk : string -> string) (fv : Scalar -> string)
    (hdr : list string) :
  Forall (fun l => header_line l = true) hdr ->
  dump_toml fk fv [] hdr = lines_text (removelast hdr) (rstrip (last hdr "") ++ nl).
Proof.
  intros Hhdr. destruct hdr as [| h0 hdr0] eqn:Ehdr; [reflexivity |].
  rewrite <- Ehdr in *. assert (Hne : hdr <> []) by (rewrite Ehdr; discriminate).
  clear Ehdr h0 hdr0.
  assert (Hlines : dump_lines fk fv [] hdr = hdr ++ [""]).
  { unfold dump_lines. destruct hdr; [congruence | reflexivity]. }
  unfold dump_toml. rewrite Hlines.
  rewrite (join_lines_text hdr [""]) by discriminate. cbn [join].
  rewrite (app_removelast_last "" Hne) at 1.
  set (init := removelast hdr). set (hn := last hdr "").
  assert (Hhn : header_line hn = true).
  { rewrite Forall_forall in Hhdr. apply Hhdr. subst hn.
    apply exists_last in Hne. destruct Hne as (l & x & ->).
    rewrite last_last. apply in_or_app. right. now left. }
  unfold header_line in Hhn. apply andb_true_iff in Hhn. destruct Hhn as [Hcom _].
  rewrite lines_text_snoc, lines_text_app. rewrite str_app_nil_r.
  rewrite rstrip_app, rstrip_app_nl;
    [| rewrite rstrip_app_nl; now apply comment_rstrip_nonempty].
  now rewrite str_app_assoc, <- lines_text_app.
Qed.

Lemma lines_text_header_block (hdr : list string) (rest : string) :
  exists rest', lines_text (header_block hdr) rest = lines_text hdr rest'.
Proof.
  destruct hdr as [| h hdr]; [now exists rest |].
  cbn [header_block]. rewrite lines_text_snoc. eauto.
Qed.

(** What [dump_toml] writes under a header of comment lines. *)
Lemma header_emitted_written (fv : Scalar -> string) (data : Dict) (hdr : list string) :
  Forall (fun l => header_line l = true) hdr ->
  header_emitted hdr data (dump_toml format_key fv data hdr).
Proof.
  intros Hhdr. destruct data as [| kv data].
  - cbn [header_emitted]. now apply header_only_text.
  - cbn [header_emitted]. split.
    + destruct (dump_layout format_key fv format_key_plain (kv :: data) hdr)
        as (rest & ->); [discriminate |].
      destruct (lines_text_header_block hdr rest) as (rest' & ->). eauto.
    + apply format_key_header_read_back; [discriminate | exact Hhdr].
Qed.

(** C8, as stated, fails: install over a target whose header differs from
    the repo header writes the repo header, and remove then writes the
    header of the original target.  Both documents hold comments only and
    parse to the empty table. *)
Lemma header_differs_between_install_and_remove :
  let loads := fun _ : string => Some ([] : Dict) in
  let fk := fun k : string => k in
  let fv := fun _ : Scalar => "v" in
  let fs := mkFiles (Some ("# repo" ++ nl)%string) (Some ("# mine" ++ nl)%string) None in
  exists fs1 fs2,
    install loads fk fv [] "config.toml" fs = Some (fs1, 0%Z)
    /\ remove loads fk fv fs1 = Some (fs2, 0%Z, [])
    /\ option_map extract_header (target_file fs1) = Some ["# repo"]
    /\ option_map extract_header (target_file fs2) = Some ["# mine"].
Proof.
  intros loads fk fv fs. eexists. eexists.
  split; [reflexivity |]. split; [reflexivity |]. split; reflexivity.
Qed.

(** Nor is a header always written as it was recorded: in front of an
    empty tree the white space at the end of its last line is lost. *)
Example header_last_line_stripped :
  dump_toml format_key (fun _ => "v") [] ["# mine  "] = ("# mine" ++ nl)%string.
Proof. reflexivity. Qed.

Section HeaderFacts.

Variable loads : string -> option Dict.
Variable format_value : Scalar -> string.

(** C8, amended. The header lines of a text are the comment lines among
    its leading run of blank or comment lines.  [install] writes the merged
    document under the header of the repo document, or under the header of
    the pre-existing target when the repo has none, and records the header
    of the pre-existing target, which are comment lines, in the ledger;
    [remove] writes the rolled-back document under the header recorded in
    the ledger, if that consists of comment lines.  Under a header means:
    when the tree written has an entry, the text starts with the header
    lines as they are, one per line, and they are the header lines of the
    text; when the tree is empty, the text is the header lines alone, the
    last one without the white space at its end. *)
Theorem header_lines_emitted :
  (forall text,
     extract_header text = filter is_comment (leading_run (splitlines text)))
  /\ (forall perms name fs repo_text repo_loaded existing_data,
        repo_file fs = Some repo_text ->
        load_toml loads repo_text = Some repo_loaded ->
        match target_file fs with
        | Some t => load_toml loads t = Some existing_data
        | None => existing_data = []
        end ->
        let existing_hdr :=
          match target_file fs with
          | Some t => extract_header t
          | None => []
          end in
        let header := install_header (extract_header repo_text) existing_hdr in
        let merged :=
          merge_dicts existing_data (apply_opencode_permissions repo_loaded perms) in
        exists doc ledger,
          install loads format_key format_value perms name fs =
            Some (mkFiles (repo_file fs) (Some doc) (Some ledger), 0%Z)
          /\ existing_header ledger = existing_hdr
          /\ Forall (fun l => header_line l = true) (existing_header ledger)
          /\ header_emitted header merged doc)
  /\ (forall fs ledger text data data' skipped,
        state_file fs = Some ledger ->
        target_file fs = Some text ->
        load_toml loads text = Some data ->
        rollback (overrides ledger) (additions ledger) data = Some (data', skipped) ->
        Forall (fun l => header_line l = true) (existing_header ledger) ->
        exists fs' msgs,
          remove loads format_key format_value fs = Some (fs', 0%Z, msgs)
          /\ match target_file fs' with
             | Some doc => header_emitted (existing_header ledger) data' doc
             | None => data' = [] /\ had_config ledger = false
             end).
Proof.
  split; [exact extract_header_run |]. split.
  - intros perms name fs repo_text repo_loaded existing_data Hrepo Hload Hex
           existing_hdr header merged.
    assert (Hold : Forall (fun l => header_line l = true) existing_hdr).
    { subst existing_hdr. destruct (target_file fs); [apply extract_header_lines |].
      constructor. }
    assert (Hlines : Forall (fun l => header_line l = true) header).
    { apply install_header_lines; [apply extract_header_lines | exact Hold]. }
    unfold install. rewrite Hrepo, Hload.
    subst merged header existing_hdr.
    destruct (target_file fs) as [t |].
    + rewrite Hex. eexists. eexists. split; [reflexivity |]. split; [reflexivity |].
      split; [exact Hold |]. now apply header_emitted_written.
    + subst existing_data. eexists. eexists.
      split; [reflexivity |]. split; [reflexivity |].
      split; [exact Hold |]. now apply header_emitted_written.
  - intros fs ledger text data data' skipped Hstate Htarget Hload Hroll Hlines.
    unfold remove. rewrite Hstate, Htarget, Hload, Hroll.
    eexists. eexists. split; [reflexivity |].
    cbn [target_file]. unfold target_after.
    destruct data' as [| kv d]; cbn [is_empty negb].
    + destruct (had_config ledger); cbn [negb]; [| auto].
      now apply header_emitted_written.
    + now apply header_emitted_written.
Qed.

End HeaderFacts.

(** A run on a target that is a comment with blanks at its end: [install]
    writes the repo header in front of the one entry, [remove] empties the
    tree again and writes the recorded header, which loses its blanks. *)
Lemma header_lines_emitted_witness :
  let repo_text := ("# repo" ++ nl ++ "shell = true" ++ nl)%string in
  let old_text := ("# mine  " ++ nl)%string in
  let doc := ("# repo" ++ nl ++ nl ++ "shell = true" ++ nl)%string in
  let repo := [("shell", Leaf (SBool true))] in
  let loads := fun t : string =>
                 if String.eqb t repo_text then Some repo
                 else if String.eqb t old_text then Some []
                 else if String.eqb t doc then Some repo
                 else None in
  let fv := format_value (fun _ => "0") (fun _ => "0.0") in
  let ledger := mkLedger "config.toml" true ["# mine  "]
                  [mkAddition ["shell"] (Leaf (SBool true))] [] in
  (exists doc1 ledger1,
     install loads format_key fv [] "config.toml"
             (mkFiles (Some repo_text) (Some old_text) None)
     = Some (mkFiles (Some repo_text) (Some doc1) (Some ledger1), 0%Z)
     /\ existing_header ledger1 = ["# mine  "]
     /\ Forall (fun l => header_line l = true) (existing_header ledger1)
     /\ header_emitted ["# repo"] repo doc1)
  /\ (exists fs' msgs,
        remove loads format_key fv (mkFiles (Some repo_text) (Some doc) (Some ledger))
        = Some (fs', 0%Z, msgs)
        /\ match target_file fs' with
           | Some doc2 => header_emitted ["# mine  "] [] doc2
           | None => ([] : Dict) = [] /\ true = false
           end).
Proof.
  intros repo_text old_text doc repo loads fv ledger. split.
  - apply (proj1 (proj2 (header_lines_emitted loads fv)) [] "config.toml"
             (mkFiles (Some repo_text) (Some old_text) None) repo_text repo []);
      reflexivity.
  - apply (proj2 (proj2 (header_lines_emitted loads fv))
             (mkFiles (Some repo_text) (Some doc) (Some ledger)) ledger doc repo [] 0).
    + reflexivity.
    + reflexivity.
    + reflexivity.
    + reflexivity.
    + repeat constructor.
Defined.

(** The texts of that run. *)
Example header_lines_emitted_texts :
  let repo_text := ("# repo" ++ nl ++ "shell = true" ++ nl)%string in
  let old_text := ("# mine  " ++ nl)%string in
  let doc := ("# repo" ++ nl ++ nl ++ "shell = true" ++ nl)%string in
  let repo := [("shell", Leaf (SBool true))] in
  let loads := fun t : string =>
                 if String.eqb t repo_text then Some repo
                 else if String.eqb t old_text then Some []
                 else if String.eqb t doc then Some repo
                 else None in
  let fv := format_value (fun _ => "0") (fun _ => "0.0") in
  let ledger := mkLedger "config.toml" true ["# mine  "]
                  [mkAddition ["shell"] (Leaf (SBool true))] [] in
  install loads format_key fv [] "config.toml"
          (mkFiles (Some repo_text) (Some old_text) None)
  = Some (mkFiles (Some repo_text) (Some doc) (Some ledger), 0%Z)
  /\ remove loads format_key fv (mkFiles (Some repo_text) (Some doc) (Some ledger))
     = Some (mkFiles (Some repo_text) (Some ("# mine" ++ nl)%string) None, 0%Z, []).
Proof. split; vm_compute; reflexivity. Qed.

(** ** Recorded paths do not overlap *)

Lemma path_get_app (p s : KeyPath) :
  forall v,
    path_get v (p ++ s) =
    match path_get v p with
    | Some x => path_get x s
    | None => None
    end.
Proof.
  induction p as [| k p IH]; intros v; [reflexivity |].
  cbn [app path_get]. destruct (item v k); auto.
Qed.

Lemma path_get_below_leaf (v x : Value) (s : KeyPath) :
  is_dict v = false -> path_get v s = Some x -> s = [].
Proof. destruct v, s; simpl; congruence. Qed.

Lemma rel_changes_override_above_addition (rv : Value) :
  forall ev, wf_value rv ->
    forall o a,
      In o (snd (rel_changes rv ev)) -> In a (fst (rel_changes rv ev)) ->
      ~ extends (ov_path o) (add_path a).
Proof.
  induction rv as [s | r IH] using Value_ind'; intros ev Hwf o a Ho Ha.
  - exfalso. destruct ev as [x | e].
    + rewrite rel_changes_leaves in Ha. destruct (py_eqb x s); contradiction.
    + contradiction.
  - destruct ev as [x | e]; [contradiction |].
    destruct o as [[| k q] pv rp].
    { now destruct (proj2 (rel_changes_tables_paths r e) _ Ho). }
    destruct a as [[| k' q'] rp'].
    { now destruct (proj1 (rel_changes_tables_paths r e) _ Ha). }
    cbn [ov_path add_path]. intros (s & Hs). injection Hs as -> Hq'.
    change (mkOverride (k :: q) pv rp) with (ov_prefix [k] (mkOverride q pv rp)) in Ho.
    change (mkAddition (k :: q') rp') with (add_prefix [k] (mkAddition q' rp')) in Ha.
    apply In_ov_under in Ho. apply In_add_under in Ha.
    destruct (rel_changes_under r e k (wf_table_keys Hwf)) as [HA HO].
    rewrite HO in Ho. rewrite HA in Ha.
    destruct (lookup k r) as [v |] eqn:Hl; [| contradiction].
    unfold key_changes in Ho, Ha. cbn [fst snd] in Ho, Ha.
    destruct (lookup k e) as [x |]; [| contradiction].
    rewrite Forall_forall in IH.
    apply (IH (k, v) (lookup_Some_In _ _ _ Hl) x (wf_value_lookup Hwf Hl) _ _ Ho Ha).
    exists s. exact Hq'.
Qed.

(** The paths the differ records are pairwise incomparable: none leads to
    or through another. *)
Lemma recorded_paths_apart (rv ev : Value) :
  wf_value rv ->
  let A := fst (rel_changes rv ev) in
  let O := snd (rel_changes rv ev) in
  (forall a a', In a A -> In a' A ->
                extends (add_path a) (add_path a') -> add_path a = add_path a')
  /\ (forall o o', In o O -> In o' O ->
                   extends (ov_path o) (ov_path o') -> ov_path o = ov_path o')
  /\ (forall a o, In a A -> In o O ->
                  ~ extends (add_path a) (ov_path o) /\ ~ extends (ov_path o) (add_path a)).
Proof.
  intros Hwf A O. split; [| split].
  - intros a a' Ha Ha' (s & Hs).
    destruct (rel_changes_additions_sound rv ev Hwf a Ha) as (Hget & Hleaf & _).
    destruct (rel_changes_additions_sound rv ev Hwf a' Ha') as (Hget' & _).
    rewrite Hs, path_get_app, Hget in Hget'.
    rewrite (path_get_below_leaf _ _ _ Hleaf Hget') in Hs.
    now rewrite app_nil_r in Hs.
  - intros o o' Ho Ho' (s & Hs).
    destruct (rel_changes_overrides_sound rv ev Hwf o Ho) as (Hprev & Hrepo & _ & Hnot).
    destruct (rel_changes_overrides_sound rv ev Hwf o' Ho') as (Hprev' & Hrepo' & _).
    rewrite Hs, path_get_app, Hprev in Hprev'.
    rewrite Hs, path_get_app, Hrepo in Hrepo'.
    apply andb_false_iff in Hnot. destruct Hnot as [Hd | Hd].
    + rewrite (path_get_below_leaf _ _ _ Hd Hprev') in Hs. now rewrite app_nil_r in Hs.
    + rewrite (path_get_below_leaf _ _ _ Hd Hrepo') in Hs. now rewrite app_nil_r in Hs.
  - intros a o Ha Ho. split.
    + intros (s & Hs).
      destruct (rel_changes_additions_sound rv ev Hwf a Ha) as (_ & _ & Habsent).
      destruct (rel_changes_overrides_sound rv ev Hwf o Ho) as (Hprev & _).
      rewrite Hs, path_get_app, Habsent in Hprev. discriminate.
    + now apply (rel_changes_override_above_addition rv ev Hwf).
Qed.

(** ** One recorded location through the whole rollback *)

Lemma override_step_apart (p : KeyPath) (d d' : Dict) (n n' : nat) (o : Override) :
  apart (ov_path o) p ->
  rollback_override (d, n) o = Some (d', n') ->
  path_get (Table d') p = path_get (Table d) p /\ n <= n'.
Proof.
  intros [H1 H2] Hstep. split.
  - exact (rollback_override_off_path p (d, n) (d', n') o H1 H2 Hstep).
  - apply (for_each_override_count [o] d n d' n'). cbn [for_each]. now rewrite Hstep.
Qed.

Lemma addition_step_apart (p : KeyPath) (d d' : Dict) (n n' : nat) (a : Addition) :
  apart (add_path a) p ->
  rollback_addition (d, n) a = Some (d', n') ->
  path_get (Table d') p = path_get (Table d) p /\ n <= n'.
Proof.
  intros [H1 H2] Hstep. split.
  - exact (rollback_addition_off_path p (d, n) (d', n') a H1 H2 Hstep).
  - apply (for_each_addition_count [a] d n d' n'). cbn [for_each]. now rewrite Hstep.
Qed.

Lemma overrides_keep_drifted (p : KeyPath) (cur prev repo : Value) (L : list Override) :
  value_eqb cur repo = false ->
  Forall (override_for p prev repo) L ->
  forall d n d' n',
    path_get (Table d) p = Some cur ->
    for_each rollback_override L (d, n) = Some (d', n') ->
    path_get (Table d') p = Some cur
    /\ n <= n' /\ (Exists (fun o => ov_path o = p) L -> n < n').
Proof.
  intros Hneq. induction 1 as [| o L [Hne Ho] _ IH]; intros d n d' n' Hcur Hrun.
  - injection Hrun as <- <-. repeat split; auto. intros Hex. inversion Hex.
  - cbn [for_each] in Hrun.
    destruct (rollback_override (d, n) o) as [[d1 n1] |] eqn:Hstep; [| discriminate].
    destruct Ho as [(Hp & _ & Hr) | Hapart].
    + unfold rollback_override in Hstep. rewrite Hp, Hcur, Hr, Hneq in Hstep.
      injection Hstep as <- <-.
      destruct (IH d (S n) d' n' Hcur Hrun) as (H1 & H2 & _).
      repeat split; auto; lia.
    + destruct (override_step_apart p d d1 n n1 o Hapart Hstep) as [Hsame Hle].
      rewrite <- Hsame in Hcur.
      destruct (IH d1 n1 d' n' Hcur Hrun) as (H1 & H2 & H3).
      repeat split; auto; [lia |].
      intros Hex. apply Exists_cons in Hex. destruct Hex as [Hhere | Hlater].
      * destruct Hapart as [Hx _]. destruct Hx. rewrite Hhere. exists []. now rewrite app_nil_r.
      * specialize (H3 Hlater). lia.
Qed.

Lemma additions_keep_drifted (p : KeyPath) (cur repo : Value) (L : list Addition) :
  value_eqb cur repo = false ->
  Forall (addition_for p repo) L ->
  forall d n d' n',
    path_get (Table d) p = Some cur ->
    for_each rollback_addition L (d, n) = Some (d', n') ->
    path_get (Table d') p = Some cur
    /\ n <= n' /\ (Exists (fun a => add_path a = p) L -> n < n').
Proof.
  intros Hneq. induction 1 as [| a L [Hne Ha] _ IH]; intros d n d' n' Hcur Hrun.
  - injection Hrun as <- <-. repeat split; auto. intros Hex. inversion Hex.
  - cbn [for_each] in Hrun.
    destruct (rollback_addition (d, n) a) as [[d1 n1] |] eqn:Hstep; [| discriminate].
    destruct Ha as [(Hp & Hr) | Hapart].
    + unfold rollback_addition in Hstep. rewrite Hp, Hcur, Hr, Hneq in Hstep.
      injection Hstep as <- <-.
      destruct (IH d (S n) d' n' Hcur Hrun) as (H1 & H2 & _).
      repeat split; auto; lia.
    + destruct (addition_step_apart p d d1 n n1 a Hapart Hstep) as [Hsame Hle].
      rewrite <- Hsame in Hcur.
      destruct (IH d1 n1 d' n' Hcur Hrun) as (H1 & H2 & H3).
      repeat split; auto; [lia |].
      intros Hex. apply Exists_cons in Hex. destruct Hex as [Hhere | Hlater].
      * destruct Hapart as [Hx _]. destruct Hx. rewrite Hhere. exists []. now rewrite app_nil_r.
      * specialize (H3 Hlater). lia.
Qed.

Lemma overrides_apart_frame (p : KeyPath) (L : list Override) :
  Forall (fun o => apart (ov_path o) p) L ->
  forall d n d' n',
    for_each rollback_override L (d, n) = Some (d', n') ->
    path_get (Table d') p = path_get (Table d) p /\ n <= n'.
Proof.
  induction 1 as [| o L Ho _ IH]; intros d n d' n' Hrun.
  - injection Hrun as <- <-. auto.
  - cbn [for_each] in Hrun.
    destruct (rollback_override (d, n) o) as [[d1 n1] |] eqn:Hstep; [| discriminate].
    destruct (override_step_apart p d d1 n n1 o Ho Hstep) as [Hsame Hle].
    destruct (IH d1 n1 d' n' Hrun) as [H1 H2]. split; [congruence | lia].
Qed.

Lemma additions_apart_frame (p : KeyPath) (L : list Addition) :
  Forall (fun a => apart (add_path a) p) L ->
  forall d n d' n',
    for_each rollback_addition L (d, n) = Some (d', n') ->
    path_get (Table d') p = path_get (Table d) p /\ n <= n'.
Proof.
  induction 1 as [| a L Ha _ IH]; intros d n d' n' Hrun.
  - injection Hrun as <- <-. auto.
  - cbn [for_each] in Hrun.
    destruct (rollback_addition (d, n) a) as [[d1 n1] |] eqn:Hstep; [| discriminate].
    destruct (addition_step_apart p d d1 n n1 a Ha Hstep) as [Hsame Hle].
    destruct (IH d1 n1 d' n' Hrun) as [H1 H2]. split; [congruence | lia].
Qed.

Lemma overrides_undo (p : KeyPath) (cur prev repo : Value) (L : list Override) :
  value_eqb cur repo = true -> value_eqb prev repo = false ->
  Forall (override_for p prev repo) L ->
  Exists (fun o => ov_path o = p) L ->
  forall d n d' n',
    path_get (Table d) p = Some cur ->
    for_each rollback_override L (d, n) = Some (d', n') ->
    path_get (Table d') p = Some prev.
Proof.
  intros Heq Hneq Hall. induction Hall as [| o L [Hne Ho] Hall IH];
    intros Hex d n d' n' Hcur Hrun; [inversion Hex |].
  cbn [for_each] in Hrun.
  destruct (rollback_override (d, n) o) as [[d1 n1] |] eqn:Hstep; [| discriminate].
  destruct Ho as [(Hp & Hpv & Hr) | Hapart].
  - unfold rollback_override in Hstep. rewrite Hp, Hcur, Hr, Heq, Hpv in Hstep.
    assert (Hp' : p <> []) by congruence.
    destruct (path_set_total Hp' d prev) as (x & Hset & Hget).
    rewrite Hset in Hstep. injection Hstep as <- <-.
    exact (proj1 (overrides_keep_drifted p prev prev repo L Hneq Hall _ _ _ _ Hget Hrun)).
  - destruct (override_step_apart p d d1 n n1 o Hapart Hstep) as [Hsame _].
    rewrite <- Hsame in Hcur.
    apply Exists_cons in Hex. destruct Hex as [Hhere | Hlater].
    + destruct Hapart as [Hx _]. destruct Hx. rewrite Hhere. exists []. now rewrite app_nil_r.
    + exact (IH Hlater d1 n1 d' n' Hcur Hrun).
Qed.

Lemma additions_keep_absent (p : KeyPath) (repo : Value) (L : list Addition) :
  Forall (addition_for p repo) L ->
  forall d n d' n',
    path_get (Table d) p = None ->
    for_each rollback_addition L (d, n) = Some (d', n') ->
    path_get (Table d') p = None.
Proof.
  induction 1 as [| a L [Hne Ha] _ IH]; intros d n d' n' Hnone Hrun.
  - now injection Hrun as <- <-.
  - cbn [for_each] in Hrun.
    destruct (rollback_addition (d, n) a) as [[d1 n1] |] eqn:Hstep; [| discriminate].
    destruct Ha as [(Hp & Hr) | Hapart].
    + unfold rollback_addition in Hstep. rewrite Hp, Hnone in Hstep.
      injection Hstep as <- <-. now apply (IH d n d' n').
    + destruct (addition_step_apart p d d1 n n1 a Hapart Hstep) as [Hsame _].
      rewrite <- Hsame in Hnone. now apply (IH d1 n1 d' n').
Qed.

Lemma additions_undo (p : KeyPath) (cur repo : Value) (L : list Addition) :
  value_eqb cur repo = true ->
  Forall (addition_for p repo) L ->
  Exists (fun a => add_path a = p) L ->
  forall d n d' n',
    path_get (Table d) p = Some cur ->
    for_each rollback_addition L (d, n) = Some (d', n') ->
    path_get (Table d') p = None.
Proof.
  intros Heq Hall. induction Hall as [| a L [Hne Ha] Hall IH];
    intros Hex d n d' n' Hcur Hrun; [inversion Hex |].
  cbn [for_each] in Hrun.
  destruct (rollback_addition (d, n) a) as [[d1 n1] |] eqn:Hstep; [| discriminate].
  destruct Ha as [(Hp & Hr) | Hapart].
  - unfold rollback_addition in Hstep. rewrite Hp, Hcur, Hr, Heq in Hstep.
    assert (Hp' : p <> []) by congruence.
    rewrite (path_delete_prune d Hp') in Hstep.
    destruct (delete_prune_present d cur Hp' Hcur) as (x & Hdel & Hgone & _).
    rewrite Hdel in Hstep. injection Hstep as <- <-.
    exact (additions_keep_absent p repo L Hall _ _ _ _ Hgone Hrun).
  - destruct (addition_step_apart p d d1 n n1 a Hapart Hstep) as [Hsame _].
    rewrite <- Hsame in Hcur.
    apply Exists_cons in Hex. destruct Hex as [Hhere | Hlater].
    + destruct Hapart as [Hx _]. destruct Hx. rewrite Hhere. exists []. now rewrite app_nil_r.
    + exact (IH Hlater d1 n1 d' n' Hcur Hrun).
Qed.

Lemma extends_refl (p : KeyPath) : extends p p.
Proof. exists []. now rewrite app_nil_r. Qed.

Lemma overrides_classified (repo_data existing_data : Dict) (o0 : Override) :
  wf_table repo_data ->
  In o0 (snd (diff repo_data existing_data)) ->
  Forall (override_for (ov_path o0) (ov_previous o0) (ov_repo o0))
         (snd (diff repo_data existing_data))
  /\ Forall (addition_for (ov_path o0) (ov_repo o0)) (fst (diff repo_data existing_data)).
Proof.
  intros Hwf Hin0. destruct (diff_paths repo_data existing_data) as [HpO HpA].
  rewrite diff_by_key in *.
  destruct (recorded_paths_apart (Table repo_data) (Table existing_data) Hwf)
    as (_ & HOO & HAO).
  destruct (rel_changes_overrides_sound _ (Table existing_data) Hwf o0 Hin0)
    as (Hprev0 & Hrepo0 & _).
  split; apply Forall_forall.
  - intros o Hin. split; [rewrite Forall_forall in HpO; now apply HpO |].
    destruct (list_eq_dec string_dec (ov_path o) (ov_path o0)) as [Heq | Hne].
    + left. destruct (rel_changes_overrides_sound _ (Table existing_data) Hwf o Hin)
        as (Hprev & Hrepo & _).
      rewrite Heq in Hprev, Hrepo. repeat split; congruence.
    + right. split; intros Hext.
      * apply Hne. now apply HOO.
      * apply Hne. symmetry. now apply HOO.
  - intros a Hin. split; [rewrite Forall_forall in HpA; now apply HpA |].
    right. exact (HAO a o0 Hin Hin0).
Qed.

Lemma additions_classified (repo_data existing_data : Dict) (a0 : Addition) :
  wf_table repo_data ->
  In a0 (fst (diff repo_data existing_data)) ->
  Forall (addition_for (add_path a0) (add_repo a0)) (fst (diff repo_data existing_data))
  /\ Forall (fun o => ov_path o <> [] /\ apart (ov_path o) (add_path a0))
            (snd (diff repo_data existing_data)).
Proof.
  intros Hwf Hin0. destruct (diff_paths repo_data existing_data) as [HpO HpA].
  rewrite diff_by_key in *.
  destruct (recorded_paths_apart (Table repo_data) (Table existing_data) Hwf)
    as (HAA & _ & HAO).
  destruct (rel_changes_additions_sound _ (Table existing_data) Hwf a0 Hin0)
    as (Hrepo0 & _).
  split; apply Forall_forall.
  - intros a Hin. split; [rewrite Forall_forall in HpA; now apply HpA |].
    destruct (list_eq_dec string_dec (add_path a) (add_path a0)) as [Heq | Hne].
    + left. destruct (rel_changes_additions_sound _ (Table existing_data) Hwf a Hin)
        as (Hrepo & _).
      rewrite Heq in Hrepo. split; congruence.
    + right. split; intros Hext.
      * apply Hne. now apply HAA.
      * apply Hne. symmetry. now apply HAA.
  - intros o Hin. split; [rewrite Forall_forall in HpO; now apply HpO |].
    destruct (HAO a0 o Hin0 Hin) as [H1 H2]. split; assumption.
Qed.

Lemma Exists_In {X : Type} (P : X -> Prop) (x : X) (l : list X) :
  In x l -> P x -> Exists P l.
Proof. intros Hin Hx. apply Exists_exists. eauto. Qed.

Lemma rollback_runs (repo_data existing_data data : Dict) :
  exists mid n1 data' n,
    for_each rollback_override (snd (diff repo_data existing_data)) (data, 0)
      = Some (mid, n1)
    /\ for_each rollback_addition (fst (diff repo_data existing_data)) (mid, n1)
      = Some (data', n)
    /\ rollback (snd (diff repo_data existing_data)) (fst (diff repo_data existing_data))
                data = Some (data', n).
Proof.
  destruct (diff_paths repo_data existing_data) as [HO HA].
  destruct (rollback_total data HO HA) as (data' & n & Hrun).
  unfold rollback in *.
  destruct (for_each rollback_override (snd (diff repo_data existing_data)) (data, 0))
    as [[mid n1] |]; [| discriminate].
  exists mid, n1, data', n. auto.
Qed.

(** X28. A setting changed after the install survives [remove].  If the
    tree holds, at the path of a recorded Addition or Override, a value that
    differs from the recorded repo value, the rollback of the whole ledger
    leaves that value in place, whatever it does elsewhere, and counts at
    least one preserved setting. *)
Theorem modified_setting_survives
    (repo_data existing_data data : Dict) (p : KeyPath) (repo cur : Value) :
  wf_table repo_data ->
  In (p, repo)
     (map addition_assignment (fst (diff repo_data existing_data))
      ++ map override_assignment (snd (diff repo_data existing_data))) ->
  path_get (Table data) p = Some cur ->
  value_eqb cur repo = false ->
  exists data' skipped,
    rollback (snd (diff repo_data existing_data)) (fst (diff repo_data existing_data)) data
      = Some (data', skipped)
    /\ path_get (Table data') p = Some cur
    /\ 1 <= skipped.
Proof.
  intros Hwf Hin Hcur Hneq.
  destruct (rollback_runs repo_data existing_data data)
    as (mid & n1 & data' & n & Hov & Hadd & Hrun).
  exists data', n. split; [exact Hrun |].
  apply in_app_or in Hin. destruct Hin as [Hin | Hin].
  - apply in_map_iff in Hin. destruct Hin as (a0 & Ha0 & Hin).
    unfold addition_assignment in Ha0. injection Ha0 as <- <-.
    destruct (additions_classified repo_data existing_data a0 Hwf Hin) as [HA HO].
    destruct (overrides_apart_frame (add_path a0) _
                ltac:(eapply Forall_impl; [| exact HO]; intros o Ho; apply Ho)
                _ _ _ _ Hov) as [Hmid _].
    rewrite <- Hmid in Hcur.
    destruct (additions_keep_drifted _ cur _ _ Hneq HA _ _ _ _ Hcur Hadd) as (H1 & H2 & H3).
    split; [exact H1 |].
    assert (n1 < n) by (apply H3; now apply (Exists_In _ a0)). lia.
  - apply in_map_iff in Hin. destruct Hin as (o0 & Ho0 & Hin).
    unfold override_assignment in Ho0. injection Ho0 as <- <-.
    destruct (overrides_classified repo_data existing_data o0 Hwf Hin) as [HO HA].
    destruct (overrides_keep_drifted _ cur _ _ _ Hneq HO _ _ _ _ Hcur Hov) as (H1 & H2 & H3).
    destruct (additions_keep_drifted _ cur _ _ Hneq HA _ _ _ _ H1 Hadd) as (H4 & H5 & _).
    split; [exact H4 |].
    assert (0 < n1) by (apply H3; now apply (Exists_In _ o0)). lia.
Qed.

Lemma modified_setting_survives_witness :
  let repo_data := [("mode", Leaf (SStr "auto")); ("tools", Table [("shell", Leaf (SBool true))])] in
  let existing_data := [("mode", Leaf (SStr "manual"))] in
  let data := [("mode", Leaf (SStr "fast")); ("tools", Table [("shell", Leaf (SBool true))])] in
  exists data' skipped,
    rollback (snd (diff repo_data existing_data)) (fst (diff repo_data existing_data)) data
      = Some (data', skipped)
    /\ path_get (Table data') ["mode"] = Some (Leaf (SStr "fast"))
    /\ 1 <= skipped.
Proof.
  intros repo_data existing_data data.
  apply (modified_setting_survives repo_data existing_data data ["mode"]
           (Leaf (SStr "auto")) (Leaf (SStr "fast"))).
  - wf_concrete.
  - simpl. auto.
  - reflexivity.
  - reflexivity.
Defined.

(** X29. A recorded Override whose location still holds the repo value is
    undone, whatever has happened elsewhere: after the rollback of the
    whole ledger, the location holds the recorded previous value. *)
Theorem untouched_override_undone
    (repo_data existing_data data : Dict) (o : Override) (cur : Value) :
  wf_table repo_data ->
  In o (snd (diff repo_data existing_data)) ->
  path_get (Table data) (ov_path o) = Some cur ->
  value_eqb cur (ov_repo o) = true ->
  exists data' skipped,
    rollback (snd (diff repo_data existing_data)) (fst (diff repo_data existing_data)) data
      = Some (data', skipped)
    /\ path_get (Table data') (ov_path o) = Some (ov_previous o).
Proof.
  intros Hwf Hin Hcur Heq.
  destruct (rollback_runs repo_data existing_data data)
    as (mid & n1 & data' & n & Hov & Hadd & Hrun).
  exists data', n. split; [exact Hrun |].
  destruct (overrides_classified repo_data existing_data o Hwf Hin) as [HO HA].
  assert (Hneq : value_eqb (ov_previous o) (ov_repo o) = false).
  { rewrite diff_by_key in Hin.
    now destruct (rel_changes_overrides_sound _ (Table existing_data) Hwf o Hin)
      as (_ & _ & H & _). }
  pose proof (overrides_undo _ cur _ _ _ Heq Hneq HO (Exists_In _ o _ Hin eq_refl)
                _ _ _ _ Hcur Hov) as Hmid.
  exact (proj1 (additions_keep_drifted _ _ _ _ Hneq HA _ _ _ _ Hmid Hadd)).
Qed.

Lemma untouched_override_undone_witness :
  let repo_data := [("mode", Leaf (SStr "auto")); ("tools", Table [("shell", Leaf (SBool true))])] in
  let existing_data := [("mode", Leaf (SStr "manual"))] in
  let data := [("tools", Table [("shell", Leaf (SBool false))]); ("mode", Leaf (SStr "auto"))] in
  let o := mkOverride ["mode"] (Leaf (SStr "manual")) (Leaf (SStr "auto")) in
  exists data' skipped,
    rollback (snd (diff repo_data existing_data)) (fst (diff repo_data existing_data)) data
      = Some (data', skipped)
    /\ path_get (Table data') (ov_path o) = Some (ov_previous o).
Proof.
  intros repo_data existing_data data o.
  apply (untouched_override_undone repo_data existing_data data o (Leaf (SStr "auto"))).
  - wf_concrete.
  - simpl. auto.
  - reflexivity.
  - reflexivity.
Defined.

(** X30. A recorded Addition whose location still holds the repo value is
    undone, whatever has happened elsewhere: after the rollback of the
    whole ledger, nothing is left at its path. *)
Theorem untouched_addition_undone
    (repo_data existing_data data : Dict) (a : Addition) (cur : Value) :
  wf_table repo_data ->
  In a (fst (diff repo_data existing_data)) ->
  path_get (Table data) (add_path a) = Some cur ->
  value_eqb cur (add_repo a) = true ->
  exists data' skipped,
    rollback (snd (diff repo_data existing_data)) (fst (diff repo_data existing_data)) data
      = Some (data', skipped)
    /\ path_get (Table data') (add_path a) = None.
Proof.
  intros Hwf Hin Hcur Heq.
  destruct (rollback_runs repo_data existing_data data)
    as (mid & n1 & data' & n & Hov & Hadd & Hrun).
  exists data', n. split; [exact Hrun |].
  destruct (additions_classified repo_data existing_data a Hwf Hin) as [HA HO].
  destruct (overrides_apart_frame (add_path a) _
              ltac:(eapply Forall_impl; [| exact HO]; intros o Ho; apply Ho)
              _ _ _ _ Hov) as [Hmid _].
  rewrite <- Hmid in Hcur.
  exact (additions_undo _ cur _ _ Heq HA (Exists_In _ a _ Hin eq_refl) _ _ _ _ Hcur Hadd).
Qed.

Lemma untouched_addition_undone_witness :
  let repo_data := [("mode", Leaf (SStr "auto")); ("tools", Table [("shell", Leaf (SBool true))])] in
  let existing_data := [("mode", Leaf (SStr "manual"))] in
  let data := [("mode", Leaf (SStr "fast")); ("tools", Table [("shell", Leaf (SBool true))])] in
  let a := mkAddition ["tools"; "shell"] (Leaf (SBool true)) in
  exists data' skipped,
    rollback (snd (diff repo_data existing_data)) (fst (diff repo_data existing_data)) data
      = Some (data', skipped)
    /\ path_get (Table data') (add_path a) = None.
Proof.
  intros repo_data existing_data data a.
  apply (untouched_addition_undone repo_data existing_data data a (Leaf (SBool true))).
  - wf_concrete.
  - simpl. auto.
  - reflexivity.
  - reflexivity.
Defined.

(** ** Rendering: what the source prints for some inputs *)

Example format_string_plain :
  format_string ("fast")%string
  = (quote ++ "fast" ++ quote)%string.
Proof. reflexivity. Qed.

Example format_string_quote :
  format_string ("say " ++ quote ++ "hi" ++ quote)%string
  = (quote ++ "say " ++ backslash ++ quote ++ "hi" ++ backslash ++ quote ++ quote)%string.
Proof. reflexivity. Qed.

Example format_string_backslash :
  format_string ("a" ++ backslash ++ "b")%string
  = (quote ++ "a" ++ backslash ++ backslash ++ "b" ++ quote)%string.
Proof. reflexivity. Qed.

Example format_string_lines :
  format_string ("x" ++ nl ++ "y")%string
  = (quote ++ quote ++ quote ++ "x" ++ nl ++ "y" ++ quote ++ quote ++ quote)%string.
Proof. reflexivity. Qed.

(** A multi-line string with three quotes in a row: the second replacement
    puts a backslash in front of them, and the third escapes every quote
    once more. *)
Example format_string_triple_quote :
  format_string ("x" ++ nl ++ quote ++ quote ++ quote)%string
  = (quote ++ quote ++ quote ++ "x" ++ nl
     ++ backslash ++ backslash ++ quote ++ backslash ++ quote ++ backslash ++ quote
     ++ quote ++ quote ++ quote)%string.
Proof. reflexivity. Qed.

Example format_key_bare :
  format_key ("my-key_1")%string
  = ("my-key_1")%string.
Proof. reflexivity. Qed.

Example format_key_space :
  format_key ("my key")%string
  = (quote ++ "my key" ++ quote)%string.
Proof. reflexivity. Qed.

Example format_key_underscore :
  format_key ("_")%string
  = (quote ++ "_" ++ quote)%string.
Proof. reflexivity. Qed.

Example format_key_empty :
  format_key EmptyString
  = (quote ++ quote)%string.
Proof. reflexivity. Qed.

Example format_value_list :
  format_value (fun _ => "7") (fun _ => "0.5")
    (SList [SBool true; SStr "a"; SInt 7; SList [SBool false]])
  = ("[true, " ++ quote ++ "a" ++ quote ++ ", 7, [false]]")%string.
Proof. reflexivity. Qed.
(* ================================================================== *)
(** * The conditions of C1 and C2 are forced

    The round trip and the rebuilding of the merge hold on no other trees
    than the ones their theorems ask for. *)

(** ** The conditions, read back from the walk of the differ *)

Lemma no_empty_table_get (v : Value) :
  no_empty_table v = true -> forall p, path_get v p <> Some (Table []).
Proof.
  induction v as [s | t IH] using Value_ind'; intros Hne p.
  - destruct p; discriminate.
  - destruct p as [| k p].
    + cbn [path_get]. intros H. injection H as ->. discriminate Hne.
    + rewrite path_get_cons. destruct (lookup k t) as [v |] eqn:Hl; [| discriminate].
      pose proof (lookup_Some_In _ _ _ Hl) as Hin.
      rewrite Forall_forall in IH. pose proof (IH (k, v) Hin) as IHv. cbn [snd] in IHv.
      apply IHv. apply (no_empty_table_sub _ _ _ Hin Hne).
Qed.

Lemma added_path_inv (e : Dict) (k : string) (p : KeyPath) :
  added_path (Table e) (k :: p) ->
  lookup k e = None \/ exists ev, lookup k e = Some ev /\ added_path ev p.
Proof.
  intros (q & k1 & s & t & Hp & Hq & Hk). destruct q as [| k0 q].
  - left. cbn [app] in Hp. injection Hp as -> ->.
    cbn [path_get] in Hq. injection Hq as ->. exact Hk.
  - right. cbn [app] in Hp. injection Hp as -> ->.
    rewrite path_get_cons in Hq. destruct (lookup k0 e) as [ev |]; [| discriminate].
    exists ev. split; [reflexivity |]. now exists q, k1, s, t.
Qed.

Lemma added_path_leaf (x : Scalar) (p : KeyPath) : ~ added_path (Leaf x) p.
Proof.
  intros (q & k1 & s & t & _ & Hq & _). destruct q; discriminate.
Qed.

Lemma table_path_conditions (undo : bool) (r e : Dict) :
  (forall k v ev, In (k, v) r -> lookup k e = Some ev -> path_conditions undo v ev) ->
  (forall k v, In (k, v) r -> lookup k e = None -> no_empty_table v = true) ->
  exact_at_paths (Table e) (Table r)
  /\ no_empty_table_added (Table e) (Table r)
  /\ (undo = true -> no_empty_table_filled (Table e) (Table r)).
Proof.
  intros Hpresent Habsent. split; [| split].
  - intros p x s Hx Hs. destruct p as [| k p]; [discriminate |].
    rewrite path_get_cons in Hx, Hs.
    destruct (lookup k e) as [ev |] eqn:Hle; [| discriminate].
    destruct (lookup k r) as [v |] eqn:Hlr; [| discriminate].
    destruct (Hpresent k v ev (lookup_Some_In _ _ _ Hlr) Hle) as (Hex & _).
    now apply (Hex p).
  - intros p Hadd Hget. destruct p as [| k p].
    { destruct Hadd as (q & k1 & s & t & Hp & _). destruct q; discriminate. }
    rewrite path_get_cons in Hget.
    destruct (lookup k r) as [v |] eqn:Hlr; [| discriminate].
    pose proof (lookup_Some_In _ _ _ Hlr) as Hin.
    destruct (added_path_inv e k p Hadd) as [Hle | (ev & Hle & Hadd')].
    + exact (no_empty_table_get v (Habsent k v Hin Hle) p Hget).
    + destruct (Hpresent k v ev Hin Hle) as (_ & Hadded & _).
      exact (Hadded p Hadd' Hget).
  - intros Hu p r' Hne He Hr. destruct p as [| k p]; [congruence |].
    rewrite path_get_cons in He, Hr.
    destruct (lookup k e) as [ev |] eqn:Hle; [| discriminate].
    destruct (lookup k r) as [v |] eqn:Hlr; [| discriminate].
    destruct (Hpresent k v ev (lookup_Some_In _ _ _ Hlr) Hle) as (_ & _ & Hfill).
    exact (Hfill Hu p r' He Hr).
Qed.

Lemma paths_of_lockstep (undo : bool) (rv : Value) :
  forall ev, lockstep undo rv ev -> path_conditions undo rv ev.
Proof.
  induction rv as [s | r IH] using Value_ind'; intros ev Hstep.
  - destruct ev as [x | e].
    + cbn [lockstep] in Hstep. split; [| split].
      * intros p x' s' Hx Hs. destruct p; [| discriminate].
        injection Hx as <-. injection Hs as <-. exact Hstep.
      * intros p Hadd. now destruct (added_path_leaf x p).
      * intros _ p r He. destruct p; discriminate.
    + split; [| split].
      * intros p x s' Hx Hs. destruct p; discriminate.
      * intros p _ Hget. destruct p; discriminate.
      * intros _ p r _ Hr. destruct p; discriminate.
  - destruct ev as [x | e].
    + split; [| split].
      * intros p x' s Hx Hs. destruct p; discriminate.
      * intros p Hadd. now destruct (added_path_leaf x p).
      * intros _ p r' He. destruct p; discriminate.
    + apply lockstep_tables in Hstep. destruct Hstep as [Hfill Hkeys].
      destruct (table_path_conditions undo r e) as (Hex & Hadd & Hfilled).
      * intros k v ev Hin Hle. rewrite Forall_forall in IH.
        pose proof (IH (k, v) Hin) as IHv. cbn [snd] in IHv. apply IHv.
        pose proof (Hkeys k v Hin) as Hk. unfold lockstep_key in Hk.
        now rewrite Hle in Hk.
      * intros k v Hin Hle. pose proof (Hkeys k v Hin) as Hk.
        unfold lockstep_key in Hk. now rewrite Hle in Hk.
      * split; [exact Hex |]. split; [exact Hadd |].
        intros Hu p r' He Hr. destruct p as [| k p].
        -- cbn [path_get] in He, Hr. injection He as ->. injection Hr as <-.
           specialize (Hfill Hu eq_refl). now destruct r.
        -- apply (Hfilled Hu (k :: p) r'); [discriminate | exact He | exact Hr].
Qed.

Lemma paths_of_lockstep_keys (undo : bool) (r e : Dict) :
  (forall k v, In (k, v) r -> lockstep_key undo e k v) ->
  exact_at_paths (Table e) (Table r)
  /\ no_empty_table_added (Table e) (Table r)
  /\ (undo = true -> no_empty_table_filled (Table e) (Table r)).
Proof.
  intros Hkeys. apply table_path_conditions.
  - intros k v ev Hin Hle. apply paths_of_lockstep.
    pose proof (Hkeys k v Hin) as Hk. unfold lockstep_key in Hk. now rewrite Hle in Hk.
  - intros k v Hin Hle. pose proof (Hkeys k v Hin) as Hk.
    unfold lockstep_key in Hk. now rewrite Hle in Hk.
Qed.

(** ** The conditions on applying the changes are forced *)

Lemma for_each_assign_total (L : list (KeyPath * Value)) :
  Forall (fun pv => fst pv <> []) L ->
  forall d, exists d', for_each assign L d = Some d'.
Proof.
  induction 1 as [| pv L Hne _ IH]; intros d; cbn [for_each]; [eauto |].
  destruct (@path_set_total (fst pv) Hne d (snd pv)) as (d1 & Hd1 & _).
  change (assign d pv) with (path_set d (fst pv) (snd pv)). rewrite Hd1. apply IH.
Qed.

Lemma addition_assignment_paths (L : list Addition) :
  (forall a, In a L -> add_path a <> []) ->
  Forall (fun pv : KeyPath * Value => fst pv <> []) (map addition_assignment L).
Proof.
  intros H. apply Forall_forall. intros pv Hin. apply in_map_iff in Hin.
  destruct Hin as (a & <- & Hin). now apply H.
Qed.

Lemma override_assignment_paths (L : list Override) :
  (forall o, In o L -> ov_path o <> []) ->
  Forall (fun pv : KeyPath * Value => fst pv <> []) (map override_assignment L).
Proof.
  intros H. apply Forall_forall. intros pv Hin. apply in_map_iff in Hin.
  destruct Hin as (o & <- & Hin). now apply H.
Qed.

(** A subtree is rebuilt from its Additions only if it has no empty
    table. *)
Lemma additions_rebuild_only_if (v : Value) :
  wf_value v ->
  fold_left assign_slot (map addition_assignment (rel_additions v)) None = Some v ->
  no_empty_table v = true.
Proof.
  induction v as [s | t IH] using Value_ind'; intros Hwf Heq; [reflexivity |].
  pose proof (wf_table_keys Hwf) as Hnd.
  assert (Hpaths : Forall (fun pv : KeyPath * Value => fst pv <> [])
                     (map addition_assignment (rel_additions (Table t)))).
  { apply addition_assignment_paths. intros a Hin.
    pose proof (rel_additions_paths t) as Hp. rewrite Forall_forall in Hp. auto. }
  assert (Hne : map addition_assignment (rel_additions (Table t)) <> []).
  { intros Hnil. rewrite Hnil in Heq. discriminate Heq. }
  rewrite assign_slot_fresh in Heq by assumption.
  destruct (for_each_assign_total _ Hpaths []) as (t' & Hrun).
  rewrite (assign_slot_table _ Hpaths [] t' Hrun) in Heq.
  injection Heq as ->.
  set (slots := fun k =>
         match lookup k t with
         | Some v => fold_left assign_slot (map addition_assignment (rel_additions v)) None
         | None => None
         end).
  rewrite rel_additions_table, additions_grouped in Hrun.
  rewrite (for_each_assign_groups
             (fun kv => map addition_assignment (rel_additions (snd kv))) slots t Hnd)
    in Hrun.
  2:{ intros k v Hin. unfold slots. cbn [snd lookup].
      now rewrite (In_lookup _ _ _ Hnd Hin). }
  injection Hrun as Hset.
  cbn [no_empty_table]. apply andb_true_iff. split.
  - destruct t; [| reflexivity]. now destruct Hne.
  - apply forallb_forall. intros [k v] Hin. cbn [snd].
    pose proof (In_lookup _ _ _ Hnd Hin) as Hl.
    rewrite Forall_forall in IH. pose proof (IH (k, v) Hin) as IHv. cbn [snd] in IHv.
    apply IHv; [apply (wf_value_lookup Hwf Hl) |].
    assert (Hk : lookup k (set_all t slots []) = Some v) by now rewrite Hset.
    rewrite lookup_set_all in Hk by assumption.
    assert (Hm : mem k t = true).
    { apply mem_true. change k with (fst (k, v)). now apply in_map. }
    rewrite Hm in Hk. unfold slots in Hk. rewrite Hl in Hk. cbn [lookup] in Hk.
    now destruct (fold_left assign_slot (map addition_assignment (rel_additions v)) None).
Qed.

Lemma tables_reproduced_only_if (r e : Dict) :
  wf_table r -> wf_table e ->
  Forall (fun kv => reproduces_only_if (snd kv)) r ->
  forall d1,
    for_each assign (map addition_assignment (fst (rel_changes (Table r) (Table e)))) e
      = Some d1 ->
    for_each assign (map override_assignment (snd (rel_changes (Table r) (Table e)))) d1
      = Some (merge_dicts e r) ->
    forall k v, In (k, v) r -> lockstep_key false e k v.
Proof.
  intros Hwr Hwe Hrep d1 HA HO k v Hin.
  pose proof (wf_table_keys Hwr) as Hndr.
  set (GA := fun kv : string * Value => map addition_assignment (fst (key_changes e kv))).
  set (GO := fun kv : string * Value => map override_assignment (snd (key_changes e kv))).
  set (slotsA := fun k =>
         match lookup k r with
         | Some v => fold_left assign_slot (GA (k, v)) (lookup k e)
         | None => None
         end).
  set (slotsO := fun k =>
         match lookup k r with
         | Some v => fold_left assign_slot (GO (k, v)) (lookup k d1)
         | None => None
         end).
  rewrite rel_changes_tables in HA, HO. cbn [fst snd] in HA, HO.
  rewrite additions_grouped in HA. rewrite overrides_grouped in HO.
  rewrite (for_each_assign_groups GA slotsA r Hndr) in HA.
  2:{ intros k' v' Hin'. unfold slotsA. now rewrite (In_lookup _ _ _ Hndr Hin'). }
  injection HA as HA.
  rewrite (for_each_assign_groups GO slotsO r Hndr) in HO.
  2:{ intros k' v' Hin'. unfold slotsO. now rewrite (In_lookup _ _ _ Hndr Hin'). }
  injection HO as HO.
  pose proof (In_lookup _ _ _ Hndr Hin) as Hlr.
  assert (Hm : mem k r = true).
  { apply mem_true. change k with (fst (k, v)). now apply in_map. }
  assert (H1 : lookup k d1 =
               match slotsA k with Some x => Some x | None => lookup k e end).
  { rewrite <- HA, lookup_set_all by assumption. now rewrite Hm. }
  assert (H2 : lookup k (merge_dicts e r) =
               match slotsO k with Some x => Some x | None => lookup k d1 end).
  { rewrite <- HO, lookup_set_all by assumption. now rewrite Hm. }
  rewrite lookup_merge_dicts, Hlr in H2.
  unfold slotsO in H2. rewrite Hlr in H2. unfold slotsA in H1. rewrite Hlr in H1.
  unfold GA, GO in *. cbv beta in H1, H2. unfold lockstep_key.
  destruct (lookup k e) as [ev |] eqn:Hle.
  - rewrite (key_changes_present _ Hle) in H1, H2.
    destruct (assign_slot_some (map addition_assignment (fst (rel_changes v ev))) ev)
      as (a & Ha).
    rewrite Ha in H1. rewrite H1 in H2.
    destruct (assign_slot_some (map override_assignment (snd (rel_changes v ev))) a)
      as (b & Hb).
    rewrite Hb in H2.
    rewrite Forall_forall in Hrep. apply (Hrep (k, v) Hin ev).
    + apply (wf_value_lookup Hwr Hlr).
    + apply (wf_value_lookup Hwe Hle).
    + cbn [snd]. rewrite Ha, Hb. now symmetry.
  - rewrite (key_changes_absent _ Hle) in H1, H2. cbn [fst snd map fold_left] in H1, H2.
    apply additions_rebuild_only_if; [apply (wf_value_lookup Hwr Hlr) |].
    destruct (fold_left assign_slot (map addition_assignment (rel_additions v)) None)
      as [w |].
    + rewrite H1 in H2. now symmetry.
    + rewrite H1 in H2. discriminate H2.
Qed.

Lemma changes_reproduced_only_if (rv : Value) : reproduces_only_if rv.
Proof.
  induction rv as [s | r IH] using Value_ind'; intros ev Hwr Hwe Heq.
  - destruct ev as [x | e]; [| exact I].
    cbn [lockstep]. intros Hpy. rewrite rel_changes_leaves, Hpy in Heq.
    cbn in Heq. now injection Heq as ->.
  - destruct ev as [x | e]; [exact I |].
    rewrite merge_value_table in Heq.
    destruct (rel_changes_tables_paths r e) as [HpA HpO].
    pose proof (addition_assignment_paths _ HpA) as HFA.
    pose proof (override_assignment_paths _ HpO) as HFO.
    destruct (for_each_assign_total _ HFA e) as (d1 & HA).
    destruct (for_each_assign_total _ HFO d1) as (d2 & HO).
    rewrite (assign_slot_table _ HFA e d1 HA) in Heq.
    rewrite (assign_slot_table _ HFO d1 d2 HO) in Heq.
    injection Heq as ->.
    apply lockstep_tables. split; [discriminate |].
    exact (tables_reproduced_only_if r e Hwr Hwe IH d1 HA HO).
Qed.

(** The conditions of C2 are the only trees on which the recorded changes
    rebuild the merge. *)
Lemma changes_reproduce_merge_only_if (repo_data existing_data : Dict) :
  wf_table repo_data -> wf_table existing_data ->
  apply_changes (diff repo_data existing_data) existing_data
  = Some (merge_dicts existing_data repo_data) ->
  exact_at_paths (Table existing_data) (Table repo_data)
  /\ no_empty_table_added (Table existing_data) (Table repo_data).
Proof.
  intros Hwr Hwe Heq.
  unfold apply_changes in Heq. rewrite diff_by_key, for_each_app in Heq.
  destruct (for_each assign
              (map addition_assignment
                 (fst (rel_changes (Table repo_data) (Table existing_data))))
              existing_data) as [d1 |] eqn:HA; [| discriminate].
  assert (Hrep : Forall (fun kv => reproduces_only_if (snd kv)) repo_data).
  { apply Forall_forall. intros kv _. apply changes_reproduced_only_if. }
  destruct (paths_of_lockstep_keys false repo_data existing_data) as (H1 & H2 & _).
  - exact (tables_reproduced_only_if repo_data existing_data Hwr Hwe Hrep d1 HA Heq).
  - now split.
Qed.

(** ** The conditions of the round trip are forced *)

Section CountersKept.

Variable E : Type.
Variable pre : string -> E -> E.
Variable root : Dict * nat -> E -> option (Dict * nat).
Variable slot : option Value * nat -> E -> option Value * nat.

Hypothesis local : forall k d n e,
  root (d, n) (pre k e) =
  Some (put k (fst (slot (lookup k d, n) e)) d, snd (slot (lookup k d, n) e)).

Hypothesis absorb : forall n e, fst (slot (None, n) e) = None.

(** The counter never goes down. *)
Hypothesis root_mono : forall L d n d' n',
  for_each root L (d, n) = Some (d', n') -> n <= n'.

(** The entries of other keys leave a key alone. *)
Lemma groups_other_key (G : string * Value -> list E) (r : Dict) :
  forall d n d' n',
    for_each root (flat_map (fun kv => map (pre (fst kv)) (G kv)) r) (d, n)
      = Some (d', n') ->
    forall k, ~ In k (keys r) -> lookup k d' = lookup k d.
Proof.
  induction r as [| [k2 v2] r IH]; intros d n d' n' Hrun k Hk.
  - cbn in Hrun. now injection Hrun as <- _.
  - cbn [flat_map fst] in Hrun. rewrite for_each_app in Hrun.
    rewrite (for_each_key E pre root slot local absorb (G (k2, v2)) k2 d n) in Hrun.
    rewrite (IH _ _ _ _ Hrun k).
    + apply lookup_put_other. intros ->. apply Hk. now left.
    + intros Hin. apply Hk. now right.
Qed.

(** A run over the entries of all keys that ends with the counter it
    started with has kept the counter over the entries of every key, and
    has put into every key the slot that the entries of that key give. *)
Lemma groups_only_if (G : string * Value -> list E) (n : nat) (r : Dict) :
  NoDup (keys r) ->
  forall d d',
    for_each root (flat_map (fun kv => map (pre (fst kv)) (G kv)) r) (d, n) = Some (d', n) ->
    forall k v, In (k, v) r ->
                fold_left slot (G (k, v)) (lookup k d, n) = (lookup k d', n).
Proof.
  induction r as [| [k v] r IH]; intros Hnd d d' Hrun k' v' Hin; [contradiction |].
  inversion Hnd as [| ? ? Hk Hnd']; subst.
  cbn [flat_map fst] in Hrun.
  rewrite for_each_app in Hrun.
  pose proof (for_each_key E pre root slot local absorb (G (k, v)) k d n) as Hkey.
  rewrite Hkey in Hrun.
  destruct (fold_left slot (G (k, v)) (lookup k d, n)) as [s1 n1] eqn:Hfold.
  cbn [fst snd] in Hrun, Hkey.
  assert (Hn1 : n1 = n).
  { apply root_mono in Hkey. apply root_mono in Hrun. lia. }
  subst n1.
  destruct Hin as [Heq | Hin].
  - injection Heq as <- <-. rewrite Hfold. f_equal.
    rewrite (groups_other_key G r _ _ _ _ Hrun k Hk). symmetry. apply lookup_put_same.
  - assert (Hne : k' <> k).
    { intros ->. apply Hk. change k with (fst (k, v')). now apply in_map. }
    rewrite <- (IH Hnd' (put k s1 d) d' Hrun k' v' Hin).
    now rewrite lookup_put_other by assumption.
Qed.

End CountersKept.

Lemma override_root_mono (L : list Override) (d : Dict) (n : nat) (d' : Dict) (n' : nat) :
  for_each rollback_override L (d, n) = Some (d', n') -> n <= n'.
Proof. intros H. now apply for_each_override_count in H. Qed.

Lemma addition_root_mono (L : list Addition) (d : Dict) (n : nat) (d' : Dict) (n' : nat) :
  for_each rollback_addition L (d, n) = Some (d', n') -> n <= n'.
Proof. intros H. now apply for_each_addition_count in H. Qed.

Lemma override_slot_keeps (L : list Override) :
  forall v n, exists w, fst (fold_left override_slot L (Some v, n)) = Some w.
Proof.
  induction L as [| o L IH]; intros v n; cbn [fold_left]; [now exists v |].
  assert (Hstep : exists v' n', override_slot (Some v, n) o = (Some v', n')).
  { unfold override_slot. cbn [fst snd].
    destruct (path_get v (ov_path o)) as [cur |]; [| eauto].
    destruct (value_eqb cur (ov_repo o)); eauto. }
  destruct Hstep as (v' & n' & ->). apply IH.
Qed.

Lemma addition_slot_empty_table (L : list Addition) :
  Forall (fun a => add_path a <> []) L ->
  forall n, fold_left addition_slot L (Some (Table []), n) = (Some (Table []), n).
Proof.
  induction 1 as [| a L Hne _ IH]; intros n; [reflexivity |].
  cbn [fold_left].
  assert (Hstep : addition_slot (Some (Table []), n) a = (Some (Table []), n)).
  { unfold addition_slot. cbn [fst snd].
    destruct (add_path a) as [| k p]; [congruence | reflexivity]. }
  rewrite Hstep. apply IH.
Qed.

Lemma value_eqb_refl_only_if (v : Value) :
  wf_value v -> value_eqb v v = true -> reflexive_leaves v.
Proof.
  induction v as [s | t IH] using Value_ind'; intros Hwf Heq.
  - intros s' [<- | []]. exact Heq.
  - rewrite value_eqb_table in Heq. apply andb_true_iff in Heq. destruct Heq as [_ Heq].
    rewrite forallb_forall in Heq.
    intros s Hs. cbn [leaves] in Hs. apply in_flat_map in Hs.
    destruct Hs as ([k v] & Hin & Hs). cbn [snd] in Hs.
    pose proof (In_lookup _ _ _ (wf_table_keys Hwf) Hin) as Hl.
    specialize (Heq (k, v) Hin). cbn [fst snd] in Heq. rewrite Hl in Heq.
    rewrite Forall_forall in IH. pose proof (IH (k, v) Hin) as IHv. cbn [snd] in IHv.
    exact (IHv (wf_value_lookup Hwf Hl) Heq s Hs).
Qed.

Lemma rollback_additions_run (L : list Addition) (st : Dict * nat) :
  Forall (fun a => add_path a <> []) L ->
  exists d n, for_each rollback_addition L st = Some (d, n).
Proof.
  intros Hp.
  destruct (for_each_total rollback_addition L) with (st := st) as ([d n] & H); eauto.
  eapply Forall_impl; [| exact Hp]. intros a Hne st0. now apply rollback_addition_total.
Qed.

Lemma rollback_overrides_run (L : list Override) (st : Dict * nat) :
  Forall (fun o => ov_path o <> []) L ->
  exists d n, for_each rollback_override L st = Some (d, n).
Proof.
  intros Hp.
  destruct (for_each_total rollback_override L) with (st := st) as ([d n] & H); eauto.
  eapply Forall_impl; [| exact Hp]. intros o Hne st0. now apply rollback_override_total.
Qed.

(** A subtree that was added as a whole is removed by its Additions, with
    nothing counted, only if it has no empty table and no NaN. *)
Lemma additions_removed_only_if (v : Value) :
  wf_value v ->
  forall n,
    fold_left addition_slot (rel_additions v) (Some v, n) = (None, n) ->
    no_empty_table v = true /\ reflexive_leaves v.
Proof.
  induction v as [s | t IH] using Value_ind'; intros Hwf n Heq.
  - rewrite rel_additions_leaf in Heq.
    cbn [fold_left] in Heq. unfold addition_slot in Heq.
    cbn [fst snd add_path add_repo path_get value_eqb] in Heq.
    destruct (py_eqb s s) eqn:Hs; [| discriminate Heq].
    split; [reflexivity |]. intros s' [<- | []]. exact Hs.
  - pose proof (wf_table_keys Hwf) as Hnd.
    destruct (is_empty t) eqn:Ht.
    { destruct t; [| discriminate]. discriminate Heq. }
    pose proof (rel_additions_paths t) as Hp.
    destruct (rollback_additions_run (rel_additions (Table t)) (t, n) Hp)
      as (t' & n' & Hrun).
    rewrite (addition_slot_table _ Hp t n t' n' Ht Hrun) in Heq.
    destruct (is_empty t') eqn:Ht'; [| discriminate Heq].
    injection Heq as ->. destruct t'; [| discriminate].
    rewrite rel_additions_table in Hrun.
    pose proof (groups_only_if Addition (fun k => add_prefix [k])
                  rollback_addition addition_slot
                  rollback_addition_local addition_slot_absorb addition_root_mono
                  (fun kv => rel_additions (snd kv)) n t Hnd t [] Hrun) as Hkeys.
    assert (Hsub : forall k v, In (k, v) t ->
              no_empty_table v = true /\ reflexive_leaves v).
    { intros k v Hin. pose proof (In_lookup _ _ _ Hnd Hin) as Hl.
      specialize (Hkeys k v Hin). cbn [snd lookup] in Hkeys. rewrite Hl in Hkeys.
      rewrite Forall_forall in IH. pose proof (IH (k, v) Hin) as IHv. cbn [snd] in IHv.
      exact (IHv (wf_value_lookup Hwf Hl) n Hkeys). }
    split.
    + cbn [no_empty_table]. rewrite Ht. cbn [negb andb].
      apply forallb_forall. intros [k v] Hin. exact (proj1 (Hsub k v Hin)).
    + intros s Hs. cbn [leaves] in Hs. apply in_flat_map in Hs.
      destruct Hs as ([k v] & Hin & Hs). exact (proj2 (Hsub k v Hin) s Hs).
Qed.

Lemma tables_rolled_back_only_if (r e : Dict) :
  wf_table r -> wf_table e ->
  Forall (fun kv => restores_only_if (snd kv)) r ->
  forall n mid,
    for_each rollback_override (snd (rel_changes (Table r) (Table e)))
             (merge_dicts e r, n) = Some (mid, n) ->
    for_each rollback_addition (fst (rel_changes (Table r) (Table e))) (mid, n)
      = Some (e, n) ->
    reflexive_leaves (Table r)
    /\ forall k v, In (k, v) r -> lockstep_key true e k v.
Proof.
  intros Hwr Hwe Hrest n mid Hov Hadd.
  pose proof (wf_table_keys Hwr) as Hndr.
  rewrite rel_changes_tables in Hov, Hadd. cbn [fst snd] in Hov, Hadd.
  pose proof (groups_only_if Override (fun k => ov_prefix [k])
                rollback_override override_slot
                rollback_override_local override_slot_absorb override_root_mono
                (fun kv => snd (key_changes e kv)) n r Hndr _ _ Hov) as HkO.
  pose proof (groups_only_if Addition (fun k => add_prefix [k])
                rollback_addition addition_slot
                rollback_addition_local addition_slot_absorb addition_root_mono
                (fun kv => fst (key_changes e kv)) n r Hndr _ _ Hadd) as HkA.
  assert (Hsub : forall k v, In (k, v) r ->
            reflexive_leaves v /\ lockstep_key true e k v).
  { intros k v Hin. pose proof (In_lookup _ _ _ Hndr Hin) as Hlr.
    specialize (HkO k v Hin). specialize (HkA k v Hin).
    rewrite lookup_merge_dicts, Hlr in HkO. unfold lockstep_key.
    destruct (lookup k e) as [ev |] eqn:Hle.
    - rewrite (key_changes_present _ Hle) in HkO, HkA.
      destruct (override_slot_keeps (snd (rel_changes v ev)) (merge_value ev v) n)
        as (x & Hx).
      rewrite HkO in Hx. cbn [fst] in Hx. rewrite Hx in HkO, HkA.
      rewrite Forall_forall in Hrest.
      apply (Hrest (k, v) Hin ev n x); auto.
      + apply (wf_value_lookup Hwr Hlr).
      + apply (wf_value_lookup Hwe Hle).
    - rewrite (key_changes_absent _ Hle) in HkO, HkA. cbn [fst snd fold_left] in HkO, HkA.
      injection HkO as HkO. rewrite <- HkO in HkA.
      destruct (additions_removed_only_if v (wf_value_lookup Hwr Hlr) n HkA); auto. }
  split.
  - intros s Hs. cbn [leaves] in Hs. apply in_flat_map in Hs.
    destruct Hs as ([k v] & Hin & Hs). exact (proj1 (Hsub k v Hin) s Hs).
  - intros k v Hin. exact (proj2 (Hsub k v Hin)).
Qed.

Lemma no_overrides_over_empty (r : Dict) : snd (rel_changes (Table r) (Table [])) = [].
Proof.
  rewrite rel_changes_tables. cbn [snd]. apply flat_map_nil. intros kv _. reflexivity.
Qed.

Lemma changes_rolled_back_only_if (rv : Value) : restores_only_if rv.
Proof.
  induction rv as [s | r IH] using Value_ind'; intros ev n mid Hwr Hwe Hov Hadd.
  - assert (Hrefl : py_eqb s s = true -> reflexive_leaves (Leaf s)).
    { intros Hs s' [<- | []]. exact Hs. }
    destruct ev as [x | e].
    + rewrite rel_changes_leaves in Hov, Hadd. cbn [merge_value] in Hov.
      destruct (py_eqb x s) eqn:Heq; cbn [fst snd fold_left] in Hov, Hadd.
      * injection Hov as <-. injection Hadd as <-.
        split; [now apply Hrefl |]. cbn [lockstep]. reflexivity.
      * unfold override_slot in Hov.
        cbn [fst snd ov_path ov_repo ov_previous path_get value_eqb] in Hov.
        destruct (py_eqb s s) eqn:Hs.
        -- split; [now apply Hrefl |]. cbn [lockstep]. congruence.
        -- injection Hov as _ Hn. lia.
    + rewrite rel_changes_leaf_table in Hov. cbn [merge_value snd fold_left] in Hov.
      unfold override_slot in Hov.
      cbn [fst snd ov_path ov_repo ov_previous path_get value_eqb] in Hov.
      destruct (py_eqb s s) eqn:Hs.
      * split; [now apply Hrefl | exact I].
      * injection Hov as _ Hn. lia.
  - destruct ev as [x | e].
    + rewrite rel_changes_table_leaf in Hov.
      change (merge_value (Leaf x) (Table r)) with (Table r) in Hov.
      cbn [snd fold_left] in Hov. unfold override_slot in Hov.
      cbn [fst snd ov_path ov_repo ov_previous path_get] in Hov.
      destruct (value_eqb (Table r) (Table r)) eqn:Hs.
      * split; [now apply value_eqb_refl_only_if | exact I].
      * injection Hov as _ Hn. lia.
    + rewrite merge_value_table in Hov.
      destruct (rel_changes_tables_paths r e) as [HpA HpO].
      assert (HFA : Forall (fun a => add_path a <> [])
                      (fst (rel_changes (Table r) (Table e))))
        by now apply Forall_forall.
      assert (HFO : Forall (fun o => ov_path o <> [])
                      (snd (rel_changes (Table r) (Table e))))
        by now apply Forall_forall.
      destruct (rollback_overrides_run _ (merge_dicts e r, n) HFO) as (d1 & n1 & Hrun1).
      rewrite (override_slot_table _ HFO _ _ _ _ Hrun1) in Hov.
      injection Hov as <- ->.
      destruct (is_empty d1) eqn:Hd1.
      * destruct d1; [| discriminate].
        rewrite (addition_slot_empty_table _ HFA) in Hadd. injection Hadd as <-.
        rewrite no_overrides_over_empty in Hrun1. cbn [for_each] in Hrun1.
        injection Hrun1 as Hr. rewrite merge_dicts_nil_l in Hr. subst r.
        split; [intros s [] |]. apply lockstep_tables. split; [reflexivity |].
        intros k v [].
      * destruct (rollback_additions_run _ (d1, n) HFA) as (d2 & n2 & Hrun2).
        rewrite (addition_slot_table _ HFA _ _ _ _ Hd1 Hrun2) in Hadd.
        destruct (is_empty d2) eqn:Hd2; [discriminate Hadd |].
        injection Hadd as -> ->.
        destruct (tables_rolled_back_only_if r e Hwr Hwe IH n d1 Hrun1 Hrun2)
          as [Hrefl Hkeys].
        split; [exact Hrefl |]. apply lockstep_tables. split; [| exact Hkeys].
        intros _ He. rewrite He in Hd2. discriminate.
Qed.

(** The conditions of C1 are the only trees on which the rollback of the
    untouched merge gives the existing tree back with nothing skipped. *)
Lemma round_trip_only_if (repo_data existing_data : Dict) :
  wf_table repo_data -> wf_table existing_data ->
  rollback (snd (diff repo_data existing_data)) (fst (diff repo_data existing_data))
           (merge_dicts existing_data repo_data)
  = Some (existing_data, 0) ->
  reflexive_leaves (Table repo_data)
  /\ exact_at_paths (Table existing_data) (Table repo_data)
  /\ no_empty_table_added (Table existing_data) (Table repo_data)
  /\ no_empty_table_filled (Table existing_data) (Table repo_data).
Proof.
  intros Hwr Hwe Hrun. rewrite diff_by_key in Hrun. unfold rollback in Hrun.
  destruct (for_each rollback_override
              (snd (rel_changes (Table repo_data) (Table existing_data)))
              (merge_dicts existing_data repo_data, 0)) as [[mid n1] |] eqn:Hov;
    [| discriminate].
  assert (Hn1 : n1 = 0).
  { apply addition_root_mono in Hrun. lia. }
  subst n1.
  assert (Hrest : Forall (fun kv => restores_only_if (snd kv)) repo_data).
  { apply Forall_forall. intros kv _. apply changes_rolled_back_only_if. }
  destruct (tables_rolled_back_only_if repo_data existing_data Hwr Hwe Hrest 0 mid
              Hov Hrun) as [Hrefl Hkeys].
  destruct (paths_of_lockstep_keys true repo_data existing_data Hkeys)
    as (H1 & H2 & H3).
  auto.
Qed.
